(** * Zombie-Apocalypsc: tile-grid path finding and network synchronisation

    A shallow embedding of [engine/TileMap.ts], [engine/constants.ts], the
    flow field and the map, spawning and synchronisation code of the game in
    [main.ts], [engine/Pathfinding.ts], [RemotePlayer.ts] and
    [NetworkManager.ts], with the properties the specification states about
    them and further properties of the code.

    Conventions.  Tile coordinates, array indices and millisecond clocks are
    JavaScript integers and are modelled as [Z].  A typed array is a
    [list Z]; reading outside it yields [None] (JavaScript's [undefined]) and
    writing outside it does nothing.  World coordinates of entities are
    IEEE-754 doubles and are modelled by Rocq's primitive [float]. *)

From Stdlib Require Import ZArith Lia Bool QArith Qround Qabs Lqa.
From Stdlib Require Import Qpower PrimFloat FloatOps SpecFloat Uint63 FloatAxioms.
From stdpp Require Import base numbers option list gmap strings.

Local Open Scope Z_scope.

(** ** engine/constants.ts *)

Record TilePosition : Type := mkTile { x : Z; y : Z }.

#[global] Instance TilePosition_eq_dec : EqDecision TilePosition.
Proof. solve_decision. Defined.

(** ** Typed arrays *)

(** [a[i]] on a typed array: [undefined] outside the array. *)
Definition arrayGet (a : list Z) (i : Z) : option Z :=
  if i <? 0 then None else a !! Z.to_nat i.

(** [a[i] = v] on a [Uint16Array]: the value is stored modulo 2^16, and a
    store outside the array is ignored. *)
Definition uint16Set (a : list Z) (i v : Z) : list Z :=
  if i <? 0 then a else <[Z.to_nat i := v mod 65536]> a.

(** [a.fill(v)] on a [Uint16Array]. *)
Definition uint16Fill (a : list Z) (v : Z) : list Z :=
  replicate (length a) (v mod 65536).

(** ** engine/TileMap.ts *)

Record TileDef : Type := mkTileDef { id : Z; solid : bool }.

Module TileMap.

Record t : Type := mk {
  cols : Z;
  rows : Z;
  tiles : list Z;
  tileDefs : gmap Z TileDef
}.

(** [getTile]: [-1] outside the map, else [tiles[row * cols + col]]. *)
Definition getTile (m : t) (col row : Z) : option Z :=
  if (col <? 0) || (col >=? cols m) || (row <? 0) || (row >=? rows m)
  then Some (-1)
  else arrayGet (tiles m) (row * cols m + col).

(** [isSolid]: a tile without a definition is solid. *)
Definition isSolid (m : t) (col row : Z) : bool :=
  match getTile m col row with
  | Some i =>
      match tileDefs m !! i with
      | Some def => solid def
      | None => true
      end
  | None => true
  end.

Definition isValidTile (m : t) (col row : Z) : bool :=
  (col >=? 0) && (col <? cols m) && (row >=? 0) && (row <? rows m).

(** [defineTile] and [defineTileImage]; the colour and the sprite of a
    definition play no part in the logic and are left out. *)
Definition defineTile (id : Z) (def : TileDef) (m : t) : t :=
  mk (cols m) (rows m) (tiles m) (<[id := def]> (tileDefs m)).

Definition defineTileImage (id : Z) (solid : bool) (m : t) : t :=
  mk (cols m) (rows m) (tiles m) (<[id := mkTileDef id solid]> (tileDefs m)).

(** [new TileMap(cols, rows)]: a zeroed [Uint8Array] and the definition of
    tile 0. *)
Definition new (cols rows : Z) : t :=
  defineTile 0 (mkTileDef 0 false)
    (mk cols rows (replicate (Z.to_nat (cols * rows)) 0) ∅).

Definition getDimensions (m : t) : Z * Z := (cols m, rows m).

End TileMap.

(** ** main.ts: the flow field *)

Module FlowField.

Record t : Type := mk {
  distances : list Z;
  target : TilePosition;
  cols : Z;
  rows : Z;
  MAX_DISTANCE : Z
}.

End FlowField.

(** An entry of the BFS queue, [{x, y, dist}]. *)
Record QueueItem : Type := mkItem { qx : Z; qy : Z; dist : Z }.

(** The four neighbours in the order the source lists them:
    up, down, left, right. *)
Definition neighbors (cx cy : Z) : list TilePosition :=
  [mkTile cx (cy - 1); mkTile cx (cy + 1); mkTile (cx - 1) cy; mkTile (cx + 1) cy].

(** The state the BFS loop of [calculateFlowField] mutates. *)
Record BfsState : Type := mkBfs {
  bfsDistances : list Z;
  queue : list QueueItem;
  queueIndex : nat
}.

(** Body of [for (const neighbor of neighbors)]. *)
Definition visitNeighbor (map : TileMap.t) (ffCols currentDist : Z)
    (st : list Z * list QueueItem) (neighbor : TilePosition)
  : list Z * list QueueItem :=
  if negb (TileMap.isValidTile map (x neighbor) (y neighbor))
     || TileMap.isSolid map (x neighbor) (y neighbor)
  then st
  else
    let neighborIndex := y neighbor * ffCols + x neighbor in
    let newDist := currentDist + 1 in
    match arrayGet (fst st) neighborIndex with
    | Some old =>
        if newDist <? old
        then (uint16Set (fst st) neighborIndex newDist,
              snd st ++ [mkItem (x neighbor) (y neighbor) newDist])
        else st
    | None => st
    end.

(** One iteration of [while (queueIndex < queue.length)]. *)
Definition bfsStep (map : TileMap.t) (ffCols : Z) (st : BfsState)
  : option BfsState :=
  match queue st !! queueIndex st with
  | None => None
  | Some current =>
      let '(ds, q) :=
        fold_left (visitNeighbor map ffCols (dist current))
                  (neighbors (qx current) (qy current))
                  (bfsDistances st, queue st) in
      Some (mkBfs ds q (S (queueIndex st)))
  end.

(** The [while] loop; [None] when the iteration allowance runs out before
    the queue is exhausted. *)
Fixpoint bfsLoop (fuel : nat) (map : TileMap.t) (ffCols : Z) (st : BfsState)
  : option BfsState :=
  match fuel with
  | O => None
  | S fuel' =>
      match bfsStep map ffCols st with
      | None => Some st
      | Some st' => bfsLoop fuel' map ffCols st'
      end
  end.

(** [calculateFlowField].  The result is the mutated flow field.  The loop
    is run with an allowance of one more iteration than the array has
    entries, which [bfsLoop_terminates] shows is enough on a field with one
    entry per tile ([wfFlowField]) and the dimensions of the map.  On a
    field whose array is shorter, or whose dimensions are not the map's, the
    source's loop can run longer; there the answer [None] says nothing
    about the source. *)
Definition calculateFlowField (flowField : FlowField.t) (target : TilePosition)
    (map : TileMap.t) : option FlowField.t :=
  if bool_decide (x (FlowField.target flowField) = x target)
     && bool_decide (y (FlowField.target flowField) = y target)
  then Some flowField
  else
    let cleared := uint16Fill (FlowField.distances flowField)
                              (FlowField.MAX_DISTANCE flowField) in
    if negb (TileMap.isValidTile map (x target) (y target))
       || TileMap.isSolid map (x target) (y target)
    then Some (FlowField.mk cleared (FlowField.target flowField)
                 (FlowField.cols flowField) (FlowField.rows flowField)
                 (FlowField.MAX_DISTANCE flowField))
    else
      let index := y target * FlowField.cols flowField + x target in
      let st0 := mkBfs (uint16Set cleared index 0)
                       [mkItem (x target) (y target) 0] 0 in
      match bfsLoop (S (length (FlowField.distances flowField)))
                    map (FlowField.cols flowField) st0 with
      | Some st =>
          Some (FlowField.mk (bfsDistances st) target
                  (FlowField.cols flowField) (FlowField.rows flowField)
                  (FlowField.MAX_DISTANCE flowField))
      | None => None
      end.

(** [getFlowFieldDistance]; [None] is [undefined], read past the array. *)
Definition getFlowFieldDistance (flowField : FlowField.t) (px py : Z)
  : option Z :=
  if (px <? 0) || (px >=? FlowField.cols flowField)
     || (py <? 0) || (py >=? FlowField.rows flowField)
  then Some (FlowField.MAX_DISTANCE flowField)
  else arrayGet (FlowField.distances flowField)
                (py * FlowField.cols flowField + px).

(** The flow field [Game.init] allocates: a [Uint16Array] of
    [cols * rows] entries and the sentinel 65535. *)
Record wfFlowField (ff : FlowField.t) : Prop := mkWf {
  wf_cols : 0 <= FlowField.cols ff;
  wf_rows : 0 <= FlowField.rows ff;
  wf_length :
    Z.of_nat (length (FlowField.distances ff))
    = FlowField.cols ff * FlowField.rows ff;
  wf_max : FlowField.MAX_DISTANCE ff = 65535
}.

(** The tiles of the game, 0 for grass and 1 for a solid wall; a map of
    grass only; the flow field [Game.init] allocates for a map. *)
Definition grassDefs : gmap Z TileDef :=
  <[1 := mkTileDef 1 true]> (<[0 := mkTileDef 0 false]> ∅).

Definition openMap (c r : Z) : TileMap.t :=
  TileMap.mk c r (replicate (Z.to_nat (c * r)) 0) grassDefs.

Definition freshField (c r : Z) : FlowField.t :=
  FlowField.mk (replicate (Z.to_nat (c * r)) 65535) (mkTile (-1) (-1)) c r 65535.

(** A 3 x 3 map with a wall on its centre tile. *)
Definition wallMap : TileMap.t :=
  TileMap.mk 3 3 [0; 0; 0; 0; 1; 0; 0; 0; 0] grassDefs.

(** ** The grid as a graph: what "shortest 4-connected distance" means *)

(** A tile an agent may stand on: inside the map and not solid. *)
Definition passable (m : TileMap.t) (t : TilePosition) : bool :=
  TileMap.isValidTile m (x t) (y t) && negb (TileMap.isSolid m (x t) (y t)).

Definition adjacent (a b : TilePosition) : Prop := b ∈ neighbors (x a) (y a).

(** Consecutive tiles of the sequence are 4-neighbours. *)
Fixpoint chain (p : list TilePosition) : Prop :=
  match p with
  | a :: q => match q with b :: _ => adjacent a b ∧ chain q | [] => True end
  | [] => True
  end.

Definition isPath (m : TileMap.t) (p : list TilePosition) : Prop :=
  Forall (λ t, passable m t = true) p ∧ chain p.

(** [p] is a path of passable tiles from [a] to [b], both included. *)
Definition connects (m : TileMap.t) (a b : TilePosition)
    (p : list TilePosition) : Prop :=
  isPath m p ∧ head p = Some a ∧ last p = Some b.

Definition reachable (m : TileMap.t) (a b : TilePosition) : Prop :=
  ∃ p, connects m a b p.

(** [n] is the least number of steps of a path from [a] to [b]. *)
Definition shortestDistance (m : TileMap.t) (a b : TilePosition) (n : Z) : Prop :=
  (∃ p, connects m a b p ∧ Z.of_nat (length p) = n + 1)
  ∧ ∀ p, connects m a b p → n + 1 <= Z.of_nat (length p).

(** Walks grown at their far end, the way the BFS discovers tiles. *)
Inductive walk (m : TileMap.t) (g : TilePosition) : TilePosition → nat → Prop :=
  | walk_here : passable m g = true → walk m g g 0
  | walk_step t u n :
      walk m g t n → adjacent t u → passable m u = true → walk m g u (S n).

(** The distances of the passable neighbours of [t] in a flow field. *)
Definition neighborDistances (m : TileMap.t) (ff : FlowField.t)
    (t : TilePosition) : list Z :=
  omap (λ u, if passable m u then getFlowFieldDistance ff (x u) (y u) else None)
       (neighbors (x t) (y t)).

Definition minimum (l : list Z) : option Z :=
  match l with
  | [] => None
  | a :: l' => Some (foldr Z.min a l')
  end.

(** ** Invariants of the BFS loop *)

Definition itemTile (it : QueueItem) : TilePosition := mkTile (qx it) (qy it).

Definition tileIndex (c : Z) (t : TilePosition) : Z := y t * c + x t.

Record bfsInv (m : TileMap.t) (g : TilePosition)
    (ds : list Z) (q : list QueueItem) : Prop := mkBfsInv {
  inv_length : Z.of_nat (length ds) = TileMap.cols m * TileMap.rows m;
  inv_first : q !! 0%nat = Some (mkItem (x g) (y g) 0);
  inv_items : ∀ i it, q !! i = Some it →
      passable m (itemTile it) = true
      ∧ arrayGet ds (tileIndex (TileMap.cols m) (itemTile it)) = Some (dist it)
      ∧ walk m g (itemTile it) (Z.to_nat (dist it))
      ∧ 0 <= dist it <= Z.of_nat i
      ∧ dist it < 65535;
  inv_sorted : ∀ i j a b, (i ≤ j)%nat →
      q !! i = Some a → q !! j = Some b → dist a <= dist b;
  inv_unvisited : ∀ t, TileMap.isValidTile m (x t) (y t) = true →
      arrayGet ds (tileIndex (TileMap.cols m) t) = Some 65535
      ∨ t ∈ itemTile <$> q;
  inv_nodup : NoDup (itemTile <$> q)
}.

(** No queued distance exceeds [L + 1]. *)
Definition level (L : Z) (q : list QueueItem) : Prop :=
  ∀ it, it ∈ q → dist it <= L + 1.

(** The distance [d] can be told apart from the sentinel: it is below it,
    which is certain when the map has no more tiles than the sentinel. *)
Definition fits (m : TileMap.t) (d : Z) : Prop :=
  d < 65535 ∨ TileMap.cols m * TileMap.rows m <= 65535.

(** Every passable neighbour of the queued tile [p] has been queued,
    unless its distance would not fit. *)
Definition expanded (m : TileMap.t) (q : list QueueItem) (p : QueueItem) : Prop :=
  fits m (dist p + 1) →
  ∀ u, adjacent (itemTile p) u → passable m u = true →
    ∃ it, it ∈ q ∧ itemTile it = u ∧ dist it <= dist p + 1.

Record loopInv (m : TileMap.t) (g : TilePosition) (st : BfsState) : Prop :=
  mkLoopInv {
  loop_inv : bfsInv m g (bfsDistances st) (queue st);
  loop_index : (queueIndex st ≤ length (queue st))%nat;
  loop_expanded : ∀ i p, (i < queueIndex st)%nat →
      queue st !! i = Some p → expanded m (queue st) p;
  loop_level : ∀ c, queue st !! queueIndex st = Some c →
      level (dist c) (queue st)
}.

(** ** engine/Pathfinding.ts: A* *)

Module PathNode.

#[warnings="-register-all"]
Inductive t : Type := mk {
  x : Z;
  y : Z;
  g : Z;
  h : Z;
  f : Z;
  parent : option t
}.

End PathNode.

Definition nodeTile (n : PathNode.t) : TilePosition :=
  mkTile (PathNode.x n) (PathNode.y n).

(** Manhattan distance. *)
Definition heuristic (x1 y1 x2 y2 : Z) : Z := Z.abs (x1 - x2) + Z.abs (y1 - y2).

(** [openSet.sort((a, b) => a.f - b.f)]: the sort is stable, so a node
    stays behind the earlier nodes of the same [f]. *)
Fixpoint insertByF (n : PathNode.t) (l : list PathNode.t) : list PathNode.t :=
  match l with
  | [] => [n]
  | a :: l' =>
      if PathNode.f n <=? PathNode.f a then n :: l else a :: insertByF n l'
  end.

Definition sortByF (l : list PathNode.t) : list PathNode.t :=
  foldr insertByF [] l.

(** [reconstructPath]: follow the parents, prepending each tile. *)
Fixpoint reconstructFrom (node : PathNode.t) (path : list TilePosition)
  : list TilePosition :=
  let path' := nodeTile node :: path in
  match PathNode.parent node with
  | Some p => reconstructFrom p path'
  | None => path'
  end.

Definition reconstructPath (node : PathNode.t) : list TilePosition :=
  reconstructFrom node [].

(** The key [`${x},${y}`] of the closed set, kept as the pair it encodes. *)
Definition getKey (kx ky : Z) : Z * Z := (kx, ky).

Record SearchState : Type := mkSearch {
  openSet : list PathNode.t;
  closedSet : gset (Z * Z);
  iterations : Z
}.

(** [openSet.findIndex(n => n.x === neighbor.x && n.y === neighbor.y)]. *)
Definition findIndex (nb : TilePosition) (open : list PathNode.t)
  : option (nat * PathNode.t) :=
  list_find (λ n, PathNode.x n = x nb ∧ PathNode.y n = y nb) open.

(** Body of [for (const neighbor of neighbors)] in [findPath]. *)
Definition relaxNeighbor (map : TileMap.t) (goalX goalY : Z)
    (current : PathNode.t) (closed : gset (Z * Z))
    (open : list PathNode.t) (neighbor : TilePosition) : list PathNode.t :=
  if negb (TileMap.isValidTile map (x neighbor) (y neighbor))
     || TileMap.isSolid map (x neighbor) (y neighbor)
     || bool_decide (getKey (x neighbor) (y neighbor) ∈ closed)
  then open
  else
    let g := PathNode.g current + 1 in
    let h := heuristic (x neighbor) (y neighbor) goalX goalY in
    let f := g + h in
    match findIndex neighbor open with
    | None =>
        open ++ [PathNode.mk (x neighbor) (y neighbor) g h f (Some current)]
    | Some (existingIndex, existing) =>
        if g <? PathNode.g existing
        then <[existingIndex :=
                 PathNode.mk (PathNode.x existing) (PathNode.y existing)
                             g (PathNode.h existing) f (Some current)]> open
        else open
    end.

(** The [while (openSet.length > 0 && iterations < maxIterations)] loop.
    [budget] is [maxIterations - iterations], the iterations still allowed.
    The result is what [findPath] returns together with the state the loop
    stopped in. *)
Fixpoint searchLoop (budget : nat) (map : TileMap.t) (goalX goalY : Z)
    (st : SearchState) : option (list TilePosition) * SearchState :=
  match budget with
  | O => (None, st)
  | S budget' =>
      match sortByF (openSet st) with
      | [] => (None, st)
      | current :: rest =>
          let iterations' := iterations st + 1 in
          if bool_decide (PathNode.x current = goalX)
             && bool_decide (PathNode.y current = goalY)
          then (Some (reconstructPath current),
                mkSearch rest (closedSet st) iterations')
          else
            let closed :=
              closedSet st ∪ {[getKey (PathNode.x current) (PathNode.y current)]} in
            let open :=
              fold_left (relaxNeighbor map goalX goalY current closed)
                        (neighbors (PathNode.x current) (PathNode.y current))
                        rest in
            searchLoop budget' map goalX goalY (mkSearch open closed iterations')
      end
  end.

(** [findPath] with what it did: the second component is the search state
    at exit, or [None] when [findPath] returned before creating one. *)
Definition findPathRun (startX startY goalX goalY : Z) (map : TileMap.t)
    (maxIterations : Z) : option (list TilePosition) * option SearchState :=
  if TileMap.isSolid map goalX goalY then (None, None)
  else if bool_decide (startX = goalX) && bool_decide (startY = goalY)
  then (Some [mkTile startX goalY], None)
  else
    let h := heuristic startX startY goalX goalY in
    let startNode := PathNode.mk startX startY 0 h (0 + h) None in
    let '(result, st) :=
      searchLoop (Z.to_nat maxIterations) map goalX goalY
                 (mkSearch [startNode] ∅ 0) in
    (result, Some st).

Definition findPath (startX startY goalX goalY : Z) (map : TileMap.t)
    (maxIterations : Z) : option (list TilePosition) :=
  fst (findPathRun startX startY goalX goalY map maxIterations).

(** The default value of [maxIterations]. *)
Definition defaultMaxIterations : Z := 1000.

(** ** engine/Pathfinding.ts: the cached path *)

Record CachedPath : Type := mkCached {
  path : option (list TilePosition);
  currentIndex : nat;
  targetX : Z;
  targetY : Z
}.

(** [new CachedPath()]. *)
Definition emptyCachedPath : CachedPath := mkCached None 0 (-1) (-1).

(** The loop [while (currentIndex < path.length - 1)] of [getNextStep];
    [rest] is the part of the path from [idx] on.  It stops at the first
    tile equal to the current one that has a successor and yields that
    successor, or runs to the last index. *)
Fixpoint scanPath (rest : list TilePosition) (idx : nat) (currentX currentY : Z)
  : nat * option TilePosition :=
  match rest with
  | node :: rest' =>
      match rest' with
      | next :: _ =>
          if bool_decide (x node = currentX) && bool_decide (y node = currentY)
          then (idx, Some next)
          else scanPath rest' (S idx) currentX currentY
      | [] => (idx, None)
      end
  | [] => (idx, None)
  end.

(** The test [forceRecalculate || this.targetX !== targetX ||
    this.targetY !== targetY || !this.path ||
    this.currentIndex >= this.path.length]. *)
Definition needsRecalculation (this : CachedPath) (tgtX tgtY : Z)
    (forceRecalculate : bool) : bool :=
  forceRecalculate
  || negb (bool_decide (targetX this = tgtX))
  || negb (bool_decide (targetY this = tgtY))
  || match path this with
     | None => true
     | Some p => bool_decide (length p ≤ currentIndex this)%nat
     end.

(** What a call of [getNextStep] did: its result, the cache it left and the
    number of [findPath] searches it ran. *)
Record NextStep : Type := mkNextStep {
  step : option TilePosition;
  cache : CachedPath;
  searches : nat
}.

(** [CachedPath.getNextStep].  [depth] bounds the nesting of the recursive
    call; [None] when it is exceeded. *)
Fixpoint getNextStep (depth : nat) (this : CachedPath)
    (currentX currentY tgtX tgtY : Z) (map : TileMap.t)
    (forceRecalculate : bool) : option NextStep :=
  match depth with
  | O => None
  | S depth' =>
      let stale := needsRecalculation this tgtX tgtY forceRecalculate in
      let this1 :=
        if stale
        then mkCached (findPath currentX currentY tgtX tgtY map 500) 0 tgtX tgtY
        else this in
      let n1 := if stale then 1%nat else 0%nat in
      match path this1 with
      | None => Some (mkNextStep None this1 n1)
      | Some p =>
          if bool_decide (length p < 2)%nat
          then Some (mkNextStep None this1 n1)
          else
            let '(idx, found) :=
              scanPath (drop (currentIndex this1) p) (currentIndex this1)
                       currentX currentY in
            let this2 := mkCached (Some p) idx (targetX this1) (targetY this1) in
            match found with
            | Some next => Some (mkNextStep (Some next) this2 n1)
            | None =>
                if bool_decide (length p - 1 ≤ idx)%nat
                then
                  match getNextStep depth' this2 currentX currentY
                                    tgtX tgtY map true with
                  | Some r =>
                      Some (mkNextStep (step r) (cache r) (n1 + searches r))
                  | None => None
                  end
                else Some (mkNextStep None this2 n1)
            end
      end
  end.

(** The current tile [cur] first occurs in the cached path [p], from the
    walking index on, at index [i], and [i] is not the last index. *)
Definition locatedAt (this : CachedPath) (p : list TilePosition)
    (cur : TilePosition) (i : nat) : Prop :=
  (currentIndex this ≤ i)%nat
  ∧ p !! i = Some cur
  ∧ (S i < length p)%nat
  ∧ ∀ j, (currentIndex this ≤ j)%nat → (j < i)%nat → p !! j ≠ Some cur.

(** The current tile [cur] occurs nowhere in the cached path [p] from the
    walking index on, except possibly as its last tile. *)
Definition lostIn (this : CachedPath) (p : list TilePosition)
    (cur : TilePosition) : Prop :=
  ∀ i, (currentIndex this ≤ i)%nat → (S i < length p)%nat → p !! i ≠ Some cur.

(** The cache an agent holds after asking, on the open 2 x 1 map, for the
    way from (0, 0) to (1, 0). *)
Definition twoTileCache : CachedPath :=
  mkCached (Some [mkTile 0 0; mkTile 1 0]) 0 1 0.

(** ** Invariants of the A* loop *)

(** A node created by the search from [(sx, sy)] towards [(gx, gy)]: the
    start node, or a node one step beyond its parent. *)
Inductive lineage (m : TileMap.t) (sx sy gx gy : Z) : PathNode.t → Prop :=
  | lineage_start :
      lineage m sx sy gx gy
        (PathNode.mk sx sy 0 (heuristic sx sy gx gy)
                     (0 + heuristic sx sy gx gy) None)
  | lineage_step p nx ny :
      lineage m sx sy gx gy p →
      adjacent (nodeTile p) (mkTile nx ny) →
      passable m (mkTile nx ny) = true →
      lineage m sx sy gx gy
        (PathNode.mk nx ny (PathNode.g p + 1) (heuristic nx ny gx gy)
                     (PathNode.g p + 1 + heuristic nx ny gx gy) (Some p)).

(** Some open node stands on [v] with a cost of at most [b]. *)
Definition covered (open : list PathNode.t) (v : TilePosition) (b : Z) : Prop :=
  ∃ n, n ∈ open ∧ nodeTile n = v ∧ PathNode.g n <= b.

(** The node [relaxNeighbor] creates for [nb] below [current]. *)
Definition childNode (gx gy : Z) (current : PathNode.t) (nb : TilePosition)
  : PathNode.t :=
  PathNode.mk (x nb) (y nb) (PathNode.g current + 1)
    (heuristic (x nb) (y nb) gx gy)
    (PathNode.g current + 1 + heuristic (x nb) (y nb) gx gy) (Some current).

(** The node [relaxNeighbor] turns [existing] into. *)
Definition improvedNode (gx gy : Z) (current : PathNode.t) (nb : TilePosition)
    (existing : PathNode.t) : PathNode.t :=
  PathNode.mk (PathNode.x existing) (PathNode.y existing)
    (PathNode.g current + 1) (PathNode.h existing)
    (PathNode.g current + 1 + heuristic (x nb) (y nb) gx gy) (Some current).

Record searchInv (m : TileMap.t) (sx sy gx gy : Z) (st : SearchState) : Prop :=
  mkSearchInv {
  sinv_lineage : ∀ n, n ∈ openSet st → lineage m sx sy gx gy n;
  sinv_nodup : NoDup (nodeTile <$> openSet st);
  sinv_disjoint : ∀ n, n ∈ openSet st →
      getKey (PathNode.x n) (PathNode.y n) ∉ closedSet st;
  sinv_goal : getKey gx gy ∉ closedSet st;
  sinv_closed : ∀ k, k ∈ closedSet st →
      TileMap.isValidTile m k.1 k.2 = true;
  sinv_size : Z.of_nat (size (closedSet st)) = iterations st;
  sinv_start : getKey sx sy ∈ closedSet st
      ∨ covered (openSet st) (mkTile sx sy) 0;
  sinv_frontier : ∀ u k, getKey (x u) (y u) ∈ closedSet st →
      walk m (mkTile sx sy) u k →
      ∀ v, adjacent u v → passable m v = true →
        getKey (x v) (y v) ∈ closedSet st
        ∨ covered (openSet st) v (Z.of_nat k + 1)
}.

(** ** JavaScript numbers *)

(** [Math.floor] on a double.  A double of exponent [e >= 0], an infinity
    and NaN are their own floor; otherwise the mantissa is shifted, which
    rounds towards minus infinity, and the integer, below 2^53, converts
    back exactly. *)
Definition floatOfZ (z : Z) : float :=
  match z with
  | Z0 => 0%float
  | Zpos p => of_uint63 (Uint63.of_Z (Zpos p))
  | Zneg p => PrimFloat.opp (of_uint63 (Uint63.of_Z (Zpos p)))
  end.

Definition Math_floor (v : float) : float :=
  match Prim2SF v with
  | S754_finite s m e =>
      if 0 <=? e then v
      else floatOfZ (Z.shiftr (if s then Z.neg m else Z.pos m) (- e))
  | _ => v
  end.

(** [Math.round]: the nearest integer, ties towards plus infinity.  An
    argument below zero and not below -0.5 rounds to the negative zero;
    [-0], the infinities and NaN are returned as they are. *)
Definition Math_round (v : float) : float :=
  if PrimFloat.ltb v 0%float && PrimFloat.leb (-0.5)%float v
  then (-0)%float
  else
    let fl := Math_floor v in
    if PrimFloat.ltb (PrimFloat.sub v fl) 0.5%float
    then fl
    else PrimFloat.add fl 1%float.

(** [Math.round(v * 10) / 10] and [Math.round(v * 100) / 100]. *)
Definition quantizePosition (v : float) : float :=
  PrimFloat.div (Math_round (PrimFloat.mul v 10%float)) 10%float.

Definition quantizeVelocity (v : float) : float :=
  PrimFloat.div (Math_round (PrimFloat.mul v 100%float)) 100%float.

(** The rational a finite double stands for. *)
Definition floatToQ (v : float) : option Q :=
  match Prim2SF v with
  | S754_zero _ => Some 0%Q
  | S754_finite s m e =>
      let z := if s then Z.neg m else Z.pos m in
      Some (if 0 <=? e then inject_Z (z * 2 ^ e)
            else (z # Pos.pow 2 (Z.to_pos (- e))))
  | _ => None
  end.

(** How far, exactly, [quantized] lies from [original]. *)
Definition quantizationError (original quantized : float) : option Q :=
  match floatToQ original, floatToQ quantized with
  | Some a, Some b => Some (Qabs (b - a))
  | _, _ => None
  end.

(** The doubles written [0.15] and [0.005]. *)
Definition point15 : float := PrimFloat.div 15%float 100%float.
Definition point005 : float := PrimFloat.div 5%float 1000%float.

(** [original] is kept by quantization to within [halfStep] and a rounding
    allowance of a 2^51-th of its magnitude: the bound holds of every
    finite [original] of magnitude at most 2^1000. *)
Definition keptWithin (halfStep : Q) (original quantized : float) : Prop :=
  ∀ r, floatToQ original = Some r → (Qabs r <= 2 ^ 1000)%Q →
    ∃ e, quantizationError original quantized = Some e
         ∧ (e <= halfStep + Qabs r / 2 ^ 51)%Q.

(** ** The IEEE-754 operations behind the doubles

    Rocq specifies the primitive operations on [float] by those of
    [SpecFloat] on sign, mantissa and exponent.  The definitions below give a
    double its rational value and describe what the rounding of [SpecFloat]
    keeps. *)

(** [2^e] as a rational. *)
Definition pow2 (e : Z) : Q := (2 ^ e)%Q.

(** The sign bit as a factor. *)
Definition sgn (s : bool) : Q := if s then (-1)%Q else 1%Q.

(** The value of a zero or finite [spec_float]. *)
Definition SFval (x : spec_float) : Q :=
  match x with
  | S754_finite s m e => (sgn s * inject_Z (Z.pos m) * pow2 e)%Q
  | _ => 0%Q
  end.

Definition SFfinite (x : spec_float) : bool :=
  match x with
  | S754_zero _ | S754_finite _ _ _ => true
  | _ => false
  end.

Definition Fval (f : float) : Q := SFval (Prim2SF f).
Definition Ffinite (f : float) : bool := SFfinite (Prim2SF f).

(** The exponent of a finite [spec_float] is not positive. *)
Definition SFexp_le0 (x : spec_float) : Prop :=
  match x with S754_finite _ _ e => e <= 0 | _ => True end.

(** [x] lies where the shifted mantissa with its round and sticky bits says:
    on [m], strictly between [m] and [m + 1/2], on [m + 1/2], or strictly
    between [m + 1/2] and [m + 1]. *)
Definition located (x : Q) (mrs : shr_record) : Prop :=
  0 <= shr_m mrs ∧
  match shr_r mrs, shr_s mrs with
  | false, false => (x == inject_Z (shr_m mrs))%Q
  | false, true =>
      (inject_Z (shr_m mrs) < x ∧ x < inject_Z (shr_m mrs) + (1 # 2))%Q
  | true, false => (x == inject_Z (shr_m mrs) + (1 # 2))%Q
  | true, true =>
      (inject_Z (shr_m mrs) + (1 # 2) < x ∧ x < inject_Z (shr_m mrs) + 1)%Q
  end.

(** What [binary_round_aux] returns once the mantissa [m] and the exponent
    [e] of the rounded number are known. *)
Definition rounded (s : bool) (m e : Z) : spec_float :=
  match m with
  | 0 => S754_zero s
  | Z.pos p => if e <=? emax - prec then S754_finite s p e else S754_infinity s
  | Z.neg _ => S754_nan
  end.

(** The order of [a] and [b] that a comparison states. *)
Definition cmp_holds (c : comparison) (a b : Q) : Prop :=
  match c with
  | Lt => (a < b)%Q
  | Eq => (a == b)%Q
  | Gt => (b < a)%Q
  end.

(** ** RemotePlayer.ts *)

(** [a || b] on strings and numbers: the empty string, zero and NaN are
    falsy. *)
Definition stringOr (a b : string) : string := if decide (a = EmptyString) then b else a.

Definition numberOr (a b : float) : float :=
  if PrimFloat.eqb a 0%float || negb (PrimFloat.eqb a a) then b else a.

Record RemotePlayerState : Type := mkRemoteState {
  state_x : float;
  state_y : float;
  state_health : float;
  state_currentAnim : string;
  state_facingX : float;
  state_facingY : float;
  state_timestamp : Z
}.

Module RemotePlayer.

Record t : Type := mk {
  playerId : string;
  x : float;
  y : float;
  health : float;
  targetX : float;
  targetY : float;
  previousX : float;
  previousY : float;
  interpolationProgress : float;
  currentAnim : string;
  lastUpdateTime : Z
}.

(** [new RemotePlayer(playerId, x, y)] at time [now]; the [Entity]
    constructor scales its arguments by [TILE_SIZE = 32]. *)
Definition new (playerId : string) (px py : float) (now : Z) : t :=
  mk playerId (PrimFloat.mul px 32%float) (PrimFloat.mul py 32%float)
     100%float px py px py 0%float "idle_down" now.

Definition updateFromNetwork (state : RemotePlayerState) (now : Z) (this : t) : t :=
  mk (playerId this) (x this) (y this) (state_health state)
     (state_x state) (state_y state) (x this) (y this) 0%float
     (state_currentAnim state) now.

(** [isStale] at time [now = Date.now()]. *)
Definition STALE_THRESHOLD : Z := 3000.

Definition isStale (now : Z) (this : t) : bool :=
  STALE_THRESHOLD <? now - lastUpdateTime this.

End RemotePlayer.

(** ** NetworkManager.ts *)

(** The local player and an enemy, as far as the network layer reads
    them. *)
Module Player.
Record t : Type := mk {
  x : float; y : float; health : float;
  currentAnim : string; facingX : float; facingY : float
}.
End Player.

Module Enemy.
Record t : Type := mk { x : float; y : float; health : float; isDying : bool }.
End Enemy.

Record EnemyState : Type := mkEnemyState {
  es_x : float; es_y : float; es_health : float; es_isDying : bool
}.

(** A record under [players/{playerId}].  The fields [joinedAt] and
    [timestamp] hold the [serverTimestamp()] placeholder, which the server
    resolves and no code of the manager reads; they are left out. *)
Record PlayerRecord : Type := mkPlayerRecord {
  rec_id : string;
  rec_x : float;
  rec_y : float;
  rec_health : float;
  rec_currentAnim : string;
  rec_facingX : float;
  rec_facingY : float
}.

(** A record under [projectiles/{autoId}] as a listener receives it;
    [proj_timestamp] is [None] when the field is missing. *)
Record ProjectileRecord : Type := mkProjectile {
  proj_playerId : string;
  proj_x : float;
  proj_y : float;
  proj_dx : float;
  proj_dy : float;
  proj_timestamp : option Z
}.

(** The writes the manager sends to the database. *)
Inductive Write : Type :=
  | SetPlayer (playerId : string) (value : option PlayerRecord)
  | OnDisconnectRemove (playerId : string)
  | SetEnemies (states : list EnemyState)
  | PushProjectile (playerId : string) (px py dx dy : float).

(** The calls the manager makes into the game. *)
Inductive Callback : Type :=
  | RemotePlayerAdded (player : RemotePlayer.t)
  | RemotePlayerRemoved (playerId : string)
  | EnemiesUpdated (states : list EnemyState)
  | ProjectileReceived (px py dx dy : float) (playerId : string).

Inductive Subscription : Type := PlayersRef | EnemiesRef | ProjectilesRef.

Module NetworkManager.

Record t : Type := mk {
  roomId : string;
  playerId : string;
  isHost : bool;
  lastPositionUpdate : Z;
  lastEnemyUpdate : Z;
  remotePlayers : gmap string RemotePlayer.t;
  listeners : list Subscription
}.

Definition POSITION_UPDATE_INTERVAL : Z := 50.
Definition ENEMY_UPDATE_INTERVAL : Z := 100.

(** [new NetworkManager(roomId)]; [playerId] is what [generatePlayerId]
    returned. *)
Definition new (roomId playerId : string) : t :=
  mk roomId playerId false 0 0 ∅ [].

(** [this.listeners.push(() => off(ref))]. *)
Definition subscribe (ref : Subscription) (this : t) : t :=
  mk (roomId this) (playerId this) (isHost this)
     (lastPositionUpdate this) (lastEnemyUpdate this) (remotePlayers this)
     (listeners this ++ [ref]).

(** [listenForPlayers], [listenForEnemies] and [listenForProjectiles]
    register a callback on a subtree; the callbacks themselves are
    [playersListener], [enemiesListener] and [projectilesListener] below. *)
Definition listenForPlayers (this : t) : t := subscribe PlayersRef this.
Definition listenForEnemies (this : t) : t := subscribe EnemiesRef this.
Definition listenForProjectiles (this : t) : t := subscribe ProjectilesRef this.

(** [joinRoom], given the snapshot [get(roomRef)] resolved to: [None] when
    it does not exist. *)
Definition joinRoom (snapshot : option (gmap string PlayerRecord)) (this : t)
  : t * list Write :=
  let host :=
    match snapshot with
    | None => true
    | Some players => bool_decide (size players = 0%nat)
    end in
  let this1 :=
    mk (roomId this) (playerId this) host
       (lastPositionUpdate this) (lastEnemyUpdate this) (remotePlayers this)
       (listeners this) in
  let this2 := listenForPlayers this1 in
  (if negb (isHost this2) then listenForEnemies this2 else this2,
   [SetPlayer (playerId this)
      (Some (mkPlayerRecord (playerId this) 0%float 0%float 100%float
                            "idle_down" 0%float 1%float));
    OnDisconnectRemove (playerId this)]).

(** Body of the first loop of the players listener, for one entry of
    [Object.entries(players)]. *)
Definition receivePlayer (self : string) (now : Z)
    (st : gmap string RemotePlayer.t * gset string * list Callback)
    (entry : string * PlayerRecord)
  : gmap string RemotePlayer.t * gset string * list Callback :=
  let '(remote, currentPlayerIds, calls) := st in
  let '(id, playerData) := entry in
  if decide (id = self) then st
  else
    let currentPlayerIds' := currentPlayerIds ∪ {[id]} in
    match remote !! id with
    | Some remotePlayer =>
        let state :=
          mkRemoteState (rec_x playerData) (rec_y playerData)
            (rec_health playerData)
            (stringOr (rec_currentAnim playerData) "idle_down")
            (numberOr (rec_facingX playerData) 0%float)
            (numberOr (rec_facingY playerData) 1%float) now in
        (<[id := RemotePlayer.updateFromNetwork state now remotePlayer]> remote,
         currentPlayerIds', calls)
    | None =>
        let remotePlayer :=
          RemotePlayer.new id (rec_x playerData) (rec_y playerData) now in
        (<[id := remotePlayer]> remote, currentPlayerIds',
         calls ++ [RemotePlayerAdded remotePlayer])
    end.

(** The callback [listenForPlayers] registers, run on one snapshot of the
    players subtree.  The source keeps [remotePlayers] in a [Map], which it
    walks in the order of insertion; the finite map here is walked in the
    order of its keys.  Which players are removed is the same, the order of
    their [RemotePlayerRemoved] calls need not be. *)
Definition playersListener (now : Z)
    (snapshot : option (list (string * PlayerRecord))) (this : t)
  : t * list Callback :=
  match snapshot with
  | None => (this, [])
  | Some players =>
      let '(remote, currentPlayerIds, calls) :=
        fold_left (receivePlayer (playerId this) now) players
                  (remotePlayers this, ∅, []) in
      let gone :=
        filter (λ id, id ∉ currentPlayerIds) (map_to_list remote).*1 in
      (mk (roomId this) (playerId this) (isHost this)
          (lastPositionUpdate this) (lastEnemyUpdate this)
          (filter (λ kv, kv.1 ∈ currentPlayerIds) remote)
          (listeners this),
       calls ++ (RemotePlayerRemoved <$> gone))
  end.

(** [updatePlayer] at time [now = Date.now()]. *)
Definition updatePlayer (now : Z) (player : Player.t) (this : t)
  : t * list Write :=
  if now - lastPositionUpdate this <? POSITION_UPDATE_INTERVAL
  then (this, [])
  else
    (mk (roomId this) (playerId this) (isHost this) now
        (lastEnemyUpdate this) (remotePlayers this) (listeners this),
     [SetPlayer (playerId this)
        (Some (mkPlayerRecord (playerId this)
                 (quantizePosition (Player.x player))
                 (quantizePosition (Player.y player))
                 (Player.health player) (Player.currentAnim player)
                 (Player.facingX player) (Player.facingY player)))]).

(** [getRemotePlayers]: the players of the map, here in the order of their
    keys (in the source, in the order of insertion). *)
Definition getRemotePlayers (this : t) : list RemotePlayer.t :=
  (map_to_list (remotePlayers this)).*2.

(** [updateEnemies] at time [now = Date.now()]. *)
Definition updateEnemies (now : Z) (enemies : list Enemy.t) (this : t)
  : t * list Write :=
  if negb (isHost this) then (this, [])
  else if now - lastEnemyUpdate this <? ENEMY_UPDATE_INTERVAL
  then (this, [])
  else
    (mk (roomId this) (playerId this) (isHost this)
        (lastPositionUpdate this) now (remotePlayers this) (listeners this),
     [SetEnemies
        ((λ e, mkEnemyState (quantizePosition (Enemy.x e))
                            (quantizePosition (Enemy.y e))
                            (Enemy.health e) (Enemy.isDying e))
         <$> filter (λ e, PrimFloat.ltb 0%float (Enemy.health e)
                          || Enemy.isDying e = true) enemies)]).

(** The callback [listenForEnemies] registers; [states] is [None] when
    [data.states] is missing. *)
Definition enemiesListener (snapshot : option (option (list EnemyState)))
  : list Callback :=
  match snapshot with
  | Some (Some states) => [EnemiesUpdated states]
  | _ => []
  end.

Definition sendProjectile (px py dx dy : float) (this : t) : list Write :=
  [PushProjectile (playerId this) (quantizePosition px) (quantizePosition py)
                  (quantizeVelocity dx) (quantizeVelocity dy)].

(** [projectile.timestamp || 0]. *)
Definition timestampOrZero (projectile : ProjectileRecord) : Z :=
  match proj_timestamp projectile with
  | Some ts => ts
  | None => 0
  end.

(** The test guarding the callback in [listenForProjectiles]. *)
Definition isFreshForeign (self : string) (now : Z)
    (projectile : ProjectileRecord) : bool :=
  negb (bool_decide (proj_playerId projectile = self))
  && (now - timestampOrZero projectile <? 1000).

(** The callback [listenForProjectiles] registers, run at time [now] on one
    snapshot of the projectiles subtree ([Object.values], in order); the
    result lists the calls of the game's callback. *)
Definition projectilesListener (now : Z)
    (snapshot : option (list ProjectileRecord)) (this : t) : list Callback :=
  match snapshot with
  | None => []
  | Some projectiles =>
      fold_left
        (λ calls projectile,
           if isFreshForeign (playerId this) now projectile
           then calls ++ [ProjectileReceived (proj_x projectile)
                            (proj_y projectile) (proj_dx projectile)
                            (proj_dy projectile) (proj_playerId projectile)]
           else calls)
        projectiles []
  end.

Definition leaveRoom (this : t) : t * list Write :=
  (mk (roomId this) (playerId this) (isHost this)
      (lastPositionUpdate this) (lastEnemyUpdate this) ∅ [],
   [SetPlayer (playerId this) None]).

Definition getIsHost (this : t) : bool := isHost this.

Definition getPlayerId (this : t) : string := playerId this.

End NetworkManager.

(** The remote-player map has no entry for [self], and files every player
    under its own id. *)
Definition selfFree (self : string) (remote : gmap string RemotePlayer.t) : Prop :=
  remote !! self = None
  ∧ ∀ k rp, remote !! k = Some rp → RemotePlayer.playerId rp = k.

(** ** Sessions over time *)

(** The calls a session receives: its own methods and the snapshots the
    database delivers to its listeners. *)
Inductive Action : Type :=
  | JoinRoom (snapshot : option (gmap string PlayerRecord))
  | PlayersSnapshot (now : Z) (snapshot : option (list (string * PlayerRecord)))
  | UpdatePlayer (now : Z) (player : Player.t)
  | UpdateEnemies (now : Z) (enemies : list Enemy.t)
  | EnemiesSnapshot (snapshot : option (option (list EnemyState)))
  | SendProjectile (px py dx dy : float)
  | ListenForProjectiles
  | ProjectilesSnapshot (now : Z) (snapshot : option (list ProjectileRecord))
  | LeaveRoom.

Definition isJoin (a : Action) : bool :=
  match a with JoinRoom _ => true | _ => false end.

(** One call: the session afterwards, what it wrote and what it called. *)
Definition act (a : Action) (nm : NetworkManager.t)
  : NetworkManager.t * list Write * list Callback :=
  match a with
  | JoinRoom snapshot =>
      let '(nm', ws) := NetworkManager.joinRoom snapshot nm in (nm', ws, [])
  | PlayersSnapshot now snapshot =>
      let '(nm', cs) := NetworkManager.playersListener now snapshot nm in
      (nm', [], cs)
  | UpdatePlayer now player =>
      let '(nm', ws) := NetworkManager.updatePlayer now player nm in (nm', ws, [])
  | UpdateEnemies now enemies =>
      let '(nm', ws) := NetworkManager.updateEnemies now enemies nm in
      (nm', ws, [])
  | EnemiesSnapshot snapshot =>
      (nm, [], NetworkManager.enemiesListener snapshot)
  | SendProjectile px py dx dy =>
      (nm, NetworkManager.sendProjectile px py dx dy nm, [])
  | ListenForProjectiles => (NetworkManager.listenForProjectiles nm, [], [])
  | ProjectilesSnapshot now snapshot =>
      (nm, [], NetworkManager.projectilesListener now snapshot nm)
  | LeaveRoom =>
      let '(nm', ws) := NetworkManager.leaveRoom nm in (nm', ws, [])
  end.

Definition run (actions : list Action) (nm : NetworkManager.t)
  : NetworkManager.t :=
  fold_left (λ nm a, (act a nm).1.1) actions nm.

(** The writes of successive [updatePlayer] calls, each with its time. *)
Fixpoint publishPlayer (calls : list (Z * Player.t)) (nm : NetworkManager.t)
  : list (Z * list Write) :=
  match calls with
  | [] => []
  | (now, player) :: rest =>
      let '(nm', ws) := NetworkManager.updatePlayer now player nm in
      (now, ws) :: publishPlayer rest nm'
  end.

(** The writes of successive [updateEnemies] calls, each with its time. *)
Fixpoint publishEnemies (calls : list (Z * list Enemy.t))
    (nm : NetworkManager.t) : list (Z * list Write) :=
  match calls with
  | [] => []
  | (now, enemies) :: rest =>
      let '(nm', ws) := NetworkManager.updateEnemies now enemies nm in
      (now, ws) :: publishEnemies rest nm'
  end.

(** A room: the players subtree of the database ([None] when absent) and
    the sessions connected to it. *)
Record World : Type := mkWorld {
  playersTree : option (gmap string PlayerRecord);
  sessions : list NetworkManager.t
}.

(** The effect of a write on the players subtree; the database keeps no
    empty subtree. *)
Definition applyWrite (tree : option (gmap string PlayerRecord)) (w : Write)
  : option (gmap string PlayerRecord) :=
  match w with
  | SetPlayer id (Some value) => Some (<[id := value]> (default ∅ tree))
  | SetPlayer id None =>
      let m := delete id (default ∅ tree) in
      if bool_decide (size m = 0%nat) then None else Some m
  | _ => tree
  end.

Inductive WorldAction : Type :=
  | Join                     (* [joinRoom], reading the room's players *)
  | Do (a : Action).

(** Session [i] makes a call; its writes reach the database before the
    next call starts. *)
Definition worldStep (w : World) (call : nat * WorldAction) : World :=
  let '(i, wa) := call in
  match sessions w !! i with
  | None => w
  | Some nm =>
      let a := match wa with Join => JoinRoom (playersTree w) | Do a => a end in
      let '(nm', ws, _) := act a nm in
      mkWorld (fold_left applyWrite ws (playersTree w))
              (<[i := nm']> (sessions w))
  end.

Definition worldRun (calls : list (nat * WorldAction)) (w : World) : World :=
  fold_left worldStep calls w.

(** Session [i] makes no call to [joinRoom] among [calls]. *)
Definition noJoinBy (i : nat) (calls : list (nat * WorldAction)) : Prop :=
  ∀ wa, (i, wa) ∈ calls →
    match wa with Join => False | Do a => isJoin a = false end.

(** ** main.ts: following the flow field *)

(** Body of [for (const neighbor of neighbors)] in
    [getBestFlowFieldNeighbor]; the state is [(bestDist, bestTile)].  A
    distance read past the array is [undefined], and [undefined < bestDist]
    is false. *)
Definition considerNeighbor (flowField : FlowField.t) (map : TileMap.t)
    (st : Z * option TilePosition) (neighbor : TilePosition)
  : Z * option TilePosition :=
  if negb (TileMap.isValidTile map (x neighbor) (y neighbor))
     || TileMap.isSolid map (x neighbor) (y neighbor)
  then st
  else
    match getFlowFieldDistance flowField (x neighbor) (y neighbor) with
    | Some dist => if dist <? fst st then (dist, Some neighbor) else st
    | None => st
    end.

(** [getBestFlowFieldNeighbor].  When the current distance is [undefined]
    neither equality test succeeds and no comparison against it does, so
    the result is [null]. *)
Definition getBestFlowFieldNeighbor (flowField : FlowField.t)
    (pos : TilePosition) (map : TileMap.t) : option TilePosition :=
  if negb (TileMap.isValidTile map (x pos) (y pos)) then None
  else
    match getFlowFieldDistance flowField (x pos) (y pos) with
    | None => None
    | Some currentDist =>
        if bool_decide (currentDist = FlowField.MAX_DISTANCE flowField) then None
        else if bool_decide (currentDist = 0) then None
        else
          snd (fold_left (considerNeighbor flowField map)
                         (neighbors (x pos) (y pos)) (currentDist, None))
    end.

(** The tiles an agent stands on when it starts at [pos] and takes, up to
    [steps] times, the step [getBestFlowFieldNeighbor] proposes. *)
Fixpoint followFlowField (steps : nat) (flowField : FlowField.t)
    (pos : TilePosition) (map : TileMap.t) : list TilePosition :=
  pos ::
  match steps with
  | O => []
  | S steps' =>
      match getBestFlowFieldNeighbor flowField pos map with
      | Some next => followFlowField steps' flowField next map
      | None => []
      end
  end.

(** ** engine/Pathfinding.ts: single steps *)

Module Pathfinder.

(** The static [Pathfinder.getNextStep]. *)
Definition getNextStep (startX startY goalX goalY : Z) (map : TileMap.t)
  : option TilePosition :=
  match findPath startX startY goalX goalY map 500 with
  | None => None
  | Some path => if bool_decide (length path < 2)%nat then None else path !! 1%nat
  end.

End Pathfinder.

(** [CachedPath.clear]. *)
Definition clear (this : CachedPath) : CachedPath := mkCached None 0 (-1) (-1).

(** The cached path, if any, is a shortest path of the map [m] that ends on
    the stored target. *)
Definition validCache (m : TileMap.t) (this : CachedPath) : Prop :=
  ∀ p, path this = Some p →
    ∃ s, connects m s (mkTile (targetX this) (targetY this)) p
         ∧ ∀ q, connects m s (mkTile (targetX this) (targetY this)) q →
                (length p ≤ length q)%nat.

(** An agent that asks [getNextStep] for its next tile and moves there,
    [calls] times over: what each call did.  The agent stays where it is
    when the answer is null. *)
Fixpoint followCachedPath (calls : nat) (this : CachedPath)
    (pos : TilePosition) (tgtX tgtY : Z) (map : TileMap.t) : list NextStep :=
  match calls with
  | O => []
  | S calls' =>
      match getNextStep 2 this (x pos) (y pos) tgtX tgtY map false with
      | Some r =>
          r :: followCachedPath calls' (cache r) (default pos (step r))
                                tgtX tgtY map
      | None => []
      end
  end.

(** ** engine/constants.ts: coordinates *)

Definition TILE_SIZE : Z := 32.

(** Pixel positions with integer coordinates; on these [x / TILE_SIZE] and
    [Math.floor] are the integer quotient rounded down. *)
Module Coords.

Definition tileToPixel (tile : TilePosition) : Z * Z :=
  (x tile * TILE_SIZE, y tile * TILE_SIZE).

Definition pixelToTile (px py : Z) : TilePosition :=
  mkTile (px / TILE_SIZE) (py / TILE_SIZE).

Definition tileCenterToPixel (tile : TilePosition) : Z * Z :=
  (x tile * TILE_SIZE + TILE_SIZE / 2, y tile * TILE_SIZE + TILE_SIZE / 2).

End Coords.

(** ** main.ts: the game *)

(** [a[i] = v] on a [Uint8Array]. *)
Definition uint8Set (a : list Z) (i v : Z) : list Z :=
  if i <? 0 then a else <[Z.to_nat i := v mod 256]> a.

Module Game.

Definition MAP_WIDTH : Z := 50.
Definition MAP_HEIGHT : Z := 50.

(** [this.map.tiles[i] = v]. *)
Definition setTile (map : TileMap.t) (i v : Z) : TileMap.t :=
  TileMap.mk (TileMap.cols map) (TileMap.rows map)
             (uint8Set (TileMap.tiles map) i v) (TileMap.tileDefs map).

(** The array [generateMaze] sorts at random: up, down, left, right, two
    tiles at a time. *)
Definition directions : list (Z * Z) := [(0, -2); (0, 2); (-2, 0); (2, 0)].

(** Body of [for (const [dc, dr] of directions)] in [generateMaze];
    [recurse] is the recursive call.  The state is the map and the number
    of calls of [generateMaze] made so far; [None] when the nesting
    allowance of a call was exceeded.  The halved components [dc / 2] and
    [dr / 2] are exact on the even entries of [directions]. *)
Definition carve
    (recurse : TileMap.t * nat → Z → Z → option (TileMap.t * nat))
    (col row : Z) (acc : option (TileMap.t * nat)) (d : Z * Z)
  : option (TileMap.t * nat) :=
  match acc with
  | None => None
  | Some (map, calls) =>
      let nextCol := col + fst d in
      let nextRow := row + snd d in
      if (0 <? nextCol) && (nextCol <? TileMap.cols map - 1)
         && (0 <? nextRow) && (nextRow <? TileMap.rows map - 1)
         && bool_decide (TileMap.getTile map nextCol nextRow = Some 1)
      then
        recurse
          (setTile map ((row + snd d / 2) * TileMap.cols map + (col + fst d / 2)) 0,
           calls)
          nextCol nextRow
      else Some (map, calls)
  end.

(** [generateMaze].  [order k] is the outcome of the randomised sort in the
    [k]-th call.  [fuel] bounds the nesting of the calls. *)
Fixpoint generateMaze (fuel : nat) (order : nat → list (Z * Z))
    (st : TileMap.t * nat) (col row : Z) : option (TileMap.t * nat) :=
  match fuel with
  | O => None
  | S fuel' =>
      let map0 := setTile (fst st) (row * TileMap.cols (fst st) + col) 0 in
      fold_left (carve (generateMaze fuel' order) col row)
                (order (snd st)) (Some (map0, S (snd st)))
  end.

(** The loop [for (i = 0; i < tiles.length; i++) tiles[i] = 1] of [init]. *)
Definition fillWalls (map : TileMap.t) : TileMap.t :=
  fold_left (λ m i, setTile m (Z.of_nat i) 1)
            (seq 0 (length (TileMap.tiles map))) map.

(** The map [init] builds: the 50 x 50 map with grass 0 and wall 1, filled
    with walls, and the maze carved from (1, 1).  One call of
    [generateMaze] turns at least one wall into grass, so the nesting stays
    below the number of tiles. *)
Definition initMap (order : nat → list (Z * Z)) : option TileMap.t :=
  let map :=
    fillWalls
      (TileMap.defineTileImage 1 true
         (TileMap.defineTileImage 0 false (TileMap.new MAP_WIDTH MAP_HEIGHT))) in
  match generateMaze (S (length (TileMap.tiles map))) order (map, 0%nat) 1 1 with
  | Some (maze, _) => Some maze
  | None => None
  end.

(** The flow field [init] allocates. *)
Definition initFlowField : FlowField.t :=
  FlowField.mk
    (uint16Fill (replicate (Z.to_nat (MAP_WIDTH * MAP_HEIGHT)) 0) 65535)
    (mkTile (-1) (-1)) MAP_WIDTH MAP_HEIGHT 65535.

(** The loop [while (attempts < maxAttempts)] of [findRandomOpenTile];
    [draw k] is the pair of [Math.floor(Math.random() * 50)] drawn in the
    [k]-th attempt. *)
Fixpoint randomAttempts (left : nat) (draw : nat → Z * Z) (attempts : nat)
    (map : TileMap.t) : option TilePosition :=
  match left with
  | O => None
  | S left' =>
      let '(rx, ry) := draw attempts in
      if negb (TileMap.isSolid map rx ry) then Some (mkTile rx ry)
      else randomAttempts left' draw (S attempts) map
  end.

(** The tiles in the order the fallback loops visit them: row by row. *)
Definition scanOrder : list TilePosition :=
  ry ← seqZ 0 MAP_HEIGHT; rx ← seqZ 0 MAP_WIDTH; [mkTile rx ry].

Definition findRandomOpenTile (draw : nat → Z * Z) (map : TileMap.t)
  : TilePosition :=
  match randomAttempts 1000 draw 0 map with
  | Some tile => tile
  | None =>
      match list_find (λ t, TileMap.isSolid map (x t) (y t) = false) scanOrder with
      | Some (_, tile) => tile
      | None => mkTile 1 1
      end
  end.

(** [syncEnemiesFromNetwork]: the surplus enemies are popped, then each
    state overwrites the enemy at its index or is pushed as a new enemy. *)
Definition syncEnemy (state : EnemyState) : Enemy.t :=
  Enemy.mk (es_x state) (es_y state) (es_health state) (es_isDying state).

Definition syncEnemiesFromNetwork (enemyStates : list EnemyState)
    (npcs : list Enemy.t) : list Enemy.t :=
  fold_left
    (λ npcs entry,
       if bool_decide (fst entry < length npcs)%nat
       then <[fst entry := syncEnemy (snd entry)]> npcs
       else npcs ++ [syncEnemy (snd entry)])
    (imap pair enemyStates)
    (take (length enemyStates) npcs).

(** The callbacks [initMultiplayer] registers for joining and leaving
    players, acting on [this.remotePlayers]. *)
Definition onCallback (remotePlayers : list RemotePlayer.t) (c : Callback)
  : list RemotePlayer.t :=
  match c with
  | RemotePlayerAdded player => remotePlayers ++ [player]
  | RemotePlayerRemoved playerId =>
      filter (λ p, RemotePlayer.playerId p ≠ playerId) remotePlayers
  | _ => remotePlayers
  end.

End Game.

(** ** Invariants of the maze generator *)

(** The tile array has one entry per tile. *)
Definition wfMap (m : TileMap.t) : Prop :=
  Z.of_nat (length (TileMap.tiles m)) = TileMap.cols m * TileMap.rows m.

(** Tile 0 is defined and not solid. *)
Definition grassDefined (m : TileMap.t) : Prop :=
  ∃ def, TileMap.tileDefs m !! 0 = Some def ∧ solid def = false.

(** A tile off the border of the map. *)
Definition interior (m : TileMap.t) (t : TilePosition) : Prop :=
  0 < x t < TileMap.cols m - 1 ∧ 0 < y t < TileMap.rows m - 1.

(** [m'] is [m] with some interior tiles turned into tile 0. *)
Definition carved (m m' : TileMap.t) : Prop :=
  TileMap.cols m' = TileMap.cols m
  ∧ TileMap.rows m' = TileMap.rows m
  ∧ TileMap.tileDefs m' = TileMap.tileDefs m
  ∧ wfMap m'
  ∧ ∀ t, TileMap.isValidTile m (x t) (y t) = true →
      TileMap.getTile m' (x t) (y t) = TileMap.getTile m (x t) (y t)
      ∨ (TileMap.getTile m' (x t) (y t) = Some 0 ∧ interior m t).

(** The number of entries of the tile array that hold tile 1. *)
Definition walls (m : TileMap.t) : nat :=
  length (filter (λ v, v = 1) (TileMap.tiles m)).

(** The map [init] carves the maze into. *)
Definition wallsOnly : TileMap.t :=
  TileMap.mk 50 50 (replicate 2500 1)
    (<[1 := mkTileDef 1 true]> (<[0 := mkTileDef 0 false]> ∅)).

(** ** The game's view of the network *)

(** The list of remote players the game keeps holds exactly the players of
    the manager's map, each once. *)
Definition mirrors (remote : gmap string RemotePlayer.t)
    (players : list RemotePlayer.t) : Prop :=
  NoDup (RemotePlayer.playerId <$> players)
  ∧ ∀ id, id ∈ RemotePlayer.playerId <$> players ↔ is_Some (remote !! id).

(** Everything a session writes to the database over a sequence of
    calls. *)
Fixpoint writes (actions : list Action) (nm : NetworkManager.t) : list Write :=
  match actions with
  | [] => []
  | a :: rest => (act a nm).1.2 ++ writes rest (act a nm).1.1
  end.

(** * Proofs *)

(** * The flow field *)

(** ** Typed-array facts *)

Lemma arrayGet_Some (a : list Z) (i v : Z) :
  arrayGet a i = Some v ↔ 0 <= i ∧ a !! Z.to_nat i = Some v.
Proof.
  unfold arrayGet. destruct (Z.ltb_spec i 0); split.
  - discriminate.
  - intros [? _]. lia.
  - auto.
  - intros [_ ?]. done.
Qed.

Lemma arrayGet_in_range (a : list Z) (i : Z) :
  0 <= i < Z.of_nat (length a) → ∃ v, arrayGet a i = Some v.
Proof.
  intros Hi. destruct (lookup_lt_is_Some_2 a (Z.to_nat i)) as [v Hv]; [lia|].
  exists v. apply arrayGet_Some. split; [lia|done].
Qed.

Lemma arrayGet_uint16Set_eq (a : list Z) (i v : Z) :
  0 <= i < Z.of_nat (length a) →
  arrayGet (uint16Set a i v) i = Some (v mod 65536).
Proof.
  intros Hi. unfold arrayGet, uint16Set.
  destruct (Z.ltb_spec i 0); [lia|].
  apply list_lookup_insert_eq. lia.
Qed.

Lemma arrayGet_uint16Set_ne (a : list Z) (i j v : Z) :
  i ≠ j → 0 <= j → arrayGet (uint16Set a i v) j = arrayGet a j.
Proof.
  intros Hne Hj. unfold arrayGet, uint16Set.
  destruct (Z.ltb_spec j 0); [lia|].
  destruct (Z.ltb_spec i 0); [done|].
  apply list_lookup_insert_ne. lia.
Qed.

Lemma length_uint16Set (a : list Z) (i v : Z) :
  length (uint16Set a i v) = length a.
Proof. unfold uint16Set. destruct (i <? 0); [done|]. apply length_insert. Qed.

Lemma length_uint16Fill (a : list Z) (v : Z) :
  length (uint16Fill a v) = length a.
Proof. apply length_replicate. Qed.

Lemma arrayGet_uint16Fill (a : list Z) (v i : Z) :
  0 <= i < Z.of_nat (length a) →
  arrayGet (uint16Fill a v) i = Some (v mod 65536).
Proof.
  intros Hi. apply arrayGet_Some. split; [lia|].
  apply lookup_replicate_2. lia.
Qed.

(** ** Tiles and their indices *)

Lemma isValidTile_spec (m : TileMap.t) (c r : Z) :
  TileMap.isValidTile m c r = true
  ↔ 0 <= c < TileMap.cols m ∧ 0 <= r < TileMap.rows m.
Proof. unfold TileMap.isValidTile. lia. Qed.

Lemma passable_valid (m : TileMap.t) (t : TilePosition) :
  passable m t = true → TileMap.isValidTile m (x t) (y t) = true.
Proof. unfold passable. intros H. apply andb_true_iff in H. tauto. Qed.

Lemma passable_not_solid (m : TileMap.t) (t : TilePosition) :
  passable m t = true → TileMap.isSolid m (x t) (y t) = false.
Proof.
  unfold passable. intros H. apply andb_true_iff in H.
  destruct H as [_ H]. by apply negb_true_iff in H.
Qed.

Lemma tileIndex_range (m : TileMap.t) (t : TilePosition) :
  TileMap.isValidTile m (x t) (y t) = true →
  0 <= tileIndex (TileMap.cols m) t < TileMap.cols m * TileMap.rows m.
Proof.
  intros H. apply isValidTile_spec in H. unfold tileIndex. nia.
Qed.

Lemma tileIndex_inj (m : TileMap.t) (t u : TilePosition) :
  TileMap.isValidTile m (x t) (y t) = true →
  TileMap.isValidTile m (x u) (y u) = true →
  tileIndex (TileMap.cols m) t = tileIndex (TileMap.cols m) u → t = u.
Proof.
  intros Ht Hu. apply isValidTile_spec in Ht, Hu. unfold tileIndex.
  destruct t as [tx ty], u as [ux uy]; simpl in *. intros E.
  assert (ty = uy) by nia. subst. f_equal. lia.
Qed.

(** A duplicate-free list of tiles of the map has at most [cols * rows]
    entries. *)
Lemma tiles_bounded (m : TileMap.t) (l : list TilePosition) :
  0 <= TileMap.cols m * TileMap.rows m →
  NoDup l →
  (∀ t, t ∈ l → TileMap.isValidTile m (x t) (y t) = true) →
  Z.of_nat (length l) <= TileMap.cols m * TileMap.rows m.
Proof.
  intros Hpos Hnd Hin.
  set (n := Z.to_nat (TileMap.cols m * TileMap.rows m)).
  set (f := λ t, Z.to_nat (tileIndex (TileMap.cols m) t)).
  assert (Hnd' : NoDup (f <$> l)).
  { apply NoDup_fmap_2_strong; [|done].
    intros a b Ha Hb E. unfold f in E.
    pose proof (tileIndex_range m a (Hin a Ha)).
    pose proof (tileIndex_range m b (Hin b Hb)).
    apply (tileIndex_inj m); auto. lia. }
  assert (Hsub : f <$> l ⊆+ seq 0 n).
  { apply NoDup_submseteq; [done|]. intros k Hk.
    apply list_elem_of_fmap in Hk as (t & -> & Ht).
    pose proof (tileIndex_range m t (Hin t Ht)).
    apply elem_of_seq. unfold f, n. lia. }
  apply submseteq_length in Hsub.
  rewrite length_fmap, length_seq in Hsub.
  unfold n in Hsub. lia.
Qed.

(** ** The BFS loop maintains its invariant *)

Lemma bfsInv_queue_valid (m : TileMap.t) (g : TilePosition)
    (ds : list Z) (q : list QueueItem) (t : TilePosition) :
  bfsInv m g ds q → t ∈ itemTile <$> q →
  TileMap.isValidTile m (x t) (y t) = true.
Proof.
  intros I Ht. apply list_elem_of_fmap in Ht as (it & -> & Hit).
  apply list_elem_of_lookup in Hit as [i Hi].
  apply passable_valid. by apply (inv_items _ _ _ _ I i it).
Qed.

Lemma bfsInv_queue_length (m : TileMap.t) (g : TilePosition)
    (ds : list Z) (q : list QueueItem) :
  bfsInv m g ds q →
  Z.of_nat (length q) <= TileMap.cols m * TileMap.rows m.
Proof.
  intros I. rewrite <- (length_fmap itemTile q).
  apply tiles_bounded.
  - rewrite <- (inv_length _ _ _ _ I). lia.
  - apply (inv_nodup _ _ _ _ I).
  - intros t Ht. by eapply bfsInv_queue_valid.
Qed.

Lemma visitNeighbor_inv (m : TileMap.t) (g : TilePosition)
    (ds : list Z) (q : list QueueItem) (L : Z) (k : nat)
    (c : QueueItem) (nb : TilePosition) :
  bfsInv m g ds q → level L q →
  q !! k = Some c → dist c = L → adjacent (itemTile c) nb →
  ∃ ds' ext,
    visitNeighbor m (TileMap.cols m) L (ds, q) nb = (ds', q ++ ext)
    ∧ bfsInv m g ds' (q ++ ext)
    ∧ level L (q ++ ext)
    ∧ (passable m nb = true → fits m (L + 1) →
       ∃ it, it ∈ q ++ ext ∧ itemTile it = nb ∧ dist it <= L + 1).
Proof.
  intros I Hlev Hk HL Hadj.
  unfold visitNeighbor; simpl.
  destruct (passable m nb) eqn:Hp.
  2:{ exists ds, []. rewrite app_nil_r.
      assert (negb (TileMap.isValidTile m (x nb) (y nb))
              || TileMap.isSolid m (x nb) (y nb) = true) as ->.
      { unfold passable in Hp.
        destruct (TileMap.isValidTile m (x nb) (y nb)),
                 (TileMap.isSolid m (x nb) (y nb)); simpl in *; congruence. }
      split; [done|]. split; [exact I|]. split; [exact Hlev|]. discriminate. }
  pose proof (passable_valid _ _ Hp) as Hv.
  pose proof (passable_not_solid _ _ Hp) as Hs.
  rewrite Hv, Hs; simpl.
  pose proof (tileIndex_range m nb Hv) as Hr.
  fold (tileIndex (TileMap.cols m) nb).
  destruct (arrayGet_in_range ds (tileIndex (TileMap.cols m) nb)) as [old Hold].
  { rewrite (inv_length _ _ _ _ I). lia. }
  rewrite Hold.
  destruct (decide (nb ∈ itemTile <$> q)) as [Hin|Hnin].
  - (* already queued: its distance is at most [L + 1], nothing changes *)
    apply list_elem_of_fmap in Hin as (it & Eit & Hit).
    pose proof Hit as Hit'.
    apply list_elem_of_lookup in Hit' as [i Hi].
    destruct (inv_items _ _ _ _ I i it Hi) as (_ & Hd & _ & _).
    rewrite <- Eit in Hd. rewrite Hold in Hd. injection Hd as ->.
    pose proof (Hlev it Hit).
    destruct (Z.ltb_spec (L + 1) (dist it)); [lia|].
    exists ds, []. rewrite app_nil_r.
    split; [done|]. split; [exact I|]. split; [exact Hlev|].
    intros _ _. exists it. split; [done|]. split; [done|lia].
  - (* not yet queued: it holds the sentinel *)
    destruct (inv_unvisited _ _ _ _ I nb Hv) as [Hmax|?]; [|done].
    rewrite Hold in Hmax. injection Hmax as ->.
    destruct (inv_items _ _ _ _ I k c Hk) as (Hpc & Hdc & Hwc & [Hc0 Hck] & Hcm).
    pose proof (lookup_lt_Some _ _ _ Hk) as Hklt.
    assert (Hlen : Z.of_nat (S (length q)) <= TileMap.cols m * TileMap.rows m).
    { replace (S (length q)) with (length (nb :: (itemTile <$> q)))
        by (simpl; by rewrite length_fmap).
      apply tiles_bounded.
      - rewrite <- (inv_length _ _ _ _ I). lia.
      - constructor; [done|apply I].
      - intros t Ht. apply elem_of_cons in Ht as [->|Ht]; [done|].
        by eapply bfsInv_queue_valid. }
    destruct (Z.ltb_spec (L + 1) 65535) as [Hlt|Hge].
    2:{ (* the new distance does not fit below the sentinel: skipped *)
        exists ds, []. rewrite app_nil_r.
        split; [done|]. split; [exact I|]. split; [exact Hlev|].
        intros _ [?|?]; lia. }
    set (new := mkItem (x nb) (y nb) (L + 1)).
    exists (uint16Set ds (tileIndex (TileMap.cols m) nb) (L + 1)), [new].
    split; [done|].
    assert (Hnew : itemTile new = nb) by (by destruct nb).
    assert (Hmod : (L + 1) mod 65536 = L + 1) by (apply Z.mod_small; lia).
    split; [|split].
    + constructor.
      * rewrite length_uint16Set. apply I.
      * rewrite lookup_app_l; [apply I|]. lia.
      * intros i it Hi.
        apply lookup_app_Some in Hi as [Hi|[Hge Hi]].
        -- destruct (inv_items _ _ _ _ I i it Hi) as (Hpi & Hdi & Hwi & Hri).
           split; [done|]. split; [|done].
           rewrite arrayGet_uint16Set_ne; [done| |].
           ++ intros E. apply Hnin. apply list_elem_of_fmap. exists it.
              split; [|by eapply list_elem_of_lookup_2].
              apply (tileIndex_inj m); auto. by apply passable_valid.
           ++ pose proof (tileIndex_range m (itemTile it) (passable_valid _ _ Hpi)).
              lia.
        -- apply list_lookup_singleton_Some in Hi as [Hi0 <-].
           rewrite Hnew. simpl. split; [done|]. split; [|split; [|lia]].
           ++ rewrite arrayGet_uint16Set_eq, Hmod; [done|].
              rewrite (inv_length _ _ _ _ I). lia.
           ++ replace (Z.to_nat (L + 1)) with (S (Z.to_nat L)) by lia.
              apply walk_step with (itemTile c); [|done|done].
              by rewrite <- HL.
      * intros i j a b Hij Ha Hb.
        apply lookup_app_Some in Hb as [Hb|[Hge Hb]].
        -- apply lookup_app_Some in Ha as [Ha|[Hge' Ha]].
           ++ by apply (inv_sorted _ _ _ _ I i j).
           ++ apply lookup_lt_Some in Hb. lia.
        -- apply list_lookup_singleton_Some in Hb as [_ <-]. simpl.
           apply lookup_app_Some in Ha as [Ha|[Hge' Ha]].
           ++ apply Hlev. by eapply list_elem_of_lookup_2.
           ++ apply list_lookup_singleton_Some in Ha as [_ <-]. simpl. lia.
      * intros t Ht.
        destruct (decide (t = nb)) as [->|Hne].
        -- right. rewrite fmap_app. apply elem_of_app. right.
           simpl. rewrite Hnew. by left.
        -- destruct (inv_unvisited _ _ _ _ I t Ht) as [Hm|Hq].
           ++ left. rewrite arrayGet_uint16Set_ne; [done| |].
              ** intros E. apply Hne. symmetry. by apply (tileIndex_inj m).
              ** pose proof (tileIndex_range m t Ht). lia.
           ++ right. rewrite fmap_app. apply elem_of_app. by left.
      * rewrite fmap_app. simpl. rewrite Hnew.
        apply NoDup_app. split; [apply I|]. split.
        -- intros t Ht Ht'. apply list_elem_of_singleton in Ht'.
           rewrite Ht' in Ht. exact (Hnin Ht).
        -- apply NoDup_singleton.
    + intros it Hit. apply elem_of_app in Hit as [Hit|Hit]; [by apply Hlev|].
      apply list_elem_of_singleton in Hit. rewrite Hit. simpl. lia.
    + intros _ _. exists new. split; [|split; [done|simpl; lia]].
      apply elem_of_app. right. by left.
Qed.

Lemma visitNeighbors_inv (m : TileMap.t) (g : TilePosition)
    (nbs : list TilePosition) :
  ∀ (ds : list Z) (q : list QueueItem) (L : Z) (k : nat) (c : QueueItem),
  bfsInv m g ds q → level L q →
  q !! k = Some c → dist c = L →
  (∀ nb, nb ∈ nbs → adjacent (itemTile c) nb) →
  ∃ ds' ext,
    fold_left (visitNeighbor m (TileMap.cols m) L) nbs (ds, q) = (ds', q ++ ext)
    ∧ bfsInv m g ds' (q ++ ext)
    ∧ level L (q ++ ext)
    ∧ (∀ nb, nb ∈ nbs → passable m nb = true → fits m (L + 1) →
       ∃ it, it ∈ q ++ ext ∧ itemTile it = nb ∧ dist it <= L + 1).
Proof.
  induction nbs as [|nb nbs IH]; intros ds q L k c I Hlev Hk HL Hadj.
  - exists ds, []. rewrite app_nil_r. simpl.
    split; [done|]. split; [done|]. split; [done|].
    intros nb Hnb. by apply elem_of_nil in Hnb.
  - destruct (visitNeighbor_inv m g ds q L k c nb I Hlev Hk HL)
      as (ds1 & ext1 & E1 & I1 & Hlev1 & Hnb1).
    { apply Hadj. by left. }
    destruct (IH ds1 (q ++ ext1) L k c I1 Hlev1)
      as (ds2 & ext2 & E2 & I2 & Hlev2 & Hnb2).
    { apply lookup_app_l_Some. exact Hk. }
    { exact HL. }
    { intros nb' Hnb'. apply Hadj. by right. }
    exists ds2, (ext1 ++ ext2). rewrite app_assoc. simpl. rewrite E1.
    split; [done|]. split; [done|]. split; [done|].
    intros nb' Hnb' Hp Hfit. apply elem_of_cons in Hnb' as [->|Hnb'].
    + destruct (Hnb1 Hp Hfit) as (it & Hit & Et & Hd).
      exists it. split; [|done]. apply elem_of_app. by left.
    + by apply Hnb2.
Qed.

Lemma neighbors_adjacent (c : QueueItem) (nb : TilePosition) :
  nb ∈ neighbors (qx c) (qy c) → adjacent (itemTile c) nb.
Proof. done. Qed.

Lemma expanded_mono (m : TileMap.t) (q ext : list QueueItem) (p : QueueItem) :
  expanded m q p → expanded m (q ++ ext) p.
Proof.
  intros H Hfit u Hadj Hp. destruct (H Hfit u Hadj Hp) as (it & Hit & ?).
  exists it. split; [|done]. apply elem_of_app. by left.
Qed.

Lemma bfsStep_inv (m : TileMap.t) (g : TilePosition) (st st' : BfsState) :
  loopInv m g st →
  bfsStep m (TileMap.cols m) st = Some st' →
  loopInv m g st' ∧ queueIndex st' = S (queueIndex st).
Proof.
  intros [I Hidx Hexp Hlev]. unfold bfsStep.
  destruct (queue st !! queueIndex st) as [c|] eqn:Hc; [|discriminate].
  destruct (visitNeighbors_inv m g (neighbors (qx c) (qy c))
              (bfsDistances st) (queue st) (dist c) (queueIndex st) c
              I (Hlev c eq_refl) Hc eq_refl)
    as (ds' & ext & E & I' & Hlev' & Hnb).
  { intros nb Hnb. by apply neighbors_adjacent. }
  rewrite E. intros [= <-]. simpl. split; [|done].
  pose proof (lookup_lt_Some _ _ _ Hc) as Hlt.
  constructor; simpl.
  - exact I'.
  - rewrite length_app. lia.
  - intros i p Hi Hp.
    destruct (decide (i = queueIndex st)) as [->|Hne].
    + rewrite (lookup_app_l_Some _ _ _ _ Hc) in Hp. injection Hp as <-.
      intros Hfit u Hadj Hpu. apply Hnb; [exact Hadj|exact Hpu|exact Hfit].
    + assert (Hi' : (i < queueIndex st)%nat) by lia.
      rewrite lookup_app_l in Hp by lia.
      apply expanded_mono. by apply (Hexp i).
  - intros c' Hc' it Hit.
    pose proof (Hlev' it Hit).
    pose proof (inv_sorted _ _ _ _ I' (queueIndex st) (S (queueIndex st)) c c'
                  ltac:(lia) (lookup_app_l_Some _ _ _ _ Hc) Hc').
    lia.
Qed.

(** The loop ends within [cols * rows] iterations: no tile is queued
    twice. *)
Lemma bfsLoop_terminates (m : TileMap.t) (g : TilePosition) (fuel : nat) :
  ∀ st,
  loopInv m g st →
  TileMap.cols m * TileMap.rows m - Z.of_nat (queueIndex st) < Z.of_nat fuel →
  ∃ st', bfsLoop fuel m (TileMap.cols m) st = Some st'
         ∧ loopInv m g st'
         ∧ queueIndex st' = length (queue st').
Proof.
  induction fuel as [|fuel IH]; intros st HI Hfuel.
  - pose proof (bfsInv_queue_length _ _ _ _ (loop_inv _ _ _ HI)).
    pose proof (loop_index _ _ _ HI). lia.
  - simpl. destruct (bfsStep m (TileMap.cols m) st) as [st1|] eqn:E.
    + destruct (bfsStep_inv m g st st1 HI E) as [HI1 Hq1].
      apply IH; [done|]. rewrite Hq1. lia.
    + exists st. split; [done|]. split; [done|].
      unfold bfsStep in E.
      destruct (queue st !! queueIndex st) as [c|] eqn:Hc.
      * destruct (fold_left _ _ _). discriminate.
      * apply lookup_ge_None in Hc. pose proof (loop_index _ _ _ HI). lia.
Qed.

(** ** What the finished field holds *)

Lemma finished_complete (m : TileMap.t) (g : TilePosition) (st : BfsState) :
  loopInv m g st → queueIndex st = length (queue st) →
  ∀ t n, walk m g t n → fits m (Z.of_nat n) →
    ∃ it, it ∈ queue st ∧ itemTile it = t ∧ dist it <= Z.of_nat n.
Proof.
  intros HI Hend t n Hw. induction Hw as [Hg|t u n Hw IH Hadj Hp]; intros Hfit.
  - exists (mkItem (x g) (y g) 0). split; [|split; [by destruct g|simpl; lia]].
    eapply list_elem_of_lookup_2. apply (inv_first _ _ _ _ (loop_inv _ _ _ HI)).
  - destruct IH as (it & Hit & Et & Hd).
    { destruct Hfit as [?|?]; [left; lia|by right]. }
    apply list_elem_of_lookup in Hit as [i Hi].
    pose proof (lookup_lt_Some _ _ _ Hi) as Hlt.
    destruct (loop_expanded _ _ _ HI i it ltac:(lia) Hi) with (u := u)
      as (iu & Hiu & Eu & Hdu).
    { destruct Hfit as [?|?]; [left; lia|by right]. }
    { by rewrite Et. }
    { done. }
    exists iu. split; [done|]. split; [done|]. lia.
Qed.

Lemma finished_distance (m : TileMap.t) (g : TilePosition) (st : BfsState) :
  loopInv m g st → queueIndex st = length (queue st) →
  ∀ t n, walk m g t n → fits m (Z.of_nat n) →
    ∃ d, arrayGet (bfsDistances st) (tileIndex (TileMap.cols m) t)
         = Some (Z.of_nat d)
       ∧ walk m g t d
       ∧ Z.of_nat d < 65535
       ∧ ∀ k, walk m g t k → (d ≤ k)%nat.
Proof.
  intros HI Hend t n Hw Hfit.
  destruct (finished_complete m g st HI Hend t n Hw Hfit) as (it & Hit & Et & Hd).
  apply list_elem_of_lookup in Hit as [i Hi].
  destruct (inv_items _ _ _ _ (loop_inv _ _ _ HI) i it Hi)
    as (_ & Hds & Hwi & Hr & Hlt).
  rewrite Et in Hds, Hwi.
  exists (Z.to_nat (dist it)). split; [|split; [done|split; [lia|]]].
  - rewrite Hds. f_equal. lia.
  - intros k Hk.
    destruct (decide (Z.of_nat k < 65535)) as [Hk'|Hk']; [|lia].
    destruct (finished_complete m g st HI Hend t k Hk ltac:(left; lia))
      as (it' & Hit' & Et' & Hd').
    apply list_elem_of_lookup in Hit' as [i' Hi'].
    destruct (inv_items _ _ _ _ (loop_inv _ _ _ HI) i' it' Hi') as (_ & Hds' & _ & _).
    rewrite Et', Hds in Hds'. injection Hds' as E. lia.
Qed.

(** Every entry of the finished array is the sentinel or an exact
    distance below it. *)
Lemma finished_dichotomy (m : TileMap.t) (g : TilePosition) (st : BfsState) :
  loopInv m g st → queueIndex st = length (queue st) →
  ∀ t, TileMap.isValidTile m (x t) (y t) = true →
    arrayGet (bfsDistances st) (tileIndex (TileMap.cols m) t) = Some 65535
    ∨ ∃ d, arrayGet (bfsDistances st) (tileIndex (TileMap.cols m) t)
           = Some (Z.of_nat d)
         ∧ walk m g t d
         ∧ Z.of_nat d < 65535
         ∧ ∀ k, walk m g t k → (d ≤ k)%nat.
Proof.
  intros HI Hend t Hv.
  destruct (inv_unvisited _ _ _ _ (loop_inv _ _ _ HI) t Hv) as [?|Hq]; [by left|].
  right.
  apply list_elem_of_fmap in Hq as (it & -> & Hit).
  apply list_elem_of_lookup in Hit as [i Hi].
  destruct (inv_items _ _ _ _ (loop_inv _ _ _ HI) i it Hi)
    as (_ & _ & Hw & Hr & Hlt).
  apply (finished_distance m g st HI Hend _ _ Hw). left. lia.
Qed.

(** ** Walks and paths *)

Lemma adjacent_cases (a b : TilePosition) :
  adjacent a b ↔
  (x b = x a ∧ y b = y a - 1) ∨ (x b = x a ∧ y b = y a + 1)
  ∨ (x b = x a - 1 ∧ y b = y a) ∨ (x b = x a + 1 ∧ y b = y a).
Proof.
  unfold adjacent, neighbors. rewrite !elem_of_cons, elem_of_nil.
  destruct a as [ax ay], b as [bx by']; simpl. split.
  - intros [H|[H|[H|[H|[]]]]]; injection H as -> ->; lia.
  - intros [[-> ->]|[[-> ->]|[[-> ->]|[-> ->]]]]; auto.
Qed.

Lemma adjacent_sym (a b : TilePosition) : adjacent a b → adjacent b a.
Proof. rewrite !adjacent_cases. lia. Qed.

Lemma chain_snoc (p : list TilePosition) (t u : TilePosition) :
  chain (p ++ [t]) → adjacent t u → chain ((p ++ [t]) ++ [u]).
Proof.
  intros Hc Hadj. induction p as [|a p IH]; simpl in *.
  - done.
  - destruct (p ++ [t]) as [|b r] eqn:E.
    + by destruct p.
    + simpl. destruct Hc as [Hab Hc]. split; [done|]. by apply IH.
Qed.

Lemma chain_snoc_inv (p : list TilePosition) (t u : TilePosition) :
  chain ((p ++ [t]) ++ [u]) → chain (p ++ [t]) ∧ adjacent t u.
Proof.
  induction p as [|a p IH]; simpl.
  - tauto.
  - destruct (p ++ [t]) as [|b r] eqn:E.
    + by destruct p.
    + simpl. intros [Hab Hc]. destruct (IH Hc) as [H1 H2].
      split; [split|]; done.
Qed.

Lemma chain_reverse (p : list TilePosition) : chain p → chain (reverse p).
Proof.
  induction p as [|t p IH] using rev_ind; [done|].
  rewrite reverse_snoc.
  destruct p as [|u p _] using rev_ind; [done|].
  intros Hc. apply chain_snoc_inv in Hc as [Hc Hadj].
  specialize (IH Hc). rewrite reverse_snoc in *. simpl.
  split; [by apply adjacent_sym|done].
Qed.

Lemma connects_reverse (m : TileMap.t) (a b : TilePosition)
    (p : list TilePosition) :
  connects m a b p → connects m b a (reverse p).
Proof.
  intros [[Hf Hc] [Hh Hl]]. split; [split|split].
  - by apply Forall_reverse.
  - by apply chain_reverse.
  - by rewrite head_reverse.
  - by rewrite last_reverse.
Qed.

Lemma walk_path (m : TileMap.t) (g t : TilePosition) (n : nat) :
  walk m g t n → ∃ p, connects m g t p ∧ length p = S n.
Proof.
  induction 1 as [Hg|t u n Hw (p & (([Hf Hc] & Hh & Hl) & Hlen)) Hadj Hp].
  - exists [g]. split; [|done]. split; [split|split]; try done.
    by constructor.
  - apply last_Some in Hl as [p' ->].
    exists ((p' ++ [t]) ++ [u]). split.
    + split; [split|split].
      * apply Forall_app. split; [done|by constructor].
      * by apply chain_snoc.
      * rewrite head_app, Hh. done.
      * apply last_snoc.
    + rewrite length_app, Hlen. simpl. lia.
Qed.

Lemma path_walk (m : TileMap.t) (g : TilePosition) (p : list TilePosition) :
  ∀ t n, connects m g t p → length p = S n → walk m g t n.
Proof.
  induction p as [|u p IH] using rev_ind; intros t n ([Hf Hc] & Hh & Hl) Hlen.
  - done.
  - rewrite last_snoc in Hl. injection Hl as ->.
    apply Forall_app in Hf as [Hf Ht].
    apply Forall_cons in Ht as [Ht _].
    destruct p as [|u p _] using rev_ind.
    + simpl in *. injection Hh as ->. injection Hlen as <-. by constructor.
    + apply chain_snoc_inv in Hc as [Hc Hadj].
      rewrite !length_app in Hlen. simpl in Hlen.
      destruct n as [|n]; [lia|].
      apply walk_step with u; [|done|done].
      apply IH; [|rewrite length_app; simpl; lia].
      split; [done|]. split; [|apply last_snoc].
      by destruct p.
Qed.

Lemma reachable_walk (m : TileMap.t) (t g : TilePosition) :
  reachable m t g ↔ ∃ n, walk m g t n.
Proof.
  split.
  - intros [p Hp]. apply connects_reverse in Hp.
    destruct (reverse p) as [|a r] eqn:E.
    + by destruct Hp as (_ & ? & _).
    + exists (length r). eapply path_walk; [exact Hp|done].
  - intros [n Hw]. apply walk_path in Hw as (p & Hp & _).
    exists (reverse p). by apply connects_reverse.
Qed.

Lemma shortestDistance_walk (m : TileMap.t) (t g : TilePosition) (n : Z) :
  shortestDistance m t g n ↔
  0 <= n ∧ walk m g t (Z.to_nat n)
  ∧ ∀ k, walk m g t k → (Z.to_nat n ≤ k)%nat.
Proof.
  split.
  - intros [(p & Hp & Hlen) Hmin].
    assert (0 <= n).
    { destruct p; [by destruct Hp as (_ & ? & _)|]. simpl in Hlen. lia. }
    split; [done|]. split.
    + apply path_walk with (reverse p); [by apply connects_reverse|].
      rewrite length_reverse. lia.
    + intros k Hk. apply walk_path in Hk as (p' & Hp' & Hlen').
      apply connects_reverse in Hp'. apply Hmin in Hp'.
      rewrite length_reverse in Hp'. lia.
  - intros (Hn & Hw & Hmin). split.
    + apply walk_path in Hw as (p & Hp & Hlen).
      exists (reverse p). split; [by apply connects_reverse|].
      rewrite length_reverse. lia.
    + intros p Hp. apply connects_reverse in Hp.
      destruct (reverse p) as [|a r] eqn:E.
      { by destruct Hp as (_ & ? & _). }
      assert (Hw' : walk m g t (length r)) by (eapply path_walk; [exact Hp|done]).
      apply Hmin in Hw'.
      rewrite <- (length_reverse p), E. simpl. lia.
Qed.

(** ** [calculateFlowField] on a valid target *)

Lemma initial_loopInv (m : TileMap.t) (g : TilePosition) (ds : list Z) :
  Z.of_nat (length ds) = TileMap.cols m * TileMap.rows m →
  passable m g = true →
  loopInv m g
    (mkBfs (uint16Set (uint16Fill ds 65535) (tileIndex (TileMap.cols m) g) 0)
           [mkItem (x g) (y g) 0] 0).
Proof.
  intros Hlen Hg.
  pose proof (passable_valid _ _ Hg) as Hv.
  pose proof (tileIndex_range m g Hv) as Hr.
  assert (Hg' : itemTile (mkItem (x g) (y g) 0) = g) by (by destruct g).
  constructor; simpl.
  - constructor.
    + by rewrite length_uint16Set, length_uint16Fill.
    + done.
    + intros i it Hi. apply list_lookup_singleton_Some in Hi as [-> <-].
      rewrite Hg'. simpl.
      split; [done|]. split; [|split; [by constructor|lia]].
      rewrite arrayGet_uint16Set_eq; [done|].
      rewrite length_uint16Fill. lia.
    + intros i j a b _ Ha Hb.
      apply list_lookup_singleton_Some in Ha as [_ <-].
      apply list_lookup_singleton_Some in Hb as [_ <-]. done.
    + intros t Ht. destruct (decide (t = g)) as [->|Hne].
      * right. simpl. rewrite Hg'. by left.
      * left. pose proof (tileIndex_range m t Ht).
        rewrite arrayGet_uint16Set_ne; [| |lia].
        -- rewrite arrayGet_uint16Fill; [done|lia].
        -- intros E. apply Hne. symmetry. by apply (tileIndex_inj m).
    + simpl. rewrite Hg'. apply NoDup_singleton.
  - lia.
  - intros i p Hi. lia.
  - intros c [= <-] it Hit. apply list_elem_of_singleton in Hit as ->. simpl. lia.
Qed.

Lemma target_test_false (a b : TilePosition) :
  a ≠ b → bool_decide (x a = x b) && bool_decide (y a = y b) = false.
Proof.
  intros Hne. apply andb_false_iff.
  destruct (decide (x a = x b)) as [Ex|Ex].
  - right. apply bool_decide_eq_false. intros Ey. apply Hne.
    destruct a, b; simpl in *; congruence.
  - left. by apply bool_decide_eq_false.
Qed.

Lemma invalid_test (m : TileMap.t) (t : TilePosition) :
  negb (TileMap.isValidTile m (x t) (y t)) || TileMap.isSolid m (x t) (y t)
  = negb (passable m t).
Proof.
  unfold passable.
  by destruct (TileMap.isValidTile m (x t) (y t)), (TileMap.isSolid m (x t) (y t)).
Qed.

Lemma getFlowFieldDistance_valid (m : TileMap.t) (ff : FlowField.t)
    (t : TilePosition) :
  FlowField.cols ff = TileMap.cols m → FlowField.rows ff = TileMap.rows m →
  TileMap.isValidTile m (x t) (y t) = true →
  getFlowFieldDistance ff (x t) (y t)
  = arrayGet (FlowField.distances ff) (tileIndex (TileMap.cols m) t).
Proof.
  intros Ec Er Hv. apply isValidTile_spec in Hv.
  unfold getFlowFieldDistance. rewrite Ec, Er.
  destruct (Z.ltb_spec (x t) 0); [lia|].
  destruct (Z.geb_spec (x t) (TileMap.cols m)); [lia|].
  destruct (Z.ltb_spec (y t) 0); [lia|].
  destruct (Z.geb_spec (y t) (TileMap.rows m)); [lia|]. done.
Qed.

Lemma getFlowFieldDistance_invalid (m : TileMap.t) (ff : FlowField.t)
    (t : TilePosition) :
  FlowField.cols ff = TileMap.cols m → FlowField.rows ff = TileMap.rows m →
  TileMap.isValidTile m (x t) (y t) = false →
  getFlowFieldDistance ff (x t) (y t) = Some (FlowField.MAX_DISTANCE ff).
Proof.
  intros Ec Er Hv. unfold getFlowFieldDistance. rewrite Ec, Er.
  unfold TileMap.isValidTile in Hv.
  destruct (Z.ltb_spec (x t) 0); [done|].
  destruct (Z.geb_spec (x t) (TileMap.cols m)); [done|].
  destruct (Z.ltb_spec (y t) 0); [done|].
  destruct (Z.geb_spec (y t) (TileMap.rows m)); [done|]. lia.
Qed.

Lemma walk_valid (m : TileMap.t) (g t : TilePosition) (n : nat) :
  walk m g t n → passable m t = true.
Proof. by destruct 1. Qed.

(** The field computed for a new, passable target: the loop terminates;
    a tile with a walk from the target that fits holds its least walk
    length; and every entry is the sentinel or such a length. *)
Lemma calculateFlowField_computes (ff : FlowField.t) (g : TilePosition)
    (m : TileMap.t) :
  wfFlowField ff →
  FlowField.cols ff = TileMap.cols m → FlowField.rows ff = TileMap.rows m →
  passable m g = true →
  FlowField.target ff ≠ g →
  ∃ ff', calculateFlowField ff g m = Some ff'
    ∧ FlowField.target ff' = g
    ∧ FlowField.cols ff' = FlowField.cols ff
    ∧ FlowField.rows ff' = FlowField.rows ff
    ∧ FlowField.MAX_DISTANCE ff' = 65535
    ∧ (∀ t n, walk m g t n → fits m (Z.of_nat n) →
         ∃ d, getFlowFieldDistance ff' (x t) (y t) = Some (Z.of_nat d)
            ∧ walk m g t d ∧ Z.of_nat d < 65535
            ∧ ∀ k, walk m g t k → (d ≤ k)%nat)
    ∧ (∀ t, getFlowFieldDistance ff' (x t) (y t) = Some 65535
          ∨ ∃ d, getFlowFieldDistance ff' (x t) (y t) = Some (Z.of_nat d)
               ∧ walk m g t d ∧ Z.of_nat d < 65535
               ∧ ∀ k, walk m g t k → (d ≤ k)%nat).
Proof.
  intros [Hc Hr Hlen Hmax] Ec Er Hg Hne.
  unfold calculateFlowField.
  rewrite (target_test_false _ _ Hne), invalid_test, Hg. cbn [negb].
  rewrite Hmax, Ec. fold (tileIndex (TileMap.cols m) g).
  pose proof (initial_loopInv m g (FlowField.distances ff)
                ltac:(rewrite Hlen, Ec, Er; done) Hg) as HI0.
  destruct (bfsLoop_terminates m g (S (length (FlowField.distances ff))) _
              HI0) as (st & E & HI & Hend).
  { cbn [queueIndex]. rewrite <- Ec, <- Er. lia. }
  rewrite E. eexists. split; [done|]. simpl.
  split; [done|]. split; [done|]. split; [done|]. split; [done|]. split.
  - intros t n Hw Hfit.
    rewrite (getFlowFieldDistance_valid m); simpl; try done.
    + by apply (finished_distance m g st HI Hend t n).
    + apply passable_valid. by eapply walk_valid.
  - intros t.
    destruct (TileMap.isValidTile m (x t) (y t)) eqn:Hv.
    + rewrite (getFlowFieldDistance_valid m); simpl; try done.
      by apply (finished_dichotomy m g st HI Hend).
    + left. by rewrite (getFlowFieldDistance_invalid m).
Qed.

(** The computed field holds every shortest distance that fits. *)
Lemma calculateFlowField_shortest (ff : FlowField.t) (g : TilePosition)
    (m : TileMap.t) :
  wfFlowField ff →
  FlowField.cols ff = TileMap.cols m → FlowField.rows ff = TileMap.rows m →
  passable m g = true →
  FlowField.target ff ≠ g →
  ∃ ff', calculateFlowField ff g m = Some ff'
    ∧ ∀ t n, shortestDistance m t g n → fits m n →
        getFlowFieldDistance ff' (x t) (y t) = Some n.
Proof.
  intros Hwf Ec Er Hg Hne.
  destruct (calculateFlowField_computes ff g m Hwf Ec Er Hg Hne)
    as (ff' & E & _ & _ & _ & _ & Hreach & _).
  exists ff'. split; [done|].
  intros t n Hs Hfit. apply shortestDistance_walk in Hs as (Hn & Hw & Hmin).
  destruct (Hreach t _ Hw) as (d & Hd & Hwd & Hlt & Hmind).
  { by rewrite Z2Nat.id. }
  pose proof (Hmin _ Hwd). pose proof (Hmind _ Hw).
  rewrite Hd. f_equal. lia.
Qed.

(** ** The local (Bellman) form of the distances *)

Lemma minimum_spec (l : list Z) :
  l ≠ [] → ∃ v, minimum l = Some v ∧ v ∈ l ∧ ∀ w, w ∈ l → v <= w.
Proof.
  destruct l as [|a l]; [done|]. intros _. simpl.
  exists (foldr Z.min a l). split; [done|].
  induction l as [|b l [IH1 IH2]]; simpl.
  - split; [by left|]. intros w Hw. apply list_elem_of_singleton in Hw. lia.
  - split.
    + destruct (Z.min_spec b (foldr Z.min a l)) as [[_ ->]|[_ ->]].
      * right. by left.
      * apply elem_of_cons in IH1 as [->|?]; [by left|]. right. by right.
    + intros w Hw. apply elem_of_cons in Hw as [->|Hw].
      * pose proof (IH2 a ltac:(left)). lia.
      * apply elem_of_cons in Hw as [->|Hw]; [lia|].
        pose proof (IH2 w ltac:(by right)). lia.
Qed.

Lemma walk_zero (m : TileMap.t) (g t : TilePosition) :
  walk m g t 0 → t = g.
Proof. by inversion 1. Qed.

(** C1 (amended).  For a flow field dimensioned like the map,
    [calculateFlowField] for a new, passable target [g] terminates and
    leaves: [0] at [g]; at every tile whose shortest 4-connected distance to
    [g] fits below the sentinel (as every distance does when the map has at
    most 65535 tiles) exactly that distance, which, away from [g], is one
    more than the least entry among the passable neighbours; and the
    sentinel [MAX_DISTANCE] at every tile that is 65535 or more steps away
    or from which [g] cannot be reached. *)
Theorem flow_field_exact (ff : FlowField.t) (g : TilePosition) (m : TileMap.t) :
  wfFlowField ff →
  FlowField.cols ff = TileMap.cols m → FlowField.rows ff = TileMap.rows m →
  passable m g = true →
  FlowField.target ff ≠ g →
  ∃ ff', calculateFlowField ff g m = Some ff'
    ∧ FlowField.target ff' = g
    ∧ getFlowFieldDistance ff' (x g) (y g) = Some 0
    ∧ (∀ t n, shortestDistance m t g n → fits m n →
         getFlowFieldDistance ff' (x t) (y t) = Some n)
    ∧ (∀ t n, shortestDistance m t g n → fits m n → t ≠ g →
         ∃ d, minimum (neighborDistances m ff' t) = Some d
            ∧ getFlowFieldDistance ff' (x t) (y t) = Some (1 + d))
    ∧ (∀ t n, shortestDistance m t g n → 65535 <= n →
         getFlowFieldDistance ff' (x t) (y t)
         = Some (FlowField.MAX_DISTANCE ff'))
    ∧ (∀ t, ¬ reachable m t g →
         getFlowFieldDistance ff' (x t) (y t)
         = Some (FlowField.MAX_DISTANCE ff')).
Proof.
  intros Hwf Ec Er Hg Hne.
  destruct (calculateFlowField_computes ff g m Hwf Ec Er Hg Hne)
    as (ff' & E & Ht & _ & _ & Hmax & Hreach & Hany).
  exists ff'. split; [done|]. split; [done|].
  assert (Hshort : ∀ t n, shortestDistance m t g n → fits m n →
            getFlowFieldDistance ff' (x t) (y t) = Some n
            ∧ walk m g t (Z.to_nat n) ∧ 0 <= n < 65535
            ∧ ∀ k, walk m g t k → (Z.to_nat n ≤ k)%nat).
  { intros t n Hs Hfit. apply shortestDistance_walk in Hs as (Hn & Hw & Hmin).
    destruct (Hreach t _ Hw) as (d & Hd & Hwd & Hlt & Hmind).
    { by rewrite Z2Nat.id. }
    pose proof (Hmin _ Hwd). pose proof (Hmind _ Hw).
    split; [|split; [done|split; [lia|done]]].
    rewrite Hd. f_equal. lia. }
  split; [|split; [|split; [|split]]].
  - destruct (Hreach g 0%nat (walk_here m g Hg)) as (d & Hd & _ & _ & Hmin).
    { left. simpl. lia. }
    rewrite Hd. f_equal. pose proof (Hmin 0%nat (walk_here m g Hg)). lia.
  - intros t n Hs Hfit. by apply Hshort.
  - intros t n Hs Hfit Htg.
    destruct (Hshort t n Hs Hfit) as (Hd & Hwd & Hn & Hmin).
    destruct (Z.to_nat n) as [|d'] eqn:En; [by apply walk_zero in Hwd|].
    clear Ht. inversion Hwd as [|u t' d'' Hwu Hadj Hpt]; subst.
    destruct (Hreach u d' Hwu) as (du & Hdu & Hwdu & _ & Hminu).
    { left. lia. }
    assert (Hin : Z.of_nat du ∈ neighborDistances m ff' t).
    { apply list_elem_of_omap. exists u. split.
      - by apply adjacent_sym in Hadj.
      - by rewrite (walk_valid _ _ _ _ Hwu). }
    destruct (minimum_spec (neighborDistances m ff' t)) as (v & Hv & Hvin & Hvmin).
    { intros E'. rewrite E' in Hin. by apply elem_of_nil in Hin. }
    exists v. split; [done|]. rewrite Hd. f_equal.
    pose proof (Hminu _ Hwu). pose proof (Hvmin _ Hin).
    apply list_elem_of_omap in Hvin as (u' & Hu' & Hf).
    destruct (passable m u') eqn:Hpu'; [|done].
    destruct (Hany u') as [Hsent|(du' & Hdu' & Hwdu' & _)].
    + rewrite Hsent in Hf. injection Hf as <-. lia.
    + rewrite Hdu' in Hf. injection Hf as <-.
      assert (Hback : walk m g t (S du')).
      { apply walk_step with u'; [done| |done]. by apply adjacent_sym. }
      pose proof (Hmin _ Hback). lia.
  - intros t n Hs Hfar. rewrite Hmax.
    apply shortestDistance_walk in Hs as (Hn & Hw & Hmin).
    destruct (Hany t) as [?|(d & _ & Hwd & Hlt & _)]; [done|].
    apply Hmin in Hwd. lia.
  - intros t Hno. rewrite Hmax.
    destruct (Hany t) as [?|(d & _ & Hwd & _)]; [done|].
    exfalso. apply Hno. apply reachable_walk. by exists d.
Qed.

(** ** Open maps and straight corridors *)

Lemma wfFlowField_fresh (c r : Z) :
  0 <= c → 0 <= r → wfFlowField (freshField c r).
Proof.
  intros Hc Hr. constructor; simpl; try done.
  rewrite length_replicate. nia.
Qed.

Lemma passable_openMap (c r : Z) (t : TilePosition) :
  0 <= x t < c → 0 <= y t < r → passable (openMap c r) t = true.
Proof.
  intros Hx Hy. unfold passable.
  assert (Hv : TileMap.isValidTile (openMap c r) (x t) (y t) = true).
  { apply isValidTile_spec. simpl. lia. }
  rewrite Hv. simpl.
  unfold TileMap.isSolid, TileMap.getTile. simpl.
  destruct (Z.ltb_spec (x t) 0); [lia|].
  destruct (Z.geb_spec (x t) c); [lia|].
  destruct (Z.ltb_spec (y t) 0); [lia|].
  destruct (Z.geb_spec (y t) r); [lia|]. simpl.
  assert (arrayGet (replicate (Z.to_nat (c * r)) 0) (y t * c + x t) = Some 0) as ->.
  { apply arrayGet_Some. split; [nia|]. apply lookup_replicate_2. nia. }
  reflexivity.
Qed.

(** No walk is shorter than the Manhattan distance of its ends. *)
Lemma walk_manhattan (m : TileMap.t) (g t : TilePosition) (n : nat) :
  walk m g t n → Z.abs (x t - x g) + Z.abs (y t - y g) <= Z.of_nat n.
Proof.
  induction 1 as [|t u n Hw IH Hadj Hp]; [lia|].
  apply adjacent_cases in Hadj. lia.
Qed.

Lemma walk_corridor (c : Z) (n : nat) :
  Z.of_nat n < c →
  walk (openMap c 1) (mkTile 0 0) (mkTile (Z.of_nat n) 0) n.
Proof.
  induction n as [|n IH]; intros Hn.
  - apply walk_here. apply passable_openMap; simpl; lia.
  - apply walk_step with (mkTile (Z.of_nat n) 0).
    + apply IH. lia.
    + apply adjacent_cases. simpl. lia.
    + apply passable_openMap; simpl; lia.
Qed.

Lemma shortestDistance_corridor (c d : Z) :
  0 <= d < c →
  shortestDistance (openMap c 1) (mkTile d 0) (mkTile 0 0) d.
Proof.
  intros Hd. apply shortestDistance_walk. split; [lia|]. split.
  - pose proof (walk_corridor c (Z.to_nat d) ltac:(lia)) as Hw.
    by rewrite Z2Nat.id in Hw by lia.
  - intros k Hk. apply walk_manhattan in Hk. simpl in Hk. lia.
Qed.

(** The scenario of the specification: target (5, 5) on the open 10 x 10
    grid. *)
Example flow_field_open_grid :
  (ff ← calculateFlowField (freshField 10 10) (mkTile 5 5) (openMap 10 10);
   Some (getFlowFieldDistance ff 5 5, getFlowFieldDistance ff 5 6,
         getFlowFieldDistance ff 0 0))
  = Some (Some 0, Some 1, Some 10).
Proof. vm_compute. reflexivity. Qed.

(** C1, as stated, fails on a corridor of 65537 tiles: its far end is 65536
    steps from the target, a distance the 16-bit array cannot hold, and keeps
    the sentinel 65535. *)
Lemma flow_field_saturates :
  ∃ ff', calculateFlowField (freshField 65537 1) (mkTile 0 0) (openMap 65537 1)
         = Some ff'
    ∧ passable (openMap 65537 1) (mkTile 65536 0) = true
    ∧ shortestDistance (openMap 65537 1) (mkTile 65536 0) (mkTile 0 0) 65536
    ∧ getFlowFieldDistance ff' 65536 0 = Some 65535
    ∧ getFlowFieldDistance ff' 65536 0 ≠ Some 65536.
Proof.
  destruct (calculateFlowField_computes (freshField 65537 1) (mkTile 0 0)
              (openMap 65537 1))
    as (ff' & E & _ & _ & _ & _ & _ & Hany).
  - apply wfFlowField_fresh; lia.
  - done.
  - done.
  - apply passable_openMap; simpl; lia.
  - simpl. intros [=].
  - exists ff'. split; [exact E|].
    split; [apply passable_openMap; simpl; lia|].
    split; [apply shortestDistance_corridor; lia|].
    assert (H : getFlowFieldDistance ff' 65536 0 = Some 65535).
    { destruct (Hany (mkTile 65536 0)) as [?|(d & _ & Hw & Hlt & _)]; [done|].
      apply walk_manhattan in Hw. simpl in Hw. lia. }
    split; [exact H|]. rewrite H. intros [=].
Qed.

(** Instance: the open 10 x 10 map with target (5, 5). *)
Lemma flow_field_exact_witness :
  ∃ ff', calculateFlowField (freshField 10 10) (mkTile 5 5) (openMap 10 10)
         = Some ff'
    ∧ getFlowFieldDistance ff' 5 5 = Some 0.
Proof.
  destruct (flow_field_exact (freshField 10 10) (mkTile 5 5) (openMap 10 10))
    as (ff' & E & _ & H0 & _).
  - constructor; simpl; try lia; reflexivity.
  - reflexivity.
  - reflexivity.
  - reflexivity.
  - simpl. intros [=].
  - exists ff'. split; [exact E|exact H0].
Defined.

(** ** [calculateFlowField] on an invalid target *)

Lemma target_test_true (ff : FlowField.t) :
  bool_decide (x (FlowField.target ff) = x (FlowField.target ff))
  && bool_decide (y (FlowField.target ff) = y (FlowField.target ff)) = true.
Proof. by rewrite !bool_decide_eq_true_2. Qed.

(** C9.  A request for a new target that is out of bounds or solid fills the
    whole array with the sentinel and keeps the stored target; afterwards
    every distance query answers the sentinel, and a request for the stored
    target is skipped, leaving the all-sentinel array in place. *)
Theorem invalid_target_clears (ff : FlowField.t) (g : TilePosition)
    (m : TileMap.t) :
  wfFlowField ff →
  FlowField.target ff ≠ g →
  TileMap.isValidTile m (x g) (y g) = false
  ∨ TileMap.isSolid m (x g) (y g) = true →
  ∃ ff', calculateFlowField ff g m = Some ff'
    ∧ FlowField.target ff' = FlowField.target ff
    ∧ length (FlowField.distances ff') = length (FlowField.distances ff)
    ∧ Forall (λ v, v = FlowField.MAX_DISTANCE ff') (FlowField.distances ff')
    ∧ (∀ px py, getFlowFieldDistance ff' px py
                = Some (FlowField.MAX_DISTANCE ff'))
    ∧ (∀ m', calculateFlowField ff' (FlowField.target ff) m' = Some ff').
Proof.
  intros [Hc Hr Hlen Hmax] Hne Hbad.
  unfold calculateFlowField at 1.
  rewrite (target_test_false _ _ Hne).
  assert (negb (TileMap.isValidTile m (x g) (y g))
          || TileMap.isSolid m (x g) (y g) = true) as ->.
  { destruct Hbad as [-> | ->]; [done|apply orb_true_r]. }
  eexists. split; [done|]. simpl.
  split; [done|]. split; [apply length_uint16Fill|]. split; [|split].
  - rewrite Hmax. apply Forall_forall. intros v Hv.
    by apply elem_of_replicate in Hv as [-> _].
  - intros px py. unfold getFlowFieldDistance. simpl.
    destruct (Z.ltb_spec px 0); [done|].
    destruct (Z.geb_spec px (FlowField.cols ff)); [done|].
    destruct (Z.ltb_spec py 0); [done|].
    destruct (Z.geb_spec py (FlowField.rows ff)); [done|]. simpl.
    rewrite arrayGet_uint16Fill; [by rewrite Hmax|]. nia.
  - intros m'. unfold calculateFlowField.
    cbn [FlowField.target]. by rewrite target_test_true.
Qed.

(** Instance: a request for tile (20, 20), outside the open 10 x 10 map. *)
Lemma invalid_target_clears_witness :
  ∃ ff', calculateFlowField (freshField 10 10) (mkTile 20 20) (openMap 10 10)
         = Some ff'
    ∧ getFlowFieldDistance ff' 5 5 = Some (FlowField.MAX_DISTANCE ff').
Proof.
  destruct (invalid_target_clears (freshField 10 10) (mkTile 20 20)
              (openMap 10 10))
    as (ff' & E & _ & _ & _ & Hq & _).
  - constructor; simpl; try lia; reflexivity.
  - simpl. intros [=].
  - left. reflexivity.
  - exists ff'. split; [exact E|apply Hq].
Defined.

(** * A* path finding *)

(** ** Sorting the open set *)

Lemma insertByF_perm (n : PathNode.t) (l : list PathNode.t) :
  insertByF n l ≡ₚ n :: l.
Proof.
  induction l as [|a l IH]; simpl; [done|].
  destruct (PathNode.f n <=? PathNode.f a); [done|].
  rewrite IH. apply Permutation_swap.
Qed.

Lemma sortByF_perm (l : list PathNode.t) : sortByF l ≡ₚ l.
Proof.
  induction l as [|a l IH]; simpl; [done|].
  by rewrite insertByF_perm, IH.
Qed.

Lemma insertByF_head (n : PathNode.t) (l : list PathNode.t)
    (c : PathNode.t) (rest : list PathNode.t) :
  match l with
  | [] => True
  | a :: r => ∀ b, b ∈ r → PathNode.f a <= PathNode.f b
  end →
  insertByF n l = c :: rest →
  ∀ b, b ∈ rest → PathNode.f c <= PathNode.f b.
Proof.
  destruct l as [|a r]; simpl.
  - intros _ [= <- <-] b Hb. by apply elem_of_nil in Hb.
  - intros Hmin. destruct (Z.leb_spec (PathNode.f n) (PathNode.f a)).
    + intros [= <- <-] b Hb. apply elem_of_cons in Hb as [->|Hb]; [done|].
      pose proof (Hmin b Hb). lia.
    + intros [= <- <-] b Hb.
      rewrite insertByF_perm in Hb.
      apply elem_of_cons in Hb as [->|Hb]; [lia|by apply Hmin].
Qed.

Lemma sortByF_head (l : list PathNode.t) (c : PathNode.t)
    (rest : list PathNode.t) :
  sortByF l = c :: rest → ∀ b, b ∈ rest → PathNode.f c <= PathNode.f b.
Proof.
  revert c rest. induction l as [|a l IH]; simpl; [done|].
  intros c rest E. eapply insertByF_head; [|exact E].
  destruct (sortByF l) as [|a' r'] eqn:E'; [done|]. by apply IH.
Qed.

Lemma sortByF_nil (l : list PathNode.t) : sortByF l = [] → l = [].
Proof.
  intros E. apply Permutation_nil_r. rewrite <- E. by rewrite sortByF_perm.
Qed.

(** ** The heuristic *)

Lemma heuristic_consistent (a b : TilePosition) (gx gy : Z) :
  adjacent a b →
  heuristic (x a) (y a) gx gy <= 1 + heuristic (x b) (y b) gx gy.
Proof. intros H. apply adjacent_cases in H. unfold heuristic. lia. Qed.

(** ** Paths behind the nodes *)

Lemma reconstructFrom_acc (n : PathNode.t) (acc acc' : list TilePosition) :
  reconstructFrom n (acc ++ acc') = reconstructFrom n acc ++ acc'.
Proof.
  revert n acc. fix IH 1. intros [nx ny ng nh nf [p|]] acc; simpl.
  - apply (IH p (mkTile nx ny :: acc)).
  - done.
Qed.

Lemma reconstructPath_step (nx ny ng nh nf : Z) (p : PathNode.t) :
  reconstructPath (PathNode.mk nx ny ng nh nf (Some p))
  = reconstructPath p ++ [mkTile nx ny].
Proof.
  unfold reconstructPath. simpl.
  apply (reconstructFrom_acc p [] [mkTile nx ny]).
Qed.

Lemma lineage_g_nonneg (m : TileMap.t) (sx sy gx gy : Z) (n : PathNode.t) :
  lineage m sx sy gx gy n → 0 <= PathNode.g n.
Proof. induction 1; simpl; lia. Qed.

Lemma lineage_f (m : TileMap.t) (sx sy gx gy : Z) (n : PathNode.t) :
  lineage m sx sy gx gy n →
  PathNode.f n
  = PathNode.g n + heuristic (PathNode.x n) (PathNode.y n) gx gy.
Proof. by destruct 1. Qed.

(** The path rebuilt from a node starts at the start tile, ends at the
    node's tile, takes [g] steps, and beyond its first tile runs through
    passable tiles only. *)
Lemma lineage_path (m : TileMap.t) (sx sy gx gy : Z) (n : PathNode.t) :
  lineage m sx sy gx gy n →
  head (reconstructPath n) = Some (mkTile sx sy)
  ∧ last (reconstructPath n) = Some (nodeTile n)
  ∧ chain (reconstructPath n)
  ∧ Forall (λ t, passable m t = true) (tail (reconstructPath n))
  ∧ Z.of_nat (length (reconstructPath n)) = PathNode.g n + 1.
Proof.
  induction 1 as [|p nx ny Hl (Hh & Hla & Hc & Hf & Hlen) Hadj Hp].
  - unfold reconstructPath. simpl. by repeat split.
  - rewrite reconstructPath_step. apply last_Some in Hla as [pre Epre].
    rewrite Epre in *. split; [|split; [|split; [|split]]].
    + rewrite head_app, Hh. done.
    + apply last_snoc.
    + by apply chain_snoc.
    + destruct pre as [|a pre]; simpl in *.
      * by constructor.
      * apply Forall_app. split; [done|by constructor].
    + rewrite length_app, Nat2Z.inj_add, Hlen. simpl. lia.
Qed.

Lemma lineage_connects (m : TileMap.t) (sx sy gx gy : Z) (n : PathNode.t) :
  passable m (mkTile sx sy) = true →
  lineage m sx sy gx gy n →
  connects m (mkTile sx sy) (nodeTile n) (reconstructPath n).
Proof.
  intros Hs Hl. destruct (lineage_path _ _ _ _ _ _ Hl) as (Hh & Hla & Hc & Hf & _).
  split; [split|]; [|done|done].
  destruct (reconstructPath n) as [|a r]; [done|].
  simpl in *. injection Hh as ->. by constructor.
Qed.

(** ** One neighbour *)

Lemma findIndex_Some (nb : TilePosition) (open : list PathNode.t)
    (i : nat) (ex : PathNode.t) :
  findIndex nb open = Some (i, ex) → open !! i = Some ex ∧ nodeTile ex = nb.
Proof.
  unfold findIndex. intros H. apply list_find_Some in H as (Hi & [Hx Hy] & _).
  split; [done|]. unfold nodeTile. rewrite Hx, Hy. by destruct nb.
Qed.

Lemma findIndex_None (nb : TilePosition) (open : list PathNode.t) :
  findIndex nb open = None → nb ∉ nodeTile <$> open.
Proof.
  unfold findIndex. intros H Hin. apply list_find_None in H.
  apply list_elem_of_fmap in Hin as (n & -> & Hn).
  rewrite Forall_forall in H. by apply (H n Hn).
Qed.

(** The five ways [relaxNeighbor] can go. *)
Lemma relaxNeighbor_cases (m : TileMap.t) (gx gy : Z) (cur : PathNode.t)
    (closed : gset (Z * Z)) (open : list PathNode.t) (nb : TilePosition) :
  let r := relaxNeighbor m gx gy cur closed open nb in
  (passable m nb = false ∧ r = open)
  ∨ (passable m nb = true ∧ getKey (x nb) (y nb) ∈ closed ∧ r = open)
  ∨ (passable m nb = true ∧ (getKey (x nb) (y nb) ∉ closed)
     ∧ findIndex nb open = None ∧ r = open ++ [childNode gx gy cur nb])
  ∨ (passable m nb = true ∧ (getKey (x nb) (y nb) ∉ closed)
     ∧ ∃ i ex, findIndex nb open = Some (i, ex)
         ∧ PathNode.g ex <= PathNode.g cur + 1 ∧ r = open)
  ∨ (passable m nb = true ∧ (getKey (x nb) (y nb) ∉ closed)
     ∧ ∃ i ex, findIndex nb open = Some (i, ex)
         ∧ PathNode.g cur + 1 < PathNode.g ex
         ∧ r = <[i := improvedNode gx gy cur nb ex]> open).
Proof.
  unfold relaxNeighbor. rewrite invalid_test.
  destruct (passable m nb) eqn:Hp; simpl; [|by left].
  right. destruct (decide (getKey (x nb) (y nb) ∈ closed)) as [Hc|Hc].
  - rewrite bool_decide_eq_true_2 by done. by left.
  - rewrite bool_decide_eq_false_2 by done. right.
    destruct (findIndex nb open) as [[i ex]|] eqn:Hf.
    + right. destruct (Z.ltb_spec (PathNode.g cur + 1) (PathNode.g ex)).
      * right. split; [done|]. split; [done|]. by exists i, ex.
      * left. split; [done|]. split; [done|]. by exists i, ex.
    + left. done.
Qed.

Lemma elem_of_insert_inv {A} (l : list A) (i : nat) (a b : A) :
  b ∈ <[i := a]> l → b = a ∨ b ∈ l.
Proof.
  intros H. apply list_elem_of_lookup in H as [j Hj].
  destruct (decide (i = j)) as [->|Hne].
  - destruct (decide (j < length l)%nat).
    + rewrite list_lookup_insert_eq in Hj by done. left. congruence.
    + rewrite list_insert_ge in Hj by lia. right. by eapply list_elem_of_lookup_2.
  - rewrite list_lookup_insert_ne in Hj by done.
    right. by eapply list_elem_of_lookup_2.
Qed.

Lemma relaxNeighbor_lineage (m : TileMap.t) (sx sy gx gy : Z)
    (cur : PathNode.t) (closed : gset (Z * Z)) (open : list PathNode.t)
    (nb : TilePosition) :
  lineage m sx sy gx gy cur →
  adjacent (nodeTile cur) nb →
  (∀ n, n ∈ open → lineage m sx sy gx gy n) →
  ∀ n, n ∈ relaxNeighbor m gx gy cur closed open nb → lineage m sx sy gx gy n.
Proof.
  intros Hcur Hadj Hopen n.
  destruct (relaxNeighbor_cases m gx gy cur closed open nb)
    as [[_ ->]|[(_ & _ & ->)|[(Hp & _ & _ & ->)|[(_ & _ & i & ex & _ & _ & ->)
        |(Hp & _ & i & ex & Hf & _ & ->)]]]]; auto.
  - intros Hn. apply elem_of_app in Hn as [Hn|Hn]; [by apply Hopen|].
    apply list_elem_of_singleton in Hn as ->.
    destruct nb as [nx ny]. by apply lineage_step.
  - intros Hn. apply elem_of_insert_inv in Hn as [->|Hn]; [|by apply Hopen].
    apply findIndex_Some in Hf as [Hi Hex].
    assert (Hlex : lineage m sx sy gx gy ex).
    { apply Hopen. by eapply list_elem_of_lookup_2. }
    unfold improvedNode.
    assert (PathNode.h ex = heuristic (x nb) (y nb) gx gy) as ->.
    { rewrite <- Hex. by destruct Hlex. }
    assert (PathNode.x ex = x nb) as -> by (by rewrite <- Hex).
    assert (PathNode.y ex = y nb) as -> by (by rewrite <- Hex).
    destruct nb as [nx ny]. by apply lineage_step.
Qed.

Lemma improvedNode_tile (gx gy : Z) (cur ex : PathNode.t) (nb : TilePosition) :
  nodeTile (improvedNode gx gy cur nb ex) = nodeTile ex.
Proof. done. Qed.

Lemma relaxNeighbor_tiles (m : TileMap.t) (gx gy : Z)
    (cur : PathNode.t) (closed : gset (Z * Z)) (open : list PathNode.t)
    (nb : TilePosition) :
  nodeTile <$> relaxNeighbor m gx gy cur closed open nb = nodeTile <$> open
  ∨ ((nb ∉ nodeTile <$> open)
     ∧ (getKey (x nb) (y nb) ∉ closed)
     ∧ nodeTile <$> relaxNeighbor m gx gy cur closed open nb
       = (nodeTile <$> open) ++ [nb]).
Proof.
  destruct (relaxNeighbor_cases m gx gy cur closed open nb)
    as [[_ ->]|[(_ & _ & ->)|[(Hp & Hc & Hf & ->)|[(_ & _ & i & ex & _ & _ & ->)
        |(Hp & _ & i & ex & Hf & _ & ->)]]]]; auto.
  - right. split; [by apply findIndex_None|]. split; [done|].
    rewrite fmap_app. simpl. by destruct nb.
  - left. apply findIndex_Some in Hf as [Hi Hex].
    rewrite list_fmap_insert, improvedNode_tile.
    apply list_insert_id. by rewrite list_lookup_fmap, Hi.
Qed.

Lemma covered_mono (open : list PathNode.t) (v : TilePosition) (b b' : Z) :
  covered open v b → b <= b' → covered open v b'.
Proof. intros (n & ? & ? & ?) ?. exists n. split; [done|]. split; [done|lia]. Qed.

Lemma relaxNeighbor_covered (m : TileMap.t) (gx gy : Z)
    (cur : PathNode.t) (closed : gset (Z * Z)) (open : list PathNode.t)
    (nb v : TilePosition) (b : Z) :
  covered open v b →
  covered (relaxNeighbor m gx gy cur closed open nb) v b.
Proof.
  intros (n & Hn & Hv & Hb).
  destruct (relaxNeighbor_cases m gx gy cur closed open nb)
    as [[_ ->]|[(_ & _ & ->)|[(Hp & Hc & Hf & ->)|[(_ & _ & i & ex & _ & _ & ->)
        |(Hp & _ & i & ex & Hf & Hlt & ->)]]]]; try (by exists n).
  - exists n. split; [|done]. apply elem_of_app. by left.
  - apply findIndex_Some in Hf as [Hi Hex].
    apply list_elem_of_lookup in Hn as [j Hj].
    destruct (decide (i = j)) as [->|Hne].
    + assert (n = ex) as -> by congruence.
      exists (improvedNode gx gy cur nb ex). split; [|split; [done|simpl; lia]].
      eapply list_elem_of_lookup_2. apply list_lookup_insert_eq.
      by eapply lookup_lt_Some.
    + exists n. split; [|done]. eapply list_elem_of_lookup_2.
      by rewrite list_lookup_insert_ne.
Qed.

Lemma relaxNeighbor_covers (m : TileMap.t) (gx gy : Z)
    (cur : PathNode.t) (closed : gset (Z * Z)) (open : list PathNode.t)
    (nb : TilePosition) :
  passable m nb = true →
  getKey (x nb) (y nb) ∈ closed
  ∨ covered (relaxNeighbor m gx gy cur closed open nb) nb (PathNode.g cur + 1).
Proof.
  intros Hpass.
  destruct (relaxNeighbor_cases m gx gy cur closed open nb)
    as [[Hp _]|[(_ & Hc & _)|[(Hp & Hc & Hf & ->)|[(_ & _ & i & ex & Hf & Hle & ->)
        |(Hp & _ & i & ex & Hf & Hlt & ->)]]]].
  - congruence.
  - by left.
  - right. exists (childNode gx gy cur nb). split; [|split].
    + apply elem_of_app. right. by left.
    + by destruct nb.
    + simpl. lia.
  - right. apply findIndex_Some in Hf as [Hi Hex]. exists ex.
    split; [by eapply list_elem_of_lookup_2|done].
  - right. apply findIndex_Some in Hf as [Hi Hex].
    exists (improvedNode gx gy cur nb ex). split; [|split; [done|simpl; lia]].
    eapply list_elem_of_lookup_2. apply list_lookup_insert_eq.
    by eapply lookup_lt_Some.
Qed.

(** ** All four neighbours *)

Lemma relaxAll_lineage (m : TileMap.t) (sx sy gx gy : Z)
    (cur : PathNode.t) (closed : gset (Z * Z)) (nbs : list TilePosition) :
  ∀ open,
  lineage m sx sy gx gy cur →
  (∀ nb, nb ∈ nbs → adjacent (nodeTile cur) nb) →
  (∀ n, n ∈ open → lineage m sx sy gx gy n) →
  ∀ n, n ∈ fold_left (relaxNeighbor m gx gy cur closed) nbs open →
       lineage m sx sy gx gy n.
Proof.
  induction nbs as [|nb nbs IH]; intros open Hcur Hadj Hopen; simpl; [done|].
  apply IH; [done| |].
  - intros nb' Hnb'. apply Hadj. by right.
  - apply (relaxNeighbor_lineage m sx sy); [done| |done]. apply Hadj. by left.
Qed.

Lemma relaxAll_tiles (m : TileMap.t) (gx gy : Z)
    (cur : PathNode.t) (closed : gset (Z * Z)) (nbs : list TilePosition) :
  ∀ open,
  NoDup (nodeTile <$> open) →
  (∀ t, t ∈ nodeTile <$> open → getKey (x t) (y t) ∉ closed) →
  let open' := fold_left (relaxNeighbor m gx gy cur closed) nbs open in
  NoDup (nodeTile <$> open')
  ∧ ∀ t, t ∈ nodeTile <$> open' → getKey (x t) (y t) ∉ closed.
Proof.
  induction nbs as [|nb nbs IH]; intros open Hnd Hdis; simpl; [done|].
  apply IH.
  - destruct (relaxNeighbor_tiles m gx gy cur closed open nb)
      as [->|(Hnin & _ & ->)]; [done|].
    apply NoDup_app. split; [done|]. split; [|apply NoDup_singleton].
    intros t Ht Ht'. apply list_elem_of_singleton in Ht' as ->. done.
  - intros t. destruct (relaxNeighbor_tiles m gx gy cur closed open nb)
      as [->|(_ & Hc & ->)]; [by apply Hdis|].
    intros Ht. apply elem_of_app in Ht as [Ht|Ht]; [by apply Hdis|].
    by apply list_elem_of_singleton in Ht as ->.
Qed.

Lemma relaxAll_covered (m : TileMap.t) (gx gy : Z)
    (cur : PathNode.t) (closed : gset (Z * Z)) (nbs : list TilePosition)
    (v : TilePosition) (b : Z) :
  ∀ open, covered open v b →
  covered (fold_left (relaxNeighbor m gx gy cur closed) nbs open) v b.
Proof.
  induction nbs as [|nb nbs IH]; intros open Hc; simpl; [done|].
  apply IH. by apply relaxNeighbor_covered.
Qed.

Lemma relaxAll_covers (m : TileMap.t) (gx gy : Z)
    (cur : PathNode.t) (closed : gset (Z * Z)) (nbs : list TilePosition) :
  ∀ open nb, nb ∈ nbs → passable m nb = true →
  getKey (x nb) (y nb) ∈ closed
  ∨ covered (fold_left (relaxNeighbor m gx gy cur closed) nbs open) nb
            (PathNode.g cur + 1).
Proof.
  induction nbs as [|nb0 nbs IH]; intros open nb Hnb Hp; simpl.
  - by apply elem_of_nil in Hnb.
  - apply elem_of_cons in Hnb as [->|Hnb]; [|by apply IH].
    destruct (relaxNeighbor_covers m gx gy cur closed open nb0 Hp) as [?|Hc];
      [by left|].
    right. by apply relaxAll_covered.
Qed.

(** ** The node taken from the open set is reached optimally *)

Lemma getKey_inj (a b : TilePosition) :
  getKey (x a) (y a) = getKey (x b) (y b) → a = b.
Proof. destruct a, b. unfold getKey. simpl. by intros [= -> ->]. Qed.

Lemma search_frontier (m : TileMap.t) (sx sy gx gy : Z) (st : SearchState) :
  searchInv m sx sy gx gy st →
  ∀ t k, walk m (mkTile sx sy) t k →
    getKey (x t) (y t) ∈ closedSet st
    ∨ ∃ n, n ∈ openSet st
         ∧ PathNode.f n <= Z.of_nat k + heuristic (x t) (y t) gx gy.
Proof.
  intros I t k Hw. induction Hw as [Hs|t u k Hw IH Hadj Hp].
  - destruct (sinv_start _ _ _ _ _ _ I) as [?|(n & Hn & Ht & Hg)]; [by left|].
    right. exists n. split; [done|].
    rewrite (lineage_f _ _ _ _ _ _ (sinv_lineage _ _ _ _ _ _ I n Hn)).
    change (PathNode.x n) with (x (nodeTile n)).
    change (PathNode.y n) with (y (nodeTile n)).
    rewrite Ht. simpl. lia.
  - pose proof (heuristic_consistent t u gx gy Hadj) as Hcons.
    destruct IH as [Hc|(n & Hn & Hf)].
    + destruct (sinv_frontier _ _ _ _ _ _ I t k Hc Hw u Hadj Hp)
        as [?|(n & Hn & Ht & Hg)]; [by left|].
      right. exists n. split; [done|].
      rewrite (lineage_f _ _ _ _ _ _ (sinv_lineage _ _ _ _ _ _ I n Hn)).
      change (PathNode.x n) with (x (nodeTile n)).
      change (PathNode.y n) with (y (nodeTile n)).
      rewrite Ht. lia.
    + right. exists n. split; [done|]. lia.
Qed.

Lemma pop_optimal (m : TileMap.t) (sx sy gx gy : Z) (st : SearchState)
    (c : PathNode.t) :
  searchInv m sx sy gx gy st →
  c ∈ openSet st →
  (∀ n, n ∈ openSet st → PathNode.f c <= PathNode.f n) →
  ∀ k, walk m (mkTile sx sy) (nodeTile c) k → PathNode.g c <= Z.of_nat k.
Proof.
  intros I Hc Hmin k Hw.
  destruct (search_frontier m sx sy gx gy st I _ _ Hw) as [Hcl|(n & Hn & Hf)].
  - by apply (sinv_disjoint _ _ _ _ _ _ I c Hc) in Hcl.
  - pose proof (Hmin n Hn).
    rewrite (lineage_f _ _ _ _ _ _ (sinv_lineage _ _ _ _ _ _ I c Hc)) in *.
    simpl in Hf. lia.
Qed.

(** ** The search loop maintains its invariant *)

Lemma lineage_valid (m : TileMap.t) (sx sy gx gy : Z) (n : PathNode.t) :
  passable m (mkTile sx sy) = true →
  lineage m sx sy gx gy n →
  passable m (nodeTile n) = true.
Proof. intros Hs Hl. by destruct Hl. Qed.

Lemma initial_searchInv (m : TileMap.t) (sx sy gx gy : Z) :
  searchInv m sx sy gx gy
    (mkSearch [PathNode.mk sx sy 0 (heuristic sx sy gx gy)
                           (0 + heuristic sx sy gx gy) None] ∅ 0).
Proof.
  constructor; simpl.
  - intros n Hn. apply list_elem_of_singleton in Hn as ->. constructor.
  - apply NoDup_singleton.
  - intros n _. apply not_elem_of_empty.
  - apply not_elem_of_empty.
  - intros k Hk. by apply not_elem_of_empty in Hk.
  - done.
  - right. eexists. split; [by left|]. done.
  - intros u k Hu. by apply not_elem_of_empty in Hu.
Qed.

Lemma search_step_inv (m : TileMap.t) (sx sy gx gy : Z) (st : SearchState)
    (c : PathNode.t) (rest : list PathNode.t) :
  passable m (mkTile sx sy) = true →
  searchInv m sx sy gx gy st →
  sortByF (openSet st) = c :: rest →
  nodeTile c ≠ mkTile gx gy →
  searchInv m sx sy gx gy
    (mkSearch
       (fold_left
          (relaxNeighbor m gx gy c
             (closedSet st ∪ {[getKey (PathNode.x c) (PathNode.y c)]}))
          (neighbors (PathNode.x c) (PathNode.y c)) rest)
       (closedSet st ∪ {[getKey (PathNode.x c) (PathNode.y c)]})
       (iterations st + 1)).
Proof.
  intros Hs I Hsort Hgoal.
  pose proof (sortByF_perm (openSet st)) as Hperm. rewrite Hsort in Hperm.
  assert (Hmem : ∀ n, n ∈ openSet st ↔ n = c ∨ n ∈ rest).
  { intros n. rewrite <- Hperm. apply elem_of_cons. }
  assert (Hc : c ∈ openSet st) by (apply Hmem; by left).
  assert (Hlc : lineage m sx sy gx gy c) by (by apply (sinv_lineage _ _ _ _ _ _ I)).
  assert (Hnd : NoDup (nodeTile c :: (nodeTile <$> rest))).
  { change (NoDup (nodeTile <$> c :: rest)). rewrite Hperm. apply I. }
  apply NoDup_cons in Hnd as [Hcnin Hnd].
  assert (Hmin : ∀ n, n ∈ openSet st → PathNode.f c <= PathNode.f n).
  { intros n Hn. apply Hmem in Hn as [->|Hn]; [lia|].
    by apply (sortByF_head _ _ _ Hsort). }
  assert (Hckey : getKey (PathNode.x c) (PathNode.y c) ∉ closedSet st)
    by (by apply (sinv_disjoint _ _ _ _ _ _ I)).
  set (closed := closedSet st ∪ {[getKey (PathNode.x c) (PathNode.y c)]}).
  assert (Hin_closed : ∀ t, getKey (x t) (y t) ∈ closed
            ↔ getKey (x t) (y t) ∈ closedSet st ∨ t = nodeTile c).
  { intros t. unfold closed. rewrite elem_of_union, elem_of_singleton.
    split; (intros [?|H]; [by left|right]).
    - by apply getKey_inj.
    - by rewrite H. }
  assert (Hcov_rest : ∀ v b, covered (openSet st) v b →
            getKey (x v) (y v) ∈ closed ∨ covered rest v b).
  { intros v b (n & Hn & Hv & Hb). apply Hmem in Hn as [->|Hn].
    - left. apply Hin_closed. by right.
    - right. by exists n. }
  destruct (relaxAll_tiles m gx gy c closed
              (neighbors (PathNode.x c) (PathNode.y c)) rest Hnd)
    as [Hnd' Hdis'].
  { intros t Ht Hcl. apply Hin_closed in Hcl as [Hcl| ->]; [|done].
    apply list_elem_of_fmap in Ht as (n & -> & Hn).
    apply (sinv_disjoint _ _ _ _ _ _ I n); [|done]. apply Hmem. by right. }
  constructor; cbn [openSet closedSet iterations]; fold closed.
  - apply (relaxAll_lineage m sx sy); [done|done|].
    intros n Hn. apply (sinv_lineage _ _ _ _ _ _ I). apply Hmem. by right.
  - exact Hnd'.
  - intros n Hn. apply (Hdis' (nodeTile n)).
    apply list_elem_of_fmap. by exists n.
  - intros Hg. apply (Hin_closed (mkTile gx gy)) in Hg as [Hg|Hg].
    + by apply (sinv_goal _ _ _ _ _ _ I).
    + by apply Hgoal.
  - intros k Hk. unfold closed in Hk.
    apply elem_of_union in Hk as [Hk|Hk]; [by apply (sinv_closed _ _ _ _ _ _ I)|].
    apply elem_of_singleton in Hk as ->. simpl.
    apply (passable_valid m (nodeTile c)). by apply (lineage_valid m sx sy gx gy).
  - unfold closed. rewrite size_union by set_solver.
    rewrite size_singleton, <- (sinv_size _ _ _ _ _ _ I). lia.
  - destruct (sinv_start _ _ _ _ _ _ I) as [Hcl|Hcov].
    + left. apply (Hin_closed (mkTile sx sy)). by left.
    + destruct (Hcov_rest _ _ Hcov) as [?|Hcov']; [by left|].
      right. by apply relaxAll_covered.
  - intros u k Hu Hw v Hadj Hp.
    apply Hin_closed in Hu as [Hu| ->].
    + destruct (sinv_frontier _ _ _ _ _ _ I u k Hu Hw v Hadj Hp) as [Hcl|Hcov].
      * left. apply Hin_closed. by left.
      * destruct (Hcov_rest _ _ Hcov) as [?|Hcov']; [by left|].
        right. by apply relaxAll_covered.
    + pose proof (pop_optimal m sx sy gx gy st c I Hc Hmin k Hw) as Hopt.
      destruct (relaxAll_covers m gx gy c closed
                  (neighbors (PathNode.x c) (PathNode.y c)) rest v Hadj Hp)
        as [?|Hcov]; [by left|].
      right. apply covered_mono with (PathNode.g c + 1); [done|lia].
Qed.

Lemma goal_test (c : PathNode.t) (gx gy : Z) :
  bool_decide (PathNode.x c = gx) && bool_decide (PathNode.y c = gy) = true
  ↔ nodeTile c = mkTile gx gy.
Proof.
  rewrite andb_true_iff, !bool_decide_eq_true. unfold nodeTile. split.
  - by intros [-> ->].
  - by intros [= -> ->].
Qed.

(** Whatever path the loop returns is a shortest path. *)
Lemma searchLoop_sound (m : TileMap.t) (sx sy gx gy : Z) (budget : nat) :
  ∀ st p st',
  passable m (mkTile sx sy) = true →
  searchInv m sx sy gx gy st →
  searchLoop budget m gx gy st = (Some p, st') →
  connects m (mkTile sx sy) (mkTile gx gy) p
  ∧ ∀ k, walk m (mkTile sx sy) (mkTile gx gy) k →
         Z.of_nat (length p) <= Z.of_nat k + 1.
Proof.
  induction budget as [|budget IH]; intros st p st' Hs I; simpl; [done|].
  destruct (sortByF (openSet st)) as [|c rest] eqn:Hsort; [done|].
  destruct (bool_decide (PathNode.x c = gx) && bool_decide (PathNode.y c = gy))
    eqn:Hgoal.
  - intros [= <- <-]. apply goal_test in Hgoal.
    pose proof (sortByF_perm (openSet st)) as Hperm. rewrite Hsort in Hperm.
    assert (Hc : c ∈ openSet st) by (rewrite <- Hperm; by left).
    pose proof (sinv_lineage _ _ _ _ _ _ I c Hc) as Hlc.
    split.
    + rewrite <- Hgoal. by apply (lineage_connects m sx sy gx gy).
    + intros k Hw. rewrite <- Hgoal in Hw.
      destruct (lineage_path _ _ _ _ _ _ Hlc) as (_ & _ & _ & _ & ->).
      assert (PathNode.g c <= Z.of_nat k); [|lia].
      apply (pop_optimal m sx sy gx gy st c I Hc); [|done].
      intros n Hn. rewrite <- Hperm in Hn.
      apply elem_of_cons in Hn as [->|Hn]; [lia|].
      by apply (sortByF_head _ _ _ Hsort).
  - apply IH; [done|]. apply search_step_inv; [done|done|done|].
    intros E. apply goal_test in E. congruence.
Qed.

(** ** The search finds a path when there is one *)

Lemma closed_size_bound (m : TileMap.t) (closed : gset (Z * Z)) (gx gy : Z) :
  (∀ k, k ∈ closed → TileMap.isValidTile m k.1 k.2 = true) →
  TileMap.isValidTile m gx gy = true →
  getKey gx gy ∉ closed →
  Z.of_nat (size closed) + 1 <= TileMap.cols m * TileMap.rows m.
Proof.
  intros Hval Hg Hnin.
  set (tiles := (λ k : Z * Z, mkTile k.1 k.2) <$> elements closed).
  assert (Hlen : length tiles = size closed) by apply length_fmap.
  assert (Hb : Z.of_nat (length (mkTile gx gy :: tiles))
               <= TileMap.cols m * TileMap.rows m).
  { apply tiles_bounded.
    - apply isValidTile_spec in Hg. nia.
    - constructor.
      + intros Hin. apply list_elem_of_fmap in Hin as ([a b] & E & Hk).
        simpl in E. injection E as -> ->. by apply elem_of_elements in Hk.
      + apply NoDup_fmap_2; [|apply NoDup_elements].
        intros [a b] [a' b']. simpl. by intros [= -> ->].
    - intros t Ht. apply elem_of_cons in Ht as [->|Ht]; [done|].
      apply list_elem_of_fmap in Ht as (k & -> & Hk). simpl.
      apply Hval. by apply elem_of_elements. }
  simpl in Hb. lia.
Qed.

Lemma searchLoop_complete (m : TileMap.t) (sx sy gx gy : Z) (k : nat)
    (budget : nat) :
  ∀ st,
  passable m (mkTile sx sy) = true →
  walk m (mkTile sx sy) (mkTile gx gy) k →
  searchInv m sx sy gx gy st →
  TileMap.cols m * TileMap.rows m <= Z.of_nat budget + iterations st →
  ∃ p st', searchLoop budget m gx gy st = (Some p, st').
Proof.
  intros st Hs Hw. revert st.
  assert (Hgv : TileMap.isValidTile m gx gy = true).
  { apply (passable_valid m (mkTile gx gy)). by eapply walk_valid. }
  induction budget as [|budget IH]; intros st I Hb.
  - pose proof (closed_size_bound m (closedSet st) gx gy
                  (sinv_closed _ _ _ _ _ _ I) Hgv (sinv_goal _ _ _ _ _ _ I)).
    rewrite (sinv_size _ _ _ _ _ _ I) in *. lia.
  - simpl. destruct (sortByF (openSet st)) as [|c rest] eqn:Hsort.
    + apply sortByF_nil in Hsort.
      destruct (search_frontier m sx sy gx gy st I _ _ Hw) as [Hcl|(n & Hn & _)].
      * by apply (sinv_goal _ _ _ _ _ _ I) in Hcl.
      * rewrite Hsort in Hn. by apply elem_of_nil in Hn.
    + destruct (bool_decide (PathNode.x c = gx)
                && bool_decide (PathNode.y c = gy)) eqn:Hgoal.
      * by eexists _, _.
      * apply IH.
        -- apply search_step_inv; [done|done|done|].
           intros E. apply goal_test in E. congruence.
        -- simpl. lia.
Qed.

(** ** [findPath] *)

Lemma findPath_unfold (sx sy gx gy : Z) (m : TileMap.t) (maxIterations : Z) :
  findPath sx sy gx gy m maxIterations
  = if TileMap.isSolid m gx gy then None
    else if bool_decide (sx = gx) && bool_decide (sy = gy)
    then Some [mkTile sx gy]
    else
      (searchLoop (Z.to_nat maxIterations) m gx gy
         (mkSearch [PathNode.mk sx sy 0 (heuristic sx sy gx gy)
                                (0 + heuristic sx sy gx gy) None] ∅ 0)).1.
Proof.
  unfold findPath, findPathRun.
  destruct (TileMap.isSolid m gx gy); [done|].
  destruct (bool_decide (sx = gx) && bool_decide (sy = gy)); [done|].
  by destruct (searchLoop _ _ _ _ _).
Qed.

(** A path returned by [findPath] from a passable start is a path of the
    map from start to goal, and no path between them is shorter. *)
Lemma findPath_sound (sx sy gx gy : Z) (m : TileMap.t) (maxIterations : Z)
    (p : list TilePosition) :
  passable m (mkTile sx sy) = true →
  findPath sx sy gx gy m maxIterations = Some p →
  connects m (mkTile sx sy) (mkTile gx gy) p
  ∧ shortestDistance m (mkTile sx sy) (mkTile gx gy) (Z.of_nat (length p) - 1).
Proof.
  intros Hs. rewrite findPath_unfold.
  destruct (TileMap.isSolid m gx gy); [done|].
  destruct (bool_decide (sx = gx) && bool_decide (sy = gy)) eqn:Hsame.
  - intros [= <-]. apply andb_true_iff in Hsame as [Hx Hy].
    apply bool_decide_eq_true in Hx, Hy. subst gx gy.
    assert (Hc : connects m (mkTile sx sy) (mkTile sx sy) [mkTile sx sy]).
    { split; [split|]; [by constructor|done|done]. }
    split; [done|]. split.
    + exists [mkTile sx sy]. split; [done|simpl; lia].
    + intros q (_ & Hh & _). destruct q; [done|]. simpl. lia.
  - destruct (searchLoop _ _ _ _ _) as [r st'] eqn:E. simpl. intros ->.
    destruct (searchLoop_sound m sx sy gx gy _ _ _ _ Hs
                (initial_searchInv m sx sy gx gy) E) as [Hc Hmin].
    split; [done|]. split.
    + exists p. split; [done|lia].
    + intros q Hq.
      destruct q as [|a q']; [by destruct Hq as (_ & ? & _)|].
      assert (Hw : walk m (mkTile sx sy) (mkTile gx gy) (length q'))
        by (by apply path_walk with (a :: q')).
      apply Hmin in Hw. simpl. lia.
Qed.

(** [findPath] returns a path whenever one exists, provided its iteration
    allowance is at least the number of tiles of the map. *)
Lemma findPath_complete (sx sy gx gy : Z) (m : TileMap.t) (maxIterations : Z) :
  reachable m (mkTile sx sy) (mkTile gx gy) →
  TileMap.cols m * TileMap.rows m <= maxIterations →
  ∃ p, findPath sx sy gx gy m maxIterations = Some p.
Proof.
  intros [q Hq] Hbudget. rewrite findPath_unfold.
  assert (Hs : passable m (mkTile sx sy) = true).
  { destruct Hq as ([Hf _] & Hh & _). destruct q as [|a q]; [done|].
    injection Hh as ->. by apply Forall_cons in Hf as [? _]. }
  assert (Hg : passable m (mkTile gx gy) = true).
  { destruct Hq as ([Hf _] & _ & Hl). apply last_Some_elem_of in Hl.
    rewrite Forall_forall in Hf. by apply Hf. }
  pose proof (passable_not_solid m (mkTile gx gy) Hg) as Hns.
  simpl in Hns. rewrite Hns.
  destruct (bool_decide (sx = gx) && bool_decide (sy = gy)); [by eexists|].
  destruct q as [|a q']; [by destruct Hq as (_ & ? & _)|].
  assert (Hw : walk m (mkTile sx sy) (mkTile gx gy) (length q'))
    by (by apply path_walk with (a :: q')).
  destruct (searchLoop_complete m sx sy gx gy _ (Z.to_nat maxIterations) _
              Hs Hw (initial_searchInv m sx sy gx gy))
    as (p & st' & E).
  { simpl. lia. }
  rewrite E. by exists p.
Qed.

(** C2 (amended).  From a passable start, [findPath] returns a path whenever
    one exists and its iteration allowance is at least the number of tiles
    of the map; and whenever it returns a path, that path runs from start to
    goal over passable, 4-adjacent tiles, no path between them takes fewer
    steps and, if its number of steps fits below the 16-bit sentinel, that
    number is the distance the flow field computed for the goal holds at the
    start. *)
Theorem astar_matches_flow_field (ff : FlowField.t) (m : TileMap.t)
    (sx sy gx gy maxIterations : Z) :
  wfFlowField ff →
  FlowField.cols ff = TileMap.cols m → FlowField.rows ff = TileMap.rows m →
  FlowField.target ff ≠ mkTile gx gy →
  passable m (mkTile sx sy) = true →
  (reachable m (mkTile sx sy) (mkTile gx gy) →
   TileMap.cols m * TileMap.rows m <= maxIterations →
   ∃ p, findPath sx sy gx gy m maxIterations = Some p)
  ∧ ∀ p, findPath sx sy gx gy m maxIterations = Some p →
      connects m (mkTile sx sy) (mkTile gx gy) p
      ∧ shortestDistance m (mkTile sx sy) (mkTile gx gy)
                         (Z.of_nat (length p) - 1)
      ∧ (fits m (Z.of_nat (length p) - 1) →
         ∃ ff', calculateFlowField ff (mkTile gx gy) m = Some ff'
              ∧ getFlowFieldDistance ff' sx sy
                = Some (Z.of_nat (length p) - 1)).
Proof.
  intros Hwf Ec Er Hne Hs. split.
  - apply findPath_complete.
  - intros p Hp.
    destruct (findPath_sound sx sy gx gy m maxIterations p Hs Hp) as [Hc Hsd].
    split; [done|]. split; [done|]. intros Hfit.
    assert (Hg : passable m (mkTile gx gy) = true).
    { destruct Hc as ([Hf _] & _ & Hl). apply last_Some_elem_of in Hl.
      rewrite Forall_forall in Hf. by apply Hf. }
    destruct (calculateFlowField_shortest ff (mkTile gx gy) m Hwf Ec Er Hg Hne)
      as (ff' & E & Hsh).
    exists ff'. split; [done|].
    apply (Hsh (mkTile sx sy) _ Hsd Hfit).
Qed.

(** Instance: the open 10 x 10 map, from (0, 0) to (5, 5). *)
Lemma astar_matches_flow_field_witness :
  ∃ p ff', findPath 0 0 5 5 (openMap 10 10) 1000 = Some p
    ∧ calculateFlowField (freshField 10 10) (mkTile 5 5) (openMap 10 10)
      = Some ff'
    ∧ getFlowFieldDistance ff' 0 0 = Some (Z.of_nat (length p) - 1).
Proof.
  destruct (astar_matches_flow_field (freshField 10 10) (openMap 10 10)
              0 0 5 5 1000) as [_ H].
  - constructor; simpl; try lia; reflexivity.
  - reflexivity.
  - reflexivity.
  - simpl. intros [=].
  - reflexivity.
  - destruct (findPath 0 0 5 5 (openMap 10 10) 1000) as [p|] eqn:E;
      [|vm_compute in E; discriminate].
    destruct (H p eq_refl) as (_ & _ & Hff).
    destruct Hff as (ff' & Eff & Hd); [right; simpl; lia|].
    exists p, ff'. split; [done|]. split; [exact Eff|exact Hd].
Defined.

(** C2, as stated, fails on a corridor of 1100 tiles: a path of 1050 steps
    exists, but the default allowance of 1000 iterations runs out and
    [findPath] returns no path. *)
Lemma astar_budget_exhausted :
  passable (openMap 1100 1) (mkTile 1050 0) = true
  ∧ passable (openMap 1100 1) (mkTile 0 0) = true
  ∧ reachable (openMap 1100 1) (mkTile 1050 0) (mkTile 0 0)
  ∧ findPath 1050 0 0 0 (openMap 1100 1) defaultMaxIterations = None.
Proof.
  split; [apply passable_openMap; simpl; lia|].
  split; [apply passable_openMap; simpl; lia|].
  split.
  - apply reachable_walk. exists 1050%nat.
    apply (walk_corridor 1100 1050). lia.
  - vm_compute. reflexivity.
Qed.

(** C3.  When the goal tile is solid, [findPath] answers "no path" at once:
    no search state is created, so the open set is never populated and the
    main loop runs no iteration. *)
Theorem solid_goal_no_search (sx sy gx gy : Z) (m : TileMap.t)
    (maxIterations : Z) :
  TileMap.isSolid m gx gy = true →
  findPathRun sx sy gx gy m maxIterations = (None, None)
  ∧ findPath sx sy gx gy m maxIterations = None.
Proof.
  intros Hsolid. unfold findPath, findPathRun. by rewrite Hsolid.
Qed.

(** Instance: the wall in the centre of the 3 x 3 map as goal. *)
Lemma solid_goal_no_search_witness :
  findPathRun 0 0 1 1 wallMap defaultMaxIterations = (None, None)
  ∧ findPath 0 0 1 1 wallMap defaultMaxIterations = None.
Proof.
  apply (solid_goal_no_search 0 0 1 1 wallMap defaultMaxIterations).
  reflexivity.
Defined.

(** * The cached path *)

(** ** Every returned path starts at the start tile *)

Lemma searchLoop_step (budget : nat) (m : TileMap.t) (gx gy : Z)
    (st : SearchState) :
  searchLoop (S budget) m gx gy st
  = match sortByF (openSet st) with
    | [] => (None, st)
    | c :: rest =>
        if bool_decide (PathNode.x c = gx) && bool_decide (PathNode.y c = gy)
        then (Some (reconstructPath c),
              mkSearch rest (closedSet st) (iterations st + 1))
        else
          searchLoop budget m gx gy
            (mkSearch
               (fold_left
                  (relaxNeighbor m gx gy c
                     (closedSet st ∪ {[getKey (PathNode.x c) (PathNode.y c)]}))
                  (neighbors (PathNode.x c) (PathNode.y c)) rest)
               (closedSet st ∪ {[getKey (PathNode.x c) (PathNode.y c)]})
               (iterations st + 1))
    end.
Proof. done. Qed.

Lemma searchLoop_lineage (m : TileMap.t) (sx sy gx gy : Z) (budget : nat) :
  ∀ st p st',
  (∀ n, n ∈ openSet st → lineage m sx sy gx gy n) →
  searchLoop budget m gx gy st = (Some p, st') →
  ∃ c, lineage m sx sy gx gy c ∧ p = reconstructPath c.
Proof.
  induction budget as [|budget IH]; intros st p st' Hl; [done|].
  rewrite searchLoop_step.
  destruct (sortByF (openSet st)) as [|c rest] eqn:Hsort; [done|].
  pose proof (sortByF_perm (openSet st)) as Hperm. rewrite Hsort in Hperm.
  assert (Hc : lineage m sx sy gx gy c).
  { apply Hl. rewrite <- Hperm. by left. }
  destruct (bool_decide (PathNode.x c = gx) && bool_decide (PathNode.y c = gy)).
  - intros [= <- <-]. by exists c.
  - apply IH. cbn [openSet]. apply (relaxAll_lineage m sx sy); [done|done|].
    intros n Hn. apply Hl. rewrite <- Hperm. by right.
Qed.

Lemma findPath_head (sx sy gx gy : Z) (m : TileMap.t) (maxIterations : Z)
    (p : list TilePosition) :
  findPath sx sy gx gy m maxIterations = Some p →
  head p = Some (mkTile sx sy).
Proof.
  rewrite findPath_unfold.
  destruct (TileMap.isSolid m gx gy); [done|].
  destruct (bool_decide (sx = gx) && bool_decide (sy = gy)) eqn:Hsame.
  - intros [= <-]. apply andb_true_iff in Hsame as [_ Hy].
    apply bool_decide_eq_true in Hy. by subst.
  - destruct (searchLoop _ _ _ _ _) as [r st'] eqn:E. simpl. intros ->.
    apply (searchLoop_lineage m sx sy gx gy) in E as (c & Hc & ->).
    + by destruct (lineage_path _ _ _ _ _ _ Hc) as (? & _).
    + intros n Hn. apply list_elem_of_singleton in Hn as ->. constructor.
Qed.

(** ** Scanning the cached path *)

Lemma tile_test (t : TilePosition) (cx cy : Z) :
  bool_decide (x t = cx) && bool_decide (y t = cy) = true ↔ t = mkTile cx cy.
Proof.
  rewrite andb_true_iff, !bool_decide_eq_true. destruct t as [tx ty]; simpl.
  split; [by intros [-> ->]|by intros [= -> ->]].
Qed.

(** A failed scan ran to the last index without meeting the current tile
    before it. *)
Lemma scanPath_lost (rest : list TilePosition) (cx cy : Z) :
  ∀ idx i,
  scanPath rest idx cx cy = (i, None) →
  i = (idx + pred (length rest))%nat
  ∧ ∀ k, (S k < length rest)%nat → rest !! k ≠ Some (mkTile cx cy).
Proof.
  induction rest as [|node rest IH]; intros idx i; simpl.
  - intros [= <-]. split; [lia|]. intros k Hk. lia.
  - destruct rest as [|nxt rest'].
    + intros [= <-]. split; [simpl; lia|]. simpl. intros k Hk. lia.
    + destruct (bool_decide (x node = cx) && bool_decide (y node = cy)) eqn:Ht;
        [done|].
      intros E. destruct (IH _ _ E) as (-> & Hno).
      split; [simpl; lia|].
      intros [|k] Hk; simpl.
      * intros [= ->]. apply not_true_iff_false in Ht. apply Ht.
        by apply tile_test.
      * apply Hno. simpl in *. lia.
Qed.

Lemma scanPath_first (rest : list TilePosition) (cx cy : Z) (k : nat)
    (next : TilePosition) :
  ∀ idx,
  rest !! k = Some (mkTile cx cy) →
  rest !! S k = Some next →
  (∀ j, (j < k)%nat → rest !! j ≠ Some (mkTile cx cy)) →
  scanPath rest idx cx cy = ((idx + k)%nat, Some next).
Proof.
  revert k. induction rest as [|node rest IH]; intros k idx Hk Hn Hfirst;
    [done|].
  simpl. destruct rest as [|nxt rest']; [by destruct k|].
  destruct k as [|k]; simpl in *.
  - injection Hk as ->. injection Hn as ->.
    rewrite (proj2 (tile_test (mkTile cx cy) cx cy) eq_refl).
    f_equal. lia.
  - destruct (bool_decide (x node = cx) && bool_decide (y node = cy)) eqn:Ht.
    + apply tile_test in Ht. exfalso. apply (Hfirst 0%nat); [lia|].
      simpl. by rewrite Ht.
    + rewrite (IH k (S idx)); [f_equal; lia|done|done|].
      intros j Hj. apply (Hfirst (S j)). lia.
Qed.

(** ** [CachedPath.getNextStep] *)

Lemma getNextStep_unfold (depth : nat) (this : CachedPath)
    (cx cy tx ty : Z) (m : TileMap.t) (force : bool) :
  getNextStep (S depth) this cx cy tx ty m force
  = let stale := needsRecalculation this tx ty force in
    let this1 :=
      if stale then mkCached (findPath cx cy tx ty m 500) 0 tx ty else this in
    let n1 := if stale then 1%nat else 0%nat in
    match path this1 with
    | None => Some (mkNextStep None this1 n1)
    | Some p =>
        if bool_decide (length p < 2)%nat
        then Some (mkNextStep None this1 n1)
        else
          let '(idx, found) :=
            scanPath (drop (currentIndex this1) p) (currentIndex this1) cx cy in
          let this2 := mkCached (Some p) idx (targetX this1) (targetY this1) in
          match found with
          | Some next => Some (mkNextStep (Some next) this2 n1)
          | None =>
              if bool_decide (length p - 1 ≤ idx)%nat
              then
                match getNextStep depth this2 cx cy tx ty m true with
                | Some r => Some (mkNextStep (step r) (cache r) (n1 + searches r))
                | None => None
                end
              else Some (mkNextStep None this2 n1)
          end
    end.
Proof. done. Qed.

(** A call that recalculates searches once and returns without recursion:
    the fresh path starts at the current tile. *)
Lemma getNextStep_stale (depth : nat) (this : CachedPath)
    (cx cy tx ty : Z) (m : TileMap.t) (force : bool) :
  needsRecalculation this tx ty force = true →
  ∃ r, getNextStep (S depth) this cx cy tx ty m force = Some r
     ∧ searches r = 1%nat
     ∧ path (cache r) = findPath cx cy tx ty m 500
     ∧ targetX (cache r) = tx ∧ targetY (cache r) = ty.
Proof.
  intros Hstale. rewrite getNextStep_unfold, Hstale. cbn zeta. cbn [path].
  destruct (findPath cx cy tx ty m 500) as [p|] eqn:E.
  2:{ eexists. split; [done|]. done. }
  destruct (bool_decide (length p < 2)%nat) eqn:Hlen.
  { eexists. split; [done|]. done. }
  apply bool_decide_eq_false in Hlen.
  pose proof (findPath_head _ _ _ _ _ _ _ E) as Hh.
  destruct p as [|a [|b p']]; simpl in Hlen; try lia.
  simpl in Hh. injection Hh as ->.
  cbn [currentIndex drop scanPath].
  rewrite (proj2 (tile_test (mkTile cx cy) cx cy) eq_refl).
  eexists. split; [done|]. done.
Qed.

Lemma needsRecalculation_forced (this : CachedPath) (tx ty : Z) :
  needsRecalculation this tx ty true = true.
Proof. done. Qed.

Lemma needsRecalculation_false (this : CachedPath) (tx ty : Z) :
  needsRecalculation this tx ty false = false ↔
  targetX this = tx ∧ targetY this = ty
  ∧ ∃ p, path this = Some p ∧ (currentIndex this < length p)%nat.
Proof.
  unfold needsRecalculation. simpl.
  rewrite !orb_false_iff, !negb_false_iff, !bool_decide_eq_true.
  destruct (path this) as [p|].
  - rewrite bool_decide_eq_false. split.
    + intros [[? ?] ?]. split; [done|]. split; [done|]. exists p. split; [done|lia].
    + intros (? & ? & q & [= <-] & ?). split; [done|]. lia.
  - split; [by intros [_ ?]|]. by intros (_ & _ & q & ? & _).
Qed.

Lemma lookup_drop_from (p : list TilePosition) (ci i : nat) :
  (ci ≤ i)%nat → drop ci p !! (i - ci)%nat = p !! i.
Proof. intros H. rewrite lookup_drop. f_equal. lia. Qed.

(** The cached case: no search, the successor of the current tile. *)
Lemma getNextStep_cached (depth : nat) (this : CachedPath)
    (cx cy tx ty : Z) (m : TileMap.t) (p : list TilePosition) (i : nat) :
  targetX this = tx → targetY this = ty → path this = Some p →
  locatedAt this p (mkTile cx cy) i →
  getNextStep (S depth) this cx cy tx ty m false
  = Some (mkNextStep (p !! S i) (mkCached (Some p) i tx ty) 0).
Proof.
  intros Hx Hy Hp (Hci & Hi & Hlast & Hfirst).
  rewrite getNextStep_unfold.
  assert (needsRecalculation this tx ty false = false) as ->.
  { apply needsRecalculation_false. split; [done|]. split; [done|].
    exists p. split; [done|lia]. }
  cbv beta zeta iota. rewrite Hp.
  rewrite bool_decide_eq_false_2 by lia.
  destruct (lookup_lt_is_Some_2 p (S i) Hlast) as [next Hnext].
  rewrite (scanPath_first _ cx cy (i - currentIndex this) next).
  - rewrite Hnext, Hx, Hy. do 3 f_equal. lia.
  - by rewrite lookup_drop_from.
  - rewrite <- Hnext, lookup_drop. f_equal. lia.
  - intros j Hj. rewrite lookup_drop. apply Hfirst; lia.
Qed.

(** Without [forceRecalculate], a search is run only for a new target, an
    empty cache or a current tile lost from the cached path. *)
Lemma getNextStep_search_cause (depth : nat) (this : CachedPath)
    (cx cy tx ty : Z) (m : TileMap.t) (r : NextStep) :
  getNextStep depth this cx cy tx ty m false = Some r →
  searches r ≠ 0%nat →
  targetX this ≠ tx ∨ targetY this ≠ ty ∨ path this = None
  ∨ ∃ p, path this = Some p ∧ lostIn this p (mkTile cx cy).
Proof.
  destruct depth as [|depth]; [done|].
  destruct (decide (targetX this = tx)) as [Hx|]; [|by left].
  destruct (decide (targetY this = ty)) as [Hy|]; [|by right; left].
  destruct (path this) as [p|] eqn:Hp; [|by right; right; left].
  intros E Hs. right. right. right. exists p. split; [done|].
  intros i Hci Hlast Hi.
  destruct (decide (needsRecalculation this tx ty false = false)) as [Hn|Hn].
  - rewrite getNextStep_unfold, Hn in E. cbv beta zeta iota in E. rewrite Hp in E.
    rewrite bool_decide_eq_false_2 in E by lia.
    destruct (scanPath (drop (currentIndex this) p) (currentIndex this) cx cy)
      as [idx [next|]] eqn:Hscan.
    + injection E as <-. by apply Hs.
    + apply scanPath_lost in Hscan as [_ Hno].
      apply (Hno (i - currentIndex this)%nat).
      * rewrite length_drop. lia.
      * by rewrite lookup_drop_from.
  - apply Hn. apply needsRecalculation_false.
    split; [done|]. split; [done|]. exists p. split; [done|lia].
Qed.

(** Nesting depth 2 is enough, and at most one search is run. *)
Lemma getNextStep_total (depth : nat) (this : CachedPath)
    (cx cy tx ty : Z) (m : TileMap.t) (force : bool) :
  ∃ r, getNextStep (S (S depth)) this cx cy tx ty m force = Some r
     ∧ (searches r ≤ 1)%nat
     ∧ (searches r ≠ 0%nat →
        path (cache r) = findPath cx cy tx ty m 500
        ∧ targetX (cache r) = tx ∧ targetY (cache r) = ty).
Proof.
  destruct (needsRecalculation this tx ty force) eqn:Hn.
  - destruct (getNextStep_stale (S depth) this cx cy tx ty m force Hn)
      as (r & E & Hs & Hc).
    exists r. split; [done|]. split; [lia|done].
  - rewrite getNextStep_unfold, Hn. cbv beta zeta iota.
    destruct (path this) as [p|] eqn:Hp.
    2:{ eexists. split; [done|]. simpl. split; [lia|done]. }
    destruct (bool_decide (length p < 2)%nat).
    { eexists. split; [done|]. simpl. split; [lia|done]. }
    destruct (scanPath (drop (currentIndex this) p) (currentIndex this) cx cy)
      as [idx [next|]].
    { eexists. split; [done|]. simpl. split; [lia|done]. }
    destruct (bool_decide (length p - 1 ≤ idx)%nat).
    2:{ eexists. split; [done|]. simpl. split; [lia|done]. }
    destruct (getNextStep_stale depth
                (mkCached (Some p) idx (targetX this) (targetY this))
                cx cy tx ty m true (needsRecalculation_forced _ _ _))
      as (r & E & Hs & Hc).
    rewrite E. eexists. split; [done|]. simpl. rewrite Hs. split; [lia|done].
Qed.

(** C7 (amended).  Called without [forceRecalculate], [getNextStep] returns
    after at most one search.  It searches only when the requested target
    differs from the stored one, the cache is empty, or the current tile is
    not found in the cached path from the walking index up to, but not
    including, its last tile; the cache then holds the fresh path and the
    requested target.  When the target is unchanged and the current tile is
    found there, it runs no search, moves the walking index to that
    occurrence and returns the tile after it. *)
Theorem cached_path_recomputes (depth : nat) (this : CachedPath)
    (cx cy tx ty : Z) (m : TileMap.t) :
  (2 ≤ depth)%nat →
  ∃ r, getNextStep depth this cx cy tx ty m false = Some r
     ∧ (searches r ≤ 1)%nat
     ∧ (searches r ≠ 0%nat →
        (targetX this ≠ tx ∨ targetY this ≠ ty ∨ path this = None
         ∨ ∃ p, path this = Some p ∧ lostIn this p (mkTile cx cy))
        ∧ path (cache r) = findPath cx cy tx ty m 500
        ∧ targetX (cache r) = tx ∧ targetY (cache r) = ty)
     ∧ (∀ p i, targetX this = tx → targetY this = ty → path this = Some p →
               locatedAt this p (mkTile cx cy) i →
        searches r = 0%nat
        ∧ step r = p !! S i
        ∧ cache r = mkCached (Some p) i tx ty).
Proof.
  intros Hdepth. destruct depth as [|[|depth]]; [lia|lia|].
  destruct (getNextStep_total depth this cx cy tx ty m false)
    as (r & E & Hle & Hfresh).
  exists r. split; [done|]. split; [done|]. split.
  - intros Hs. split; [|by apply Hfresh].
    by apply (getNextStep_search_cause _ _ _ _ _ _ _ _ E).
  - intros p i Hx Hy Hp Hloc.
    rewrite (getNextStep_cached _ _ _ _ _ _ _ _ _ Hx Hy Hp Hloc) in E.
    by injection E as <-.
Qed.

(** Instance: an agent on (0, 0) holding the cached path from (0, 0) to
    (1, 0): no search, next tile (1, 0). *)
Lemma cached_path_recomputes_witness :
  ∃ r, getNextStep 2 twoTileCache 0 0 1 0 (openMap 2 1) false = Some r
     ∧ searches r = 0%nat ∧ step r = Some (mkTile 1 0).
Proof.
  destruct (cached_path_recomputes 2 twoTileCache 0 0 1 0 (openMap 2 1))
    as (r & E & _ & _ & Hc); [lia|].
  exists r. split; [exact E|].
  destruct (Hc [mkTile 0 0; mkTile 1 0] 0%nat) as (Hs & Hst & _);
    [reflexivity|reflexivity|reflexivity| |].
  - split; [simpl; lia|]. split; [reflexivity|]. split; [simpl; lia|].
    intros j Hj Hj'. lia.
  - split; [exact Hs|exact Hst].
Defined.

(** C7, as stated, fails once the agent stands on the last tile of its
    cached path: the first call caches the path from (0, 0) to (1, 0); on
    the second call, from (1, 0), the target is unchanged, the cache is not
    empty and the current tile is in the remaining cached path, yet a new
    search is run and no tile is returned. *)
Lemma cached_path_end_recomputes :
  getNextStep 2 emptyCachedPath 0 0 1 0 (openMap 2 1) false
  = Some (mkNextStep (Some (mkTile 1 0)) twoTileCache 1)
  ∧ targetX twoTileCache = 1 ∧ targetY twoTileCache = 0
  ∧ path twoTileCache = Some [mkTile 0 0; mkTile 1 0]
  ∧ mkTile 1 0 ∈ drop (currentIndex twoTileCache) [mkTile 0 0; mkTile 1 0]
  ∧ getNextStep 2 twoTileCache 1 0 1 0 (openMap 2 1) false
    = Some (mkNextStep None (mkCached (Some [mkTile 1 0]) 0 1 0) 1).
Proof.
  split; [vm_compute; reflexivity|].
  split; [reflexivity|]. split; [reflexivity|]. split; [reflexivity|].
  split; [|vm_compute; reflexivity].
  simpl. apply elem_of_cons. right. apply elem_of_cons. by left.
Qed.

(** * Rounding of doubles *)

(** ** Powers of two *)

Lemma pow2_pos (e : Z) : (0 < pow2 e)%Q.
Proof. apply Qpower_0_lt. reflexivity. Qed.

Lemma pow2_add (a b : Z) : (pow2 (a + b) == pow2 a * pow2 b)%Q.
Proof. apply Qpower_plus. discriminate. Qed.

Lemma pow2_succ (e : Z) : (pow2 (e + 1) == 2 * pow2 e)%Q.
Proof. rewrite pow2_add. change (pow2 1) with 2%Q. ring. Qed.

Lemma pow2_le (a b : Z) : a <= b → (pow2 a <= pow2 b)%Q.
Proof. intros H. apply Qpower_le_compat_l; [done|discriminate]. Qed.

Lemma pow2_lt (a b : Z) : a < b → (pow2 a < pow2 b)%Q.
Proof. intros H. apply Qpower_lt_compat_l; [done|reflexivity]. Qed.

Lemma pow2_Z (n : Z) : 0 <= n → (pow2 n == inject_Z (2 ^ n))%Q.
Proof. intros H. unfold pow2. by rewrite Zpower_Qpower. Qed.

Lemma pow2_sub (a b : Z) : (pow2 (a - b) == pow2 a / pow2 b)%Q.
Proof.
  unfold Z.sub. rewrite pow2_add. unfold pow2 at 2. rewrite Qpower_opp. reflexivity.
Qed.

(** ** The number of binary digits *)

Lemma digits2_pos_bounds (m : positive) :
  2 ^ (Z.pos (digits2_pos m) - 1) <= Z.pos m < 2 ^ Z.pos (digits2_pos m).
Proof.
  induction m as [m IH|m IH|]; simpl digits2_pos.
  - rewrite Pos2Z.inj_succ.
    replace (Z.succ (Z.pos (digits2_pos m)) - 1) with (Z.pos (digits2_pos m) - 1 + 1) by lia.
    rewrite Z.pow_succ_r, Z.pow_add_r by lia. lia.
  - rewrite Pos2Z.inj_succ.
    replace (Z.succ (Z.pos (digits2_pos m)) - 1) with (Z.pos (digits2_pos m) - 1 + 1) by lia.
    rewrite Z.pow_succ_r, Z.pow_add_r by lia. lia.
  - simpl. lia.
Qed.

Lemma Zdigits2_nonneg (m : Z) : 0 <= Zdigits2 m.
Proof. destruct m; simpl; lia. Qed.

Lemma Zdigits2_bounds (m : Z) :
  0 < m → 2 ^ (Zdigits2 m - 1) <= m < 2 ^ Zdigits2 m.
Proof. destruct m; try lia. intros _. apply digits2_pos_bounds. Qed.

Lemma Zdigits2_le (m k : Z) : 0 <= k → 0 <= m < 2 ^ k → Zdigits2 m <= k.
Proof.
  intros Hk [H0 Hm]. destruct (Z.eq_dec m 0) as [->|Hne]; [simpl; lia|].
  pose proof (Zdigits2_bounds m ltac:(lia)) as [Hlo _].
  destruct (Z.le_gt_cases (Zdigits2 m) k) as [|Hgt]; [done|].
  assert (2 ^ k <= 2 ^ (Zdigits2 m - 1)) by (apply Z.pow_le_mono_r; lia). lia.
Qed.

Lemma Zdigits2_gt (m k : Z) : 0 <= k → 2 ^ k <= m → k < Zdigits2 m.
Proof.
  intros Hk Hm.
  assert (0 < 2 ^ k) by (apply Z.pow_pos_nonneg; lia).
  pose proof (Zdigits2_bounds m ltac:(lia)) as [_ Hhi].
  destruct (Z.lt_ge_cases k (Zdigits2 m)) as [|Hge]; [done|].
  assert (2 ^ Zdigits2 m <= 2 ^ k) by (apply Z.pow_le_mono_r; lia). lia.
Qed.

Lemma Zdigits2_unique (m k : Z) : 0 < k → 2 ^ (k - 1) <= m < 2 ^ k → Zdigits2 m = k.
Proof.
  intros Hk [Hlo Hhi].
  assert (0 < 2 ^ (k - 1)) by (apply Z.pow_pos_nonneg; lia).
  pose proof (Zdigits2_le m k ltac:(lia) ltac:(lia)).
  pose proof (Zdigits2_gt m (k - 1) ltac:(lia) Hlo). lia.
Qed.

(** ** Shifting the mantissa

    A right shift by one bit halves the number located and keeps it
    located: the bit shifted out becomes the round bit, the former round
    and sticky bits are gathered in the sticky bit. *)

Lemma located_ext (x y : Q) (mrs : shr_record) :
  (x == y)%Q → located x mrs → located y mrs.
Proof.
  intros E [H0 H]. split; [done|].
  destruct (shr_r mrs), (shr_s mrs); rewrite <- ?E; done.
Qed.

Lemma located_range (x : Q) (mrs : shr_record) :
  located x mrs → (inject_Z (shr_m mrs) <= x ∧ x < inject_Z (shr_m mrs) + 1)%Q.
Proof.
  intros [_ H]. destruct (shr_r mrs), (shr_s mrs); lra.
Qed.

Lemma inject_Z_xO (p : positive) : (inject_Z (Z.pos p~0) == 2 * inject_Z (Z.pos p))%Q.
Proof. rewrite Pos2Z.inj_xO, inject_Z_mult. reflexivity. Qed.

Lemma inject_Z_xI (p : positive) : (inject_Z (Z.pos p~1) == 2 * inject_Z (Z.pos p) + 1)%Q.
Proof. rewrite Pos2Z.inj_xI, inject_Z_plus, inject_Z_mult. reflexivity. Qed.

Lemma shr_1_located (x : Q) (mrs : shr_record) :
  located x mrs → located (x * (1 # 2)) (shr_1 mrs).
Proof.
  destruct mrs as [m r s]. intros [H0 H]. simpl in H0, H.
  destruct m as [|p|p]; [| |lia].
  - change (inject_Z 0) with 0%Q in H.
    destruct r, s; simpl in H; (split; [simpl; lia|]); simpl;
      change (inject_Z 0) with 0%Q; lra.
  - destruct p as [p|p|].
    + pose proof (inject_Z_xI p) as E.
      destruct r, s; simpl in H; (split; [simpl; lia|]); simpl; lra.
    + pose proof (inject_Z_xO p) as E.
      destruct r, s; simpl in H; (split; [simpl; lia|]); simpl; lra.
    + change (inject_Z 1) with 1%Q in H.
      destruct r, s; simpl in H; (split; [simpl; lia|]); simpl;
        change (inject_Z 0) with 0%Q; lra.
Qed.

Lemma iter_pos_shr_1_located (p : positive) (x : Q) (mrs : shr_record) :
  located x mrs → located (x / pow2 (Z.pos p)) (SpecFloat.iter_pos shr_1 p mrs).
Proof.
  revert x mrs. induction p as [p IH|p IH|]; intros x mrs H; simpl SpecFloat.iter_pos.
  - apply shr_1_located, IH, IH in H. revert H. apply located_ext.
    pose proof (pow2_pos (Z.pos p)).
    rewrite Pos2Z.inj_xI, pow2_succ.
    replace (2 * Z.pos p) with (Z.pos p + Z.pos p) by lia.
    rewrite pow2_add. field. lra.
  - apply IH, IH in H. revert H. apply located_ext.
    pose proof (pow2_pos (Z.pos p)).
    rewrite Pos2Z.inj_xO.
    replace (2 * Z.pos p) with (Z.pos p + Z.pos p) by lia.
    rewrite pow2_add. field. lra.
  - apply shr_1_located in H. revert H. apply located_ext.
    change (pow2 1) with 2%Q. field.
Qed.

Lemma shr_located (x : Q) (mrs : shr_record) (e n : Z) :
  0 <= n → located x mrs →
  located (x / pow2 n) (shr mrs e n).1 ∧ (shr mrs e n).2 = e + n.
Proof.
  intros Hn H. destruct n as [|p|p]; [| |lia]; simpl.
  - split; [|lia]. revert H. apply located_ext.
    change (pow2 0) with 1%Q. field.
  - split; [|done]. by apply iter_pos_shr_1_located.
Qed.

Lemma located_integer (x : Q) (mrs : shr_record) (j : Z) :
  located x mrs → (x == inject_Z j)%Q →
  shr_r mrs = false ∧ shr_s mrs = false.
Proof.
  intros [_ H] E.
  assert (inject_Z (shr_m mrs + 1) == inject_Z (shr_m mrs) + 1)%Q as E1
    by (rewrite inject_Z_plus; reflexivity).
  destruct (shr_r mrs), (shr_s mrs); [exfalso..|done].
  all: assert (inject_Z (shr_m mrs) < inject_Z j)%Q as H3 by lra.
  all: assert (inject_Z j < inject_Z (shr_m mrs + 1))%Q as H4 by lra.
  all: rewrite <- Zlt_Qlt in H3, H4; lia.
Qed.

(** Rounding to nearest, ties to even, moves by at most one half, and not
    at all on an integer. *)
Lemma round_nearest_even_located (x : Q) (mrs : shr_record) :
  located x mrs →
  let m1 := round_nearest_even (shr_m mrs) (loc_of_shr_record mrs) in
  shr_m mrs <= m1 <= shr_m mrs + 1
  ∧ (Qabs (inject_Z m1 - x) <= 1 # 2)%Q
  ∧ (∀ j, (x == inject_Z j)%Q → (inject_Z m1 == x)%Q).
Proof.
  intros H. pose proof (located_integer x mrs) as Hint.
  destruct mrs as [m r s]. destruct H as [H0 H]. simpl in H0, Hint.
  assert (inject_Z (m + 1) == inject_Z m + 1)%Q as E1
    by (rewrite inject_Z_plus; reflexivity).
  assert (∀ j, (x == inject_Z j)%Q → r = false ∧ s = false) as Hint'.
  { intros j E. apply (Hint j); [|done]. by split. }
  clear Hint.
  destruct r, s; cbn [round_nearest_even loc_of_shr_record shr_m shr_r shr_s] in H |- *.
  - split; [lia|]. split.
    + apply Qabs_Qle_condition. lra.
    + intros j E. by destruct (Hint' j E).
  - split; [destruct (Z.even m); lia|]. split.
    + apply Qabs_Qle_condition. destruct (Z.even m); lra.
    + intros j E. by destruct (Hint' j E).
  - split; [lia|]. split.
    + apply Qabs_Qle_condition. lra.
    + intros j E. by destruct (Hint' j E).
  - split; [lia|]. split.
    + apply Qabs_Qle_condition. lra.
    + intros j E. by rewrite H.
Qed.

(** ** [binary_round_aux]

    For binary64 the exponent of the unit in the last place of a number
    with [d] digits above [2^e] is [max (d + e - 53) (-1074)]. *)

Lemma fexp_eq (e : Z) : fexp prec emax e = Z.max (e - 53) (-1074).
Proof. reflexivity. Qed.

Lemma shr_m_of_loc (m : Z) (l : location) : shr_m (shr_record_of_loc m l) = m.
Proof. by destruct l as [|[]]. Qed.

Lemma inject_Z_lt_pow2 (m k : Z) :
  (inject_Z m < pow2 k)%Q → 0 <= m →
  0 <= k ∧ m < 2 ^ k ∨ k < 0 ∧ m = 0.
Proof.
  intros H Hm. destruct (Z.le_gt_cases 0 k) as [Hk|Hk].
  - left. split; [done|]. rewrite pow2_Z in H by done. by rewrite Zlt_Qlt.
  - right. split; [done|].
    pose proof (pow2_lt k 0 Hk) as H1. change (pow2 0) with (inject_Z 1) in H1.
    assert (inject_Z m < inject_Z 1)%Q as H2 by lra.
    rewrite <- Zlt_Qlt in H2. lia.
Qed.

(** [binary_round_aux] on a number [x * 2^e] located by [m] and [l] returns
    the mantissa [m1] and exponent [e2] of a number at most half a unit in
    the last place away, and [x * 2^e] itself when that is a multiple of the
    unit. *)
Lemma binary_round_aux_spec (s : bool) (m e : Z) (l : location) (x : Q) :
  located x (shr_record_of_loc m l) →
  e <= fexp prec emax (Zdigits2 m + e) →
  ∃ m1 e2,
    0 <= m1
    ∧ e2 <= fexp prec emax (Zdigits2 m + e) + 1
    ∧ binary_round_aux prec emax s m e l = rounded s m1 e2
    ∧ (Qabs (inject_Z m1 * pow2 e2 - x * pow2 e)
       <= pow2 (fexp prec emax (Zdigits2 m + e)) * (1 # 2))%Q
    ∧ (∀ j, (x == inject_Z j * pow2 (fexp prec emax (Zdigits2 m + e) - e))%Q →
         (inject_Z m1 * pow2 e2 == x * pow2 e)%Q).
Proof.
  intros Hloc He.
  unfold binary_round_aux, shr_fexp.
  set (e1 := fexp prec emax (Zdigits2 m + e)) in *.
  set (n := e1 - e).
  assert (0 <= n) as Hn by (unfold n; lia).
  destruct (shr_located x _ e n Hn Hloc) as [H1 H2].
  destruct (shr (shr_record_of_loc m l) e n) as [mrs' e'] eqn:E.
  cbn [fst snd] in H1, H2. subst e'. replace (e + n) with e1 by (unfold n; lia).
  set (A := (x / pow2 n)%Q) in *.
  destruct (round_nearest_even_located A mrs' H1) as (Hm1 & Habs & Hex).
  set (m1 := round_nearest_even (shr_m mrs') (loc_of_shr_record mrs')) in *.
  pose proof (pow2_pos n) as Hpn. pose proof (pow2_pos e) as Hpe.
  pose proof (pow2_pos e1) as Hp1.
  assert (pow2 e1 == pow2 n * pow2 e)%Q as Ee1.
  { rewrite <- pow2_add. by replace (n + e) with e1 by (unfold n; lia). }
  assert (x == A * pow2 n)%Q as EA by (unfold A; field; lra).
  assert (0 <= shr_m mrs') as Hm0 by apply H1.
  assert (A < (inject_Z (shr_record_of_loc m l).(shr_m) + 1) / pow2 n)%Q as HA.
  { apply located_range in Hloc. unfold A.
    apply Qmult_lt_compat_r; [by apply Qinv_lt_0_compat|]. lra. }
  clearbody A.
  (* the size of the rounded mantissa *)
  set (d := Zdigits2 m) in *.
  assert (0 <= m) as Hm by (destruct Hloc as [Hloc _]; by rewrite shr_m_of_loc in Hloc).
  assert (0 <= d) as Hd by apply Zdigits2_nonneg.
  assert (inject_Z (shr_m mrs') < pow2 (d - n))%Q as Hlt.
  { apply located_range in Hloc, H1. rewrite shr_m_of_loc in Hloc.
    assert (m + 1 <= 2 ^ d) as Hmd.
    { destruct (Z.eq_dec m 0) as [->|]; [simpl; lia|].
      pose proof (Zdigits2_bounds m ltac:(lia)). unfold d. lia. }
    rewrite Zle_Qle in Hmd. rewrite inject_Z_plus, <- pow2_Z in Hmd by done.
    change (inject_Z 1) with 1%Q in Hmd.
    rewrite pow2_sub.
    assert (A < pow2 d / pow2 n)%Q; [|lra].
    eapply Qlt_le_trans; [apply HA|]. rewrite shr_m_of_loc.
    apply Qmult_le_compat_r; [lra|]. apply Qlt_le_weak. by apply Qinv_lt_0_compat. }
  assert (e1 = Z.max (d + e - 53) (-1074)) as He1 by apply fexp_eq.
  assert (n = e1 - e) as Hn_eq by done.
  clearbody n e1 d.
  assert (fexp prec emax (Zdigits2 m1 + e1) - e1 <= 0
          ∨ fexp prec emax (Zdigits2 m1 + e1) - e1 = 1
            ∧ ∃ q, m1 = Z.pos q~0) as Hcase.
  { destruct (inject_Z_lt_pow2 _ _ Hlt Hm0) as [[Hdn Hlt']|[Hdn Hz]].
    - assert (m1 < 2 ^ (d - n) ∨ m1 = 2 ^ (d - n)) as [Hlt1|Heq] by lia.
      + left. pose proof (Zdigits2_le m1 (d - n) Hdn ltac:(lia)) as Hd1.
        rewrite fexp_eq. lia.
      + assert (Zdigits2 m1 = d - n + 1) as Hd1.
        { apply Zdigits2_unique; [lia|].
          replace (d - n + 1 - 1) with (d - n) by lia.
          rewrite Z.pow_add_r by lia. lia. }
        assert (d - n = 0 ∨ 0 < d - n) as [Hz|Hpos] by lia.
        * left. rewrite Hd1, fexp_eq. lia.
        * assert (fexp prec emax (Zdigits2 m1 + e1) - e1 <= 1) as Hle.
          { rewrite Hd1, fexp_eq. lia. }
          assert (fexp prec emax (Zdigits2 m1 + e1) - e1 <= 0
                  ∨ fexp prec emax (Zdigits2 m1 + e1) - e1 = 1) as [|H1'] by lia;
            [by left|right]. split; [done|].
          assert (0 < 2 ^ (d - n - 1)) as Hpp by (apply Z.pow_pos_nonneg; lia).
          destruct (2 ^ (d - n - 1)) as [|q|q] eqn:Eq; try lia.
          exists q. rewrite Heq.
          replace (d - n) with (d - n - 1 + 1) by lia.
          rewrite Z.pow_add_r, Eq by lia. simpl. lia.
    - left. assert (m1 = 0 ∨ m1 = 1) as [->| ->] by lia.
      + simpl. rewrite fexp_eq. lia.
      + simpl. rewrite fexp_eq. lia. }
  assert (Qabs (inject_Z m1 * pow2 e1 - x * pow2 e) <= pow2 e1 * (1 # 2))%Q as Hval.
  { apply Qabs_Qle_condition in Habs. apply Qabs_Qle_condition.
    assert (inject_Z m1 * pow2 e1 - x * pow2 e == (inject_Z m1 - A) * pow2 e1)%Q as ->.
    { rewrite EA, Ee1. ring. }
    split; nra. }
  assert (∀ j, (x == inject_Z j * pow2 n)%Q →
            (inject_Z m1 * pow2 e1 == x * pow2 e)%Q) as Hexact.
  { intros j Ej. rewrite (Hex j).
    - rewrite EA, Ee1. ring.
    - apply (Qmult_inj_r _ _ (pow2 n)); [lra|]. by rewrite <- EA. }
  destruct Hcase as [Hn2|[Hn2 [q Hq]]].
  - exists m1, e1. split; [lia|]. split; [lia|]. split; [|by split].
    destruct (fexp prec emax (Zdigits2 m1 + e1) - e1) as [|p|p] eqn:En2; try lia.
    + simpl. done.
    + simpl. done.
  - exists (Z.pos q), (e1 + 1). split; [lia|]. split; [lia|].
    assert (inject_Z (Z.pos q) * pow2 (e1 + 1) == inject_Z m1 * pow2 e1)%Q as Eq.
    { rewrite Hq, inject_Z_xO, pow2_succ. ring. }
    split; [|split].
    + rewrite Hn2, Hq. simpl. done.
    + by rewrite Eq.
    + intros j Ej. rewrite Eq. by apply (Hexact j).
Qed.

(** ** The value of the rounded number *)

Lemma sgn_xorb (a b : bool) : (sgn (xorb a b) == sgn a * sgn b)%Q.
Proof. by destruct a, b. Qed.

Lemma sgn_sqr (s : bool) : (sgn s * sgn s == 1)%Q.
Proof. by destruct s. Qed.

Lemma Qabs_sgn (s : bool) (a : Q) : (Qabs (sgn s * a) == Qabs a)%Q.
Proof.
  destruct s; unfold sgn.
  - assert (-1 * a == - a)%Q as -> by ring. apply Qabs_opp.
  - by assert (1 * a == a)%Q as -> by ring.
Qed.

Lemma pow2_le_inv (a b : Z) : (pow2 a <= pow2 b)%Q → a <= b.
Proof. intros H. apply (Qpower_le_compat_l_inv 2); [done|reflexivity]. Qed.

Lemma pow2_lt_inv (a b : Z) : (pow2 a < pow2 b)%Q → a < b.
Proof. intros H. apply (Qpower_lt_compat_l_inv 2); [done|reflexivity]. Qed.

Lemma rounded_val (s : bool) (m e : Z) :
  0 <= m → e <= 971 →
  SFfinite (rounded s m e) = true
  ∧ (SFval (rounded s m e) == sgn s * (inject_Z m * pow2 e))%Q.
Proof.
  intros Hm He. destruct m as [|p|p]; [| |lia]; simpl.
  - split; [done|]. change (inject_Z 0) with 0%Q. ring.
  - change (emax - prec) with 971.
    destruct (Z.leb_spec e 971); [|lia]. simpl. split; [done|]. ring.
Qed.

(** The mantissa of [m * 2^e] weighs at least [2^(d - 1 + e)]. *)
Lemma mantissa_weight (m e : Z) (x : Q) :
  0 < m → (inject_Z m <= x)%Q →
  (pow2 (Zdigits2 m - 1 + e) <= x * pow2 e)%Q.
Proof.
  intros Hm Hx. pose proof (Zdigits2_bounds m Hm) as [Hlo _].
  pose proof (Zdigits2_nonneg m). pose proof (pow2_pos e).
  assert (0 < Zdigits2 m) by (destruct m; simpl; lia).
  rewrite pow2_add, pow2_Z by lia.
  rewrite Zle_Qle in Hlo. nra.
Qed.

(** Below 2^1023 the rounded number is finite, within a relative 2^-53 and
    an absolute 2^-1075 of the number rounded. *)
Lemma binary_round_aux_value (s : bool) (m e : Z) (l : location) (x : Q) :
  located x (shr_record_of_loc m l) →
  e <= fexp prec emax (Zdigits2 m + e) →
  (x * pow2 e < pow2 1023)%Q →
  SFfinite (binary_round_aux prec emax s m e l) = true
  ∧ (Qabs (SFval (binary_round_aux prec emax s m e l) - sgn s * (x * pow2 e))
     <= x * pow2 e * pow2 (-53) + pow2 (-1075))%Q
  ∧ (∀ j, (x == inject_Z j * pow2 (fexp prec emax (Zdigits2 m + e) - e))%Q →
       (SFval (binary_round_aux prec emax s m e l) == sgn s * (x * pow2 e))%Q).
Proof.
  intros Hloc He Hov.
  destruct (binary_round_aux_spec s m e l x Hloc He)
    as (m1 & e2 & Hm1 & He2 & -> & Habs & Hex).
  pose proof (located_range _ _ Hloc) as [Hx _]. rewrite shr_m_of_loc in Hx.
  assert (0 <= m) as Hm by (destruct Hloc as [Hloc _]; by rewrite shr_m_of_loc in Hloc).
  pose proof (pow2_pos e) as Hpe.
  rewrite fexp_eq in *.
  set (d := Zdigits2 m) in *.
  assert (0 <= x)%Q as Hx0.
  { rewrite Zle_Qle in Hm. change (inject_Z 0) with 0%Q in Hm. lra. }
  assert (0 <= x * pow2 e)%Q as HX by nra.
  assert (m = 0 ∧ d = 0 ∨ 0 < m ∧ (pow2 (d - 1 + e) <= x * pow2 e)%Q) as Hw.
  { destruct (Z.eq_dec m 0) as [->|]; [by left|right].
    split; [lia|]. apply mantissa_weight; [lia|done]. }
  assert (Z.max (d + e - 53) (-1074) <= 970) as Hfin.
  { destruct Hw as [[_ ->]|[_ Hw]]; [lia|].
    assert (d - 1 + e < 1023); [|lia].
    apply pow2_lt_inv. lra. }
  destruct (rounded_val s m1 e2 Hm1 ltac:(lia)) as [Hf Hv].
  split; [done|]. split.
  - rewrite Hv.
    assert (sgn s * (inject_Z m1 * pow2 e2) - sgn s * (x * pow2 e)
            == sgn s * (inject_Z m1 * pow2 e2 - x * pow2 e))%Q as -> by ring.
    rewrite Qabs_sgn. eapply Qle_trans; [apply Habs|].
    pose proof (pow2_pos (-1075)). pose proof (pow2_pos (-53)).
    destruct (Z.max_spec (d + e - 53) (-1074)) as [[Hc Hmax]|[Hc Hmax]];
      rewrite Hmax in He |- *.
    + assert (pow2 (-1074) == 2 * pow2 (-1075))%Q as ->
        by (rewrite <- pow2_succ; reflexivity). nra.
    + destruct Hw as [[_ Hd0]|[_ Hw]]; [lia|].
      replace (d + e - 53) with (d - 1 + e + -52) by lia.
      rewrite pow2_add.
      assert (pow2 (-52) == 2 * pow2 (-53))%Q as ->
        by (rewrite <- pow2_succ; reflexivity).
      assert (pow2 (d - 1 + e) * pow2 (-53) <= x * pow2 e * pow2 (-53))%Q
        by (apply Qmult_le_compat_r; lra).
      lra.
  - intros j Ej. rewrite Hv, (Hex j Ej). reflexivity.
Qed.

(** ** Multiplication *)

Lemma valid_finite (s : bool) (m : positive) (e : Z) :
  valid_binary (S754_finite s m e) = true →
  e = Z.max (Zdigits2 (Z.pos m) + e - 53) (-1074) ∧ e <= 971.
Proof.
  unfold SpecFloat.valid_binary, bounded, canonical_mantissa.
  rewrite andb_true_iff, Z.eqb_eq, Z.leb_le, fexp_eq.
  change (emax - prec) with 971. simpl Zdigits2. lia.
Qed.

Lemma Zdigits2_mul (a b : Z) :
  0 < a → 0 < b → Zdigits2 a + Zdigits2 b - 1 <= Zdigits2 (a * b).
Proof.
  intros Ha Hb.
  pose proof (Zdigits2_bounds a Ha) as [Ha1 _].
  pose proof (Zdigits2_bounds b Hb) as [Hb1 _].
  assert (0 < Zdigits2 a) by (destruct a; simpl; lia).
  assert (0 < Zdigits2 b) by (destruct b; simpl; lia).
  assert (2 ^ (Zdigits2 a - 1 + (Zdigits2 b - 1)) <= a * b) as H1.
  { rewrite Z.pow_add_r by lia.
    assert (0 < 2 ^ (Zdigits2 a - 1)) by (apply Z.pow_pos_nonneg; lia).
    assert (0 < 2 ^ (Zdigits2 b - 1)) by (apply Z.pow_pos_nonneg; lia). nia. }
  apply Zdigits2_gt in H1; lia.
Qed.

Lemma SFval_finite_abs (s : bool) (m : positive) (e : Z) :
  (Qabs (SFval (S754_finite s m e)) == inject_Z (Z.pos m) * pow2 e)%Q.
Proof.
  unfold SFval. rewrite <- Qmult_assoc, Qabs_sgn. apply Qabs_pos.
  pose proof (pow2_pos e).
  assert (0 < inject_Z (Z.pos m))%Q by (change 0%Q with (inject_Z 0); by rewrite <- Zlt_Qlt).
  nra.
Qed.

Lemma SFmul_value (x y : spec_float) :
  valid_binary x = true → valid_binary y = true →
  SFfinite x = true → SFfinite y = true →
  (Qabs (SFval x * SFval y) < pow2 1023)%Q →
  SFfinite (SFmul prec emax x y) = true
  ∧ (Qabs (SFval (SFmul prec emax x y) - SFval x * SFval y)
     <= Qabs (SFval x * SFval y) * pow2 (-53) + pow2 (-1075))%Q.
Proof.
  intros Hx Hy Fx Fy Hov.
  pose proof (pow2_pos (-53)). pose proof (pow2_pos (-1075)).
  destruct x as [sx|sx| |sx mx ex]; try discriminate Fx;
    destruct y as [sy|sy| |sy my ey]; try discriminate Fy.
  1-3: split; [done|]; cbn [SFmul SFval];
       assert (∀ a b : Q, a == 0 → Qabs (0 - a) <= Qabs a * b + pow2 (-1075))%Q as Hz
         by (intros a b ->; change (Qabs (0 - 0)) with 0%Q; change (Qabs 0) with 0%Q; lra);
       apply Hz; ring.
  cbn [SFmul].
  apply valid_finite in Hx as [Hx _], Hy as [Hy _].
  pose proof (Zdigits2_mul (Z.pos mx) (Z.pos my) ltac:(lia) ltac:(lia)) as Hd.
  rewrite <- Pos2Z.inj_mul in Hd.
  assert (0 < Zdigits2 (Z.pos mx)) by (simpl; lia).
  assert (0 < Zdigits2 (Z.pos my)) by (simpl; lia).
  set (M := (inject_Z (Z.pos (mx * my)) * pow2 (ex + ey))%Q).
  assert (SFval (S754_finite sx mx ex) * SFval (S754_finite sy my ey)
          == sgn (xorb sx sy) * M)%Q as EM.
  { unfold M, SFval. rewrite sgn_xorb, pow2_add, Pos2Z.inj_mul, inject_Z_mult. ring. }
  assert (0 < M)%Q as HM.
  { unfold M. pose proof (pow2_pos (ex + ey)).
    assert (0 < inject_Z (Z.pos (mx * my)))%Q
      by (change 0%Q with (inject_Z 0); by rewrite <- Zlt_Qlt).
    nra. }
  rewrite EM in Hov |- *. rewrite Qabs_sgn in Hov |- *.
  rewrite (Qabs_pos M) in Hov |- * by lra.
  destruct (binary_round_aux_value (xorb sx sy) (Z.pos (mx * my)) (ex + ey)
              loc_Exact (inject_Z (Z.pos (mx * my)))) as (Hf & Hv & _).
  - split; [simpl; lia|]. reflexivity.
  - rewrite fexp_eq. lia.
  - done.
  - split; [done|]. exact Hv.
Qed.

(** ** Division *)

(** The remainder of the integer division locates the quotient. *)
Lemma new_location_located (q r m2 : Z) (x : Q) :
  0 <= q → 0 <= r < m2 →
  (x * inject_Z m2 == inject_Z q * inject_Z m2 + inject_Z r)%Q →
  located x (shr_record_of_loc q (new_location m2 r)).
Proof.
  intros Hq Hr E.
  assert (0 < inject_Z m2)%Q as HM
    by (change 0%Q with (inject_Z 0); rewrite <- Zlt_Qlt; lia).
  assert (∀ a b : Q, (a * inject_Z m2 < b * inject_Z m2 → a < b)%Q) as Hlt
    by (intros a b; by rewrite Qmult_lt_r).
  assert (∀ a b : Q, (a * inject_Z m2 == b * inject_Z m2 → a == b)%Q) as Heq
    by (intros a b; apply Qmult_inj_r; lra).
  assert (∀ c, c = Z.compare (2 * r) m2 → r ≠ 0 →
            located x (shr_record_of_loc q (loc_Inexact c))) as Hcmp.
  { intros c Hc Hr0.
    assert (0 < inject_Z r)%Q as HR
      by (change 0%Q with (inject_Z 0); rewrite <- Zlt_Qlt; lia).
    destruct (Z.compare_spec (2 * r) m2) as [H|H|H]; subst c;
      (split; [done|]); cbn [shr_record_of_loc shr_m shr_r shr_s].
    - apply Heq. rewrite E, <- H, inject_Z_mult. change (inject_Z 2) with 2%Q. ring.
    - rewrite Zlt_Qlt, inject_Z_mult in H. change (inject_Z 2) with 2%Q in H.
      split; apply Hlt; lra.
    - rewrite Zlt_Qlt, inject_Z_mult in H. change (inject_Z 2) with 2%Q in H.
      rewrite Zlt_Qlt in Hr.
      split; apply Hlt; lra. }
  assert (r = 0 → located x (shr_record_of_loc q loc_Exact)) as Hex.
  { intros ->. split; [done|]. cbn [shr_record_of_loc shr_m shr_r shr_s].
    apply Heq. rewrite E. change (inject_Z 0) with 0%Q. ring. }
  unfold new_location.
  destruct (Z.even m2) eqn:Ev.
  - unfold new_location_even.
    destruct (Z.eqb_spec r 0) as [Hr0|Hr0]; [by apply Hex|by apply Hcmp].
  - unfold new_location_odd.
    destruct (Z.eqb_spec r 0) as [Hr0|Hr0]; [by apply Hex|].
    assert (m2 mod 2 = 1) as Hodd.
    { rewrite Zmod_odd, <- Z.negb_even, Ev. done. }
    pose proof (Z.div_mod m2 2 ltac:(lia)) as Hm2. rewrite Hodd in Hm2.
    destruct (Z.compare_spec (2 * r + 1) m2) as [H|H|H].
    + apply Hcmp; [|done]. symmetry. apply Z.compare_lt_iff. lia.
    + apply Hcmp; [|done]. symmetry. apply Z.compare_lt_iff. lia.
    + apply Hcmp; [|done]. symmetry. apply Z.compare_gt_iff. lia.
Qed.

Lemma SFdiv_core_binary_spec (mx my : positive) (ex ey : Z) :
  ∃ q e' l x,
    SFdiv_core_binary prec emax (Z.pos mx) ex (Z.pos my) ey = (q, e', l)
    ∧ located x (shr_record_of_loc q l)
    ∧ (x * pow2 e' * (inject_Z (Z.pos my) * pow2 ey)
       == inject_Z (Z.pos mx) * pow2 ex)%Q
    ∧ e' <= fexp prec emax (Zdigits2 q + e').
Proof.
  unfold SFdiv_core_binary.
  set (d1 := Zdigits2 (Z.pos mx)). set (d2 := Zdigits2 (Z.pos my)).
  set (e' := Z.min (fexp prec emax (d1 + ex - (d2 + ey))) (ex - ey)).
  set (s := ex - ey - e').
  assert (0 <= s) as Hs by (unfold s, e'; lia).
  set (m' := match s with Z.pos _ => Z.shiftl (Z.pos mx) s | 0 => Z.pos mx | Z.neg _ => 0 end).
  assert (m' = Z.pos mx * 2 ^ s) as Hm'.
  { unfold m'. destruct s as [|p|p] eqn:Es; [simpl; lia| |lia].
    by rewrite Z.shiftl_mul_pow2. }
  clearbody m'.
  pose proof (Z_div_mod m' (Z.pos my) ltac:(lia)) as Hdiv.
  destruct (Z.div_eucl m' (Z.pos my)) as [q r]. destruct Hdiv as [Hdiv Hr].
  assert (0 < 2 ^ s) as Hps by (apply Z.pow_pos_nonneg; lia).
  assert (0 <= q) as Hq by nia.
  exists q, e', (new_location (Z.pos my) r), (inject_Z m' / inject_Z (Z.pos my))%Q.
  assert (0 < inject_Z (Z.pos my))%Q as HM
    by (change 0%Q with (inject_Z 0); rewrite <- Zlt_Qlt; lia).
  split; [done|]. split; [|split].
  - apply new_location_located; [done..|].
    rewrite Hdiv at 1. rewrite inject_Z_plus, inject_Z_mult. field. lra.
  - pose proof (pow2_pos ey). pose proof (pow2_pos e').
    assert (pow2 ex == pow2 s * pow2 e' * pow2 ey)%Q as ->.
    { rewrite <- !pow2_add. unfold s. by replace (ex - ey - e' + e' + ey) with ex by lia. }
    rewrite Hm', inject_Z_mult, <- pow2_Z by done. field. lra.
  - assert (d1 + s - d2 <= Zdigits2 q) as Hdq.
    { pose proof (Zdigits2_nonneg q).
      destruct (Z.le_gt_cases (d1 + s - d2) 0) as [|Hpos]; [lia|].
      pose proof (Zdigits2_bounds (Z.pos mx) ltac:(lia)) as [H1 _].
      pose proof (Zdigits2_bounds (Z.pos my) ltac:(lia)) as [_ H2].
      fold d1 in H1. fold d2 in H2.
      assert (0 < d1) by (unfold d1; simpl; lia).
      assert (0 < d2) by (unfold d2; simpl; lia).
      assert (2 ^ (d1 + s - d2 - 1) <= q) as Hlow.
      { assert (2 ^ (d1 - 1) * 2 ^ s = 2 ^ (d1 + s - d2 - 1) * 2 ^ d2) as Hp.
        { rewrite <- !Z.pow_add_r by lia. f_equal. lia. }
        assert (0 < 2 ^ (d1 + s - d2 - 1)) by (apply Z.pow_pos_nonneg; lia).
        nia. }
      apply Zdigits2_gt in Hlow; lia. }
    assert (e' = Z.min (Z.max (d1 + ex - (d2 + ey) - 53) (-1074)) (ex - ey)) as He'
      by done.
    assert (s = ex - ey - e') as Hs_eq by done.
    clearbody s e'. rewrite fexp_eq. lia.
Qed.

Lemma inject_Z_pos (p : positive) : (0 < inject_Z (Z.pos p))%Q.
Proof. change 0%Q with (inject_Z 0). by rewrite <- Zlt_Qlt. Qed.

Lemma SFval_finite_nonzero (s : bool) (m : positive) (e : Z) :
  ¬ (SFval (S754_finite s m e) == 0)%Q.
Proof.
  unfold SFval. pose proof (inject_Z_pos m). pose proof (pow2_pos e).
  assert (0 < inject_Z (Z.pos m) * pow2 e)%Q by nra.
  destruct s; unfold sgn; lra.
Qed.

Lemma SFdiv_value (x : spec_float) (sy : bool) (my : positive) (ey : Z) :
  SFfinite x = true →
  (Qabs (SFval x / SFval (S754_finite sy my ey)) < pow2 1023)%Q →
  SFfinite (SFdiv prec emax x (S754_finite sy my ey)) = true
  ∧ (Qabs (SFval (SFdiv prec emax x (S754_finite sy my ey))
           - SFval x / SFval (S754_finite sy my ey))
     <= Qabs (SFval x / SFval (S754_finite sy my ey)) * pow2 (-53)
        + pow2 (-1075))%Q.
Proof.
  intros Fx Hov.
  pose proof (pow2_pos (-53)). pose proof (pow2_pos (-1075)).
  pose proof (SFval_finite_nonzero sy my ey) as Hy0.
  destruct x as [sx|sx| |sx mx ex]; try discriminate Fx.
  - split; [done|]. cbn [SFdiv]. unfold SFval at 1 2 4.
    assert (0 / SFval (S754_finite sy my ey) == 0)%Q as -> by (field; done).
    change (Qabs (0 - 0)) with 0%Q. change (Qabs 0) with 0%Q. lra.
  - cbn [SFdiv].
    destruct (SFdiv_core_binary_spec mx my ex ey) as (q & e' & l & X & -> & Hloc & EX & He').
    pose proof (inject_Z_pos my). pose proof (pow2_pos ey).
    pose proof (inject_Z_pos mx). pose proof (pow2_pos ex).
    pose proof (pow2_pos e').
    assert (SFval (S754_finite sx mx ex) / SFval (S754_finite sy my ey)
            == sgn (xorb sx sy) * (X * pow2 e'))%Q as EM.
    { apply (Qmult_inj_r _ _ (SFval (S754_finite sy my ey))); [done|].
      assert (SFval (S754_finite sx mx ex) / SFval (S754_finite sy my ey)
              * SFval (S754_finite sy my ey) == SFval (S754_finite sx mx ex))%Q
        as -> by (field; done).
      unfold SFval. rewrite sgn_xorb.
      assert (sgn sx * sgn sy * (X * pow2 e') * (sgn sy * inject_Z (Z.pos my) * pow2 ey)
              == sgn sx * (sgn sy * sgn sy) * (X * pow2 e' * (inject_Z (Z.pos my) * pow2 ey)))%Q
        as -> by ring.
      rewrite sgn_sqr, EX. ring. }
    assert (0 <= X)%Q as HX.
    { pose proof (located_range _ _ Hloc) as [Hlo _]. rewrite shr_m_of_loc in Hlo.
      destruct Hloc as [Hq _]. rewrite shr_m_of_loc, Zle_Qle in Hq.
      change (inject_Z 0) with 0%Q in Hq. lra. }
    assert (0 <= X * pow2 e')%Q as HXe by nra.
    rewrite EM in Hov |- *. rewrite Qabs_sgn in Hov |- *.
    rewrite (Qabs_pos (X * pow2 e')) in Hov |- * by done.
    destruct (binary_round_aux_value (xorb sx sy) q e' l X Hloc He' Hov)
      as (Hf & Hv & _).
    by split.
Qed.

(** ** Exact results

    A number [j * 2^t * 2^e] with [j] below 2^53 is a double, and rounding
    leaves it as it is. *)

Lemma iter_xO_spec (m d : positive) :
  Z.pos (Pos.iter xO m d) = Z.pos m * 2 ^ Z.pos d.
Proof.
  induction d as [|d IH] using Pos.peano_ind.
  - simpl. lia.
  - rewrite Pos.iter_succ, Pos2Z.inj_xO, IH, Pos2Z.inj_succ, Z.pow_succ_r by lia. lia.
Qed.

Lemma shl_align_spec (m : positive) (e e' : Z) :
  ∃ mz, shl_align m e e' = (mz, Z.min e e')
        ∧ Z.pos mz = Z.pos m * 2 ^ (e - Z.min e e').
Proof.
  unfold shl_align. destruct (e' - e) as [|d|d] eqn:E.
  - exists m. replace (Z.min e e') with e by lia. split; [done|].
    rewrite Z.sub_diag. simpl. lia.
  - exists m. replace (Z.min e e') with e by lia. split; [done|].
    rewrite Z.sub_diag. simpl. lia.
  - exists (Pos.iter xO m d). replace (Z.min e e') with e' by lia. split; [done|].
    rewrite iter_xO_spec. f_equal. f_equal. lia.
Qed.

Lemma binary_round_exact (s : bool) (m : positive) (e j t : Z) :
  Z.pos m = j * 2 ^ t → 0 <= t → j < 2 ^ 53 → -1074 <= e → e + t <= 970 →
  SFfinite (binary_round prec emax s m e) = true
  ∧ (SFval (binary_round prec emax s m e)
     == sgn s * (inject_Z (Z.pos m) * pow2 e))%Q.
Proof.
  intros Hm Ht Hj He Het. unfold binary_round.
  change (Z.pos (digits2_pos m)) with (Zdigits2 (Z.pos m)).
  set (d := Zdigits2 (Z.pos m)).
  assert (0 < 2 ^ t) as Hpt by (apply Z.pow_pos_nonneg; lia).
  assert (0 < j) as Hj0 by nia.
  assert (Z.pos m < 2 ^ (53 + t)) as Hmlt.
  { rewrite Z.pow_add_r by lia. nia. }
  assert (d <= 53 + t) as Hd by (apply Zdigits2_le; lia).
  assert (0 < d) as Hd0 by (unfold d; simpl; lia).
  pose proof (Zdigits2_bounds (Z.pos m) ltac:(lia)) as [Hlo Hhi]. fold d in Hlo, Hhi.
  rewrite fexp_eq.
  set (e1 := Z.max (d + e - 53) (-1074)).
  destruct (shl_align_spec m e e1) as (mz & -> & Hmz).
  set (ez := Z.min e e1) in *.
  assert (0 < 2 ^ (e - ez)) as Hpz by (apply Z.pow_pos_nonneg; lia).
  assert (Zdigits2 (Z.pos mz) = d + (e - ez)) as Hdz.
  { apply Zdigits2_unique; [lia|]. rewrite Hmz.
    replace (d + (e - ez) - 1) with (d - 1 + (e - ez)) by lia.
    rewrite !Z.pow_add_r by lia. nia. }
  assert (inject_Z (Z.pos mz) * pow2 ez == inject_Z (Z.pos m) * pow2 e)%Q as Eval.
  { rewrite Hmz, inject_Z_mult, <- pow2_Z by lia.
    rewrite <- Qmult_assoc, <- pow2_add. by replace (e - ez + ez) with e by lia. }
  destruct (binary_round_aux_value s (Z.pos mz) ez loc_Exact (inject_Z (Z.pos mz)))
    as (Hf & _ & Hex).
  - split; [simpl; lia|]. reflexivity.
  - rewrite fexp_eq, Hdz. unfold ez, e1. lia.
  - rewrite Eval. eapply Qlt_le_trans; [|apply (pow2_le (53 + t + e)); lia].
    rewrite pow2_add, (pow2_Z (53 + t)) by lia. pose proof (pow2_pos e).
    rewrite Zlt_Qlt in Hmlt. nra.
  - split; [done|]. rewrite <- Eval.
    rewrite fexp_eq, Hdz in Hex. replace (d + (e - ez) + ez) with (d + e) in Hex by lia.
    fold e1 in Hex.
    destruct (Z.le_gt_cases e1 e) as [Hle|Hgt].
    + apply (Hex (Z.pos mz)). replace (e1 - ez) with 0 by (unfold ez; lia).
      change (pow2 0) with 1%Q. ring.
    + assert (ez = e) as Hez by (unfold ez; lia).
      assert (e1 - e <= t) as Hn by (unfold e1; lia).
      apply (Hex (j * 2 ^ (t - (e1 - e)))).
      rewrite Hmz, Hez, Z.sub_diag, Z.mul_1_r, Hm.
      rewrite !inject_Z_mult, <- !pow2_Z by lia.
      rewrite <- Qmult_assoc, <- pow2_add. by replace (t - (e1 - e) + (e1 - e)) with t by lia.
Qed.

Lemma binary_normalize_exact (z e j t : Z) :
  z = j * 2 ^ t → 0 <= t → Z.abs j < 2 ^ 53 → -1074 <= e → e + t <= 970 →
  SFfinite (binary_normalize prec emax z e false) = true
  ∧ (SFval (binary_normalize prec emax z e false) == inject_Z z * pow2 e)%Q
  ∧ (z = 0 → binary_normalize prec emax z e false = S754_zero false).
Proof.
  intros Hz Ht Hj He Het.
  assert (0 < 2 ^ t) as Hpt by (apply Z.pow_pos_nonneg; lia).
  destruct z as [|m|m]; cbn [binary_normalize].
  - split; [done|]. split; [|done]. unfold SFval. change (inject_Z 0) with 0%Q. ring.
  - destruct (binary_round_exact false m e j t) as [Hf Hv]; try done; [lia|].
    split; [done|]. split; [|done]. rewrite Hv. unfold sgn. ring.
  - destruct (binary_round_exact true m e (- j) t) as [Hf Hv]; try done; [lia..|].
    split; [done|]. split; [|done]. rewrite Hv. unfold sgn.
    change (Z.neg m) with (- Z.pos m). rewrite inject_Z_opp. ring.
Qed.

(** A canonical mantissa at a lower exponent is a smaller number. *)
Lemma canonical_lt (s1 s2 : bool) (m1 m2 : positive) (e1 e2 : Z) :
  valid_binary (S754_finite s1 m1 e1) = true →
  valid_binary (S754_finite s2 m2 e2) = true →
  e1 < e2 →
  (inject_Z (Z.pos m1) * pow2 e1 < inject_Z (Z.pos m2) * pow2 e2)%Q.
Proof.
  intros [H1 _]%valid_finite [H2 _]%valid_finite He.
  pose proof (Zdigits2_bounds (Z.pos m1) ltac:(lia)) as [_ Hhi].
  pose proof (Zdigits2_bounds (Z.pos m2) ltac:(lia)) as [Hlo _].
  assert (Zdigits2 (Z.pos m2) = 53) as Hd2 by lia.
  assert (Zdigits2 (Z.pos m1) <= 53) as Hd1 by lia.
  rewrite Hd2 in Hlo. change (2 ^ (53 - 1)) with 4503599627370496 in Hlo.
  assert (Z.pos m1 < 2 ^ 53) as Hm1.
  { eapply Z.lt_le_trans; [apply Hhi|]. apply Z.pow_le_mono_r; lia. }
  change (2 ^ 53) with 9007199254740992 in Hm1.
  rewrite Zlt_Qlt in Hm1. rewrite Zle_Qle in Hlo.
  pose proof (pow2_le (e1 + 1) e2 ltac:(lia)) as Hp. rewrite pow2_succ in Hp.
  pose proof (pow2_pos e1). pose proof (pow2_pos e2).
  change (inject_Z 9007199254740992) with (9007199254740992)%Q in Hm1.
  change (inject_Z 4503599627370496) with (4503599627370496)%Q in Hlo.
  nra.
Qed.

(** ** Comparison *)

(** On zero and finite numbers [SFcompare] compares the values. *)
Lemma SFcompare_value (x y : spec_float) :
  valid_binary x = true → valid_binary y = true →
  SFfinite x = true → SFfinite y = true →
  ∃ c, SFcompare x y = Some c ∧ cmp_holds c (SFval x) (SFval y).
Proof.
  intros Hx Hy Fx Fy.
  destruct x as [sx|sx| |sx mx ex]; try discriminate Fx;
    destruct y as [sy|sy| |sy my ey]; try discriminate Fy; cbn [SFcompare].
  - exists Eq. split; [done|]. reflexivity.
  - eexists. split; [done|]. unfold SFval.
    pose proof (inject_Z_pos my). pose proof (pow2_pos ey).
    assert (0 < inject_Z (Z.pos my) * pow2 ey)%Q by nra.
    destruct sy; unfold sgn, cmp_holds; lra.
  - eexists. split; [done|]. unfold SFval.
    pose proof (inject_Z_pos mx). pose proof (pow2_pos ex).
    assert (0 < inject_Z (Z.pos mx) * pow2 ex)%Q by nra.
    destruct sx; unfold sgn, cmp_holds; lra.
  - eexists. split; [done|]. unfold SFval.
    pose proof (inject_Z_pos mx). pose proof (pow2_pos ex).
    pose proof (inject_Z_pos my). pose proof (pow2_pos ey).
    assert (0 < inject_Z (Z.pos mx) * pow2 ex)%Q by nra.
    assert (0 < inject_Z (Z.pos my) * pow2 ey)%Q by nra.
    assert (ex < ey → (inject_Z (Z.pos mx) * pow2 ex < inject_Z (Z.pos my) * pow2 ey)%Q)
      as Hlt by (by apply canonical_lt with sx sy).
    assert (ey < ex → (inject_Z (Z.pos my) * pow2 ey < inject_Z (Z.pos mx) * pow2 ex)%Q)
      as Hgt by (by apply canonical_lt with sy sx).
    change (Pos.compare_cont Eq mx my) with (Pos.compare mx my).
    assert (ex = ey → cmp_holds (Pos.compare mx my)
              (inject_Z (Z.pos mx) * pow2 ex) (inject_Z (Z.pos my) * pow2 ey)) as Heq.
    { intros ->. destruct (Pos.compare_spec mx my) as [->|Hc|Hc]; unfold cmp_holds.
      - reflexivity.
      - apply Qmult_lt_compat_r; [done|]. rewrite <- Zlt_Qlt. lia.
      - apply Qmult_lt_compat_r; [done|]. rewrite <- Zlt_Qlt. lia. }
    destruct sx, sy; unfold sgn.
    + destruct (Z.compare_spec ex ey) as [He|He|He].
      * specialize (Heq He). destruct (Pos.compare mx my); unfold cmp_holds, CompOpp in *; lra.
      * specialize (Hlt He). unfold cmp_holds. lra.
      * specialize (Hgt He). unfold cmp_holds. lra.
    + unfold cmp_holds. lra.
    + unfold cmp_holds. lra.
    + destruct (Z.compare_spec ex ey) as [He|He|He].
      * specialize (Heq He). destruct (Pos.compare mx my); unfold cmp_holds in *; lra.
      * specialize (Hlt He). unfold cmp_holds. lra.
      * specialize (Hgt He). unfold cmp_holds. lra.
Qed.

(** ** The primitive operations on [float] *)

Lemma SFval_zero (x : spec_float) :
  SFfinite x = true → (SFval x == 0)%Q → ∃ s, x = S754_zero s.
Proof.
  destruct x as [s|s| |s m e]; try done; [by exists s|].
  intros _ H. by apply SFval_finite_nonzero in H.
Qed.

Lemma floatToQ_Fval (f : float) :
  Ffinite f = true → ∃ r, floatToQ f = Some r ∧ (r == Fval f)%Q.
Proof.
  unfold Ffinite, Fval, floatToQ.
  destruct (Prim2SF f) as [s|s| |s m e]; try done; intros _.
  - by exists 0%Q.
  - eexists. split; [done|]. unfold SFval.
    assert (inject_Z (if s then Z.neg m else Z.pos m) == sgn s * inject_Z (Z.pos m))%Q as Es.
    { destruct s; unfold sgn; [|ring].
      change (Z.neg m) with (- Z.pos m). rewrite inject_Z_opp. ring. }
    destruct (Z.leb_spec 0 e) as [He|He].
    + rewrite inject_Z_mult, Es, pow2_Z by done. reflexivity.
    + rewrite Qmake_Qdiv, Es.
      assert (inject_Z (Z.pos (2 ^ Z.to_pos (- e))) == pow2 (- e))%Q as ->.
      { rewrite Pos2Z.inj_pow, Z2Pos.id, pow2_Z by lia. reflexivity. }
      replace e with (- - e) at 2 by lia.
      unfold pow2 at 2. rewrite Qpower_opp. reflexivity.
Qed.

Lemma floatToQ_Some (f : float) (r : Q) :
  floatToQ f = Some r → Ffinite f = true ∧ (r == Fval f)%Q.
Proof.
  intros H. assert (Ffinite f = true) as Hf.
  { unfold floatToQ, Ffinite in *. by destruct (Prim2SF f). }
  split; [done|]. destruct (floatToQ_Fval f Hf) as (r' & Hr' & E). congruence.
Qed.

Lemma mul_value (f g : float) :
  Ffinite f = true → Ffinite g = true →
  (Qabs (Fval f * Fval g) < pow2 1023)%Q →
  Ffinite (f * g) = true
  ∧ (Qabs (Fval (f * g) - Fval f * Fval g)
     <= Qabs (Fval f * Fval g) * pow2 (-53) + pow2 (-1075))%Q.
Proof.
  unfold Ffinite, Fval. rewrite mul_spec. apply SFmul_value; apply Prim2SF_valid.
Qed.

Lemma div_value (f g : float) :
  Ffinite f = true → Ffinite g = true → ¬ (Fval g == 0)%Q →
  (Qabs (Fval f / Fval g) < pow2 1023)%Q →
  Ffinite (f / g) = true
  ∧ (Qabs (Fval (f / g) - Fval f / Fval g)
     <= Qabs (Fval f / Fval g) * pow2 (-53) + pow2 (-1075))%Q
  ∧ ((Fval f == 0)%Q → (Fval (f / g) == 0)%Q).
Proof.
  unfold Ffinite, Fval. rewrite div_spec. intros Hf Hg Hg0 Hov.
  destruct (Prim2SF g) as [s|s| |s m e] eqn:Eg;
    [exfalso; apply Hg0; reflexivity|discriminate Hg..|].
  destruct (SFdiv_value (Prim2SF f) s m e Hf Hov) as [H1 H2].
  split; [done|]. split; [done|].
  intros H0. destruct (SFval_zero _ Hf H0) as [s' ->]. reflexivity.
Qed.

Lemma compare_value (f g : float) :
  Ffinite f = true → Ffinite g = true →
  ∃ c, SFcompare (Prim2SF f) (Prim2SF g) = Some c ∧ cmp_holds c (Fval f) (Fval g).
Proof. intros Hf Hg. apply SFcompare_value; try done; apply Prim2SF_valid. Qed.

Lemma ltb_value (f g : float) :
  Ffinite f = true → Ffinite g = true →
  (f <? g)%float = true ↔ (Fval f < Fval g)%Q.
Proof.
  intros Hf Hg. rewrite ltb_spec. unfold SFltb.
  destruct (compare_value f g Hf Hg) as (c & -> & Hc).
  destruct c; unfold cmp_holds in Hc; split; intros H; try done; lra.
Qed.

Lemma leb_value (f g : float) :
  Ffinite f = true → Ffinite g = true →
  (f <=? g)%float = true ↔ (Fval f <= Fval g)%Q.
Proof.
  intros Hf Hg. rewrite leb_spec. unfold SFleb.
  destruct (compare_value f g Hf Hg) as (c & -> & Hc).
  destruct c; unfold cmp_holds in Hc; split; intros H; try done; lra.
Qed.

(** ** Addition and subtraction *)

Lemma inject_Z_cond_Zopp (s : bool) (z : Z) :
  (inject_Z (cond_Zopp s z) == sgn s * inject_Z z)%Q.
Proof. destruct s; unfold cond_Zopp, sgn; [rewrite inject_Z_opp|]; ring. Qed.

Lemma shl_align_value (m : positive) (e e' : Z) :
  e' <= e →
  (inject_Z (Z.pos (shl_align m e e').1) * pow2 e' == inject_Z (Z.pos m) * pow2 e)%Q.
Proof.
  intros He. destruct (shl_align_spec m e e') as (mz & -> & Hmz).
  cbn [fst]. rewrite Hmz. replace (Z.min e e') with e' by lia.
  rewrite inject_Z_mult, <- pow2_Z, <- Qmult_assoc, <- pow2_add by lia.
  by replace (e - e' + e') with e by lia.
Qed.

Lemma SFsub_finite (sx sy : bool) (mx my : positive) (ex ey : Z) :
  ∃ z, SFsub prec emax (S754_finite sx mx ex) (S754_finite sy my ey)
       = binary_normalize prec emax z (Z.min ex ey) false
     ∧ (inject_Z z * pow2 (Z.min ex ey)
        == SFval (S754_finite sx mx ex) - SFval (S754_finite sy my ey))%Q.
Proof.
  cbn [SFsub]. eexists. split; [reflexivity|].
  rewrite <- Z.add_opp_r, inject_Z_plus, inject_Z_opp, !inject_Z_cond_Zopp.
  pose proof (shl_align_value mx ex (Z.min ex ey) ltac:(lia)) as Hx.
  pose proof (shl_align_value my ey (Z.min ex ey) ltac:(lia)) as Hy.
  unfold SFval. rewrite <- !Qmult_assoc, <- Hx, <- Hy. ring.
Qed.

Lemma SFadd_finite (sx sy : bool) (mx my : positive) (ex ey : Z) :
  ∃ z, SFadd prec emax (S754_finite sx mx ex) (S754_finite sy my ey)
       = binary_normalize prec emax z (Z.min ex ey) false
     ∧ (inject_Z z * pow2 (Z.min ex ey)
        == SFval (S754_finite sx mx ex) + SFval (S754_finite sy my ey))%Q.
Proof.
  cbn [SFadd]. eexists. split; [reflexivity|].
  rewrite inject_Z_plus, !inject_Z_cond_Zopp.
  pose proof (shl_align_value mx ex (Z.min ex ey) ltac:(lia)) as Hx.
  pose proof (shl_align_value my ey (Z.min ex ey) ltac:(lia)) as Hy.
  unfold SFval. rewrite <- !Qmult_assoc, <- Hx, <- Hy. ring.
Qed.

Lemma SFval_opp (x : spec_float) :
  SFfinite (SFopp x) = SFfinite x ∧ (SFval (SFopp x) == - SFval x)%Q.
Proof.
  destruct x as [s|s| |s m e]; (split; [done|]); cbn [SFopp SFval]; try ring.
  destruct s; cbn [negb sgn]; ring.
Qed.

(** [floatOfZ] converts an integer below 2^53 exactly. *)
Lemma floatOfZ_value (k : Z) :
  Z.abs k < 2 ^ 53 →
  Ffinite (floatOfZ k) = true ∧ (Fval (floatOfZ k) == inject_Z k)%Q.
Proof.
  intros Hk.
  assert (∀ p, Z.pos p < 2 ^ 53 →
            Ffinite (of_uint63 (Uint63.of_Z (Z.pos p))) = true
            ∧ (Fval (of_uint63 (Uint63.of_Z (Z.pos p))) == inject_Z (Z.pos p))%Q) as Hpos.
  { intros p Hp. unfold Ffinite, Fval. rewrite of_uint63_spec.
    assert (Uint63Axioms.to_Z (Uint63.of_Z (Z.pos p)) = Z.pos p) as ->.
    { rewrite of_Z_spec. apply Z.mod_small. change wB with (2 ^ 63).
      assert (2 ^ 53 < 2 ^ 63) by (apply Z.pow_lt_mono_r; lia). lia. }
    destruct (binary_normalize_exact (Z.pos p) 0 (Z.pos p) 0) as (Hf & Hv & _);
      try lia.
    split; [done|]. rewrite Hv. change (pow2 0) with 1%Q. ring. }
  destruct k as [|p|p]; unfold floatOfZ.
  - split; reflexivity.
  - apply Hpos. lia.
  - destruct (Hpos p ltac:(lia)) as [Hf Hv].
    unfold Ffinite, Fval in *. rewrite opp_spec.
    destruct (SFval_opp (Prim2SF (of_uint63 (of_Z (Z.pos p))))) as [-> ->].
    split; [done|]. rewrite Hv. change (Z.neg p) with (- Z.pos p).
    rewrite inject_Z_opp. reflexivity.
Qed.

(** ** Exponents of canonical numbers *)

Lemma mantissa_lt (s : bool) (m : positive) (e : Z) :
  valid_binary (S754_finite s m e) = true → Z.pos m < 2 ^ 53.
Proof.
  intros [H _]%valid_finite.
  pose proof (Zdigits2_bounds (Z.pos m) ltac:(lia)) as [_ Hhi].
  eapply Z.lt_le_trans; [apply Hhi|]. apply Z.pow_le_mono_r; lia.
Qed.

Lemma exp_lower (s : bool) (m : positive) (e L : Z) :
  valid_binary (S754_finite s m e) = true →
  (pow2 L <= inject_Z (Z.pos m) * pow2 e)%Q → L - 52 <= e.
Proof.
  intros Hv H. apply mantissa_lt in Hv. rewrite Zlt_Qlt, <- pow2_Z in Hv by lia.
  pose proof (pow2_pos e).
  assert (pow2 L < pow2 (53 + e))%Q as Hlt by (rewrite pow2_add; nra).
  apply pow2_lt_inv in Hlt. lia.
Qed.

Lemma exp_upper (s : bool) (m : positive) (e U : Z) :
  valid_binary (S754_finite s m e) = true →
  (inject_Z (Z.pos m) * pow2 e < pow2 U)%Q → e <= Z.max (U - 53) (-1074).
Proof.
  intros [H _]%valid_finite Hlt.
  destruct (Z.max_spec (Zdigits2 (Z.pos m) + e - 53) (-1074)) as [[_ Hm]|[_ Hm]];
    rewrite Hm in H; [lia|].
  assert (Zdigits2 (Z.pos m) = 53) as Hd by lia.
  pose proof (Zdigits2_bounds (Z.pos m) ltac:(lia)) as [Hlo _].
  rewrite Hd, Zle_Qle, <- pow2_Z in Hlo by lia.
  pose proof (pow2_pos e).
  assert (pow2 (52 + e) < pow2 U)%Q as Hlt'.
  { rewrite pow2_add. change (53 - 1) with 52 in Hlo. nra. }
  apply pow2_lt_inv in Hlt'. lia.
Qed.

Lemma Qfloor_unique (x : Q) (n : Z) :
  (inject_Z n <= x)%Q → (x < inject_Z n + 1)%Q → Qfloor x = n.
Proof.
  intros H1 H2. pose proof (Qfloor_le x) as H3. pose proof (Qlt_floor x) as H4.
  rewrite inject_Z_plus in H4. change (inject_Z 1) with 1%Q in H4.
  assert (inject_Z n < inject_Z (Qfloor x + 1))%Q as H5
    by (rewrite inject_Z_plus; change (inject_Z 1) with 1%Q; lra).
  assert (inject_Z (Qfloor x) < inject_Z (n + 1))%Q as H6
    by (rewrite inject_Z_plus; change (inject_Z 1) with 1%Q; lra).
  rewrite <- Zlt_Qlt in H5, H6. lia.
Qed.

Lemma Qabs_inject_Z (k : Z) : Qabs (inject_Z k) = inject_Z (Z.abs k).
Proof. reflexivity. Qed.

Lemma Fval_finite_abs (f : float) (s : bool) (m : positive) (e : Z) :
  Prim2SF f = S754_finite s m e →
  (Qabs (Fval f) == inject_Z (Z.pos m) * pow2 e)%Q.
Proof. intros E. unfold Fval. rewrite E. apply SFval_finite_abs. Qed.

(** A double that is an integer below 2^53 has an exponent that is not
    positive, and is not below -52 when the integer is not zero. *)
Lemma integer_exponent (f : float) (k : Z) :
  Ffinite f = true → (Fval f == inject_Z k)%Q → Z.abs k < 2 ^ 53 →
  SFexp_le0 (Prim2SF f)
  ∧ (k ≠ 0 → ∃ s m e, Prim2SF f = S754_finite s m e ∧ -52 <= e).
Proof.
  intros Hf Hv Hk. pose proof (Prim2SF_valid f) as Hvalid.
  pose proof (Fval_finite_abs f) as Habs.
  unfold Ffinite, Fval in *.
  destruct (Prim2SF f) as [s|s| |s m e] eqn:E; try done.
  - split; [done|]. intros Hk0. exfalso. apply Hk0.
    apply inject_Z_injective. rewrite <- Hv. reflexivity.
  - specialize (Habs s m e eq_refl). rewrite Hv, Qabs_inject_Z in Habs.
    split.
    + cbn. apply (exp_upper s m e 53) in Hvalid; [lia|].
      rewrite <- Habs, pow2_Z by lia. by rewrite <- Zlt_Qlt.
    + intros Hk0. exists s, m, e. split; [done|].
      apply (exp_lower s m e 0) in Hvalid; [lia|].
      rewrite <- Habs. change (pow2 0) with (inject_Z 1). rewrite <- Zle_Qle. lia.
Qed.

(** ** Subtractions and additions that are exact *)

Lemma sub_self (f : float) :
  Ffinite f = true → Ffinite (f - f) = true ∧ (Fval (f - f) == 0)%Q.
Proof.
  unfold Ffinite, Fval. rewrite sub_spec. unfold SF64sub.
  destruct (Prim2SF f) as [s|s| |s m e]; try done; intros _.
  - by destruct s.
  - destruct (SFsub_finite s s m m e e) as (z & -> & Hz).
    assert (z = 0) as ->; [|done].
    apply inject_Z_injective. pose proof (pow2_pos (Z.min e e)).
    apply (Qmult_inj_r _ _ (pow2 (Z.min e e))); [lra|]. rewrite Hz.
    change (inject_Z 0) with 0%Q. ring.
Qed.

Lemma sub_exact (f g : float) :
  Ffinite f = true → Ffinite g = true →
  (∀ s m e, Prim2SF g = S754_finite s m e →
     -53 <= e <= 0 ∧ ∃ s' m' e', Prim2SF f = S754_finite s' m' e' ∧ -53 <= e' <= 0) →
  (Qabs (Fval f - Fval g) < 1)%Q →
  Ffinite (f - g) = true ∧ (Fval (f - g) == Fval f - Fval g)%Q.
Proof.
  unfold Ffinite, Fval. rewrite sub_spec. unfold SF64sub. intros Hf Hg Hexp Hlt.
  destruct (Prim2SF g) as [sy|sy| |sy my ey] eqn:Eg; try done.
  - destruct (Prim2SF f) as [sx|sx| |sx mx ex] eqn:Ef; try done.
    + split; [by destruct sx, sy|].
      assert (SFval (SFsub prec emax (S754_zero sx) (S754_zero sy)) == 0)%Q as ->
        by (by destruct sx, sy).
      unfold SFval. ring.
    + split; [done|]. cbn [SFsub]. unfold SFval at 3. ring.
  - destruct (Hexp sy my ey eq_refl) as (Hey & sx & mx & ex & Ef & Hex).
    clear Hexp. rewrite Ef in *.
    destruct (SFsub_finite sx sy mx my ex ey) as (z & -> & Hz).
    rewrite <- Hz in Hlt |- *.
    set (ez := Z.min ex ey) in *. pose proof (pow2_pos ez) as Hpz.
    apply Qabs_Qlt_condition in Hlt as [Hlo Hhi].
    pose proof (pow2_le 0 (53 + ez) ltac:(lia)) as Hp.
    change (pow2 0) with 1%Q in Hp. rewrite pow2_add, pow2_Z in Hp by lia.
    assert (inject_Z (- 2 ^ 53) < inject_Z z)%Q as H1.
    { apply (Qmult_lt_r _ _ (pow2 ez)); [done|]. rewrite inject_Z_opp. lra. }
    assert (inject_Z z < inject_Z (2 ^ 53))%Q as H2.
    { apply (Qmult_lt_r _ _ (pow2 ez)); [done|]. lra. }
    rewrite <- Zlt_Qlt in H1, H2.
    destruct (binary_normalize_exact z ez z 0) as (Hfin & Hv & _); try lia.
    by split.
Qed.

Lemma add_exact_int (f g : float) (k : Z) :
  Ffinite f = true → Ffinite g = true →
  SFexp_le0 (Prim2SF f) → SFexp_le0 (Prim2SF g) →
  (Fval f + Fval g == inject_Z k)%Q → Z.abs k < 2 ^ 53 →
  Ffinite (f + g) = true ∧ (Fval (f + g) == inject_Z k)%Q.
Proof.
  intros Hf Hg Hef Heg Hk Hlt.
  pose proof (Prim2SF_valid f) as Vf. pose proof (Prim2SF_valid g) as Vg.
  unfold Ffinite, Fval in *. rewrite add_spec. unfold SF64add.
  destruct (Prim2SF f) as [sx|sx| |sx mx ex] eqn:Ef; try done;
    destruct (Prim2SF g) as [sy|sy| |sy my ey] eqn:Eg; try done.
  - split; [by destruct sx, sy|].
    assert (SFval (SFadd prec emax (S754_zero sx) (S754_zero sy)) == 0)%Q as ->
      by (by destruct sx, sy).
    rewrite <- Hk. unfold SFval. ring.
  - split; [done|]. cbn [SFadd]. rewrite <- Hk. unfold SFval at 2. ring.
  - split; [done|]. cbn [SFadd]. rewrite <- Hk. unfold SFval at 3. ring.
  - destruct (SFadd_finite sx sy mx my ex ey) as (z & -> & Hz).
    rewrite Hk in Hz. cbn in Hef, Heg.
    apply valid_finite in Vf as [Vf _], Vg as [Vg _].
    set (ez := Z.min ex ey) in *. pose proof (pow2_pos ez) as Hpz.
    assert (z = k * 2 ^ (- ez)) as Hzk.
    { apply inject_Z_injective. rewrite inject_Z_mult, <- pow2_Z by lia.
      apply (Qmult_inj_r _ _ (pow2 ez)); [lra|]. rewrite Hz.
      rewrite <- Qmult_assoc, <- pow2_add. replace (- ez + ez) with 0 by lia.
      change (pow2 0) with 1%Q. ring. }
    destruct (binary_normalize_exact z ez k (- ez)) as (Hfin & Hv & _); try lia.
    split; [done|]. by rewrite Hv.
Qed.

(** ** [Math.round] *)

Lemma Fval_zero : Ffinite 0%float = true ∧ (Fval 0%float == 0)%Q.
Proof. split; reflexivity. Qed.

Lemma Fval_neg_zero : Ffinite (-0)%float = true ∧ (Fval (-0)%float == 0)%Q.
Proof. split; reflexivity. Qed.

Lemma Fval_half : Ffinite 0.5%float = true ∧ (Fval 0.5%float == 1 # 2)%Q.
Proof. split; [reflexivity|]. vm_compute. reflexivity. Qed.

Lemma Fval_neg_half : Ffinite (-0.5)%float = true ∧ (Fval (-0.5)%float == - (1 # 2))%Q.
Proof. split; [reflexivity|]. vm_compute. reflexivity. Qed.

Lemma Fval_one : Ffinite 1%float = true ∧ (Fval 1%float == 1)%Q.
Proof. split; [reflexivity|]. vm_compute. reflexivity. Qed.

(** [floor] of a double with a negative exponent, by a shift of the signed
    mantissa. *)
Lemma shiftr_floor (s : bool) (m : positive) (e : Z) :
  e < 0 → Z.pos m < 2 ^ 53 →
  let k := Z.shiftr (if s then Z.neg m else Z.pos m) (- e) in
  (inject_Z k <= SFval (S754_finite s m e))%Q
  ∧ (SFval (S754_finite s m e) < inject_Z k + 1)%Q
  ∧ Z.abs k <= 2 ^ 52 ∧ Z.abs (k + 1) <= 2 ^ 52.
Proof.
  intros He Hm k.
  set (z0 := if s then Z.neg m else Z.pos m) in *.
  set (J := 2 ^ (- e)).
  assert (2 <= J) as HJ.
  { unfold J. change 2 with (2 ^ 1) at 1. apply Z.pow_le_mono_r; lia. }
  assert (k = z0 / J) as Hk by (unfold k; rewrite Z.shiftr_div_pow2 by lia; done).
  pose proof (Z.div_mod z0 J ltac:(lia)) as Hdm.
  pose proof (Z.mod_pos_bound z0 J ltac:(lia)) as Hmod.
  rewrite <- Hk in Hdm.
  assert (- 2 ^ 53 < z0 < 2 ^ 53) as Hz0 by (unfold z0; destruct s; lia).
  assert (SFval (S754_finite s m e) * inject_Z J == inject_Z z0)%Q as Ev.
  { unfold SFval, J. rewrite <- pow2_Z by lia.
    assert (inject_Z z0 == sgn s * inject_Z (Z.pos m))%Q as ->.
    { unfold z0. destruct s; unfold sgn; [|ring].
      change (Z.neg m) with (- Z.pos m). rewrite inject_Z_opp. ring. }
    rewrite <- !Qmult_assoc, <- pow2_add. replace (e + - e) with 0 by lia.
    change (pow2 0) with 1%Q. ring. }
  assert (0 < inject_Z J)%Q as HJq
    by (change 0%Q with (inject_Z 0); rewrite <- Zlt_Qlt; lia).
  clearbody k z0 J. change (2 ^ 53) with 9007199254740992 in *.
  change (2 ^ 52) with 4503599627370496.
  split; [|split].
  - apply (Qmult_le_r _ _ (inject_Z J)); [done|]. rewrite Ev, <- inject_Z_mult, <- Zle_Qle.
    lia.
  - apply (Qmult_lt_r _ _ (inject_Z J)); [done|]. rewrite Ev.
    assert ((inject_Z k + 1) * inject_Z J == inject_Z ((k + 1) * J))%Q as ->.
    { rewrite inject_Z_mult, inject_Z_plus. reflexivity. }
    rewrite <- Zlt_Qlt. lia.
  - nia.
Qed.

(** [Math.round] on a finite double [v] is the integer [floor (v + 1/2)],
    exactly. *)
Lemma Math_round_value (v : float) :
  Ffinite v = true →
  Ffinite (Math_round v) = true
  ∧ (Fval (Math_round v) == inject_Z (Qfloor (Fval v + (1 # 2))))%Q.
Proof.
  intros Hf. unfold Math_round.
  destruct Fval_zero as [F0 V0]. destruct Fval_neg_zero as [Fn0 Vn0].
  destruct Fval_half as [Fh Vh]. destruct Fval_neg_half as [Fnh Vnh].
  destruct Fval_one as [F1 V1].
  pose proof (ltb_value v 0 Hf F0) as Hlt0. rewrite V0 in Hlt0.
  pose proof (leb_value (-0.5) v Fnh Hf) as Hle. rewrite Vnh in Hle.
  destruct ((v <? 0)%float && (-0.5 <=? v)%float) eqn:Ec.
  { apply andb_true_iff in Ec as [E1 E2]. apply Hlt0 in E1. apply Hle in E2.
    split; [done|]. rewrite Vn0.
    assert (Qfloor (Fval v + (1 # 2)) = 0) as ->; [|done].
    apply Qfloor_unique; change (inject_Z 0) with 0%Q; lra. }
  assert (0 <= Fval v ∨ Fval v < - (1 # 2))%Q as Hrange.
  { apply andb_false_iff in Ec as [Ec|Ec].
    - left. apply Qnot_lt_le. intros H. apply Hlt0 in H. congruence.
    - right. apply Qnot_le_lt. intros H. apply Hle in H. congruence. }
  clear Ec Hlt0 Hle.
  assert (∀ d, Ffinite d = true → (Fval d == 0)%Q → (d <? 0.5)%float = true) as Hsmall.
  { intros d Fd Vd. apply (ltb_value d 0.5 Fd Fh). rewrite Vd, Vh. reflexivity. }
  assert (∀ n : Z, (Fval v == inject_Z n)%Q →
            Qfloor (Fval v + (1 # 2)) = n) as Hint.
  { intros n Hn. apply Qfloor_unique; lra. }
  pose proof (Prim2SF_valid v) as Vv.
  unfold Math_floor.
  destruct (Prim2SF v) as [s|s| |s m e] eqn:Ev;
    try (unfold Ffinite in Hf; rewrite Ev in Hf; discriminate Hf).
  - destruct (sub_self v Hf) as [Fs Vs]. rewrite (Hsmall _ Fs Vs).
    split; [done|]. rewrite (Hint 0); unfold Fval; rewrite Ev; reflexivity.
  - destruct (Z.leb_spec 0 e) as [He|He].
    + destruct (sub_self v Hf) as [Fs Vs]. rewrite (Hsmall _ Fs Vs).
      split; [done|].
      assert (Fval v == inject_Z ((if s then Z.neg m else Z.pos m) * 2 ^ e))%Q as Hn.
      { unfold Fval. rewrite Ev. unfold SFval.
        rewrite inject_Z_mult, <- pow2_Z by done.
        destruct s; unfold sgn; [|ring].
        change (Z.neg m) with (- Z.pos m). rewrite inject_Z_opp. ring. }
      by rewrite (Hint _ Hn).
    + pose proof (mantissa_lt s m e Vv) as Hm.
      destruct (shiftr_floor s m e He Hm) as (Hk1 & Hk2 & Hk3 & Hk4).
      set (k := Z.shiftr (if s then Z.neg m else Z.pos m) (- e)) in *.
      assert (SFval (S754_finite s m e) = Fval v) as EV by (unfold Fval; by rewrite Ev).
      rewrite EV in Hk1, Hk2. clearbody k.
      change (2 ^ 52) with 4503599627370496 in Hk3, Hk4.
      assert (Z.abs k < 2 ^ 53) as Hk53 by (change (2 ^ 53) with 9007199254740992; lia).
      assert (Z.abs (k + 1) < 2 ^ 53) as Hk53' by (change (2 ^ 53) with 9007199254740992; lia).
      destruct (floatOfZ_value k Hk53) as [Ffl Vfl].
      destruct (integer_exponent (floatOfZ k) k Ffl Vfl Hk53) as [Hfl0 Hflk].
      destruct (sub_exact v (floatOfZ k) Hf Ffl) as [Fd Vd].
      { intros sf mf ef Efl.
        assert (k ≠ 0) as Hk0.
        { intros ->. unfold Fval in Vfl. rewrite Efl in Vfl.
          by apply SFval_finite_nonzero in Vfl. }
        destruct (Hflk Hk0) as (sf' & mf' & ef' & Efl' & Hef).
        rewrite Efl in Efl'. injection Efl' as <- <- <-.
        rewrite Efl in Hfl0. cbn in Hfl0. split; [lia|].
        exists s, m, e. split; [done|]. split; [|lia].
        apply (exp_lower s m e (-1)) in Vv; [lia|].
        rewrite <- (Fval_finite_abs v s m e Ev).
        change (pow2 (-1)) with (1 # 2)%Q.
        assert (1 <= k ∨ k <= -1) as [Hp|Hn] by lia.
        - rewrite Zle_Qle in Hp. change (inject_Z 1) with 1%Q in Hp.
          rewrite Qabs_pos; lra.
        - rewrite Zle_Qle in Hn. change (inject_Z (-1)) with (-1)%Q in Hn.
          rewrite Qabs_neg; lra. }
      { rewrite Vfl. apply Qabs_Qlt_condition. lra. }
      rewrite Vfl in Vd.
      pose proof (ltb_value _ 0.5 Fd Fh) as Hcmp. rewrite Vd, Vh in Hcmp.
      destruct (v - floatOfZ k <? 0.5)%float.
      * split; [done|]. rewrite Vfl.
        assert (Qfloor (Fval v + (1 # 2)) = k) as ->; [|done].
        assert (Fval v - inject_Z k < 1 # 2)%Q by (by apply Hcmp).
        apply Qfloor_unique; lra.
      * assert (¬ (Fval v - inject_Z k < 1 # 2)%Q) as Hge.
        { intros H. apply Hcmp in H. congruence. }
        apply Qnot_lt_le in Hge.
        destruct (add_exact_int (floatOfZ k) 1 (k + 1) Ffl F1 Hfl0) as [Fa Va].
        { by vm_compute. }
        { rewrite Vfl, V1, inject_Z_plus. reflexivity. }
        { done. }
        split; [done|]. rewrite Va.
        assert (Qfloor (Fval v + (1 # 2)) = k + 1) as ->; [|done].
        apply Qfloor_unique; rewrite inject_Z_plus; change (inject_Z 1) with 1%Q; lra.
Qed.

(** ** The error of [Math.round(v * c) / c] *)

Lemma Qabs_cases (x : Q) :
  (0 <= Qabs x)%Q ∧ ((0 <= x)%Q ∧ (Qabs x == x)%Q ∨ (x <= 0)%Q ∧ (Qabs x == - x)%Q).
Proof.
  split; [apply Qabs_nonneg|].
  destruct (Qlt_le_dec x 0) as [H|H].
  - right. split; [lra|]. apply Qabs_neg. lra.
  - left. split; [done|]. by apply Qabs_pos.
Qed.

(** The scaled error of [round(v * c) / c], in exact arithmetic on the
    bounds the operations give: [b] is [|v| * c], [P] the product as
    computed, [N] its rounding and [Qs] the quotient as computed, times [c];
    [1 # 9007199254740992] is 2^-53, [1 # 2251799813685248] is 2^-51, and
    [t], at most 2^-100, stands for 2^-1075. *)
Lemma quantize_arith (b t tC n rC P N Qs : Q) :
  (0 <= b)%Q → (rC == b ∨ rC == - b)%Q →
  (0 < t)%Q → (t <= 1 # 1267650600228229401496703205376)%Q →
  (0 <= tC)%Q → (tC <= 1024 * t)%Q →
  (0 <= n)%Q → (N == n ∨ N == - n)%Q →
  (Qabs (P - rC) <= b * (1 # 9007199254740992) + t)%Q →
  (N <= P + (1 # 2))%Q → (P + (1 # 2) < N + 1)%Q →
  (N == 0 ∨ 1 <= n)%Q →
  (N == 0 → Qs == 0)%Q →
  (Qabs (Qs - N) <= n * (1 # 9007199254740992) + tC)%Q →
  (Qabs (Qs - rC) <= (1 # 2) + b * (1 # 2251799813685248))%Q.
Proof.
  intros Hb HrC Ht Ht' HtC HtC' Hn HN HP HN1 HN2 Hcase Hzero HQ.
  apply Qabs_Qle_condition in HP, HQ. apply Qabs_Qle_condition.
  destruct Hcase as [H0|H1].
  - specialize (Hzero H0).
    destruct (Qlt_le_dec b (1 # 4)); destruct HrC as [HrC|HrC]; split; lra.
  - destruct HrC as [HrC|HrC]; destruct HN as [HN|HN]; split; lra.
Qed.

(** For a scale [c] that is an integer from 1 to 1024 and a finite [v] of
    magnitude at most 2^1000, [Math.round(v * c) / c] is finite and within
    [1/(2c) + |v| / 2^51] of [v]. *)
Lemma quantize_value (c v : float) (C : Z) :
  Ffinite c = true → (Fval c == inject_Z C)%Q → 1 <= C <= 1024 →
  Ffinite v = true → (Qabs (Fval v) <= pow2 1000)%Q →
  Ffinite (Math_round (v * c) / c) = true
  ∧ (Qabs (Fval (Math_round (v * c) / c) - Fval v)
     <= (1 # 2) / inject_Z C + Qabs (Fval v) * pow2 (-51))%Q.
Proof.
  intros Fc Vc HC Fv Hv.
  set (r := Fval v) in *. set (Cq := inject_Z C) in *.
  assert (1 <= Cq ∧ Cq <= 1024)%Q as [HC1 HC2].
  { unfold Cq. split.
    - change 1%Q with (inject_Z 1). rewrite <- Zle_Qle. lia.
    - change 1024%Q with (inject_Z 1024). rewrite <- Zle_Qle. lia. }
  destruct (Qabs_cases r) as [Ha Hr]. set (a := Qabs r) in *.
  set (b := (a * Cq)%Q).
  assert (0 <= b)%Q as Hb by (unfold b; nra).
  assert (Qabs (r * Cq) == b)%Q as Eb.
  { rewrite Qabs_Qmult, (Qabs_pos Cq) by lra. reflexivity. }
  assert (r * Cq == b ∨ r * Cq == - b)%Q as HrC.
  { unfold b. destruct Hr as [[_ ->]|[_ ->]]; [left|right]; ring. }
  assert (pow2 1010 == pow2 1000 * 1024)%Q as E1010.
  { replace 1010 with (1000 + 10) by lia. rewrite pow2_add. reflexivity. }
  assert (b <= pow2 1010)%Q as Hb1010 by (rewrite E1010; unfold b; nra).
  pose proof (pow2_lt 1010 1022 ltac:(lia)) as H1022.
  pose proof (pow2_lt 1022 1023 ltac:(lia)) as H1023.
  assert (4 * pow2 1010 <= pow2 1022)%Q as Hdouble.
  { pose proof (pow2_le 1012 1022 ltac:(lia)) as H.
    replace 1012 with (1010 + 1 + 1) in H by lia. rewrite !pow2_succ in H. lra. }
  pose proof (pow2_le 0 1010 ltac:(lia)) as Hone. change (pow2 0) with 1%Q in Hone.
  assert (pow2 (-53) == 1 # 9007199254740992)%Q as Eu by reflexivity.
  assert (pow2 (-51) == 1 # 2251799813685248)%Q as Eu' by reflexivity.
  pose proof (pow2_pos (-1075)) as Ht. set (t := pow2 (-1075)) in *.
  assert (t <= 1 # 1267650600228229401496703205376)%Q as Ht'.
  { assert (pow2 (-100) == 1 # 1267650600228229401496703205376)%Q as <- by reflexivity.
    apply pow2_le. lia. }
  (* the product *)
  destruct (mul_value v c Fv Fc) as [Fp Vp].
  { rewrite Vc. fold r Cq. rewrite Eb. lra. }
  rewrite Vc in Vp. fold r Cq in Vp. rewrite Eb, Eu in Vp. fold t in Vp.
  set (p := (v * c)%float) in *. set (P := Fval p) in *.
  (* the rounding *)
  destruct (Math_round_value p Fp) as [Fn Vn]. fold P in Vn.
  set (N := Qfloor (P + (1 # 2))) in *.
  pose proof (Qfloor_le (P + (1 # 2))) as HN1.
  pose proof (Qlt_floor (P + (1 # 2))) as HN2. fold N in HN1, HN2.
  rewrite inject_Z_plus in HN2. change (inject_Z 1) with 1%Q in HN2.
  destruct (Qabs_cases (inject_Z N)) as [Hn HN]. set (n := Qabs (inject_Z N)) in *.
  assert (inject_Z N == 0 ∨ 1 <= n)%Q as Hcase.
  { destruct (Z.eq_dec N 0) as [->|Hne]; [by left|right].
    unfold n. rewrite Qabs_inject_Z. change 1%Q with (inject_Z 1).
    rewrite <- Zle_Qle. lia. }
  assert (n <= pow2 1022)%Q as Hn1022.
  { apply Qabs_Qle_condition in Vp.
    assert (b * (1 # 9007199254740992) <= b)%Q by lra.
    destruct HrC as [HrC|HrC]; destruct HN as [[_ HN]|[_ HN]]; lra. }
  (* the quotient *)
  assert (¬ (Fval c == 0)%Q) as Hc0 by (rewrite Vc; fold Cq; lra).
  assert (Qabs (inject_Z N / Cq) == n / Cq)%Q as Enc.
  { unfold Qdiv. rewrite Qabs_Qmult, Qabs_Qinv, (Qabs_pos Cq) by lra. reflexivity. }
  assert (n / Cq <= n)%Q as HnC.
  { apply Qle_shift_div_r; [lra|]. nra. }
  destruct (div_value (Math_round p) c Fn Fc Hc0) as (Fq & Vq & Hq0).
  { rewrite Vn, Vc. fold Cq. rewrite Enc. lra. }
  rewrite Vn, Vc in Vq. fold Cq in Vq. rewrite Enc, Eu in Vq. fold t in Vq.
  rewrite Vn in Hq0.
  split; [done|].
  set (Q' := Fval (Math_round p / c)) in *.
  (* scaling by [C] *)
  assert (Qabs (Q' * Cq - r * Cq) <= (1 # 2) + b * (1 # 2251799813685248))%Q as Hs.
  { apply (quantize_arith b t (t * Cq) n (r * Cq) P (inject_Z N)); try done.
    - nra.
    - nra.
    - destruct HN as [[_ HN]|[_ HN]]; [left|right]; lra.
    - intros H0. rewrite (Hq0 H0). ring.
    - apply Qabs_Qle_condition in Vq. apply Qabs_Qle_condition.
      assert ((Q' - inject_Z N / Cq) * Cq == Q' * Cq - inject_Z N)%Q as <-
        by (field; lra).
      assert ((n / Cq * (1 # 9007199254740992) + t) * Cq
              == n * (1 # 9007199254740992) + t * Cq)%Q as <- by (field; lra).
      split.
      + assert (- ((n / Cq * (1 # 9007199254740992) + t) * Cq)
                == - (n / Cq * (1 # 9007199254740992) + t) * Cq)%Q as -> by ring.
        apply Qmult_le_compat_r; lra.
      + apply Qmult_le_compat_r; lra. }
  rewrite Eu'. apply Qabs_Qle_condition in Hs. apply Qabs_Qle_condition.
  assert ((Q' - r) * Cq == Q' * Cq - r * Cq)%Q as Es by ring.
  assert (((1 # 2) / Cq + a * (1 # 2251799813685248)) * Cq
          == (1 # 2) + b * (1 # 2251799813685248))%Q as Eb' by (unfold b; field; lra).
  split.
  - apply (Qmult_le_r _ _ Cq); [lra|].
    assert (- ((1 # 2) / Cq + a * (1 # 2251799813685248)) * Cq
            == - (((1 # 2) / Cq + a * (1 # 2251799813685248)) * Cq))%Q as -> by ring.
    rewrite Eb', Es. lra.
  - apply (Qmult_le_r _ _ Cq); [lra|]. rewrite Eb', Es. lra.
Qed.

(** ** Quantization *)

Lemma quantize_kept (c v : float) (C : Z) (h : Q) :
  Ffinite c = true → (Fval c == inject_Z C)%Q → 1 <= C <= 1024 →
  (h == (1 # 2) / inject_Z C)%Q →
  keptWithin h v (Math_round (v * c) / c).
Proof.
  intros Fc Vc HC Hh r Hr Hbound.
  apply floatToQ_Some in Hr as Hv. destruct Hv as [Fv Vv].
  assert (Qabs (Fval v) <= pow2 1000)%Q as Hb by (by rewrite <- Vv).
  destruct (quantize_value c v C Fc Vc HC Fv Hb) as [Fq Vq].
  destruct (floatToQ_Fval _ Fq) as (q & Hq & Eq).
  exists (Qabs (q - r)). split.
  - unfold quantizationError. by rewrite Hr, Hq.
  - rewrite Eq, Vv, Hh. eapply Qle_trans; [apply Vq|].
    assert (pow2 (-51) == / 2 ^ 51)%Q as -> by reflexivity.
    apply Qle_refl.
Qed.

(** [Math.round(v * 10) / 10] and [Math.round(v * 100) / 100]. *)
Lemma quantizePosition_kept (v : float) :
  keptWithin (1 # 20) v (quantizePosition v).
Proof.
  apply (quantize_kept 10 v 10); [reflexivity|by vm_compute|lia|reflexivity].
Qed.

Lemma quantizeVelocity_kept (v : float) :
  keptWithin (1 # 200) v (quantizeVelocity v).
Proof.
  apply (quantize_kept 100 v 100); [reflexivity|by vm_compute|lia|reflexivity].
Qed.

(** * The network manager *)

(** ** Quantization *)

(** C8 (amended).  On doubles, quantization moves a finite coordinate [v]
    of magnitude at most 2^1000 by at most half a step and a rounding
    allowance of [|v| / 2^51]: by at most 1/20 + |v|/2^51 for a position
    and 1/200 + |v|/2^51 for a velocity, the distance being that of the
    exact values of the two doubles. *)
Theorem quantization_error_bound (v : float) (r : Q) :
  floatToQ v = Some r → (Qabs r <= 2 ^ 1000)%Q →
  (∃ e, quantizationError v (quantizePosition v) = Some e
        ∧ (e <= (1 # 20) + Qabs r / 2 ^ 51)%Q)
  ∧ (∃ e, quantizationError v (quantizeVelocity v) = Some e
          ∧ (e <= (1 # 200) + Qabs r / 2 ^ 51)%Q).
Proof.
  intros Hr Hbound. split.
  - exact (quantizePosition_kept v r Hr Hbound).
  - exact (quantizeVelocity_kept v r Hr Hbound).
Qed.

Lemma quantization_error_bound_witness :
  ∃ r, floatToQ point15 = Some r
    ∧ (∃ e, quantizationError point15 (quantizePosition point15) = Some e
            ∧ (e <= (1 # 20) + Qabs r / 2 ^ 51)%Q)
    ∧ (∃ e, quantizationError point15 (quantizeVelocity point15) = Some e
            ∧ (e <= (1 # 200) + Qabs r / 2 ^ 51)%Q).
Proof.
  eexists. split; [vm_compute; reflexivity|].
  apply (quantization_error_bound point15); [vm_compute; reflexivity|].
  by vm_compute.
Defined.

(** The bound needs the magnitude kept off the largest doubles: the tenfold
    of 2^1023 overflows, and the position is sent as infinity. *)
Example quantization_overflows :
  Prim2SF (quantizePosition 0x1p1023%float) = S754_infinity false
  ∧ floatToQ (quantizePosition 0x1p1023%float) = None.
Proof. split; vm_compute; reflexivity. Qed.

(** A position just below zero is sent as the negative zero. *)
Example quantization_negative_zero :
  Prim2SF (quantizePosition (-0.015625)%float) = S754_zero true.
Proof. vm_compute. reflexivity. Qed.

(** C8, as stated, fails on doubles: the position 0.15 is sent as 0.2 and the
    velocity 0.005 as 0.01, each further from the original than half a
    step, as the exact values of the doubles and the subtraction JavaScript
    performs both show. *)
Lemma quantization_exceeds_half_step :
  (∃ e, quantizationError point15 (quantizePosition point15) = Some e
      ∧ (1 # 20 < e)%Q)
  ∧ (∃ e, quantizationError point005 (quantizeVelocity point005) = Some e
        ∧ (1 # 200 < e)%Q)
  ∧ PrimFloat.ltb (PrimFloat.div 5%float 100%float)
      (PrimFloat.abs (PrimFloat.sub (quantizePosition point15) point15))
    = true.
Proof.
  split; [|split].
  - eexists. split; [vm_compute; reflexivity|]. vm_compute. reflexivity.
  - eexists. split; [vm_compute; reflexivity|]. vm_compute. reflexivity.
  - vm_compute. reflexivity.
Qed.

(** ** Throttling *)

Lemma updatePlayer_cases (now : Z) (player : Player.t) (nm : NetworkManager.t) :
  (now - NetworkManager.lastPositionUpdate nm
     < NetworkManager.POSITION_UPDATE_INTERVAL
   ∧ NetworkManager.updatePlayer now player nm = (nm, []))
  ∨ (NetworkManager.POSITION_UPDATE_INTERVAL
       <= now - NetworkManager.lastPositionUpdate nm
     ∧ ∃ nm' w, NetworkManager.updatePlayer now player nm = (nm', [w])
         ∧ NetworkManager.lastPositionUpdate nm' = now).
Proof.
  unfold NetworkManager.updatePlayer.
  destruct (Z.ltb_spec (now - NetworkManager.lastPositionUpdate nm)
                       NetworkManager.POSITION_UPDATE_INTERVAL).
  - by left.
  - right. split; [done|]. by eexists _, _.
Qed.

Lemma updateEnemies_cases (now : Z) (enemies : list Enemy.t)
    (nm : NetworkManager.t) :
  ((NetworkManager.isHost nm = false
    ∨ now - NetworkManager.lastEnemyUpdate nm
        < NetworkManager.ENEMY_UPDATE_INTERVAL)
   ∧ NetworkManager.updateEnemies now enemies nm = (nm, []))
  ∨ (NetworkManager.isHost nm = true
     ∧ NetworkManager.ENEMY_UPDATE_INTERVAL
         <= now - NetworkManager.lastEnemyUpdate nm
     ∧ ∃ nm' w, NetworkManager.updateEnemies now enemies nm = (nm', [w])
         ∧ NetworkManager.lastEnemyUpdate nm' = now).
Proof.
  unfold NetworkManager.updateEnemies.
  destruct (NetworkManager.isHost nm); simpl; [|left; by split; [left|]].
  destruct (Z.ltb_spec (now - NetworkManager.lastEnemyUpdate nm)
                       NetworkManager.ENEMY_UPDATE_INTERVAL).
  - left. split; [by right|done].
  - right. split; [done|]. split; [done|]. by eexists _, _.
Qed.

(** A publishing call comes a full interval after the last publication the
    manager remembers. *)
Lemma publishPlayer_after (calls : list (Z * Player.t)) :
  ∀ nm j tj wj,
  publishPlayer calls nm !! j = Some (tj, wj) → wj ≠ [] →
  NetworkManager.lastPositionUpdate nm
  + NetworkManager.POSITION_UPDATE_INTERVAL <= tj.
Proof.
  induction calls as [|[now player] calls IH]; intros nm j tj wj; [done|].
  simpl. unfold NetworkManager.POSITION_UPDATE_INTERVAL in *.
  destruct (updatePlayer_cases now player nm)
    as [[Hlt ->]|(Hge & nm' & w & -> & Hlast)];
    unfold NetworkManager.POSITION_UPDATE_INTERVAL in *.
  - destruct j as [|j]; simpl.
    + intros [= <- <-]. done.
    + apply IH.
  - destruct j as [|j]; simpl.
    + intros [= <- <-] _. lia.
    + intros Hj Hw. pose proof (IH nm' j tj wj Hj Hw). lia.
Qed.

Lemma publishEnemies_after (calls : list (Z * list Enemy.t)) :
  ∀ nm j tj wj,
  publishEnemies calls nm !! j = Some (tj, wj) → wj ≠ [] →
  NetworkManager.lastEnemyUpdate nm
  + NetworkManager.ENEMY_UPDATE_INTERVAL <= tj.
Proof.
  induction calls as [|[now enemies] calls IH]; intros nm j tj wj; [done|].
  simpl. unfold NetworkManager.ENEMY_UPDATE_INTERVAL in *.
  destruct (updateEnemies_cases now enemies nm)
    as [[_ ->]|(_ & Hge & nm' & w & -> & Hlast)];
    unfold NetworkManager.ENEMY_UPDATE_INTERVAL in *.
  - destruct j as [|j]; simpl.
    + intros [= <- <-]. done.
    + apply IH.
  - destruct j as [|j]; simpl.
    + intros [= <- <-] _. lia.
    + intros Hj Hw. pose proof (IH nm' j tj wj Hj Hw). lia.
Qed.

Lemma publishPlayer_spaced (calls : list (Z * Player.t)) :
  ∀ nm i j ti tj wi wj,
  (i < j)%nat →
  publishPlayer calls nm !! i = Some (ti, wi) →
  publishPlayer calls nm !! j = Some (tj, wj) →
  wi ≠ [] → wj ≠ [] →
  ti + NetworkManager.POSITION_UPDATE_INTERVAL <= tj.
Proof.
  induction calls as [|[now player] calls IH]; intros nm i j ti tj wi wj Hij;
    [done|].
  simpl. destruct j as [|j]; [lia|].
  destruct (updatePlayer_cases now player nm)
    as [[Hlt ->]|(Hge & nm' & w & -> & Hlast)].
  - destruct i as [|i]; simpl.
    + intros [= <- <-]. done.
    + apply IH. lia.
  - destruct i as [|i]; simpl.
    + intros [= <- <-] Hj _ Hw.
      pose proof (publishPlayer_after calls nm' j tj wj Hj Hw). lia.
    + apply IH. lia.
Qed.

Lemma publishEnemies_spaced (calls : list (Z * list Enemy.t)) :
  ∀ nm i j ti tj wi wj,
  (i < j)%nat →
  publishEnemies calls nm !! i = Some (ti, wi) →
  publishEnemies calls nm !! j = Some (tj, wj) →
  wi ≠ [] → wj ≠ [] →
  ti + NetworkManager.ENEMY_UPDATE_INTERVAL <= tj.
Proof.
  induction calls as [|[now enemies] calls IH]; intros nm i j ti tj wi wj Hij;
    [done|].
  simpl. destruct j as [|j]; [lia|].
  destruct (updateEnemies_cases now enemies nm)
    as [[_ ->]|(_ & Hge & nm' & w & -> & Hlast)].
  - destruct i as [|i]; simpl.
    + intros [= <- <-]. done.
    + apply IH. lia.
  - destruct i as [|i]; simpl.
    + intros [= <- <-] Hj _ Hw.
      pose proof (publishEnemies_after calls nm' j tj wj Hj Hw). lia.
    + apply IH. lia.
Qed.

Lemma publishPlayer_single (calls : list (Z * Player.t)) :
  ∀ nm j tj wj,
  publishPlayer calls nm !! j = Some (tj, wj) → (length wj ≤ 1)%nat.
Proof.
  induction calls as [|[now player] calls IH]; intros nm j tj wj; [done|].
  simpl. destruct (updatePlayer_cases now player nm)
    as [[Hlt ->]|(Hge & nm' & w & -> & Hlast)];
    (destruct j as [|j]; simpl; [intros [= <- <-]; simpl; lia|apply IH]).
Qed.

Lemma publishEnemies_single (calls : list (Z * list Enemy.t)) :
  ∀ nm j tj wj,
  publishEnemies calls nm !! j = Some (tj, wj) → (length wj ≤ 1)%nat.
Proof.
  induction calls as [|[now enemies] calls IH]; intros nm j tj wj; [done|].
  simpl. destruct (updateEnemies_cases now enemies nm)
    as [[_ ->]|(_ & Hge & nm' & w & -> & Hlast)];
    (destruct j as [|j]; simpl; [intros [= <- <-]; simpl; lia|apply IH]).
Qed.

(** C4.  For the player category (interval 50 ms) and the enemy category
    (interval 100 ms) alike, and for every sequence of call times, in
    particular every non-decreasing one: a call publishes at most one write
    and, when it does, stores its time as the last publication; a call less
    than an interval after the stored time writes nothing and changes
    nothing; and any two publishing calls are at least an interval apart, so
    a call less than an interval after a publishing call does not publish. *)
Theorem throttle_once_per_interval :
  (∀ now player nm,
     (now - NetworkManager.lastPositionUpdate nm < 50 →
      NetworkManager.updatePlayer now player nm = (nm, []))
     ∧ (50 <= now - NetworkManager.lastPositionUpdate nm →
        ∃ nm' w, NetworkManager.updatePlayer now player nm = (nm', [w])
               ∧ NetworkManager.lastPositionUpdate nm' = now))
  ∧ (∀ now enemies nm,
       (now - NetworkManager.lastEnemyUpdate nm < 100 →
        NetworkManager.updateEnemies now enemies nm = (nm, []))
       ∧ (100 <= now - NetworkManager.lastEnemyUpdate nm →
          NetworkManager.isHost nm = true →
          ∃ nm' w, NetworkManager.updateEnemies now enemies nm = (nm', [w])
                 ∧ NetworkManager.lastEnemyUpdate nm' = now))
  ∧ (∀ calls nm i j ti tj wi wj,
       (i < j)%nat →
       publishPlayer calls nm !! i = Some (ti, wi) →
       publishPlayer calls nm !! j = Some (tj, wj) →
       (length wi ≤ 1)%nat ∧ (length wj ≤ 1)%nat
       ∧ (wi ≠ [] → wj ≠ [] → 50 <= tj - ti)
       ∧ (wi ≠ [] → tj - ti < 50 → wj = []))
  ∧ (∀ calls nm i j ti tj wi wj,
       (i < j)%nat →
       publishEnemies calls nm !! i = Some (ti, wi) →
       publishEnemies calls nm !! j = Some (tj, wj) →
       (length wi ≤ 1)%nat ∧ (length wj ≤ 1)%nat
       ∧ (wi ≠ [] → wj ≠ [] → 100 <= tj - ti)
       ∧ (wi ≠ [] → tj - ti < 100 → wj = [])).
Proof.
  split; [|split; [|split]].
  - intros now player nm.
    destruct (updatePlayer_cases now player nm)
      as [[Hlt E]|(Hge & nm' & w & E & Hlast)];
      unfold NetworkManager.POSITION_UPDATE_INTERVAL in *.
    + split; [done|lia].
    + split; [lia|]. intros _. by exists nm', w.
  - intros now enemies nm.
    destruct (updateEnemies_cases now enemies nm)
      as [[Hlt E]|(Hh & Hge & nm' & w & E & Hlast)];
      unfold NetworkManager.ENEMY_UPDATE_INTERVAL in *.
    + split; [done|]. intros Hge Hh. destruct Hlt as [Hf|Hlt]; [congruence|lia].
    + split; [lia|]. intros _ _. by exists nm', w.
  - intros calls nm i j ti tj wi wj Hij Hi Hj.
    pose proof (publishPlayer_spaced calls nm i j ti tj wi wj Hij Hi Hj) as Hsp.
    unfold NetworkManager.POSITION_UPDATE_INTERVAL in Hsp.
    split; [by eapply publishPlayer_single|].
    split; [by eapply publishPlayer_single|].
    split.
    + intros Hwi Hwj. specialize (Hsp Hwi Hwj). lia.
    + intros Hwi Hlt. destruct wj as [|w wj]; [done|].
      specialize (Hsp Hwi ltac:(done)). lia.
  - intros calls nm i j ti tj wi wj Hij Hi Hj.
    pose proof (publishEnemies_spaced calls nm i j ti tj wi wj Hij Hi Hj) as Hsp.
    unfold NetworkManager.ENEMY_UPDATE_INTERVAL in Hsp.
    split; [by eapply publishEnemies_single|].
    split; [by eapply publishEnemies_single|].
    split.
    + intros Hwi Hwj. specialize (Hsp Hwi Hwj). lia.
    + intros Hwi Hlt. destruct wj as [|w wj]; [done|].
      specialize (Hsp Hwi ltac:(done)). lia.
Qed.

(** Instance: calls at 100, 120 and 160 ms on a fresh manager; the first
    and the third publish, 60 ms apart, the second is dropped. *)
Lemma throttle_once_per_interval_witness :
  let p := Player.mk 0%float 0%float 100%float "idle_down" 0%float 1%float in
  let log := publishPlayer [(100, p); (120, p); (160, p)]
                           (NetworkManager.new "room" "me") in
  (length <$> log.*2 = [1; 0; 1]%nat) ∧ 50 <= 160 - 100.
Proof.
  intros p log. split; [reflexivity|].
  destruct throttle_once_per_interval as (_ & _ & H & _).
  destruct (H [(100, p); (120, p); (160, p)] (NetworkManager.new "room" "me")
              0%nat 2%nat 100 160
              (snd (NetworkManager.updatePlayer 100 p
                      (NetworkManager.new "room" "me")))
              (snd (NetworkManager.updatePlayer 160 p
                      (fst (NetworkManager.updatePlayer 100 p
                              (NetworkManager.new "room" "me"))))))
    as (_ & _ & Hsp & _); [lia|reflexivity|reflexivity|].
  apply Hsp; discriminate.
Defined.

(** ** Projectiles *)

Lemma isFreshForeign_spec (self : string) (now : Z) (p : ProjectileRecord) :
  NetworkManager.isFreshForeign self now p = true
  ↔ proj_playerId p ≠ self ∧ now - NetworkManager.timestampOrZero p < 1000.
Proof.
  unfold NetworkManager.isFreshForeign.
  by rewrite andb_true_iff, negb_true_iff, bool_decide_eq_false, Z.ltb_lt.
Qed.

(** The call the listener makes for a projectile. *)
Lemma deliver_fold (self : string) (now : Z) (ps : list ProjectileRecord) :
  ∀ calls,
  fold_left
    (λ calls projectile,
       if NetworkManager.isFreshForeign self now projectile
       then calls ++ [ProjectileReceived (proj_x projectile)
                        (proj_y projectile) (proj_dx projectile)
                        (proj_dy projectile) (proj_playerId projectile)]
       else calls)
    ps calls
  = calls ++
    ((λ p, ProjectileReceived (proj_x p) (proj_y p) (proj_dx p) (proj_dy p)
                              (proj_playerId p))
     <$> filter (λ p, proj_playerId p ≠ self
                      ∧ now - NetworkManager.timestampOrZero p < 1000) ps).
Proof.
  induction ps as [|p ps IH]; intros calls; simpl.
  - by rewrite app_nil_r.
  - rewrite IH. rewrite filter_cons.
    destruct (NetworkManager.isFreshForeign self now p) eqn:E.
    + apply isFreshForeign_spec in E. rewrite decide_True by done.
      simpl. by rewrite <- app_assoc.
    + rewrite decide_False; [done|].
      intros H. apply isFreshForeign_spec in H. congruence.
Qed.

(** C6.  On a batch of projectile events received at time [now], the
    callback is called, in order, once for each event whose owner is not
    the local player and whose age, [now] minus its timestamp (zero when
    the field is missing), is under 1000 ms, and for no other event; a
    snapshot that does not exist triggers no call. *)
Theorem projectiles_fresh_and_foreign (now : Z) (nm : NetworkManager.t) :
  NetworkManager.projectilesListener now None nm = []
  ∧ (∀ events : list ProjectileRecord,
       NetworkManager.projectilesListener now (Some events) nm
       = (λ p, ProjectileReceived (proj_x p) (proj_y p) (proj_dx p) (proj_dy p)
                                  (proj_playerId p))
         <$> filter (λ p, proj_playerId p ≠ NetworkManager.playerId nm
                          ∧ now - NetworkManager.timestampOrZero p < 1000)
                    events)
  ∧ (∀ (events : list ProjectileRecord) px py dx dy owner,
       ProjectileReceived px py dx dy owner
         ∈ NetworkManager.projectilesListener now (Some events) nm →
       ∃ p ts, p ∈ events
         ∧ p = mkProjectile owner px py dx dy ts
         ∧ owner ≠ NetworkManager.playerId nm
         ∧ now - NetworkManager.timestampOrZero p < 1000)
  ∧ (∀ (events : list ProjectileRecord) p ts,
       p ∈ events → proj_timestamp p = Some ts →
       (proj_playerId p = NetworkManager.playerId nm ∨ 1000 <= now - ts) →
       p ∉ filter (λ p, proj_playerId p ≠ NetworkManager.playerId nm
                        ∧ now - NetworkManager.timestampOrZero p < 1000)
                  events).
Proof.
  assert (Hall : ∀ events : list ProjectileRecord,
    NetworkManager.projectilesListener now (Some events) nm
    = (λ p, ProjectileReceived (proj_x p) (proj_y p) (proj_dx p) (proj_dy p)
                               (proj_playerId p))
      <$> filter (λ p, proj_playerId p ≠ NetworkManager.playerId nm
                       ∧ now - NetworkManager.timestampOrZero p < 1000)
                 events).
  { intros events. unfold NetworkManager.projectilesListener.
    by rewrite deliver_fold. }
  split; [done|]. split; [done|]. split.
  - intros events px py dx dy owner Hin. rewrite Hall in Hin.
    apply list_elem_of_fmap in Hin as (p & E & Hp).
    apply list_elem_of_filter in Hp as [[Hown Hage] Hp].
    injection E as -> -> -> -> ->.
    exists p, (proj_timestamp p). split; [done|]. split; [by destruct p|done].
  - intros events p ts Hp Hts Hbad Hin.
    apply list_elem_of_filter in Hin as [[Hown Hage] _].
    unfold NetworkManager.timestampOrZero in Hage. rewrite Hts in Hage.
    destruct Hbad; [done|lia].
Qed.

(** Instance: a batch of three events received at 5000 ms, one of the local
    player, one 1000 ms old, one 999 ms old and foreign; only the last is
    delivered. *)
Lemma projectiles_fresh_and_foreign_witness :
  NetworkManager.projectilesListener 5000
    (Some [mkProjectile "me" 1%float 1%float 0%float 1%float (Some 4900);
           mkProjectile "other" 2%float 2%float 1%float 0%float (Some 4000);
           mkProjectile "other" 3%float 3%float 1%float 0%float (Some 4001)])
    (NetworkManager.new "room" "me")
  = [ProjectileReceived 3%float 3%float 1%float 0%float "other"].
Proof.
  destruct (projectiles_fresh_and_foreign 5000 (NetworkManager.new "room" "me"))
    as (_ & H & _).
  rewrite H. reflexivity.
Defined.

(** ** Remote players *)

Lemma receivePlayer_selfFree (self : string) (now : Z)
    (remote : gmap string RemotePlayer.t) (ids : gset string)
    (calls : list Callback) (entry : string * PlayerRecord) :
  selfFree self remote →
  selfFree self (NetworkManager.receivePlayer self now (remote, ids, calls) entry).1.1.
Proof.
  intros [Hself Hkeys]. destruct entry as [id data]. simpl.
  destruct (decide (id = self)) as [->|Hne]; [done|].
  destruct (remote !! id) as [rp|] eqn:Hid; simpl.
  - split.
    + by rewrite lookup_insert_ne.
    + intros k rp' Hk. destruct (decide (id = k)) as [->|Hk'].
      * rewrite lookup_insert_eq in Hk. injection Hk as <-. simpl.
        by apply Hkeys.
      * rewrite lookup_insert_ne in Hk by done. by apply Hkeys.
  - split.
    + by rewrite lookup_insert_ne.
    + intros k rp' Hk. destruct (decide (id = k)) as [->|Hk'].
      * rewrite lookup_insert_eq in Hk. by injection Hk as <-.
      * rewrite lookup_insert_ne in Hk by done. by apply Hkeys.
Qed.

Lemma receivePlayers_selfFree (self : string) (now : Z)
    (players : list (string * PlayerRecord)) :
  ∀ st, selfFree self st.1.1 →
  selfFree self (fold_left (NetworkManager.receivePlayer self now) players st).1.1.
Proof.
  induction players as [|entry players IH]; intros st Hst; [done|].
  simpl. apply IH. destruct st as [[remote ids] calls].
  by apply receivePlayer_selfFree.
Qed.

Lemma playersListener_selfFree (now : Z)
    (snapshot : option (list (string * PlayerRecord))) (nm : NetworkManager.t) :
  selfFree (NetworkManager.playerId nm) (NetworkManager.remotePlayers nm) →
  let nm' := (NetworkManager.playersListener now snapshot nm).1 in
  NetworkManager.playerId nm' = NetworkManager.playerId nm
  ∧ NetworkManager.isHost nm' = NetworkManager.isHost nm
  ∧ selfFree (NetworkManager.playerId nm') (NetworkManager.remotePlayers nm').
Proof.
  intros Hinv. unfold NetworkManager.playersListener.
  destruct snapshot as [players|]; [|done].
  pose proof (receivePlayers_selfFree (NetworkManager.playerId nm) now players
                (NetworkManager.remotePlayers nm, ∅, []) Hinv) as H.
  destruct (fold_left _ players _) as [[remote ids] calls]. simpl in *.
  split; [done|]. split; [done|]. destruct H as [Hself Hkeys]. split.
  - apply map_lookup_filter_None. by left.
  - intros k rp Hk. apply map_lookup_filter_Some in Hk as [Hk _].
    by apply Hkeys.
Qed.

Lemma selfFree_empty (self : string) : selfFree self ∅.
Proof. split; [done|]. intros k rp Hk. by rewrite lookup_empty in Hk. Qed.

Lemma act_selfFree (a : Action) (nm : NetworkManager.t) :
  selfFree (NetworkManager.playerId nm) (NetworkManager.remotePlayers nm) →
  let nm' := (act a nm).1.1 in
  NetworkManager.playerId nm' = NetworkManager.playerId nm
  ∧ selfFree (NetworkManager.playerId nm') (NetworkManager.remotePlayers nm').
Proof.
  intros Hinv.
  destruct a as [snapshot|now snapshot|now player|now enemies|snapshot
                 |px py dx dy| |now snapshot|]; simpl; try done.
  - by destruct (negb _).
  - pose proof (playersListener_selfFree now snapshot nm Hinv) as (? & _ & ?).
    by destruct (NetworkManager.playersListener now snapshot nm).
  - unfold NetworkManager.updatePlayer.
    by destruct (_ <? _).
  - unfold NetworkManager.updateEnemies.
    destruct (negb _); [done|]. by destruct (_ <? _).
Qed.

Lemma run_selfFree (actions : list Action) :
  ∀ nm,
  selfFree (NetworkManager.playerId nm) (NetworkManager.remotePlayers nm) →
  NetworkManager.playerId (run actions nm) = NetworkManager.playerId nm
  ∧ selfFree (NetworkManager.playerId (run actions nm))
             (NetworkManager.remotePlayers (run actions nm)).
Proof.
  induction actions as [|a actions IH]; intros nm Hinv; [done|].
  unfold run in *. simpl.
  destruct (act_selfFree a nm Hinv) as [Hid Hinv'].
  destruct (IH _ Hinv') as [Hid' Hinv'']. split; [congruence|done].
Qed.

(** C10.  Whatever calls and snapshots a manager created for [playerId]
    goes through, its remote-player map holds no entry under [playerId],
    one snapshot at a time skips the entry under that key, and
    [getRemotePlayers] returns no player whose id is [playerId]. *)
Theorem remote_players_exclude_self (roomId playerId : string)
    (actions : list Action) :
  let nm := run actions (NetworkManager.new roomId playerId) in
  NetworkManager.playerId nm = playerId
  ∧ NetworkManager.remotePlayers nm !! playerId = None
  ∧ (∀ rp, rp ∈ NetworkManager.getRemotePlayers nm →
           RemotePlayer.playerId rp ≠ playerId)
  ∧ (∀ now snapshot rp,
       rp ∈ NetworkManager.getRemotePlayers
              (NetworkManager.playersListener now snapshot nm).1 →
       RemotePlayer.playerId rp ≠ playerId).
Proof.
  intros nm.
  destruct (run_selfFree actions (NetworkManager.new roomId playerId)
              (selfFree_empty playerId)) as [Hid Hinv].
  fold nm in Hid, Hinv. simpl in Hid.
  assert (Hget : ∀ nm' : NetworkManager.t,
            selfFree playerId (NetworkManager.remotePlayers nm') →
            ∀ rp, rp ∈ NetworkManager.getRemotePlayers nm' →
                  RemotePlayer.playerId rp ≠ playerId).
  { intros nm' [Hself Hkeys] rp Hrp Heq.
    unfold NetworkManager.getRemotePlayers in Hrp.
    apply list_elem_of_fmap in Hrp as ([k rp'] & -> & Hk).
    apply elem_of_map_to_list in Hk. simpl in Heq.
    pose proof (Hkeys k rp' Hk). congruence. }
  rewrite Hid in Hinv.
  split; [done|]. split; [apply Hinv|]. split; [by apply Hget|].
  intros now snapshot rp.
  pose proof (playersListener_selfFree now snapshot nm) as H.
  rewrite Hid in H. destruct (H Hinv) as (Hid' & _ & Hinv').
  apply Hget. by rewrite <- Hid'.
Qed.

(** Instance: a manager that joins and is sent a snapshot holding its own
    record and another player's. *)
Lemma remote_players_exclude_self_witness :
  NetworkManager.remotePlayers
    (run [JoinRoom None;
          PlayersSnapshot 10
            (Some [("me"%string,
                    mkPlayerRecord "me" 0%float 0%float 100%float
                                   "idle_down" 0%float 1%float);
                   ("you"%string,
                    mkPlayerRecord "you" 1%float 2%float 100%float
                                   "idle_down" 0%float 1%float)])]
         (NetworkManager.new "room" "me"))
    !! "me"%string = None.
Proof.
  apply (remote_players_exclude_self "room" "me").
Defined.

(** ** Host election *)

Lemma joinRoom_isHost (snapshot : option (gmap string PlayerRecord))
    (nm : NetworkManager.t) :
  NetworkManager.isHost (NetworkManager.joinRoom snapshot nm).1
  = match snapshot with
    | None => true
    | Some players => bool_decide (size players = 0%nat)
    end.
Proof.
  unfold NetworkManager.joinRoom. cbn [fst].
  by destruct snapshot as [players|]; [destruct (bool_decide _)|].
Qed.

Lemma act_isHost (a : Action) (nm : NetworkManager.t) :
  isJoin a = false →
  NetworkManager.isHost (act a nm).1.1 = NetworkManager.isHost nm.
Proof.
  destruct a as [snapshot|now snapshot|now player|now enemies|snapshot
                 |px py dx dy| |now snapshot|]; simpl; try done; intros _.
  - pose proof (playersListener_selfFree now snapshot nm) as H.
    unfold NetworkManager.playersListener.
    destruct snapshot as [players|]; [|done].
    by destruct (fold_left _ players _) as [[remote ids] calls].
  - unfold NetworkManager.updatePlayer. by destruct (_ <? _).
  - unfold NetworkManager.updateEnemies.
    destruct (negb _); [done|]. by destruct (_ <? _).
Qed.

Lemma worldStep_isHost (w : World) (call : nat * WorldAction) (i : nat)
    (nm : NetworkManager.t) :
  sessions w !! i = Some nm →
  (call.1 = i → match call.2 with Join => False | Do a => isJoin a = false end) →
  ∃ nm', sessions (worldStep w call) !! i = Some nm'
       ∧ NetworkManager.isHost nm' = NetworkManager.isHost nm.
Proof.
  intros Hi Hcall. destruct call as [j wa]. simpl in *.
  destruct (sessions w !! j) as [nmj|] eqn:Hj; [|by exists nm].
  destruct (act _ nmj) as [[nm' ws] cs] eqn:E. simpl.
  destruct (decide (j = i)) as [->|Hne].
  - exists nm'. split.
    + apply list_lookup_insert_eq. by eapply lookup_lt_Some.
    + assert (nmj = nm) as -> by congruence.
      specialize (Hcall eq_refl). destruct wa as [|a]; [done|].
      pose proof (act_isHost a nm Hcall) as H. by rewrite E in H.
  - exists nm. by rewrite list_lookup_insert_ne.
Qed.

Lemma worldRun_isHost (calls : list (nat * WorldAction)) :
  ∀ w i nm,
  sessions w !! i = Some nm →
  noJoinBy i calls →
  ∃ nm', sessions (worldRun calls w) !! i = Some nm'
       ∧ NetworkManager.isHost nm' = NetworkManager.isHost nm.
Proof.
  induction calls as [|call calls IH]; intros w i nm Hi Hno; [by exists nm|].
  unfold worldRun in *. simpl.
  destruct (worldStep_isHost w call i nm Hi) as (nm1 & Hi1 & Hh1).
  { intros <-. destruct call as [j wa]. apply (Hno wa). by left. }
  destruct (IH (worldStep w call) i nm1 Hi1) as (nm2 & Hi2 & Hh2).
  { intros wa Hwa. apply Hno. by right. }
  exists nm2. split; [done|congruence].
Qed.

Lemma insert_size_nonzero (id : string) (value : PlayerRecord)
    (m : gmap string PlayerRecord) :
  bool_decide (size (<[id := value]> m) = 0%nat) = false.
Proof.
  apply bool_decide_eq_false. intros H. apply map_size_empty_iff in H.
  by apply insert_non_empty in H.
Qed.

(** C5.  A session joining a room whose players subtree is absent or empty
    becomes host, one joining while a player record exists becomes
    observer; no later call of the session or of any other session changes
    that, short of joining again; and of three sessions joining an empty
    room in sequence the first is host and the others are observers, the
    third join leaving the first two as they were. *)
Theorem host_election :
  (∀ snapshot nm,
     NetworkManager.isHost (NetworkManager.joinRoom snapshot nm).1 = true
     ↔ snapshot = None ∨ snapshot = Some ∅)
  ∧ (∀ (players : gmap string PlayerRecord) nm id value,
       players !! id = Some value →
       NetworkManager.isHost (NetworkManager.joinRoom (Some players) nm).1
       = false)
  ∧ (∀ calls w i nm,
       sessions w !! i = Some nm →
       noJoinBy i calls →
       ∃ nm', sessions (worldRun calls w) !! i = Some nm'
            ∧ NetworkManager.isHost nm' = NetworkManager.isHost nm)
  ∧ (∀ tree s1 s2 s3,
       tree = None ∨ tree = Some ∅ →
       let w2 := worldRun [(0%nat, Join); (1%nat, Join)]
                          (mkWorld tree [s1; s2; s3]) in
       let w3 := worldStep w2 (2%nat, Join) in
       NetworkManager.isHost <$> take 2 (sessions w2) = [true; false]
       ∧ NetworkManager.isHost <$> sessions w3 = [true; false; false]).
Proof.
  split; [|split; [|split]].
  - intros snapshot nm. rewrite joinRoom_isHost.
    destruct snapshot as [players|].
    + rewrite bool_decide_eq_true, map_size_empty_iff. split.
      * intros ->. by right.
      * by intros [?|[= ->]].
    + split; [by left|done].
  - intros players nm id value Hid. rewrite joinRoom_isHost.
    apply bool_decide_eq_false. intros H. apply map_size_empty_iff in H.
    by rewrite H in Hid.
  - intros calls w i nm. apply worldRun_isHost.
  - intros tree s1 s2 s3 Htree w2 w3. unfold w3, w2, worldRun. simpl.
    assert (Hfirst : match tree with
                     | None => true
                     | Some players => bool_decide (size players = 0%nat)
                     end = true).
    { destruct Htree as [-> | ->]; [done|]. by rewrite map_size_empty. }
    rewrite Hfirst. simpl. rewrite !insert_size_nonzero. simpl. done.
Qed.

(** Instance: three fresh sessions joining the absent room. *)
Lemma host_election_witness :
  NetworkManager.isHost
  <$> sessions
        (worldStep
           (worldRun [(0%nat, Join); (1%nat, Join)]
              (mkWorld None [NetworkManager.new "room" "a";
                             NetworkManager.new "room" "b";
                             NetworkManager.new "room" "c"]))
           (2%nat, Join))
  = [true; false; false].
Proof.
  destruct host_election as (_ & _ & _ & H).
  apply (H None (NetworkManager.new "room" "a") (NetworkManager.new "room" "b")
           (NetworkManager.new "room" "c")).
  by left.
Defined.

(** * Further properties: agents on the flow field *)

(** ** Following the flow field *)

(** What the neighbour loop of [getBestFlowFieldNeighbor] leaves: the least
    distance seen below the initial one, and the passable neighbour it was
    read at. *)
Lemma considerNeighbor_fold (ff : FlowField.t) (m : TileMap.t)
    (l : list TilePosition) (b : Z) (o : option TilePosition) :
  ∃ b' o', fold_left (considerNeighbor ff m) l (b, o) = (b', o')
    ∧ ((b' = b ∧ o' = o)
       ∨ (∃ u, o' = Some u ∧ u ∈ l ∧ passable m u = true
             ∧ getFlowFieldDistance ff (x u) (y u) = Some b' ∧ b' < b))
    ∧ ∀ v dv, v ∈ l → passable m v = true →
        getFlowFieldDistance ff (x v) (y v) = Some dv → b' <= dv.
Proof.
  revert b o. induction l as [|a l IH]; intros b o.
  - exists b, o. split; [done|]. split; [by left|].
    intros v dv Hv. by apply elem_of_nil in Hv.
  - cbn [fold_left].
    assert (Hkeep : ∀ b1 o1,
      considerNeighbor ff m (b, o) a = (b1, o1) → b1 <= b →
      ((b1 = b ∧ o1 = o)
       ∨ (o1 = Some a ∧ passable m a = true
          ∧ getFlowFieldDistance ff (x a) (y a) = Some b1 ∧ b1 < b)) →
      (∀ dv, passable m a = true →
         getFlowFieldDistance ff (x a) (y a) = Some dv → b1 <= dv) →
      ∃ b' o', fold_left (considerNeighbor ff m) l (considerNeighbor ff m (b, o) a)
               = (b', o')
        ∧ ((b' = b ∧ o' = o)
           ∨ (∃ u, o' = Some u ∧ u ∈ a :: l ∧ passable m u = true
                 ∧ getFlowFieldDistance ff (x u) (y u) = Some b' ∧ b' < b))
        ∧ ∀ v dv, v ∈ a :: l → passable m v = true →
            getFlowFieldDistance ff (x v) (y v) = Some dv → b' <= dv).
    { intros b1 o1 E Hle Hcase Hmina. rewrite E.
      destruct (IH b1 o1) as (b' & o' & Ef & Hr & Hmin).
      exists b', o'. split; [done|].
      assert (Hb' : b' <= b1).
      { destruct Hr as [[-> _]|(u & _ & _ & _ & _ & ?)]; lia. }
      split.
      - destruct Hr as [[-> ->]|(u & -> & Hu & Hpu & Hdu & Hlu)].
        + destruct Hcase as [[-> ->]|(-> & Hpa & Hda & Hlt)]; [by left|].
          right. exists a. split; [done|]. split; [by left|]. done.
        + right. exists u. split; [done|]. split; [by right|].
          split; [done|]. split; [done|]. lia.
      - intros v dv Hv Hpv Hdv. apply elem_of_cons in Hv as [->|Hv].
        + pose proof (Hmina dv Hpv Hdv). lia.
        + by apply (Hmin v). }
    destruct (passable m a) eqn:Hpa.
    + destruct (getFlowFieldDistance ff (x a) (y a)) as [da|] eqn:Hda.
      * destruct (Z.ltb_spec da b) as [Hlt|Hge].
        -- apply (Hkeep da (Some a)).
           ++ unfold considerNeighbor. rewrite invalid_test, Hpa, Hda.
              cbn [negb fst]. destruct (Z.ltb_spec da b); [done|lia].
           ++ lia.
           ++ right. done.
           ++ intros dv _ [= <-]. lia.
        -- apply (Hkeep b o).
           ++ unfold considerNeighbor. rewrite invalid_test, Hpa, Hda.
              cbn [negb fst]. destruct (Z.ltb_spec da b); [lia|done].
           ++ lia.
           ++ by left.
           ++ intros dv _ [= <-]. lia.
      * apply (Hkeep b o).
        -- unfold considerNeighbor. by rewrite invalid_test, Hpa, Hda.
        -- lia.
        -- by left.
        -- intros dv _ [=].
    + apply (Hkeep b o).
      * unfold considerNeighbor. by rewrite invalid_test, Hpa.
      * lia.
      * by left.
      * intros dv [=].
Qed.

(** [getBestFlowFieldNeighbor] opened up: what it returns in terms of the
    loop. *)
Lemma getBestFlowFieldNeighbor_Some (ff : FlowField.t) (pos u : TilePosition)
    (m : TileMap.t) :
  getBestFlowFieldNeighbor ff pos m = Some u →
  ∃ d, TileMap.isValidTile m (x pos) (y pos) = true
     ∧ getFlowFieldDistance ff (x pos) (y pos) = Some d
     ∧ d ≠ FlowField.MAX_DISTANCE ff ∧ d ≠ 0
     ∧ snd (fold_left (considerNeighbor ff m) (neighbors (x pos) (y pos))
                      (d, None)) = Some u.
Proof.
  unfold getBestFlowFieldNeighbor.
  destruct (TileMap.isValidTile m (x pos) (y pos)); [|done]. cbn [negb].
  destruct (getFlowFieldDistance ff (x pos) (y pos)) as [d|]; [|done].
  do 2 (case_bool_decide; [done|]).
  intros Hfold. by exists d.
Qed.

Lemma getBestFlowFieldNeighbor_run (ff : FlowField.t) (pos : TilePosition)
    (m : TileMap.t) (d : Z) :
  TileMap.isValidTile m (x pos) (y pos) = true →
  getFlowFieldDistance ff (x pos) (y pos) = Some d →
  d ≠ FlowField.MAX_DISTANCE ff → d ≠ 0 →
  getBestFlowFieldNeighbor ff pos m
  = snd (fold_left (considerNeighbor ff m) (neighbors (x pos) (y pos))
                   (d, None)).
Proof.
  intros Hv Hd Hmax H0. unfold getBestFlowFieldNeighbor.
  rewrite Hv, Hd. cbn [negb].
  by rewrite !bool_decide_eq_false_2.
Qed.

(** X1.  Whatever the flow field holds, a tile [getBestFlowFieldNeighbor]
    returns is a 4-neighbour of the position, inside the map and not solid,
    and its stored distance is strictly below the one of the position and
    no larger than the one of any other passable neighbour; the position
    itself is inside the map and its distance is neither the sentinel nor
    zero. *)
Theorem best_neighbor_downhill (ff : FlowField.t) (pos u : TilePosition)
    (m : TileMap.t) :
  getBestFlowFieldNeighbor ff pos m = Some u →
  adjacent pos u ∧ passable m u = true
  ∧ TileMap.isValidTile m (x pos) (y pos) = true
  ∧ ∃ d du, getFlowFieldDistance ff (x pos) (y pos) = Some d
      ∧ getFlowFieldDistance ff (x u) (y u) = Some du
      ∧ du < d ∧ d ≠ FlowField.MAX_DISTANCE ff ∧ d ≠ 0
      ∧ ∀ v dv, adjacent pos v → passable m v = true →
          getFlowFieldDistance ff (x v) (y v) = Some dv → du <= dv.
Proof.
  intros H. apply getBestFlowFieldNeighbor_Some in H
    as (d & Hv & Hd & Hmax & H0 & Hfold).
  destruct (considerNeighbor_fold ff m (neighbors (x pos) (y pos)) d None)
    as (b' & o' & Ef & Hr & Hmin).
  rewrite Ef in Hfold. simpl in Hfold. subst o'.
  destruct Hr as [[_ [=]]|(w & [= <-] & Hw & Hpw & Hdw & Hlt)].
  split; [done|]. split; [done|]. split; [done|].
  exists d, b'. split; [done|]. split; [exact Hdw|].
  split; [done|]. split; [done|]. split; [done|].
  intros v dv Hadj Hpv Hdv. by apply (Hmin v).
Qed.

(** Instance: on the open 3 x 3 map, with the target in a corner, from the
    opposite corner. *)
Lemma best_neighbor_downhill_witness :
  ∃ ff u, calculateFlowField (freshField 3 3) (mkTile 0 0) (openMap 3 3) = Some ff
    ∧ getBestFlowFieldNeighbor ff (mkTile 2 2) (openMap 3 3) = Some u
    ∧ adjacent (mkTile 2 2) u ∧ passable (openMap 3 3) u = true.
Proof.
  eexists _, (mkTile 2 1). split; [vm_compute; reflexivity|].
  assert (E : getBestFlowFieldNeighbor
                (FlowField.mk [0; 1; 2; 1; 2; 3; 2; 3; 4] (mkTile 0 0) 3 3 65535)
                (mkTile 2 2) (openMap 3 3) = Some (mkTile 2 1))
    by (vm_compute; reflexivity).
  split; [exact E|].
  destruct (best_neighbor_downhill _ _ _ _ E) as (Ha & Hp & _).
  split; [exact Ha|exact Hp].
Defined.

(** On a computed field, the step proposed at a tile [n > 0] steps from the
    target leads to a tile [n - 1] steps from it. *)
Lemma computed_field_step (ff' : FlowField.t) (g : TilePosition)
    (m : TileMap.t) :
  FlowField.MAX_DISTANCE ff' = 65535 →
  (∀ t n, walk m g t n → fits m (Z.of_nat n) →
     ∃ d, getFlowFieldDistance ff' (x t) (y t) = Some (Z.of_nat d)
        ∧ walk m g t d ∧ Z.of_nat d < 65535
        ∧ ∀ k, walk m g t k → (d ≤ k)%nat) →
  (∀ t, getFlowFieldDistance ff' (x t) (y t) = Some 65535
      ∨ ∃ d, getFlowFieldDistance ff' (x t) (y t) = Some (Z.of_nat d)
           ∧ walk m g t d ∧ Z.of_nat d < 65535
           ∧ ∀ k, walk m g t k → (d ≤ k)%nat) →
  ∀ t n, shortestDistance m t g n → fits m n → t ≠ g →
    ∃ u, getBestFlowFieldNeighbor ff' t m = Some u
       ∧ adjacent t u ∧ shortestDistance m u g (n - 1).
Proof.
  intros Hmax Hreach Hany t n Hs Hfit Htg.
  apply shortestDistance_walk in Hs as (Hn & Hw & Hmin).
  destruct (Hreach t _ Hw) as (d & Hd & Hwd & Hlt & Hmind).
  { by rewrite Z2Nat.id. }
  pose proof (Hmin _ Hwd) as H1. pose proof (Hmind _ Hw) as H2.
  assert (d = Z.to_nat n) as -> by lia. clear H1 H2 Hwd Hmind.
  rewrite Z2Nat.id in Hd, Hlt by done.
  destruct (Z.to_nat n) as [|n'] eqn:En; [by apply walk_zero in Hw|].
  inversion Hw as [|u0 t' k Hw0 Hadj0 Hpt]; subst.
  destruct (Hreach u0 n' Hw0) as (d0 & Hd0 & _ & _ & Hmin0).
  { left. lia. }
  pose proof (Hmin0 _ Hw0) as Hle0.
  rewrite (getBestFlowFieldNeighbor_run ff' t m n);
    [|by apply passable_valid|done|lia|lia].
  destruct (considerNeighbor_fold ff' m (neighbors (x t) (y t)) n None)
    as (b' & o' & Ef & Hr & Hbest).
  pose proof (Hbest u0 _ (adjacent_sym _ _ Hadj0) (walk_valid _ _ _ _ Hw0) Hd0)
    as Hb0.
  destruct Hr as [[-> _]|(u & -> & Hu & Hpu & Hdu & Hlu)]; [lia|].
  exists u. rewrite Ef. split; [done|]. split; [done|].
  destruct (Hany u) as [Hsent|(du & Hdu' & Hwu & _ & Hminu)].
  { rewrite Hsent in Hdu. injection Hdu as Hdu. lia. }
  rewrite Hdu' in Hdu. injection Hdu as Hdu.
  assert (Hback : walk m g t (S du)).
  { apply walk_step with u; [done| |done]. by apply adjacent_sym. }
  apply Hmin in Hback.
  assert (du = n') as -> by lia.
  apply shortestDistance_walk. split; [lia|].
  replace (Z.to_nat (n - 1)) with n' by lia. done.
Qed.

Lemma fits_pred (m : TileMap.t) (n : Z) : fits m n → fits m (n - 1).
Proof. unfold fits. lia. Qed.

Lemma shortestDistance_zero (m : TileMap.t) (t g : TilePosition) :
  shortestDistance m t g 0 → t = g.
Proof.
  intros H. apply shortestDistance_walk in H as (_ & Hw & _).
  by apply walk_zero in Hw.
Qed.

Lemma shortestDistance_positive (m : TileMap.t) (t g : TilePosition) (n : Z) :
  shortestDistance m t g n → t ≠ g → 0 < n.
Proof.
  intros H Hne. pose proof H as H'.
  apply shortestDistance_walk in H' as (Hn & _).
  destruct (decide (n = 0)) as [->|]; [|lia].
  by apply shortestDistance_zero in H.
Qed.

(** X2.  On the field [calculateFlowField] computed for the target [g], at a
    tile [t] other than [g] whose shortest distance [n] to [g] fits below
    the sentinel, [getBestFlowFieldNeighbor] returns a tile: a 4-neighbour
    of [t] whose shortest distance to [g] is [n - 1]. *)
Theorem best_neighbor_shortest (ff : FlowField.t) (g t : TilePosition)
    (m : TileMap.t) (n : Z) :
  wfFlowField ff →
  FlowField.cols ff = TileMap.cols m → FlowField.rows ff = TileMap.rows m →
  passable m g = true →
  FlowField.target ff ≠ g →
  shortestDistance m t g n → fits m n → t ≠ g →
  ∃ ff' u, calculateFlowField ff g m = Some ff'
    ∧ getBestFlowFieldNeighbor ff' t m = Some u
    ∧ adjacent t u ∧ shortestDistance m u g (n - 1).
Proof.
  intros Hwf Ec Er Hg Hne Hs Hfit Htg.
  destruct (calculateFlowField_computes ff g m Hwf Ec Er Hg Hne)
    as (ff' & E & _ & _ & _ & Hmax & Hreach & Hany).
  destruct (computed_field_step ff' g m Hmax Hreach Hany t n Hs Hfit Htg)
    as (u & Hu & Hadj & Hsu).
  by exists ff', u.
Qed.

(** Instance: the corridor of five tiles with the target at its left end,
    from the tile three steps away. *)
Lemma best_neighbor_shortest_witness :
  ∃ ff' u, calculateFlowField (freshField 5 1) (mkTile 0 0) (openMap 5 1)
           = Some ff'
    ∧ getBestFlowFieldNeighbor ff' (mkTile 3 0) (openMap 5 1) = Some u
    ∧ shortestDistance (openMap 5 1) u (mkTile 0 0) 2.
Proof.
  destruct (best_neighbor_shortest (freshField 5 1) (mkTile 0 0) (mkTile 3 0)
              (openMap 5 1) 3) as (ff' & u & E & Hu & _ & Hs).
  - constructor; simpl; try lia; reflexivity.
  - reflexivity.
  - reflexivity.
  - reflexivity.
  - simpl. intros [=].
  - apply shortestDistance_corridor. lia.
  - left. lia.
  - intros [=].
  - exists ff', u. split; [exact E|]. split; [exact Hu|exact Hs].
Defined.

(** The trail of an agent on a computed field. *)
Lemma computed_field_trail (ff' : FlowField.t) (g : TilePosition)
    (m : TileMap.t) :
  FlowField.MAX_DISTANCE ff' = 65535 →
  (∀ t n, walk m g t n → fits m (Z.of_nat n) →
     ∃ d, getFlowFieldDistance ff' (x t) (y t) = Some (Z.of_nat d)
        ∧ walk m g t d ∧ Z.of_nat d < 65535
        ∧ ∀ k, walk m g t k → (d ≤ k)%nat) →
  (∀ t, getFlowFieldDistance ff' (x t) (y t) = Some 65535
      ∨ ∃ d, getFlowFieldDistance ff' (x t) (y t) = Some (Z.of_nat d)
           ∧ walk m g t d ∧ Z.of_nat d < 65535
           ∧ ∀ k, walk m g t k → (d ≤ k)%nat) →
  ∀ (k : nat) t steps, shortestDistance m t g (Z.of_nat k) →
    fits m (Z.of_nat k) → (k ≤ steps)%nat →
    connects m t g (followFlowField steps ff' t m)
    ∧ length (followFlowField steps ff' t m) = S k.
Proof.
  intros Hmax Hreach Hany k.
  induction k as [|k IH]; intros t steps Hs Hfit Hsteps.
  - pose proof Hs as Hs'. apply shortestDistance_zero in Hs' as ->.
    apply shortestDistance_walk in Hs as (_ & Hw & _).
    assert (Hnone : getBestFlowFieldNeighbor ff' g m = None).
    { destruct (getBestFlowFieldNeighbor ff' g m) as [u|] eqn:E; [|done].
      apply getBestFlowFieldNeighbor_Some in E as (d & _ & Hd & _ & H0 & _).
      destruct (Hreach g 0%nat Hw) as (d' & Hd' & _ & _ & Hmin'); [done|].
      pose proof (Hmin' _ Hw). rewrite Hd' in Hd. injection Hd as <-. lia. }
    assert (followFlowField steps ff' g m = [g]) as ->.
    { destruct steps; simpl; [done|]. by rewrite Hnone. }
    split; [|done]. split; [split|split]; try done.
    constructor; [|done]. by eapply walk_valid.
  - destruct steps as [|steps]; [lia|].
    assert (Htg : t ≠ g).
    { intros ->. apply shortestDistance_walk in Hs as (_ & Hw & Hmin).
      assert (Hg : passable m g = true) by (by eapply walk_valid).
      pose proof (Hmin _ (walk_here m g Hg)). lia. }
    destruct (computed_field_step ff' g m Hmax Hreach Hany t _ Hs Hfit Htg)
      as (u & Hu & Hadj & Hsu).
    replace (Z.of_nat (S k) - 1) with (Z.of_nat k) in Hsu by lia.
    destruct (IH u steps Hsu) as [Hconn Hlen].
    { apply fits_pred in Hfit. by replace (Z.of_nat (S k) - 1) with (Z.of_nat k)
        in Hfit by lia. }
    { lia. }
    simpl. rewrite Hu.
    destruct (followFlowField steps ff' u m) as [|a r] eqn:Er.
    { by destruct Hconn as (_ & ? & _). }
    destruct Hconn as ([Hf Hc] & Hh & Hl). simpl in Hh. injection Hh as ->.
    split; [|simpl in *; lia].
    split; [split|split].
    + constructor; [|done].
      apply shortestDistance_walk in Hs as (_ & Hw & _). by eapply walk_valid.
    + simpl. split; [done|]. exact Hc.
    + done.
    + rewrite last_cons. by rewrite Hl.
Qed.

(** X3.  An agent that starts on a tile [t] whose shortest distance [n] to
    the target fits below the sentinel, and that keeps taking the step
    [getBestFlowFieldNeighbor] proposes on the computed field, walks a
    shortest path: after [n] steps it stands on the target, where no
    further step is proposed, and the tiles it visited form a path of
    passable tiles from [t] to the target with [n + 1] tiles. *)
Theorem follow_flow_field_shortest (ff : FlowField.t) (g t : TilePosition)
    (m : TileMap.t) (n : Z) (steps : nat) :
  wfFlowField ff →
  FlowField.cols ff = TileMap.cols m → FlowField.rows ff = TileMap.rows m →
  passable m g = true →
  FlowField.target ff ≠ g →
  shortestDistance m t g n → fits m n → n <= Z.of_nat steps →
  ∃ ff', calculateFlowField ff g m = Some ff'
    ∧ connects m t g (followFlowField steps ff' t m)
    ∧ Z.of_nat (length (followFlowField steps ff' t m)) = n + 1
    ∧ getBestFlowFieldNeighbor ff' g m = None.
Proof.
  intros Hwf Ec Er Hg Hne Hs Hfit Hsteps.
  destruct (calculateFlowField_computes ff g m Hwf Ec Er Hg Hne)
    as (ff' & E & _ & _ & _ & Hmax & Hreach & Hany).
  exists ff'. split; [done|].
  assert (Hn : 0 <= n) by (by apply shortestDistance_walk in Hs as (? & _)).
  destruct (computed_field_trail ff' g m Hmax Hreach Hany (Z.to_nat n) t steps)
    as [Hconn Hlen].
  - by rewrite Z2Nat.id.
  - by rewrite Z2Nat.id.
  - lia.
  - split; [done|]. split; [lia|].
    destruct (getBestFlowFieldNeighbor ff' g m) as [u|] eqn:Eg; [|done].
    apply getBestFlowFieldNeighbor_Some in Eg as (d & _ & Hd & _ & H0 & _).
    destruct (Hreach g 0%nat (walk_here m g Hg)) as (d' & Hd' & _ & _ & Hmin');
      [left; simpl; lia|].
    pose proof (Hmin' _ (walk_here m g Hg)).
    rewrite Hd' in Hd. injection Hd as <-. lia.
Qed.

(** Instance: the corridor of five tiles, from its right end, with an
    allowance of ten steps. *)
Lemma follow_flow_field_shortest_witness :
  ∃ ff', calculateFlowField (freshField 5 1) (mkTile 0 0) (openMap 5 1)
         = Some ff'
    ∧ Z.of_nat (length (followFlowField 10 ff' (mkTile 4 0) (openMap 5 1))) = 5.
Proof.
  destruct (follow_flow_field_shortest (freshField 5 1) (mkTile 0 0)
              (mkTile 4 0) (openMap 5 1) 4 10) as (ff' & E & _ & Hlen & _).
  - constructor; simpl; try lia; reflexivity.
  - reflexivity.
  - reflexivity.
  - reflexivity.
  - simpl. intros [=].
  - apply shortestDistance_corridor. lia.
  - left. lia.
  - lia.
  - exists ff'. split; [exact E|exact Hlen].
Defined.

(** A field filled with the sentinel proposes no step. *)
Lemma sentinel_field_no_step (ff : FlowField.t) (pos : TilePosition)
    (m : TileMap.t) :
  (∀ px py, getFlowFieldDistance ff px py = Some (FlowField.MAX_DISTANCE ff)) →
  getBestFlowFieldNeighbor ff pos m = None.
Proof.
  intros Hall. unfold getBestFlowFieldNeighbor.
  destruct (TileMap.isValidTile m (x pos) (y pos)); [|done]. cbn [negb].
  rewrite Hall. by rewrite bool_decide_eq_true_2.
Qed.

Lemma cleared_field_sentinel (ff : FlowField.t) (px py : Z) :
  wfFlowField ff →
  getFlowFieldDistance
    (FlowField.mk (uint16Fill (FlowField.distances ff) (FlowField.MAX_DISTANCE ff))
                  (FlowField.target ff) (FlowField.cols ff) (FlowField.rows ff)
                  (FlowField.MAX_DISTANCE ff)) px py
  = Some (FlowField.MAX_DISTANCE ff).
Proof.
  intros [Hc Hr Hlen Hmax]. unfold getFlowFieldDistance. simpl.
  destruct (Z.ltb_spec px 0); [done|].
  destruct (Z.geb_spec px (FlowField.cols ff)); [done|].
  destruct (Z.ltb_spec py 0); [done|].
  destruct (Z.geb_spec py (FlowField.rows ff)); [done|]. simpl.
  rewrite arrayGet_uint16Fill; [by rewrite Hmax|]. nia.
Qed.

(** X4.  After a request for a new target that is out of bounds or solid,
    [getBestFlowFieldNeighbor] proposes no step at any position, on any
    map: every agent that follows the field stands still until a valid
    target other than the stored one is requested. *)
Theorem invalid_target_no_step (ff : FlowField.t) (g : TilePosition)
    (m : TileMap.t) :
  wfFlowField ff →
  FlowField.target ff ≠ g →
  passable m g = false →
  ∃ ff', calculateFlowField ff g m = Some ff'
    ∧ ∀ pos m', getBestFlowFieldNeighbor ff' pos m' = None.
Proof.
  intros Hwf Hne Hbad.
  unfold calculateFlowField.
  rewrite (target_test_false _ _ Hne), invalid_test, Hbad. cbn [negb].
  eexists. split; [done|].
  intros pos m'. apply sentinel_field_no_step.
  intros px py. cbn [FlowField.MAX_DISTANCE].
  by apply cleared_field_sentinel.
Qed.

(** Instance: the centre tile of the 3 x 3 map with a wall on it. *)
Lemma invalid_target_no_step_witness :
  ∃ ff', calculateFlowField (freshField 3 3) (mkTile 1 1) wallMap = Some ff'
    ∧ getBestFlowFieldNeighbor ff' (mkTile 0 0) wallMap = None.
Proof.
  destruct (invalid_target_no_step (freshField 3 3) (mkTile 1 1) wallMap)
    as (ff' & E & Hno).
  - constructor; simpl; try lia; reflexivity.
  - simpl. intros [=].
  - reflexivity.
  - exists ff'. split; [exact E|apply Hno].
Defined.

(** * Further properties: paths and their cache *)

(** ** The shape of every returned path *)

Lemma searchLoop_returns (m : TileMap.t) (sx sy gx gy : Z) (budget : nat) :
  ∀ st p st',
  (∀ n, n ∈ openSet st → lineage m sx sy gx gy n) →
  searchLoop budget m gx gy st = (Some p, st') →
  ∃ c, lineage m sx sy gx gy c ∧ p = reconstructPath c
     ∧ nodeTile c = mkTile gx gy.
Proof.
  induction budget as [|budget IH]; intros st p st' Hl; [done|].
  rewrite searchLoop_step.
  destruct (sortByF (openSet st)) as [|c rest] eqn:Hsort; [done|].
  pose proof (sortByF_perm (openSet st)) as Hperm. rewrite Hsort in Hperm.
  assert (Hc : lineage m sx sy gx gy c).
  { apply Hl. rewrite <- Hperm. by left. }
  destruct (bool_decide (PathNode.x c = gx) && bool_decide (PathNode.y c = gy))
    eqn:Hgoal.
  - intros [= <- <-]. exists c. split; [done|]. split; [done|].
    by apply goal_test.
  - apply IH. cbn [openSet]. apply (relaxAll_lineage m sx sy); [done|done|].
    intros n Hn. apply Hl. rewrite <- Hperm. by right.
Qed.

(** X5.  Whatever the start tile is - passable or not, inside the map or
    not - a path [findPath] returns begins on the start tile, ends on the
    goal tile, moves between 4-neighbours only, and every tile after the
    first is inside the map and not solid; and the goal is not solid. *)
Theorem find_path_shape (sx sy gx gy : Z) (m : TileMap.t) (maxIterations : Z)
    (p : list TilePosition) :
  findPath sx sy gx gy m maxIterations = Some p →
  head p = Some (mkTile sx sy)
  ∧ last p = Some (mkTile gx gy)
  ∧ chain p
  ∧ Forall (λ t, passable m t = true) (tail p)
  ∧ TileMap.isSolid m gx gy = false.
Proof.
  rewrite findPath_unfold.
  destruct (TileMap.isSolid m gx gy); [done|].
  destruct (bool_decide (sx = gx) && bool_decide (sy = gy)) eqn:Hsame.
  - intros [= <-]. apply andb_true_iff in Hsame as [Hx Hy].
    apply bool_decide_eq_true in Hx, Hy. subst. by repeat split.
  - destruct (searchLoop _ _ _ _ _) as [r st'] eqn:E. simpl. intros ->.
    apply (searchLoop_returns m sx sy gx gy) in E as (c & Hc & -> & Hgoal).
    + destruct (lineage_path _ _ _ _ _ _ Hc) as (Hh & Hl & Hch & Hf & _).
      rewrite Hgoal in Hl. done.
    + intros n Hn. apply list_elem_of_singleton in Hn as ->. constructor.
Qed.

(** Instance: on the 3 x 3 map with a wall on its centre, from the wall
    tile to a corner. *)
Lemma find_path_shape_witness :
  ∃ p, findPath 1 1 0 0 wallMap 1000 = Some p
     ∧ head p = Some (mkTile 1 1) ∧ last p = Some (mkTile 0 0).
Proof.
  destruct (findPath 1 1 0 0 wallMap 1000) as [p|] eqn:E;
    [|vm_compute in E; discriminate].
  destruct (find_path_shape 1 1 0 0 wallMap 1000 p E) as (Hh & Hl & _).
  exists p. split; [reflexivity|]. split; [exact Hh|exact Hl].
Defined.

(** ** The iteration allowance *)

Lemma size_union_singleton (X : gset (Z * Z)) (k : Z * Z) :
  (size (X ∪ {[k]}) ≤ S (size X))%nat.
Proof.
  rewrite size_union_alt.
  assert (size (({[k]} : gset (Z * Z)) ∖ X) ≤ 1)%nat; [|lia].
  rewrite <- (size_singleton (C:=gset (Z * Z)) k).
  apply subseteq_size. intros a Ha. by apply elem_of_difference in Ha as [? _].
Qed.

Lemma searchLoop_spent (m : TileMap.t) (gx gy : Z) (budget : nat) :
  ∀ st r st',
  searchLoop budget m gx gy st = (r, st') →
  iterations st <= iterations st' <= iterations st + Z.of_nat budget
  ∧ Z.of_nat (size (closedSet st'))
    <= Z.of_nat (size (closedSet st)) + (iterations st' - iterations st).
Proof.
  induction budget as [|budget IH]; intros st r st'.
  - simpl. intros [= <- <-]. lia.
  - rewrite searchLoop_step.
    destruct (sortByF (openSet st)) as [|c rest]; [intros [= <- <-]; lia|].
    destruct (bool_decide (PathNode.x c = gx) && bool_decide (PathNode.y c = gy)).
    + intros [= <- <-]. simpl. lia.
    + intros E. apply IH in E. cbn [iterations closedSet] in E.
      pose proof (size_union_singleton (closedSet st)
                    (getKey (PathNode.x c) (PathNode.y c))).
      lia.
Qed.

(** X6.  However the search ends, the loop of [findPath] ran at most
    [maxIterations] times, and the closed set never holds more tiles than
    iterations were run. *)
Theorem find_path_within_budget (sx sy gx gy : Z) (m : TileMap.t)
    (maxIterations : Z) (r : option (list TilePosition)) (st : SearchState) :
  findPathRun sx sy gx gy m maxIterations = (r, Some st) →
  0 <= iterations st <= Z.max 0 maxIterations
  ∧ Z.of_nat (size (closedSet st)) <= iterations st.
Proof.
  unfold findPathRun.
  destruct (TileMap.isSolid m gx gy); [done|].
  destruct (bool_decide (sx = gx) && bool_decide (sy = gy)); [done|].
  destruct (searchLoop _ _ _ _ _) as [r' st'] eqn:E.
  intros [= <- <-]. apply searchLoop_spent in E.
  cbn [iterations closedSet] in E. rewrite size_empty in E. lia.
Qed.

(** Instance: the corridor of five tiles, end to end, with an allowance of
    three iterations. *)
Lemma find_path_within_budget_witness :
  ∃ r st, findPathRun 4 0 0 0 (openMap 5 1) 3 = (r, Some st)
    ∧ iterations st <= 3.
Proof.
  destruct (findPathRun 4 0 0 0 (openMap 5 1) 3) as [r [st|]] eqn:E;
    [|vm_compute in E; discriminate].
  destruct (find_path_within_budget _ _ _ _ _ _ _ _ E) as [[_ H] _].
  exists r, st. split; [reflexivity|exact H].
Defined.

Lemma searchLoop_none (m : TileMap.t) (sx sy gx gy : Z) (budget : nat) :
  ∀ st st',
  passable m (mkTile sx sy) = true →
  searchInv m sx sy gx gy st →
  searchLoop budget m gx gy st = (None, st') →
  searchInv m sx sy gx gy st'
  ∧ (iterations st' < iterations st + Z.of_nat budget → openSet st' = []).
Proof.
  induction budget as [|budget IH]; intros st st' Hs I.
  - simpl. intros [= <-]. split; [done|lia].
  - rewrite searchLoop_step.
    destruct (sortByF (openSet st)) as [|c rest] eqn:Hsort.
    + intros [= <-]. split; [done|]. intros _. by apply sortByF_nil.
    + destruct (bool_decide (PathNode.x c = gx)
                && bool_decide (PathNode.y c = gy)) eqn:Hgoal; [done|].
      intros E. apply IH in E as [I' Hempty]; [|done|].
      * split; [done|]. intros Hlt. apply Hempty.
        cbn [iterations]. lia.
      * apply search_step_inv; [done|done|done|].
        intros Eg. apply goal_test in Eg. congruence.
Qed.

(** X7.  From a passable start, when [findPath] returns null having run
    fewer than [maxIterations] iterations, the goal cannot be reached from
    the start at all: only an exhausted allowance can hide an existing
    path. *)
Theorem find_path_null_early (sx sy gx gy : Z) (m : TileMap.t)
    (maxIterations : Z) (st : SearchState) :
  passable m (mkTile sx sy) = true →
  findPathRun sx sy gx gy m maxIterations = (None, Some st) →
  iterations st < maxIterations →
  ¬ reachable m (mkTile sx sy) (mkTile gx gy).
Proof.
  intros Hs. unfold findPathRun.
  destruct (TileMap.isSolid m gx gy); [done|].
  destruct (bool_decide (sx = gx) && bool_decide (sy = gy)); [done|].
  destruct (searchLoop _ _ _ _ _) as [r' st'] eqn:E.
  intros [= -> <-] Hlt Hreach.
  apply (searchLoop_none m sx sy gx gy) in E as [I Hempty];
    [|done|apply initial_searchInv].
  cbn [iterations] in Hempty.
  destruct Hreach as [q Hq]. apply connects_reverse in Hq.
  assert (Hw : ∃ k, walk m (mkTile sx sy) (mkTile gx gy) k).
  { apply reachable_walk. by exists (reverse q). }
  destruct Hw as [k Hw].
  destruct (search_frontier m sx sy gx gy st' I _ _ Hw) as [Hcl|(n & Hn & _)].
  - by apply (sinv_goal _ _ _ _ _ _ I) in Hcl.
  - rewrite Hempty in Hn by lia. by apply elem_of_nil in Hn.
Qed.

(** Instance: on the 3 x 1 map with a wall in the middle, from one end to
    the other. *)
Lemma find_path_null_early_witness :
  ¬ reachable (TileMap.mk 3 1 [0; 1; 0] grassDefs) (mkTile 0 0) (mkTile 2 0).
Proof.
  destruct (findPathRun 0 0 2 0 (TileMap.mk 3 1 [0; 1; 0] grassDefs) 1000)
    as [[p|] [st|]] eqn:E; try (vm_compute in E; discriminate).
  apply (find_path_null_early 0 0 2 0 _ 1000 st); [reflexivity|exact E|].
  vm_compute in E. injection E as <-. reflexivity.
Defined.

(** ** Single steps *)

(** The rest of a shortest path is a shortest path. *)
Lemma shortest_tail (m : TileMap.t) (a b g : TilePosition)
    (r : list TilePosition) :
  connects m a g (a :: b :: r) →
  (∀ q, connects m a g q → (length (a :: b :: r) ≤ length q)%nat) →
  adjacent a b
  ∧ connects m b g (b :: r)
  ∧ ∀ q, connects m b g q → (length (b :: r) ≤ length q)%nat.
Proof.
  intros ([Hf Hc] & Hh & Hl) Hmin.
  apply Forall_cons in Hf as [Ha Hf]. destruct Hc as [Hab Hc].
  split; [done|]. split.
  - split; [split|split]; try done.
  - intros q ([Hfq Hcq] & Hhq & Hlq).
    destruct q as [|b' q']; [done|]. simpl in Hhq. injection Hhq as ->.
    assert (Hq : connects m a g (a :: b :: q')).
    { split; [split|split];
        [by constructor|by split|done|by rewrite last_cons, Hlq]. }
    apply Hmin in Hq. simpl in *. lia.
Qed.

Lemma shortest_suffix (m : TileMap.t) (g : TilePosition) (i : nat) :
  ∀ s p c,
  connects m s g p →
  (∀ q, connects m s g q → (length p ≤ length q)%nat) →
  p !! i = Some c →
  connects m c g (drop i p)
  ∧ ∀ q, connects m c g q → (length (drop i p) ≤ length q)%nat.
Proof.
  induction i as [|i IH]; intros s p c Hp Hmin Hi.
  - rewrite drop_0. destruct Hp as (Hpath & Hh & Hl).
    destruct p as [|a p]; [done|]. simpl in Hh, Hi.
    injection Hh as ->. injection Hi as ->. done.
  - destruct p as [|a [|b r]]; [done|done|].
    assert (a = s) as ->.
    { destruct Hp as (_ & Hh & _). by injection Hh. }
    destruct (shortest_tail m s b g r Hp Hmin) as (_ & Hp' & Hmin').
    simpl in Hi. simpl. by apply (IH b (b :: r) c).
Qed.

Lemma shortest_length (m : TileMap.t) (a g : TilePosition)
    (p : list TilePosition) :
  connects m a g p →
  (∀ q, connects m a g q → (length p ≤ length q)%nat) →
  shortestDistance m a g (Z.of_nat (length p) - 1).
Proof.
  intros Hp Hmin. split.
  - exists p. split; [done|lia].
  - intros q Hq. apply Hmin in Hq. lia.
Qed.

Lemma shortest_min (m : TileMap.t) (a g : TilePosition)
    (p : list TilePosition) :
  connects m a g p →
  shortestDistance m a g (Z.of_nat (length p) - 1) →
  ∀ q, connects m a g q → (length p ≤ length q)%nat.
Proof. intros Hp [_ Hmin] q Hq. apply Hmin in Hq. lia. Qed.

(** The second tile of a shortest path is one step closer to its end. *)
Lemma shortest_second (m : TileMap.t) (a b g : TilePosition)
    (r : list TilePosition) :
  connects m a g (a :: b :: r) →
  (∀ q, connects m a g q → (length (a :: b :: r) ≤ length q)%nat) →
  adjacent a b
  ∧ ∃ d, shortestDistance m a g d ∧ shortestDistance m b g (d - 1).
Proof.
  intros Hp Hmin.
  destruct (shortest_tail m a b g r Hp Hmin) as (Hab & Hp' & Hmin').
  split; [done|].
  exists (Z.of_nat (length (a :: b :: r)) - 1). split.
  - by apply shortest_length.
  - replace (Z.of_nat (length (a :: b :: r)) - 1 - 1)
      with (Z.of_nat (length (b :: r)) - 1) by (simpl; lia).
    by apply shortest_length.
Qed.

Lemma pathfinder_step_of_path (sx sy gx gy : Z) (m : TileMap.t) :
  Pathfinder.getNextStep sx sy gx gy m
  = match findPath sx sy gx gy m 500 with
    | Some (_ :: b :: _) => Some b
    | _ => None
    end.
Proof.
  unfold Pathfinder.getNextStep.
  destruct (findPath sx sy gx gy m 500) as [[|a [|b r]]|]; try done.
Qed.

(** X8.  The static [Pathfinder.getNextStep] answers null when start and
    goal coincide.  From a passable start, a tile it returns is a
    4-neighbour of the start, inside the map and not solid, and exactly one
    step closer to the goal than the start is. *)
Theorem pathfinder_next_step_closer (sx sy gx gy : Z) (m : TileMap.t)
    (t : TilePosition) :
  Pathfinder.getNextStep sx sy sx sy m = None
  ∧ (passable m (mkTile sx sy) = true →
     Pathfinder.getNextStep sx sy gx gy m = Some t →
     adjacent (mkTile sx sy) t ∧ passable m t = true
     ∧ ∃ d, shortestDistance m (mkTile sx sy) (mkTile gx gy) d
          ∧ shortestDistance m t (mkTile gx gy) (d - 1)).
Proof.
  split.
  - rewrite pathfinder_step_of_path, findPath_unfold.
    destruct (TileMap.isSolid m sx sy); [done|].
    by rewrite !bool_decide_eq_true_2.
  - intros Hs. rewrite pathfinder_step_of_path.
    destruct (findPath sx sy gx gy m 500) as [p|] eqn:E; [|done].
    destruct (findPath_sound _ _ _ _ _ _ _ Hs E) as [Hp Hshort].
    pose proof (findPath_head _ _ _ _ _ _ _ E) as Hh.
    destruct p as [|a [|b r]]; [done|done|].
    simpl in Hh. injection Hh as ->. intros [= ->].
    destruct (shortest_second m _ t _ r Hp (shortest_min _ _ _ _ Hp Hshort))
      as [Hadj Hd].
    split; [done|]. split; [|done].
    destruct Hp as ([Hf _] & _). apply Forall_cons in Hf as [_ Hf].
    by apply Forall_cons in Hf as [? _].
Qed.

(** Instance: on the 3 x 3 map with a wall on its centre, from one corner
    to the opposite one. *)
Lemma pathfinder_next_step_closer_witness :
  ∃ t, Pathfinder.getNextStep 0 0 2 2 wallMap = Some t
     ∧ adjacent (mkTile 0 0) t ∧ passable wallMap t = true.
Proof.
  destruct (Pathfinder.getNextStep 0 0 2 2 wallMap) as [t|] eqn:E;
    [|vm_compute in E; discriminate].
  destruct (pathfinder_next_step_closer 0 0 2 2 wallMap t) as [_ H].
  destruct (H eq_refl E) as (Ha & Hp & _).
  exists t. split; [reflexivity|]. split; [exact Ha|exact Hp].
Defined.

(** ** The cached path against the uncached search *)

(** A call that recalculates returns what the static [getNextStep] returns
    and leaves the fresh path in the cache. *)
Lemma getNextStep_fresh (depth : nat) (this : CachedPath)
    (cx cy tx ty : Z) (m : TileMap.t) (force : bool) :
  needsRecalculation this tx ty force = true →
  getNextStep (S depth) this cx cy tx ty m force
  = Some (mkNextStep (Pathfinder.getNextStep cx cy tx ty m)
            (mkCached (findPath cx cy tx ty m 500) 0 tx ty) 1).
Proof.
  intros Hstale. rewrite getNextStep_unfold, Hstale. cbn zeta. cbn [path].
  rewrite pathfinder_step_of_path.
  destruct (findPath cx cy tx ty m 500) as [p|] eqn:E; [|done].
  pose proof (findPath_head _ _ _ _ _ _ _ E) as Hh.
  destruct p as [|a [|b p']]; [done|done|].
  simpl in Hh. injection Hh as ->.
  rewrite bool_decide_eq_false_2 by (simpl; lia).
  cbn [currentIndex drop scanPath].
  by rewrite (proj2 (tile_test (mkTile cx cy) cx cy) eq_refl).
Qed.

Lemma needsRecalculation_clear (this : CachedPath) (tx ty : Z) (force : bool) :
  needsRecalculation (clear this) tx ty force = true.
Proof.
  unfold needsRecalculation, clear. cbn [path]. by rewrite !orb_true_r.
Qed.

(** X9.  After [clear], and whenever [forceRecalculate] is set, the cached
    [getNextStep] runs exactly one search, answers what the static
    [Pathfinder.getNextStep] answers for the same tiles, and leaves in the
    cache the path [findPath] returned, the walking index 0 and the
    requested target. *)
Theorem cleared_cache_agrees (depth : nat) (this : CachedPath)
    (cx cy tx ty : Z) (m : TileMap.t) (force : bool) :
  getNextStep (S depth) (clear this) cx cy tx ty m force
  = Some (mkNextStep (Pathfinder.getNextStep cx cy tx ty m)
            (mkCached (findPath cx cy tx ty m 500) 0 tx ty) 1)
  ∧ getNextStep (S depth) this cx cy tx ty m true
    = Some (mkNextStep (Pathfinder.getNextStep cx cy tx ty m)
              (mkCached (findPath cx cy tx ty m 500) 0 tx ty) 1).
Proof.
  split.
  - apply getNextStep_fresh, needsRecalculation_clear.
  - apply getNextStep_fresh, needsRecalculation_forced.
Qed.

(** ** Cached steps are shortest-path steps *)

Lemma validCache_fresh (m : TileMap.t) (cx cy tx ty : Z) :
  passable m (mkTile cx cy) = true →
  validCache m (mkCached (findPath cx cy tx ty m 500) 0 tx ty).
Proof.
  intros Hs p Hp. cbn [path targetX targetY] in *.
  destruct (findPath_sound _ _ _ _ _ _ _ Hs Hp) as [Hc Hshort].
  exists (mkTile cx cy). split; [done|]. by apply shortest_min.
Qed.

Lemma fresh_step_closer (m : TileMap.t) (cx cy tx ty : Z) (t : TilePosition) :
  passable m (mkTile cx cy) = true →
  Pathfinder.getNextStep cx cy tx ty m = Some t →
  adjacent (mkTile cx cy) t
  ∧ ∃ d, shortestDistance m (mkTile cx cy) (mkTile tx ty) d
       ∧ shortestDistance m t (mkTile tx ty) (d - 1).
Proof.
  intros Hs. rewrite pathfinder_step_of_path.
  destruct (findPath cx cy tx ty m 500) as [p|] eqn:E; [|done].
  destruct (findPath_sound _ _ _ _ _ _ _ Hs E) as [Hp Hshort].
  pose proof (findPath_head _ _ _ _ _ _ _ E) as Hh.
  destruct p as [|a [|b r]]; [done|done|].
  simpl in Hh. injection Hh as ->. intros [= ->].
  by apply (shortest_second m _ t _ r Hp (shortest_min _ _ _ _ Hp Hshort)).
Qed.

Lemma scanPath_found (rest : list TilePosition) (cx cy : Z) :
  ∀ idx i next,
  scanPath rest idx cx cy = (i, Some next) →
  (idx ≤ i)%nat
  ∧ rest !! (i - idx)%nat = Some (mkTile cx cy)
  ∧ rest !! S (i - idx)%nat = Some next.
Proof.
  induction rest as [|node rest IH]; intros idx i next; simpl; [done|].
  destruct rest as [|nxt rest']; [done|].
  destruct (bool_decide (x node = cx) && bool_decide (y node = cy)) eqn:Ht.
  - intros [= <- <-]. apply tile_test in Ht as ->.
    rewrite Nat.sub_diag. done.
  - intros E. apply IH in E as (Hle & Hi & Hn).
    split; [lia|].
    replace (i - idx)%nat with (S (i - S idx)) by lia. done.
Qed.

(** X10.  As long as the map the cached path was computed on is unchanged
    (the cached path, if any, is a shortest path of the map to the stored
    target) and the caller stands on a passable tile, every tile the cached
    [getNextStep] returns - from the cache or from a new search - is a
    4-neighbour of the caller's tile and exactly one step closer to the
    requested target; and the cache it leaves is again a shortest path to
    its stored target. *)
Theorem cached_steps_closer (depth : nat) (this : CachedPath)
    (cx cy tx ty : Z) (m : TileMap.t) (force : bool) (r : NextStep) :
  validCache m this →
  passable m (mkTile cx cy) = true →
  getNextStep depth this cx cy tx ty m force = Some r →
  validCache m (cache r)
  ∧ ∀ t, step r = Some t →
      adjacent (mkTile cx cy) t
      ∧ ∃ d, shortestDistance m (mkTile cx cy) (mkTile tx ty) d
           ∧ shortestDistance m t (mkTile tx ty) (d - 1).
Proof.
  intros Hvalid Hs.
  destruct depth as [|depth]; [done|].
  destruct (needsRecalculation this tx ty force) eqn:Hn.
  { rewrite (getNextStep_fresh _ _ _ _ _ _ _ _ Hn). intros [= <-]. simpl.
    split; [by apply validCache_fresh|].
    intros t Ht. by apply fresh_step_closer. }
  assert (force = false) as ->.
  { destruct force; [|done]. by rewrite needsRecalculation_forced in Hn. }
  apply needsRecalculation_false in Hn as (Hx & Hy & p & Hp & Hci).
  rewrite getNextStep_unfold.
  assert (needsRecalculation this tx ty false = false) as ->.
  { apply needsRecalculation_false. split; [done|]. split; [done|].
    by exists p. }
  cbv beta zeta iota. rewrite Hp.
  destruct (bool_decide (length p < 2)%nat).
  { intros [= <-]. simpl. split; [done|]. by intros t. }
  destruct (scanPath (drop (currentIndex this) p) (currentIndex this) cx cy)
    as [idx [next|]] eqn:Hscan.
  - intros [= <-]. simpl.
    destruct (Hvalid p Hp) as (s & Hc & Hmin).
    rewrite Hx, Hy in Hc, Hmin.
    split.
    { intros q [= <-]. cbn [targetX targetY]. rewrite Hx, Hy. by exists s. }
    intros t [= <-].
    apply scanPath_found in Hscan as (Hle & Hcur & Hnext).
    rewrite lookup_drop in Hcur, Hnext.
    replace (currentIndex this + (idx - currentIndex this))%nat with idx
      in Hcur by lia.
    replace (currentIndex this + S (idx - currentIndex this))%nat with (S idx)
      in Hnext by lia.
    destruct (shortest_suffix m _ idx s p _ Hc Hmin Hcur) as [Hc' Hmin'].
    assert (Ed : drop idx p = mkTile cx cy :: next :: drop (S (S idx)) p).
    { rewrite (drop_S p (mkTile cx cy) idx Hcur).
      by rewrite (drop_S p next (S idx) Hnext). }
    rewrite Ed in Hc', Hmin'.
    by apply (shortest_second m _ next _ _ Hc' Hmin').
  - destruct (bool_decide (length p - 1 ≤ idx)%nat).
    + destruct depth as [|depth]; [done|].
      rewrite (getNextStep_fresh depth _ cx cy tx ty m true
                 (needsRecalculation_forced _ _ _)).
      intros [= <-]. simpl.
      split; [by apply validCache_fresh|].
      intros t Ht. by apply fresh_step_closer.
    + intros [= <-]. simpl. split; [|by intros t].
      intros q [= <-]. cbn [targetX targetY]. by apply Hvalid.
Qed.

(** Instance: the agent of the 2 x 1 map, standing on the first tile of its
    cached path. *)
Lemma cached_steps_closer_witness :
  ∃ r, getNextStep 2 twoTileCache 0 0 1 0 (openMap 2 1) false = Some r
     ∧ validCache (openMap 2 1) (cache r).
Proof.
  destruct (getNextStep 2 twoTileCache 0 0 1 0 (openMap 2 1) false)
    as [r|] eqn:E; [|vm_compute in E; discriminate].
  destruct (cached_steps_closer 2 twoTileCache 0 0 1 0 (openMap 2 1) false r)
    as [Hv _].
  - intros p [= <-]. exists (mkTile 0 0). cbn [targetX targetY twoTileCache].
    assert (Hc : connects (openMap 2 1) (mkTile 0 0) (mkTile 1 0)
                   [mkTile 0 0; mkTile 1 0]).
    { split; [split|split]; try reflexivity.
      - repeat constructor.
      - simpl. split; [|exact I]. apply adjacent_cases. simpl. lia. }
    split; [exact Hc|].
    intros q (_ & Hh & Hl). destruct q as [|a [|b q']]; simpl.
    + discriminate.
    + simpl in Hh, Hl. congruence.
    + lia.
  - reflexivity.
  - exact E.
  - exists r. split; [reflexivity|exact Hv].
Defined.

(** ** Walking a cached route *)

(** A shortest path visits no tile twice. *)
Lemma shortest_NoDup (m : TileMap.t) (s g : TilePosition)
    (p : list TilePosition) :
  connects m s g p →
  (∀ q, connects m s g q → (length p ≤ length q)%nat) →
  NoDup p.
Proof.
  intros Hp Hmin. apply NoDup_alt.
  assert (Hlt : ∀ i j t, (i < j)%nat → p !! i = Some t → p !! j = Some t → False).
  { intros i j t Hij Hi Hj.
    destruct (shortest_suffix m g i s p t Hp Hmin Hi) as [_ Hmini].
    destruct (shortest_suffix m g j s p t Hp Hmin Hj) as [Hcj _].
    apply Hmini in Hcj. rewrite !length_drop in Hcj.
    apply lookup_lt_Some in Hj. lia. }
  intros i j t Hi Hj.
  destruct (Nat.lt_trichotomy i j) as [Hij|[->|Hij]]; [|done|].
  - exfalso. by apply (Hlt i j t).
  - exfalso. by apply (Hlt j i t).
Qed.

(** X11.  From a passable start, a path [findPath] returns visits no tile
    twice. *)
Theorem find_path_simple (sx sy gx gy : Z) (m : TileMap.t) (maxIterations : Z)
    (p : list TilePosition) :
  passable m (mkTile sx sy) = true →
  findPath sx sy gx gy m maxIterations = Some p →
  NoDup p.
Proof.
  intros Hs E. destruct (findPath_sound _ _ _ _ _ _ _ Hs E) as [Hp Hshort].
  apply (shortest_NoDup m (mkTile sx sy) (mkTile gx gy)); [done|].
  by apply shortest_min.
Qed.

(** Instance: on the 3 x 3 map with a wall on its centre, from one corner
    to the opposite one. *)
Lemma find_path_simple_witness :
  ∃ p, findPath 0 0 2 2 wallMap 1000 = Some p ∧ NoDup p.
Proof.
  destruct (findPath 0 0 2 2 wallMap 1000) as [p|] eqn:E;
    [|vm_compute in E; discriminate].
  exists p. split; [reflexivity|].
  apply (find_path_simple 0 0 2 2 wallMap 1000 p); [reflexivity|exact E].
Defined.

Lemma followCachedPath_cached (m : TileMap.t) (p : list TilePosition)
    (tx ty : Z) :
  NoDup p →
  ∀ n i cur,
  p !! S i = Some cur →
  (S i + n < length p)%nat →
  step <$> followCachedPath n (mkCached (Some p) i tx ty) cur tx ty m
  = Some <$> take n (drop (S (S i)) p)
  ∧ searches <$> followCachedPath n (mkCached (Some p) i tx ty) cur tx ty m
    = replicate n 0%nat.
Proof.
  intros Hnd. induction n as [|n IH]; intros i cur Hcur Hlen; [done|].
  destruct (lookup_lt_is_Some_2 p (S (S i))) as [next Hnext]; [lia|].
  assert (E : getNextStep 2 (mkCached (Some p) i tx ty) (x cur) (y cur) tx ty m
                false
              = Some (mkNextStep (Some next) (mkCached (Some p) (S i) tx ty) 0)).
  { rewrite <- Hnext.
    apply (getNextStep_cached 1 _ (x cur) (y cur) tx ty m p (S i));
      [done|done|done|].
    assert (mkTile (x cur) (y cur) = cur) as -> by (by destruct cur).
    split; [simpl; lia|]. split; [done|]. split; [lia|].
    intros j Hj1 Hj2 Hj. simpl in Hj1.
    assert (j = i) as -> by lia.
    pose proof (proj1 (NoDup_alt p) Hnd _ _ _ Hj Hcur). lia. }
  cbn [followCachedPath]. rewrite E. cbn [cache step default].
  change (Datatypes.id next) with next.
  destruct (IH (S i) next Hnext) as [Hsteps Hsearches]; [lia|].
  rewrite !fmap_cons, Hsteps, Hsearches. cbn [step searches].
  rewrite (drop_S p next (S (S i)) Hnext). done.
Qed.

(** X12.  An agent with an empty cache that walks a route by asking the
    cached [getNextStep] before each move is led along the path [findPath]
    returns from its start tile, tile by tile, and the whole walk costs a
    single search: the first call searches, none of the following calls
    does, as long as the agent has not reached the last tile. *)
Theorem cached_route_single_search (sx sy tx ty : Z) (m : TileMap.t)
    (p : list TilePosition) (n : nat) :
  passable m (mkTile sx sy) = true →
  findPath sx sy tx ty m 500 = Some p →
  (0 < n < length p)%nat →
  step <$> followCachedPath n emptyCachedPath (mkTile sx sy) tx ty m
  = Some <$> take n (drop 1 p)
  ∧ searches <$> followCachedPath n emptyCachedPath (mkTile sx sy) tx ty m
    = 1%nat :: replicate (n - 1) 0%nat.
Proof.
  intros Hs E Hn.
  assert (Hnd : NoDup p).
  { destruct (findPath_sound _ _ _ _ _ _ _ Hs E) as [Hp Hshort].
    apply (shortest_NoDup m (mkTile sx sy) (mkTile tx ty)); [done|].
    by apply shortest_min. }
  destruct n as [|n]; [lia|].
  cbn [followCachedPath x y].
  rewrite (getNextStep_fresh 1 emptyCachedPath sx sy tx ty m false)
    by apply (needsRecalculation_clear emptyCachedPath).
  cbn [cache step searches]. rewrite pathfinder_step_of_path, E.
  destruct p as [|a [|b r]]; [simpl in Hn; lia|simpl in Hn; lia|].
  cbn [default]. change (Datatypes.id b) with b.
  destruct (followCachedPath_cached m (a :: b :: r) tx ty Hnd n 0 b)
    as [Hsteps Hsearches]; [done|simpl in *; lia|].
  rewrite !fmap_cons, Hsteps, Hsearches. cbn [step searches].
  rewrite Nat.sub_succ, Nat.sub_0_r. done.
Qed.

(** Instance: the corridor of five tiles, walked from end to end. *)
Lemma cached_route_single_search_witness :
  searches <$> followCachedPath 4 emptyCachedPath (mkTile 4 0) 0 0 (openMap 5 1)
  = [1; 0; 0; 0]%nat.
Proof.
  destruct (findPath 4 0 0 0 (openMap 5 1) 500) as [p|] eqn:E;
    [|vm_compute in E; discriminate].
  destruct (cached_route_single_search 4 0 0 0 (openMap 5 1) p 4) as [_ H].
  - reflexivity.
  - exact E.
  - vm_compute in E. injection E as <-. simpl. lia.
  - exact H.
Defined.

(** * Further properties: the map of the game *)

(** ** Writing tiles *)

Lemma getTile_valid (m : TileMap.t) (t : TilePosition) :
  TileMap.isValidTile m (x t) (y t) = true →
  TileMap.getTile m (x t) (y t)
  = arrayGet (TileMap.tiles m) (tileIndex (TileMap.cols m) t).
Proof.
  intros Hv. apply isValidTile_spec in Hv. unfold TileMap.getTile.
  destruct (Z.ltb_spec (x t) 0); [lia|].
  destruct (Z.geb_spec (x t) (TileMap.cols m)); [lia|].
  destruct (Z.ltb_spec (y t) 0); [lia|].
  destruct (Z.geb_spec (y t) (TileMap.rows m)); [lia|]. done.
Qed.

Lemma getTile_setTile_eq (m : TileMap.t) (t : TilePosition) (v : Z) :
  wfMap m →
  TileMap.isValidTile m (x t) (y t) = true →
  TileMap.getTile (Game.setTile m (tileIndex (TileMap.cols m) t) v) (x t) (y t)
  = Some (v mod 256).
Proof.
  intros Hwf Hv.
  rewrite getTile_valid by done. cbn [Game.setTile TileMap.tiles TileMap.cols].
  pose proof (tileIndex_range m t Hv) as Hr. unfold wfMap in Hwf.
  unfold arrayGet, uint8Set.
  destruct (Z.ltb_spec (tileIndex (TileMap.cols m) t) 0); [lia|].
  apply list_lookup_insert_eq. lia.
Qed.

Lemma getTile_setTile_ne (m : TileMap.t) (t u : TilePosition) (v : Z) :
  TileMap.isValidTile m (x t) (y t) = true →
  TileMap.isValidTile m (x u) (y u) = true →
  t ≠ u →
  TileMap.getTile (Game.setTile m (tileIndex (TileMap.cols m) u) v) (x t) (y t)
  = TileMap.getTile m (x t) (y t).
Proof.
  intros Ht Hu Hne.
  rewrite (getTile_valid m t Ht).
  rewrite getTile_valid by done. cbn [Game.setTile TileMap.tiles TileMap.cols].
  pose proof (tileIndex_range m t Ht) as Hrt.
  pose proof (tileIndex_range m u Hu) as Hru.
  unfold arrayGet, uint8Set.
  destruct (Z.ltb_spec (tileIndex (TileMap.cols m) t) 0); [lia|].
  destruct (Z.ltb_spec (tileIndex (TileMap.cols m) u) 0); [lia|].
  apply list_lookup_insert_ne. intros E. apply Hne.
  symmetry. apply (tileIndex_inj m); [done|done|lia].
Qed.

Lemma wfMap_setTile (m : TileMap.t) (i v : Z) :
  wfMap m → wfMap (Game.setTile m i v).
Proof.
  unfold wfMap, Game.setTile, uint8Set. simpl.
  destruct (i <? 0); [done|]. by rewrite length_insert.
Qed.

(** ** Counting walls *)

Lemma walls_insert_zero (l : list Z) (i : nat) :
  (length (filter (λ v : Z, v = 1%Z) (<[i := 0%Z]> l))
   ≤ length (filter (λ v : Z, v = 1%Z) l))%nat
  ∧ (l !! i = Some 1 →
     (S (length (filter (λ v : Z, v = 1%Z) (<[i := 0%Z]> l)))
      ≤ length (filter (λ v : Z, v = 1%Z) l))%nat).
Proof.
  revert i. induction l as [|a l IH]; intros i.
  - split; [done|]. by destruct i.
  - destruct i as [|i]; simpl.
    + rewrite !filter_cons. rewrite decide_False by done.
      destruct (decide (a = 1)); simpl; split; try lia.
      intros [= ->]. done.
    + destruct (IH i) as [H1 H2]. rewrite !filter_cons.
      destruct (decide (a = 1)); simpl; split; try lia.
      * intros Hi. apply H2 in Hi. lia.
      * done.
Qed.

Lemma walls_setTile (m : TileMap.t) (t : TilePosition) :
  wfMap m →
  TileMap.isValidTile m (x t) (y t) = true →
  (walls (Game.setTile m (tileIndex (TileMap.cols m) t) 0) ≤ walls m)%nat
  ∧ (TileMap.getTile m (x t) (y t) = Some 1 →
     (S (walls (Game.setTile m (tileIndex (TileMap.cols m) t) 0)) ≤ walls m)%nat).
Proof.
  intros Hwf Hv. rewrite (getTile_valid m t Hv).
  pose proof (tileIndex_range m t Hv) as Hr.
  unfold walls, Game.setTile, uint8Set, arrayGet. simpl.
  destruct (Z.ltb_spec (tileIndex (TileMap.cols m) t) 0); [lia|].
  change (0 mod 256) with 0. apply walls_insert_zero.
Qed.

(** ** Carving keeps what was open *)

Lemma carved_refl (m : TileMap.t) : wfMap m → carved m m.
Proof. intros Hwf. repeat split; try done. intros t _. by left. Qed.

Lemma carved_valid (m m' : TileMap.t) (c r : Z) :
  carved m m' → TileMap.isValidTile m' c r = TileMap.isValidTile m c r.
Proof. intros (Hc & Hr & _). unfold TileMap.isValidTile. by rewrite Hc, Hr. Qed.

Lemma carved_interior (m m' : TileMap.t) (t : TilePosition) :
  carved m m' → interior m' t ↔ interior m t.
Proof. intros (Hc & Hr & _). unfold interior. by rewrite Hc, Hr. Qed.

Lemma carved_trans (m1 m2 m3 : TileMap.t) :
  carved m1 m2 → carved m2 m3 → carved m1 m3.
Proof.
  intros H12 H23.
  pose proof H12 as (Hc & Hr & Hd & Hwf & H).
  pose proof H23 as (Hc' & Hr' & Hd' & Hwf' & H').
  split; [congruence|]. split; [congruence|]. split; [congruence|].
  split; [done|]. intros t Hv.
  assert (Hv2 : TileMap.isValidTile m2 (x t) (y t) = true)
    by (by rewrite (carved_valid m1 m2)).
  destruct (H' t Hv2) as [E|[E Hi]].
  - rewrite E. by apply H.
  - right. split; [done|]. by apply (carved_interior m1 m2).
Qed.

Lemma interior_valid (m : TileMap.t) (t : TilePosition) :
  interior m t → TileMap.isValidTile m (x t) (y t) = true.
Proof. intros [? ?]. apply isValidTile_spec. lia. Qed.

Lemma carved_setTile (m : TileMap.t) (t : TilePosition) :
  wfMap m → interior m t →
  carved m (Game.setTile m (tileIndex (TileMap.cols m) t) 0).
Proof.
  intros Hwf Hi. split; [done|]. split; [done|]. split; [done|].
  split; [by apply wfMap_setTile|]. intros u Hu.
  destruct (decide (u = t)) as [->|Hne].
  - right. split; [|done]. by rewrite getTile_setTile_eq.
  - left. apply getTile_setTile_ne; [done| |done]. by apply interior_valid.
Qed.

Lemma carved_passable (m m' : TileMap.t) (t : TilePosition) :
  carved m m' → grassDefined m →
  passable m t = true → passable m' t = true.
Proof.
  intros Hcv (def & Hdef & Hns) Hp.
  pose proof Hcv as (Hc & Hr & Hd & Hwf & H).
  unfold passable in *. apply andb_true_iff in Hp as [Hv Hs].
  rewrite (carved_valid m m') by done. rewrite Hv. simpl.
  unfold TileMap.isSolid in *. rewrite Hd.
  destruct (H t Hv) as [E|[E _]].
  - by rewrite E.
  - rewrite E, Hdef, Hns. done.
Qed.

Lemma carved_grass (m m' : TileMap.t) :
  carved m m' → grassDefined m → grassDefined m'.
Proof. intros (_ & _ & Hd & _) H. unfold grassDefined. by rewrite Hd. Qed.

Lemma carved_walk (m m' : TileMap.t) (a b : TilePosition) (n : nat) :
  carved m m' → grassDefined m → walk m a b n → walk m' a b n.
Proof.
  intros Hcv Hg. induction 1 as [Ha|t u n Hw IH Hadj Hp].
  - constructor. by apply (carved_passable m).
  - apply walk_step with t; [done|done|]. by apply (carved_passable m).
Qed.

Lemma walk_trans (m : TileMap.t) (a b c : TilePosition) (n k : nat) :
  walk m a b n → walk m b c k → walk m a c (n + k).
Proof.
  intros Hab. induction 1 as [Hb|t u k Hw IH Hadj Hp].
  - by rewrite Nat.add_0_r.
  - rewrite Nat.add_succ_r. by apply walk_step with t.
Qed.

Lemma passable_open (m : TileMap.t) (t : TilePosition) :
  grassDefined m →
  TileMap.isValidTile m (x t) (y t) = true →
  TileMap.getTile m (x t) (y t) = Some 0 →
  passable m t = true.
Proof.
  intros (def & Hdef & Hns) Hv E. unfold passable, TileMap.isSolid.
  by rewrite Hv, E, Hdef, Hns.
Qed.

(** ** The recursion *)

Lemma generateMaze_unfold (fuel : nat) (order : nat → list (Z * Z))
    (m : TileMap.t) (k : nat) (c : TilePosition) :
  Game.generateMaze (S fuel) order (m, k) (x c) (y c)
  = fold_left (Game.carve (Game.generateMaze fuel order) (x c) (y c))
      (order k)
      (Some (Game.setTile m (tileIndex (TileMap.cols m) c) 0, S k)).
Proof. done. Qed.

Lemma direction_cases (d : Z * Z) :
  d ∈ Game.directions →
  d = (0, -2) ∨ d = (0, 2) ∨ d = (-2, 0) ∨ d = (2, 0).
Proof.
  unfold Game.directions. rewrite !elem_of_cons, elem_of_nil. tauto.
Qed.

(** What one call of [generateMaze] on a wall tile off the border does:
    it returns, having only turned interior walls into grass, among them
    the tile it was called on, and every tile that is open afterwards was
    open before or is connected to that tile. *)
Lemma generateMaze_spec (order : nat → list (Z * Z)) :
  (∀ k d, d ∈ order k → d ∈ Game.directions) →
  ∀ fuel m k c,
  wfMap m → grassDefined m → interior m c →
  TileMap.getTile m (x c) (y c) = Some 1 →
  (walls m < fuel)%nat →
  ∃ m' k', Game.generateMaze fuel order (m, k) (x c) (y c) = Some (m', k')
    ∧ carved m m'
    ∧ passable m' c = true
    ∧ (walls m' < walls m)%nat
    ∧ ∀ t, passable m' t = true →
        passable m t = true ∨ ∃ n, walk m' c t n.
Proof.
  intros Hord. induction fuel as [|fuel IH]; intros m k c Hwf Hg Hi Hwall Hfuel;
    [lia|].
  rewrite generateMaze_unfold.
  pose proof (interior_valid m c Hi) as Hvc.
  set (m0 := Game.setTile m (tileIndex (TileMap.cols m) c) 0).
  assert (Hcv0 : carved m m0) by (by apply carved_setTile).
  assert (Hp0 : passable m0 c = true).
  { apply passable_open.
    - by apply (carved_grass m).
    - by rewrite (carved_valid m m0).
    - unfold m0. by rewrite getTile_setTile_eq. }
  assert (Hw0 : (walls m0 < walls m)%nat).
  { destruct (walls_setTile m c Hwf Hvc) as [_ H]. apply H in Hwall.
    unfold m0. lia. }
  assert (Hnew0 : ∀ t, passable m0 t = true →
            passable m t = true ∨ ∃ n, walk m0 c t n).
  { intros t Ht. destruct (decide (t = c)) as [->|Hne].
    - right. exists 0%nat. by constructor.
    - left. unfold passable in *. rewrite (carved_valid m m0) in Ht by done.
      apply andb_true_iff in Ht as [Hv Hs]. rewrite Hv. simpl.
      unfold TileMap.isSolid in *. unfold m0 in Hs.
      rewrite getTile_setTile_ne in Hs by done. exact Hs. }
  clearbody m0. generalize (S k) as k0.
  specialize (Hord k). revert Hord. generalize (order k) as ds.
  intros ds. revert m0 Hcv0 Hp0 Hw0 Hnew0.
  induction ds as [|d ds IHds]; intros mc Hcv Hp Hw Hnew Hds kc.
  { simpl. by exists mc, kc. }
  cbn [fold_left].
  assert (Hd : d ∈ Game.directions) by (apply Hds; by left).
  assert (Hds' : ∀ d', d' ∈ ds → d' ∈ Game.directions)
    by (intros d' Hd'; apply Hds; by right).
  pose proof Hcv as (Hcols & Hrows & Hdefs & Hwfc & _).
  unfold Game.carve at 2.
  set (next := mkTile (x c + fst d) (y c + snd d)).
  destruct ((0 <? x c + fst d) && (x c + fst d <? TileMap.cols mc - 1)
            && (0 <? y c + snd d) && (y c + snd d <? TileMap.rows mc - 1)
            && bool_decide (TileMap.getTile mc (x c + fst d) (y c + snd d) = Some 1))
    eqn:Hcond.
  2:{ by apply IHds. }
  apply andb_true_iff in Hcond as [Hcond Hnw].
  apply bool_decide_eq_true in Hnw.
  assert (Hin : interior mc next).
  { unfold interior, next. simpl.
    repeat (apply andb_true_iff in Hcond as [Hcond ?]). lia. }
  clear Hcond.
  set (b := mkTile (x c + fst d / 2) (y c + snd d / 2)).
  assert (Hic : interior mc c) by (by apply (carved_interior m mc)).
  assert (Hb : interior mc b ∧ adjacent c b ∧ adjacent b next ∧ b ≠ next ∧ b ≠ c).
  { apply direction_cases in Hd.
    unfold interior, next, b in *. rewrite !adjacent_cases. simpl in *.
    assert (E0 : 0 / 2 = 0) by reflexivity.
    assert (E1 : 2 / 2 = 1) by reflexivity.
    assert (E2 : (-2) / 2 = -1) by reflexivity.
    destruct Hd as [-> | [-> | [-> | ->]]]; simpl in Hin, Hic |- *;
      rewrite ?E0, ?E1, ?E2;
      (split; [lia|]); (split; [lia|]); (split; [lia|]);
      split; intros E; pose proof (f_equal x E) as Ex;
      pose proof (f_equal y E) as Ey; simpl in Ex, Ey; lia. }
  destruct Hb as (Hib & Hcb & Hbn & Hbnext & Hbc).
  change ((y c + snd d / 2) * TileMap.cols mc + (x c + fst d / 2))
    with (tileIndex (TileMap.cols mc) b).
  set (mb := Game.setTile mc (tileIndex (TileMap.cols mc) b) 0).
  assert (Hcvb : carved mc mb) by (by apply carved_setTile).
  assert (Hgc : grassDefined mc) by (by apply (carved_grass m)).
  assert (Hgb : grassDefined mb) by (by apply (carved_grass mc)).
  pose proof (interior_valid mc b Hib) as Hvb.
  pose proof (interior_valid mc next Hin) as Hvn.
  destruct (IH mb kc next) as (m2 & k2 & E2 & Hcv2 & Hp2 & Hw2 & Hnew2).
  - by apply wfMap_setTile.
  - done.
  - by apply (carved_interior mc mb).
  - unfold mb. rewrite getTile_setTile_ne; [done|done|done|].
    intros E. by apply Hbnext.
  - destruct (walls_setTile mc b Hwfc Hvb) as [Hle _]. unfold mb. lia.
  - change (x c + fst d) with (x next). change (y c + snd d) with (y next).
    rewrite E2.
    assert (Hcv' : carved mc m2) by (by apply (carved_trans mc mb m2)).
    assert (Hwb : walk m2 c b 1).
    { apply walk_step with c; [|done|].
      - constructor. by apply (carved_passable mc).
      - apply (carved_passable mb); [done|done|].
        apply passable_open; [done|by rewrite (carved_valid mc mb)|].
        unfold mb. by rewrite getTile_setTile_eq. }
    assert (Hwn : walk m2 c next 2).
    { by apply walk_step with b. }
    apply IHds.
    + by apply (carved_trans m mc m2).
    + by apply (carved_passable mc).
    + destruct (walls_setTile mc b Hwfc Hvb) as [Hle _]. unfold mb in Hw2. lia.
    + intros t Ht. destruct (Hnew2 t Ht) as [Hpb|[n Hwt]].
      * destruct (decide (t = b)) as [->|Hne]; [right; by exists 1%nat|].
        assert (Hpc : passable mc t = true).
        { unfold passable in *. rewrite (carved_valid mc mb) in Hpb by done.
          apply andb_true_iff in Hpb as [Hv Hs]. rewrite Hv. simpl.
          unfold TileMap.isSolid in *. unfold mb in Hs.
          rewrite getTile_setTile_ne in Hs by done. exact Hs. }
        destruct (Hnew t Hpc) as [?|[n Hwt]]; [by left|].
        right. exists n. by apply (carved_walk mc).
      * right. exists (2 + n)%nat. by apply walk_trans with next.
    + done.
Qed.

(** ** The map of the game *)

Lemma fillWalls_init :
  Game.fillWalls
    (TileMap.defineTileImage 1 true
       (TileMap.defineTileImage 0 false (TileMap.new Game.MAP_WIDTH Game.MAP_HEIGHT)))
  = wallsOnly.
Proof. vm_compute. reflexivity. Qed.

Lemma getTile_wallsOnly (t : TilePosition) :
  TileMap.isValidTile wallsOnly (x t) (y t) = true →
  TileMap.getTile wallsOnly (x t) (y t) = Some 1.
Proof.
  intros Hv. rewrite getTile_valid by done.
  pose proof (tileIndex_range wallsOnly t Hv) as Hr.
  apply arrayGet_Some. split; [lia|].
  change (TileMap.cols wallsOnly) with 50 in *.
  change (TileMap.rows wallsOnly) with 50 in *.
  change (TileMap.tiles wallsOnly) with (replicate 2500 1).
  apply lookup_replicate_2. lia.
Qed.

Lemma wallsOnly_solid (t : TilePosition) : passable wallsOnly t = false.
Proof.
  unfold passable.
  destruct (TileMap.isValidTile wallsOnly (x t) (y t)) eqn:Hv; [|done].
  unfold TileMap.isSolid. by rewrite getTile_wallsOnly.
Qed.

(** The maze [init] builds, for every outcome of the random sorts. *)
Lemma initMap_spec (order : nat → list (Z * Z)) :
  (∀ k, order k ≡ₚ Game.directions) →
  ∃ maze, Game.initMap order = Some maze
    ∧ carved wallsOnly maze
    ∧ passable maze (mkTile 1 1) = true
    ∧ ∀ t, passable maze t = true → ∃ n, walk maze (mkTile 1 1) t n.
Proof.
  intros Hperm. unfold Game.initMap. rewrite fillWalls_init.
  destruct (generateMaze_spec order) with
    (fuel := S (length (TileMap.tiles wallsOnly))) (m := wallsOnly)
    (k := 0%nat) (c := mkTile 1 1)
    as (m' & k' & E & Hcv & Hp & _ & Hnew).
  - intros k d Hd. by rewrite <- (Hperm k).
  - unfold wfMap. simpl. done.
  - eexists. split; [reflexivity|done].
  - unfold interior. simpl. lia.
  - reflexivity.
  - unfold walls. pose proof (length_filter (λ v, v = 1) (TileMap.tiles wallsOnly)).
    lia.
  - cbn [x y] in E. rewrite E. exists m'. split; [done|]. split; [done|].
    split; [done|]. intros t Ht. destruct (Hnew t Ht) as [Hw|?]; [|done].
    by rewrite wallsOnly_solid in Hw.
Qed.

(** X13.  For every outcome of the random sorts, the maze generation of
    [init] returns (the recursion never nests deeper than the map has
    tiles), on the 50 x 50 map; every tile is grass (0) or wall (1); every
    tile on the border of the map is a solid wall; and the tile (1, 1) the
    carving starts from is open. *)
Theorem maze_walled_in (order : nat → list (Z * Z)) :
  (∀ k, order k ≡ₚ Game.directions) →
  ∃ maze, Game.initMap order = Some maze
    ∧ TileMap.getDimensions maze = (50, 50)
    ∧ passable maze (mkTile 1 1) = true
    ∧ ∀ t, TileMap.isValidTile maze (x t) (y t) = true →
        (TileMap.getTile maze (x t) (y t) = Some 0
         ∨ TileMap.getTile maze (x t) (y t) = Some 1)
        ∧ (x t = 0 ∨ x t = 49 ∨ y t = 0 ∨ y t = 49 →
           TileMap.getTile maze (x t) (y t) = Some 1
           ∧ TileMap.isSolid maze (x t) (y t) = true).
Proof.
  intros Hperm.
  destruct (initMap_spec order Hperm) as (maze & E & Hcv & Hp & _).
  exists maze. split; [done|].
  pose proof Hcv as (Hc & Hr & Hd & _ & Hkeep).
  split; [unfold TileMap.getDimensions; by rewrite Hc, Hr|].
  split; [done|]. intros t Hv.
  rewrite (carved_valid wallsOnly maze) in Hv by done.
  pose proof (getTile_wallsOnly t Hv) as Hw.
  destruct (Hkeep t Hv) as [Ek|[Ek Hi]].
  - rewrite Ek, Hw. split; [by right|]. intros _. split; [done|].
    unfold TileMap.isSolid. rewrite Ek, Hw, Hd. reflexivity.
  - split; [by left|]. intros Hborder.
    unfold interior in Hi. simpl in Hi. lia.
Qed.

(** Instance: the sort that leaves the directions as they are. *)
Lemma maze_walled_in_witness :
  ∃ maze, Game.initMap (λ _, Game.directions) = Some maze
    ∧ passable maze (mkTile 1 1) = true.
Proof.
  destruct (maze_walled_in (λ _, Game.directions)) as (maze & E & _ & Hp & _).
  - intros k. reflexivity.
  - exists maze. split; [exact E|exact Hp].
Defined.

(** X14.  The maze [init] builds is connected: for every outcome of the
    random sorts, every open tile of the map can be reached from the tile
    (1, 1) along open, 4-adjacent tiles, and hence any two open tiles can be
    reached from one another. *)
Theorem maze_connected (order : nat → list (Z * Z)) :
  (∀ k, order k ≡ₚ Game.directions) →
  ∃ maze, Game.initMap order = Some maze
    ∧ (∀ t, passable maze t = true → reachable maze (mkTile 1 1) t)
    ∧ (∀ t u, passable maze t = true → passable maze u = true →
         reachable maze t u).
Proof.
  intros Hperm.
  destruct (initMap_spec order Hperm) as (maze & E & _ & _ & Hconn).
  exists maze. split; [done|].
  assert (Hfrom : ∀ t, passable maze t = true → reachable maze t (mkTile 1 1)).
  { intros t Ht. apply reachable_walk. by apply Hconn. }
  assert (Hto : ∀ t, passable maze t = true → reachable maze (mkTile 1 1) t).
  { intros t Ht. destruct (Hfrom t Ht) as [p Hp].
    exists (reverse p). by apply connects_reverse. }
  split; [done|]. intros t u Ht Hu.
  destruct (Hconn t Ht) as [n Hn]. destruct (Hconn u Hu) as [k Hk].
  assert (Hback : ∃ n', walk maze t (mkTile 1 1) n').
  { apply reachable_walk. by apply Hto. }
  destruct Hback as [n' Hn'].
  assert (Hw : ∃ j, walk maze t u j)
    by (exists (n' + k)%nat; by apply walk_trans with (mkTile 1 1)).
  destruct (proj2 (reachable_walk maze u t) Hw) as [p Hp].
  exists (reverse p). by apply connects_reverse.
Qed.

(** Instance: the sort that leaves the directions as they are. *)
Lemma maze_connected_witness :
  ∃ maze, Game.initMap (λ _, Game.directions) = Some maze
    ∧ ∀ t, passable maze t = true → reachable maze (mkTile 1 1) t.
Proof.
  destruct (maze_connected (λ _, Game.directions)) as (maze & E & H & _).
  - intros k. reflexivity.
  - exists maze. split; [exact E|exact H].
Defined.

(** ** Agents in the maze *)

Lemma initFlowField_wf : wfFlowField Game.initFlowField.
Proof.
  unfold Game.initFlowField, Game.MAP_WIDTH, Game.MAP_HEIGHT.
  constructor; simpl; try lia; reflexivity.
Qed.

(** On a connected maze carved out of the wall map, the field computed for
    an open target reaches every open tile. *)
Lemma maze_field (maze : TileMap.t) (ff : FlowField.t) (g : TilePosition) :
  carved wallsOnly maze →
  (∀ t, passable maze t = true → ∃ n, walk maze (mkTile 1 1) t n) →
  wfFlowField ff →
  FlowField.cols ff = 50 → FlowField.rows ff = 50 →
  FlowField.target ff ≠ g →
  passable maze g = true →
  ∃ ff', calculateFlowField ff g maze = Some ff'
    ∧ FlowField.target ff' = g
    ∧ ∀ t, passable maze t = true →
      ∃ d, getFlowFieldDistance ff' (x t) (y t) = Some d
         ∧ d < FlowField.MAX_DISTANCE ff'
         ∧ shortestDistance maze t g d
         ∧ (t ≠ g →
            ∃ u, getBestFlowFieldNeighbor ff' t maze = Some u
               ∧ adjacent t u
               ∧ shortestDistance maze u g (d - 1)).
Proof.
  intros Hcv Hconn Hwf Hcols Hrows Hne Hg.
  pose proof Hcv as (Hc & Hr & _).
  destruct (calculateFlowField_computes ff g maze)
    as (ff' & Eff & Htgt & _ & _ & Hmax & Hreach & Hany);
    [done|by rewrite Hc|by rewrite Hr|done|done|].
  exists ff'. split; [done|]. split; [done|]. intros t Ht.
  assert (Hfit : ∀ n, fits maze n).
  { intros n. right. rewrite Hc, Hr. simpl. lia. }
  assert (Hw : ∃ n, walk maze g t n).
  { destruct (Hconn g Hg) as [n Hn]. destruct (Hconn t Ht) as [k Hk].
    assert (Hback : ∃ n', walk maze g (mkTile 1 1) n').
    { apply reachable_walk.
      destruct (proj2 (reachable_walk maze g (mkTile 1 1))) as [p Hp];
        [by exists n|].
      exists (reverse p). by apply connects_reverse. }
    destruct Hback as [n' Hn'].
    exists (n' + k)%nat. by apply walk_trans with (mkTile 1 1). }
  destruct Hw as [n Hw].
  destruct (Hreach t n Hw (Hfit _)) as (d & Hd & Hwd & Hlt & Hmin).
  assert (Hs : shortestDistance maze t g (Z.of_nat d)).
  { apply shortestDistance_walk. rewrite Nat2Z.id. split; [lia|done]. }
  exists (Z.of_nat d). split; [done|]. split; [lia|]. split; [done|].
  intros Hnet.
  by apply (computed_field_step ff' g maze Hmax Hreach Hany t _ Hs (Hfit _)).
Qed.

(** X15.  In the maze [init] builds, whatever open tile the player stands
    on, the flow field [calculateFlowField] computes for that tile - from
    any 50 x 50 field that holds another target - leaves no open tile
    stranded: every open tile holds its shortest distance to the player's
    tile, which is below the sentinel, and at every open tile but the
    player's [getBestFlowFieldNeighbor] proposes a step to a tile one step
    closer. *)
Theorem maze_flow_field_total (order : nat → list (Z * Z)) :
  (∀ k, order k ≡ₚ Game.directions) →
  ∃ maze, Game.initMap order = Some maze
    ∧ ∀ ff g,
      wfFlowField ff →
      FlowField.cols ff = Game.MAP_WIDTH → FlowField.rows ff = Game.MAP_HEIGHT →
      FlowField.target ff ≠ g →
      passable maze g = true →
      ∃ ff', calculateFlowField ff g maze = Some ff'
        ∧ ∀ t, passable maze t = true →
          ∃ d, getFlowFieldDistance ff' (x t) (y t) = Some d
             ∧ d < FlowField.MAX_DISTANCE ff'
             ∧ shortestDistance maze t g d
             ∧ (t ≠ g →
                ∃ u, getBestFlowFieldNeighbor ff' t maze = Some u
                   ∧ adjacent t u
                   ∧ shortestDistance maze u g (d - 1)).
Proof.
  intros Hperm.
  destruct (initMap_spec order Hperm) as (maze & E & Hcv & H11 & Hconn).
  exists maze. split; [done|]. intros ff g Hwf Hcols Hrows Hne Hg.
  destruct (maze_field maze ff g Hcv Hconn Hwf Hcols Hrows Hne Hg)
    as (ff' & Eff & _ & Hall).
  by exists ff'.
Qed.

(** Instance: the sort that leaves the directions as they are, and the
    field [init] allocates. *)
Lemma maze_flow_field_total_witness :
  ∃ maze, Game.initMap (λ _, Game.directions) = Some maze
    ∧ ∀ g, passable maze g = true →
        ∃ ff, calculateFlowField Game.initFlowField g maze = Some ff.
Proof.
  destruct (maze_flow_field_total (λ _, Game.directions)) as (maze & E & H).
  - intros k. reflexivity.
  - exists maze. split; [exact E|]. intros g Hg.
    destruct (H Game.initFlowField g) as (ff & Eff & _).
    + apply initFlowField_wf.
    + reflexivity.
    + reflexivity.
    + intros Heq. rewrite <- Heq in Hg.
      apply passable_valid, isValidTile_spec in Hg. simpl in Hg. lia.
    + exact Hg.
    + exists ff. exact Eff.
Defined.

(** ** Random open tiles *)

Lemma elem_of_scanOrder (t : TilePosition) :
  t ∈ Game.scanOrder ↔ 0 <= x t < 50 ∧ 0 <= y t < 50.
Proof.
  unfold Game.scanOrder. rewrite list_elem_of_bind. split.
  - intros (ry & Ht & Hy). apply list_elem_of_bind in Ht as (rx & Ht & Hx).
    apply list_elem_of_singleton in Ht as ->.
    apply elem_of_seqZ in Hx, Hy. unfold Game.MAP_WIDTH, Game.MAP_HEIGHT in *.
    simpl. lia.
  - intros [Hx Hy]. exists (y t). split.
    + apply list_elem_of_bind. exists (x t). split.
      * destruct t. simpl. by left.
      * apply elem_of_seqZ. unfold Game.MAP_WIDTH. lia.
    + apply elem_of_seqZ. unfold Game.MAP_HEIGHT. lia.
Qed.

Lemma randomAttempts_Some (left : nat) (draw : nat → Z * Z) (map : TileMap.t) :
  ∀ attempts tile,
  Game.randomAttempts left draw attempts map = Some tile →
  TileMap.isSolid map (x tile) (y tile) = false
  ∧ ∃ k, draw k = (x tile, y tile).
Proof.
  induction left as [|left IH]; intros attempts tile; [done|].
  simpl. destruct (draw attempts) as [rx ry] eqn:Hdraw.
  destruct (TileMap.isSolid map rx ry) eqn:Hs; simpl.
  - apply IH.
  - intros [= <-]. split; [done|]. by exists attempts.
Qed.

(** Where an open tile exists, the tile returned is open. *)
Lemma findRandomOpenTile_open (draw : nat → Z * Z) (map : TileMap.t)
    (t : TilePosition) :
  0 <= x t < 50 → 0 <= y t < 50 →
  TileMap.isSolid map (x t) (y t) = false →
  TileMap.isSolid map (x (Game.findRandomOpenTile draw map))
                      (y (Game.findRandomOpenTile draw map)) = false.
Proof.
  intros Hx Hy Hopen. unfold Game.findRandomOpenTile.
  destruct (Game.randomAttempts 1000 draw 0 map) as [tile|] eqn:Hrand.
  - by apply randomAttempts_Some in Hrand as [? _].
  - destruct (list_find _ Game.scanOrder) as [[i tile]|] eqn:Hfind.
    + by apply list_find_Some in Hfind as (_ & ? & _).
    + apply list_find_None in Hfind. rewrite Forall_forall in Hfind.
      exfalso. apply (Hfind t); [|done]. by apply elem_of_scanOrder.
Qed.

(** X16.  The tile [findRandomOpenTile] returns is not solid whenever the
    50 x 50 area holds a tile that is not solid, whatever the random
    numbers; only on a map without such a tile it answers (1, 1).  With
    random coordinates in range the tile lies inside the 50 x 50 area. *)
Theorem random_open_tile_is_open (draw : nat → Z * Z) (map : TileMap.t) :
  ((∃ t, 0 <= x t < 50 ∧ 0 <= y t < 50
        ∧ TileMap.isSolid map (x t) (y t) = false) →
   TileMap.isSolid map (x (Game.findRandomOpenTile draw map))
                       (y (Game.findRandomOpenTile draw map)) = false)
  ∧ ((∀ t, 0 <= x t < 50 → 0 <= y t < 50 →
         TileMap.isSolid map (x t) (y t) = true) →
     (∀ k, TileMap.isSolid map (fst (draw k)) (snd (draw k)) = true) →
     Game.findRandomOpenTile draw map = mkTile 1 1)
  ∧ ((∀ k, 0 <= fst (draw k) < 50 ∧ 0 <= snd (draw k) < 50) →
     0 <= x (Game.findRandomOpenTile draw map) < 50
     ∧ 0 <= y (Game.findRandomOpenTile draw map) < 50).
Proof.
  split.
  { intros (t & Hx & Hy & Hopen). by apply (findRandomOpenTile_open _ _ t). }
  unfold Game.findRandomOpenTile.
  destruct (Game.randomAttempts 1000 draw 0 map) as [tile|] eqn:Hrand.
  - apply randomAttempts_Some in Hrand as [Hopen [k Hk]]. split.
    + intros _ Hall. specialize (Hall k). rewrite Hk in Hall. simpl in Hall.
      congruence.
    + intros Hrange. specialize (Hrange k). by rewrite Hk in Hrange.
  - destruct (list_find _ Game.scanOrder) as [[i tile]|] eqn:Hfind.
    + apply list_find_Some in Hfind as (Hi & Hopen & _).
      apply list_elem_of_lookup_2 in Hi. apply elem_of_scanOrder in Hi.
      split; [|done].
      intros Hall _. rewrite Hall in Hopen by lia. done.
    + split; [done|simpl; lia].
Qed.

(** Instance: the open 50 x 50 map, with every random number zero. *)
Lemma random_open_tile_is_open_witness :
  TileMap.isSolid (openMap 50 50)
    (x (Game.findRandomOpenTile (λ _, (0, 0)) (openMap 50 50)))
    (y (Game.findRandomOpenTile (λ _, (0, 0)) (openMap 50 50))) = false.
Proof.
  destruct (random_open_tile_is_open (λ _, (0, 0)) (openMap 50 50)) as [H _].
  apply H. exists (mkTile 0 0). simpl.
  split; [lia|]. split; [lia|]. reflexivity.
Defined.

(** ** The start of a game *)

(** In a map carved out of the wall map, a position that is not solid is
    inside the map. *)
Lemma carved_open_passable (maze : TileMap.t) (t : TilePosition) :
  carved wallsOnly maze →
  TileMap.isSolid maze (x t) (y t) = false → passable maze t = true.
Proof.
  intros (Hc & Hr & Hd & _) Hs. unfold passable. rewrite Hs.
  destruct (TileMap.isValidTile maze (x t) (y t)) eqn:Hv; [done|].
  exfalso. unfold TileMap.isSolid, TileMap.getTile in Hs.
  unfold TileMap.isValidTile in Hv.
  destruct (Z.ltb_spec (x t) 0), (Z.geb_spec (x t) (TileMap.cols maze)),
    (Z.ltb_spec (y t) 0), (Z.geb_spec (y t) (TileMap.rows maze));
    simpl in Hs; try (rewrite Hd in Hs; by vm_compute in Hs).
  destruct (Z.geb_spec (x t) 0), (Z.ltb_spec (x t) (TileMap.cols maze)),
    (Z.geb_spec (y t) 0), (Z.ltb_spec (y t) (TileMap.rows maze));
    simpl in Hv; try done; lia.
Qed.

(** X17.  However the maze and the spawn tile are drawn, [init] starts the
    game in working order: the tile [findRandomOpenTile] picks for the
    player is an open tile of the maze, the first [calculateFlowField]
    accepts it as target, and the field then holds at every open tile of
    the maze its shortest distance to the player, below the sentinel. *)
Theorem init_flow_field_ready (order : nat → list (Z * Z))
    (draw : nat → Z * Z) :
  (∀ k, order k ≡ₚ Game.directions) →
  ∃ maze ff,
    Game.initMap order = Some maze
    ∧ passable maze (Game.findRandomOpenTile draw maze) = true
    ∧ calculateFlowField Game.initFlowField
        (Game.findRandomOpenTile draw maze) maze = Some ff
    ∧ FlowField.target ff = Game.findRandomOpenTile draw maze
    ∧ ∀ t, passable maze t = true →
        ∃ d, getFlowFieldDistance ff (x t) (y t) = Some d
           ∧ d < FlowField.MAX_DISTANCE ff
           ∧ shortestDistance maze t (Game.findRandomOpenTile draw maze) d.
Proof.
  intros Hperm.
  destruct (initMap_spec order Hperm) as (maze & E & Hcv & H11 & Hconn).
  assert (Hspawn : passable maze (Game.findRandomOpenTile draw maze) = true).
  { apply carved_open_passable; [done|].
    apply (findRandomOpenTile_open draw maze (mkTile 1 1)); simpl; [lia|lia|].
    by apply (passable_not_solid maze (mkTile 1 1)). }
  destruct (maze_field maze Game.initFlowField
              (Game.findRandomOpenTile draw maze) Hcv Hconn)
    as (ff & Eff & Htgt & Hall); [apply initFlowField_wf|done|done| |done|].
  { intros Heq. rewrite <- Heq in Hspawn.
    apply passable_valid, isValidTile_spec in Hspawn. simpl in Hspawn. lia. }
  exists maze, ff. split; [done|]. split; [done|]. split; [done|].
  split; [done|]. intros t Ht.
  destruct (Hall t Ht) as (d & Hd & Hlt & Hs & _). by exists d.
Qed.

(** Instance: the sort that leaves the directions as they are, and random
    numbers that are all zero. *)
Lemma init_flow_field_ready_witness :
  ∃ maze ff,
    Game.initMap (λ _, Game.directions) = Some maze
    ∧ calculateFlowField Game.initFlowField
        (Game.findRandomOpenTile (λ _, (0, 0)) maze) maze = Some ff.
Proof.
  destruct (init_flow_field_ready (λ _, Game.directions) (λ _, (0, 0)))
    as (maze & ff & E & _ & Eff & _).
  - intros k. reflexivity.
  - exists maze, ff. split; [exact E|exact Eff].
Defined.

(** ** A new map *)

(** X18.  On a map as the constructor of [TileMap] builds it, every tile
    inside the map is open and every position outside it is solid: being
    solid is the same as being out of bounds. *)
Theorem new_map_solid_outside (cols rows col row : Z) :
  0 <= cols → 0 <= rows →
  TileMap.isSolid (TileMap.new cols rows) col row
  = negb (TileMap.isValidTile (TileMap.new cols rows) col row)
  ∧ TileMap.getTile (TileMap.new cols rows) col row
    = Some (if TileMap.isValidTile (TileMap.new cols rows) col row
            then 0 else -1).
Proof.
  intros Hc Hr.
  assert (Hget : TileMap.getTile (TileMap.new cols rows) col row
                 = Some (if TileMap.isValidTile (TileMap.new cols rows) col row
                         then 0 else -1)).
  { unfold TileMap.getTile, TileMap.isValidTile. simpl.
    destruct (Z.ltb_spec col 0), (Z.geb_spec col cols), (Z.ltb_spec row 0),
      (Z.geb_spec row rows), (Z.geb_spec col 0), (Z.ltb_spec col cols),
      (Z.geb_spec row 0), (Z.ltb_spec row rows); simpl; try lia; try done.
    apply arrayGet_Some. split; [nia|]. apply lookup_replicate_2. nia. }
  split; [|done].
  unfold TileMap.isSolid. rewrite Hget.
  destruct (TileMap.isValidTile (TileMap.new cols rows) col row); reflexivity.
Qed.

(** Instance: the 50 x 50 map of the game. *)
Lemma new_map_solid_outside_witness :
  TileMap.isSolid (TileMap.new 50 50) 50 0 = true
  ∧ TileMap.isSolid (TileMap.new 50 50) 49 0 = false.
Proof.
  destruct (new_map_solid_outside 50 50 50 0) as [H1 _]; [lia|lia|].
  destruct (new_map_solid_outside 50 50 49 0) as [H2 _]; [lia|lia|].
  split; [exact H1|exact H2].
Defined.

(** ** Tiles and pixels *)

(** X19.  On integer pixel coordinates, [pixelToTile] undoes [tileToPixel]
    and [tileCenterToPixel], and a pixel belongs to the tile whose 32 x 32
    square, corner included, it lies in. *)
Theorem tile_pixel_round_trip (tile : TilePosition) :
  Coords.pixelToTile (Coords.tileToPixel tile).1 (Coords.tileToPixel tile).2
  = tile
  ∧ Coords.pixelToTile (Coords.tileCenterToPixel tile).1
                       (Coords.tileCenterToPixel tile).2 = tile
  ∧ ∀ px py, Coords.pixelToTile px py = tile
             ↔ (Coords.tileToPixel tile).1 <= px
                 < (Coords.tileToPixel tile).1 + TILE_SIZE
               ∧ (Coords.tileToPixel tile).2 <= py
                 < (Coords.tileToPixel tile).2 + TILE_SIZE.
Proof.
  destruct tile as [tx ty].
  unfold Coords.pixelToTile, Coords.tileToPixel, Coords.tileCenterToPixel,
    TILE_SIZE. simpl.
  split; [|split].
  - f_equal; apply Z.div_mul; lia.
  - change (32 / 2) with 16.
    f_equal; symmetry; apply (Z.div_unique _ _ _ 16); lia.
  - intros px py. split.
    + intros [= <- <-].
      pose proof (Z.mul_div_le px 32 ltac:(lia)).
      pose proof (Z.mul_succ_div_gt px 32 ltac:(lia)).
      pose proof (Z.mul_div_le py 32 ltac:(lia)).
      pose proof (Z.mul_succ_div_gt py 32 ltac:(lia)). lia.
    + intros [Hx Hy]. f_equal; symmetry.
      * apply (Z.div_unique _ _ _ (px - tx * 32)); lia.
      * apply (Z.div_unique _ _ _ (py - ty * 32)); lia.
Qed.

(** * Further properties: sessions and the game *)

(** ** One snapshot of the players subtree *)

(** What the first loop of the players listener leaves, from any state. *)
Lemma receivePlayers_spec (self : string) (now : Z)
    (players : list (string * PlayerRecord)) :
  ∀ (remote0 : gmap string RemotePlayer.t) (ids0 : gset string)
    (calls0 : list Callback),
  ∃ (remote : gmap string RemotePlayer.t) (ids : gset string)
    (added : list RemotePlayer.t),
    fold_left (NetworkManager.receivePlayer self now) players
              (remote0, ids0, calls0)
    = (remote, ids, calls0 ++ (RemotePlayerAdded <$> added))
    ∧ (∀ id, id ∈ ids ↔ id ∈ ids0 ∨ (id ∈ players.*1 ∧ id ≠ self))
    ∧ (∀ id, id ∈ players.*1 → id ≠ self →
         ∃ rp, remote !! id = Some rp ∧ RemotePlayer.lastUpdateTime rp = now)
    ∧ (∀ id, ¬ (id ∈ players.*1 ∧ id ≠ self) → remote !! id = remote0 !! id)
    ∧ NoDup (RemotePlayer.playerId <$> added)
    ∧ (∀ id, id ∈ RemotePlayer.playerId <$> added
             ↔ id ∈ players.*1 ∧ id ≠ self ∧ remote0 !! id = None).
Proof.
  induction players as [|[id data] players IH]; intros remote0 ids0 calls0.
  - exists remote0, ids0, []. simpl. rewrite app_nil_r.
    split; [done|]. split.
    { intros id. split; [by left|]. intros [?|[H _]]; [done|].
      by apply elem_of_nil in H. }
    split; [intros id H; by apply elem_of_nil in H|].
    split; [done|]. split; [constructor|].
    intros id. split; [intros H; by apply elem_of_nil in H|].
    intros (H & _). by apply elem_of_nil in H.
  - cbn [fold_left]. unfold NetworkManager.receivePlayer at 2.
    destruct (decide (id = self)) as [->|Hne].
    { destruct (IH remote0 ids0 calls0)
        as (remote & ids & added & E & Hids & Hnow & Hkeep & Hnd & Hadd).
      exists remote, ids, added. split; [done|].
      rewrite fmap_cons. cbn [fst].
      split.
      { intros id. rewrite Hids, elem_of_cons. tauto. }
      split.
      { intros id Hin Hns. apply elem_of_cons in Hin as [->|Hin]; [done|].
        by apply Hnow. }
      split.
      { intros id Hno. apply Hkeep. intros [Hin Hns]. apply Hno.
        split; [by right|done]. }
      split; [done|].
      intros id. rewrite Hadd, elem_of_cons. tauto. }
    destruct (remote0 !! id) as [rp0|] eqn:Hold.
    + destruct (IH (<[id := RemotePlayer.updateFromNetwork
                              (mkRemoteState (rec_x data) (rec_y data)
                                 (rec_health data)
                                 (stringOr (rec_currentAnim data) "idle_down")
                                 (numberOr (rec_facingX data) 0)
                                 (numberOr (rec_facingY data) 1) now)
                              now rp0]> remote0)
                    (ids0 ∪ {[id]}) calls0)
        as (remote & ids & added & E & Hids & Hnow & Hkeep & Hnd & Hadd).
      exists remote, ids, added. split; [done|].
      rewrite fmap_cons. cbn [fst].
      split.
      { intros id'. rewrite Hids, elem_of_union, elem_of_singleton, elem_of_cons.
        split.
        - intros [[?| ->]|[? ?]]; [by left|right; split; [by left|done]|].
          right. split; [by right|done].
        - intros [?|[[->|?] ?]]; [by left; left|by left; right|by right]. }
      split.
      { intros id' Hin Hns.
        destruct (decide (id' ∈ players.*1)) as [Hin'|Hnin]; [by apply Hnow|].
        apply elem_of_cons in Hin as [->|Hin]; [|done].
        rewrite Hkeep by tauto. rewrite lookup_insert_eq. by eexists. }
      split.
      { intros id' Hno. rewrite Hkeep.
        - apply lookup_insert_ne. intros <-. apply Hno. split; [by left|done].
        - intros [Hin Hns]. apply Hno. split; [by right|done]. }
      split; [done|].
      intros id'. rewrite Hadd, elem_of_cons. split.
      * intros (Hin & Hns & Hnone). split; [by right|]. split; [done|].
        destruct (decide (id' = id)) as [->|Hd].
        -- by rewrite lookup_insert_eq in Hnone.
        -- by rewrite lookup_insert_ne in Hnone.
      * intros ([->|Hin] & Hns & Hnone); [congruence|].
        split; [done|]. split; [done|].
        rewrite lookup_insert_ne; [done|]. intros <-. congruence.
    + destruct (IH (<[id := RemotePlayer.new id (rec_x data) (rec_y data) now]>
                      remote0)
                    (ids0 ∪ {[id]})
                    (calls0 ++ [RemotePlayerAdded
                                  (RemotePlayer.new id (rec_x data) (rec_y data)
                                                    now)]))
        as (remote & ids & added & E & Hids & Hnow & Hkeep & Hnd & Hadd).
      exists remote, ids,
        (RemotePlayer.new id (rec_x data) (rec_y data) now :: added).
      split.
      { rewrite E. f_equal. rewrite fmap_cons, <- app_assoc. done. }
      rewrite !fmap_cons. cbn [fst].
      split.
      { intros id'. rewrite Hids, elem_of_union, elem_of_singleton, elem_of_cons.
        split.
        - intros [[?| ->]|[? ?]]; [by left|right; split; [by left|done]|].
          right. split; [by right|done].
        - intros [?|[[->|?] ?]]; [by left; left|by left; right|by right]. }
      split.
      { intros id' Hin Hns.
        destruct (decide (id' ∈ players.*1)) as [Hin'|Hnin]; [by apply Hnow|].
        apply elem_of_cons in Hin as [->|Hin]; [|done].
        rewrite Hkeep by tauto. rewrite lookup_insert_eq. by eexists. }
      split.
      { intros id' Hno. rewrite Hkeep.
        - apply lookup_insert_ne. intros <-. apply Hno. split; [by left|done].
        - intros [Hin Hns]. apply Hno. split; [by right|done]. }
      split.
      { constructor; [|done]. cbn [RemotePlayer.new RemotePlayer.playerId].
        intros Hin. apply Hadd in Hin as (_ & _ & Hnone).
        by rewrite lookup_insert_eq in Hnone. }
      cbn [RemotePlayer.new RemotePlayer.playerId].
      intros id'. rewrite !elem_of_cons, Hadd. split.
      * intros [->|(Hin & Hns & Hnone)]; [by split; [left|]|].
        split; [by right|]. split; [done|].
        destruct (decide (id' = id)) as [->|Hd]; [done|].
        by rewrite lookup_insert_ne in Hnone.
      * intros ([->|Hin] & Hns & Hnone); [by left|].
        destruct (decide (id' = id)) as [->|Hd]; [by left|].
        right. split; [done|]. split; [done|].
        by rewrite lookup_insert_ne.
Qed.

(** The listener on one existing snapshot, in terms of the loop. *)
Lemma playersListener_spec (now : Z) (players : list (string * PlayerRecord))
    (this : NetworkManager.t) :
  ∃ (remote : gmap string RemotePlayer.t) (ids : gset string)
    (added : list RemotePlayer.t),
    NetworkManager.playersListener now (Some players) this
    = (NetworkManager.mk (NetworkManager.roomId this)
         (NetworkManager.playerId this) (NetworkManager.isHost this)
         (NetworkManager.lastPositionUpdate this)
         (NetworkManager.lastEnemyUpdate this)
         (filter (λ kv, kv.1 ∈ ids) remote) (NetworkManager.listeners this),
       (RemotePlayerAdded <$> added)
       ++ (RemotePlayerRemoved
           <$> filter (λ id, id ∉ ids) (map_to_list remote).*1))
    ∧ (∀ id, id ∈ ids ↔ id ∈ players.*1 ∧ id ≠ NetworkManager.playerId this)
    ∧ (∀ id, id ∈ ids →
         ∃ rp, remote !! id = Some rp ∧ RemotePlayer.lastUpdateTime rp = now)
    ∧ (∀ id, id ∉ ids →
         remote !! id = NetworkManager.remotePlayers this !! id)
    ∧ NoDup (RemotePlayer.playerId <$> added)
    ∧ (∀ id, id ∈ RemotePlayer.playerId <$> added
             ↔ id ∈ ids ∧ NetworkManager.remotePlayers this !! id = None).
Proof.
  destruct (receivePlayers_spec (NetworkManager.playerId this) now players
              (NetworkManager.remotePlayers this) ∅ [])
    as (remote & ids & added & E & Hids & Hnow & Hkeep & Hnd & Hadd).
  exists remote, ids, added.
  assert (Hids' : ∀ id, id ∈ ids
            ↔ id ∈ players.*1 ∧ id ≠ NetworkManager.playerId this).
  { intros id. rewrite Hids. split; [|by right].
    intros [H|H]; [by apply not_elem_of_empty in H|done]. }
  split.
  { unfold NetworkManager.playersListener. rewrite E. done. }
  split; [done|]. split.
  { intros id Hin. apply Hids' in Hin as [? ?]. by apply Hnow. }
  split.
  { intros id Hnin. apply Hkeep. intros H. by apply Hnin, Hids'. }
  split; [done|].
  intros id. rewrite Hadd, Hids'. tauto.
Qed.

(** X20.  After the players listener has processed a snapshot that exists,
    the manager's map of remote players holds exactly the ids of the
    snapshot other than the own id - players absent from the snapshot are
    dropped, players new in it are added - and every player in it was
    touched at the time of the snapshot, so none is stale for the next
    3000 ms. *)
Theorem players_snapshot_roster (now : Z)
    (players : list (string * PlayerRecord)) (this : NetworkManager.t) :
  let this' := (NetworkManager.playersListener now (Some players) this).1 in
  (∀ id, is_Some (NetworkManager.remotePlayers this' !! id)
         ↔ id ∈ players.*1 ∧ id ≠ NetworkManager.playerId this)
  ∧ (∀ id rp, NetworkManager.remotePlayers this' !! id = Some rp →
       RemotePlayer.lastUpdateTime rp = now
       ∧ ∀ later, later <= now + 3000 → RemotePlayer.isStale later rp = false).
Proof.
  destruct (playersListener_spec now players this)
    as (remote & ids & added & E & Hids & Hnow & _).
  rewrite E. cbn [fst NetworkManager.remotePlayers]. split.
  - intros id. rewrite <- Hids. unfold is_Some. split.
    + intros [rp Hrp]. by apply map_lookup_filter_Some in Hrp as [_ ?].
    + intros Hin. destruct (Hnow id Hin) as (rp & Hrp & _).
      exists rp. by apply map_lookup_filter_Some.
  - intros id rp Hrp. apply map_lookup_filter_Some in Hrp as [Hrp Hin].
    simpl in Hin. destruct (Hnow id Hin) as (rp' & Hrp' & Ht).
    assert (rp' = rp) as -> by congruence.
    split; [done|]. intros later Hl. unfold RemotePlayer.isStale.
    rewrite Ht. unfold RemotePlayer.STALE_THRESHOLD.
    apply Z.ltb_ge. lia.
Qed.

(** ** The game's list of remote players *)

Lemma onCallback_added (added l : list RemotePlayer.t) :
  fold_left Game.onCallback (RemotePlayerAdded <$> added) l = l ++ added.
Proof.
  revert l. induction added as [|p added IH]; intros l; simpl.
  - by rewrite app_nil_r.
  - rewrite IH, <- app_assoc. done.
Qed.

Lemma filter_all {A} (P : A → Prop) `{!∀ a, Decision (P a)} (l : list A) :
  (∀ a, P a) → filter P l = l.
Proof.
  intros HP. induction l as [|a l IH]; [done|].
  by rewrite filter_cons_True, IH.
Qed.

Lemma onCallback_removed (gone : list string) (l : list RemotePlayer.t) :
  fold_left Game.onCallback (RemotePlayerRemoved <$> gone) l
  = filter (λ p, RemotePlayer.playerId p ∉ gone) l.
Proof.
  revert l. induction gone as [|id gone IH]; intros l; simpl.
  - symmetry. apply filter_all. intros p H. by apply elem_of_nil in H.
  - rewrite IH. rewrite list_filter_filter. apply list_filter_iff.
    intros p. rewrite not_elem_of_cons. tauto.
Qed.

(** X21.  The callbacks the game registers keep its list of remote players
    in step with the manager's map: if the list held exactly the players
    of the map, each once, before a snapshot of the players subtree is
    processed, it does so again after the callbacks of that snapshot have
    run. *)
Theorem remote_player_list_mirrors (now : Z)
    (snapshot : option (list (string * PlayerRecord)))
    (this : NetworkManager.t) (shown : list RemotePlayer.t) :
  mirrors (NetworkManager.remotePlayers this) shown →
  mirrors
    (NetworkManager.remotePlayers
       (NetworkManager.playersListener now snapshot this).1)
    (fold_left Game.onCallback
       (NetworkManager.playersListener now snapshot this).2 shown).
Proof.
  intros [Hnd Hsame]. destruct snapshot as [players|]; [|done].
  destruct (playersListener_spec now players this)
    as (remote & ids & added & E & Hids & Hnow & Hkeep & Hnda & Hadd).
  rewrite E. cbn [fst snd NetworkManager.remotePlayers].
  rewrite fold_left_app, onCallback_added, onCallback_removed.
  assert (Hgone : ∀ id,
            id ∈ filter (λ id, id ∉ ids) (map_to_list remote).*1
            ↔ is_Some (remote !! id) ∧ id ∉ ids).
  { intros id. rewrite list_elem_of_filter, list_elem_of_fmap. split.
    - intros [Hn ([k rp] & -> & Hin)]. apply elem_of_map_to_list in Hin.
      split; [by exists rp|done].
    - intros [[rp Hrp] Hn]. split; [done|]. exists (id, rp).
      split; [done|]. by apply elem_of_map_to_list. }
  assert (Hkept : ∀ id, is_Some (NetworkManager.remotePlayers this !! id) →
            is_Some (remote !! id)).
  { intros id Hs. destruct (decide (id ∈ ids)) as [Hin|Hnin].
    - destruct (Hnow id Hin) as (rp & Hrp & _). by exists rp.
    - by rewrite Hkeep. }
  split.
  - apply (sublist_NoDup _ (RemotePlayer.playerId <$> shown ++ added)).
    + rewrite fmap_app. apply NoDup_app. split; [done|]. split; [|done].
      intros id Hin Hin'. apply Hsame in Hin as [rp Hrp].
      apply Hadd in Hin' as [_ Hnone]. congruence.
    + apply fmap_sublist, sublist_filter.
  - intros id. rewrite list_elem_of_fmap. split.
    + intros (p & -> & Hp). apply list_elem_of_filter in Hp as [Hng Hp].
      rewrite Hgone in Hng.
      assert (Hs : is_Some (remote !! RemotePlayer.playerId p)
                   ∧ (is_Some (remote !! RemotePlayer.playerId p) →
                      RemotePlayer.playerId p ∈ ids)).
      { apply elem_of_app in Hp as [Hp|Hp].
        - assert (Hs : is_Some (remote !! RemotePlayer.playerId p)).
          { apply Hkept, Hsame, list_elem_of_fmap. by exists p. }
          split; [done|]. intros _.
          destruct (decide (RemotePlayer.playerId p ∈ ids)); [done|].
          exfalso. by apply Hng.
        - assert (Hin : RemotePlayer.playerId p ∈ ids).
          { apply (Hadd (RemotePlayer.playerId p)), list_elem_of_fmap.
            by exists p. }
          split; [|done]. destruct (Hnow _ Hin) as (rp & Hrp & _).
          by exists rp. }
      destruct Hs as [[rp Hrp] Hin]. exists rp.
      apply map_lookup_filter_Some. split; [done|]. apply Hin. by exists rp.
    + intros [rp Hrp]. apply map_lookup_filter_Some in Hrp as [Hrp Hin].
      simpl in Hin.
      assert (Hsrc : id ∈ RemotePlayer.playerId <$> shown ++ added).
      { rewrite fmap_app, elem_of_app.
        destruct (NetworkManager.remotePlayers this !! id) as [rp0|] eqn:H0.
        - left. apply Hsame. by exists rp0.
        - right. by apply Hadd. }
      apply list_elem_of_fmap in Hsrc as (p & -> & Hp).
      exists p. split; [done|]. apply list_elem_of_filter. split; [|done].
      rewrite Hgone. tauto.
Qed.

(** Instance: a fresh manager and an empty list, on a snapshot with one
    other player. *)
Lemma remote_player_list_mirrors_witness :
  mirrors
    (NetworkManager.remotePlayers
       (NetworkManager.playersListener 0
          (Some [("b", mkPlayerRecord "b" 0 0 100 "idle_down" 0 1)])
          (NetworkManager.new "room" "a")).1)
    (fold_left Game.onCallback
       (NetworkManager.playersListener 0
          (Some [("b", mkPlayerRecord "b" 0 0 100 "idle_down" 0 1)])
          (NetworkManager.new "room" "a")).2 []).
Proof.
  apply remote_player_list_mirrors.
  split; [constructor|]. intros id. simpl. split.
  - intros H. by apply elem_of_nil in H.
  - intros [rp H]. by rewrite lookup_empty in H.
Defined.

(** ** Who publishes the enemies *)

Lemma writes_cons (a : Action) (rest : list Action) (nm : NetworkManager.t) :
  writes (a :: rest) nm = (act a nm).1.2 ++ writes rest (act a nm).1.1.
Proof. done. Qed.

Lemma act_enemies_host (a : Action) (nm : NetworkManager.t)
    (states : list EnemyState) :
  SetEnemies states ∈ (act a nm).1.2 → NetworkManager.isHost nm = true.
Proof.
  destruct a as [snapshot|now snapshot|now player|now enemies|snapshot
                 |px py dx dy| |now snapshot|]; simpl.
  - unfold NetworkManager.joinRoom. simpl.
    rewrite !elem_of_cons, elem_of_nil. by intros [?|[?|?]].
  - destruct (NetworkManager.playersListener now snapshot nm). simpl.
    intros H. by apply elem_of_nil in H.
  - unfold NetworkManager.updatePlayer. destruct (_ <? _); simpl.
    + intros H. by apply elem_of_nil in H.
    + rewrite elem_of_cons, elem_of_nil. by intros [?|?].
  - unfold NetworkManager.updateEnemies.
    destruct (NetworkManager.isHost nm); [done|]. simpl.
    intros H. by apply elem_of_nil in H.
  - intros H. by apply elem_of_nil in H.
  - unfold NetworkManager.sendProjectile.
    rewrite elem_of_cons, elem_of_nil. by intros [?|?].
  - intros H. by apply elem_of_nil in H.
  - intros H. by apply elem_of_nil in H.
  - rewrite elem_of_cons, elem_of_nil. by intros [?|?].
Qed.

(** X22.  Only the host publishes enemies: over any sequence of calls and
    snapshots that does not join again, a session whose [isHost] is false
    never writes the enemies subtree, and [getIsHost] answers the same
    before and after. *)
Theorem observer_never_publishes_enemies (actions : list Action)
    (nm : NetworkManager.t) :
  NetworkManager.getIsHost nm = false →
  (∀ a, a ∈ actions → isJoin a = false) →
  (∀ states, SetEnemies states ∉ writes actions nm)
  ∧ NetworkManager.getIsHost (run actions nm) = false.
Proof.
  unfold NetworkManager.getIsHost.
  revert nm. induction actions as [|a actions IH]; intros nm Hobs Hno.
  - split; [|done]. intros states H. by apply elem_of_nil in H.
  - assert (Ha : isJoin a = false) by (apply Hno; by left).
    pose proof (act_isHost a nm Ha) as Hkeep.
    destruct (IH (act a nm).1.1) as [Hw Hh].
    + by rewrite Hkeep.
    + intros a' Ha'. apply Hno. by right.
    + split; [|exact Hh].
      intros states Hin. rewrite writes_cons in Hin.
      apply elem_of_app in Hin as [Hin|Hin].
      * apply act_enemies_host in Hin. congruence.
      * by apply (Hw states).
Qed.

(** Instance: a session that joined an occupied room, asked to publish an
    enemy well after the throttle interval. *)
Lemma observer_never_publishes_enemies_witness :
  writes [UpdateEnemies 1000 [Enemy.mk 0 0 100 false]]
    (NetworkManager.joinRoom
       (Some {["a" := mkPlayerRecord "a" 0 0 100 "idle_down" 0 1]})
       (NetworkManager.new "room" "b")).1 = []
  ∧ NetworkManager.getIsHost
      (run [UpdateEnemies 1000 [Enemy.mk 0 0 100 false]]
         (NetworkManager.joinRoom
            (Some {["a" := mkPlayerRecord "a" 0 0 100 "idle_down" 0 1]})
            (NetworkManager.new "room" "b")).1) = false.
Proof.
  split; [reflexivity|].
  apply (observer_never_publishes_enemies
           [UpdateEnemies 1000 [Enemy.mk 0 0 100 false]]).
  - reflexivity.
  - intros a Ha. apply list_elem_of_singleton in Ha. subst a. reflexivity.
Defined.

(** ** When the host leaves *)

Lemma delete_insert_other (id1 id2 : string) (r1 r2 : PlayerRecord) :
  id1 ≠ id2 →
  bool_decide
    (size (delete id1 (<[id2 := r2]> (<[id1 := r1]> (∅ : gmap string PlayerRecord))))
     = 0%nat) = false.
Proof.
  intros Hne. apply bool_decide_eq_false. intros H.
  apply map_size_empty_iff in H.
  assert (Hl : delete id1 (<[id2 := r2]> (<[id1 := r1]> (∅ : gmap string PlayerRecord)))
               !! id2 = Some r2).
  { rewrite lookup_delete_ne by done. apply lookup_insert_eq. }
  by rewrite H in Hl.
Qed.

(** X23.  There is no failover.  When the host leaves a room in which an
    observer remains, the observer stays observer and a session joining
    afterwards becomes observer too: the room is left without a host.
    And when the host leaves an otherwise empty room, the next session to
    join becomes host while the departed session still answers that it is
    the host. *)
Theorem host_departure (tree : option (gmap string PlayerRecord))
    (s1 s2 s3 : NetworkManager.t) :
  tree = None ∨ tree = Some ∅ →
  (NetworkManager.playerId s1 ≠ NetworkManager.playerId s2 →
   NetworkManager.getIsHost
   <$> sessions
         (worldRun [(0%nat, Join); (1%nat, Join); (0%nat, Do LeaveRoom);
                    (2%nat, Join)]
            (mkWorld tree [s1; s2; s3]))
   = [true; false; false])
  ∧ NetworkManager.getIsHost
    <$> sessions
          (worldRun [(0%nat, Join); (0%nat, Do LeaveRoom); (1%nat, Join)]
             (mkWorld tree [s1; s2]))
    = [true; true].
Proof.
  intros Htree.
  assert (Hfirst : match tree with
                   | None => true
                   | Some players => bool_decide (size players = 0%nat)
                   end = true).
  { destruct Htree as [-> | ->]; [done|]. by rewrite map_size_empty. }
  assert (Hdef : default ∅ tree = (∅ : gmap string PlayerRecord)).
  { by destruct Htree as [-> | ->]. }
  split.
  - intros Hne. unfold worldRun. simpl. rewrite Hfirst. simpl.
    rewrite Hdef, !insert_size_nonzero. simpl.
    rewrite !(delete_insert_other _ _ _ _ Hne). done.
  - unfold worldRun. simpl. rewrite Hfirst. simpl. rewrite Hdef.
    rewrite delete_insert_eq, delete_empty, map_size_empty. simpl. done.
Qed.

(** Instance: fresh sessions "a", "b" and "c" on the absent room. *)
Lemma host_departure_witness :
  NetworkManager.getIsHost
  <$> sessions
        (worldRun [(0%nat, Join); (1%nat, Join); (0%nat, Do LeaveRoom);
                   (2%nat, Join)]
           (mkWorld None [NetworkManager.new "room" "a";
                          NetworkManager.new "room" "b";
                          NetworkManager.new "room" "c"]))
  = [true; false; false].
Proof.
  destruct (host_departure None (NetworkManager.new "room" "a")
              (NetworkManager.new "room" "b") (NetworkManager.new "room" "c"))
    as [H _].
  - left. reflexivity.
  - apply H. simpl. intros [=].
Defined.

(** ** Enemies from host to observer *)

Lemma syncEnemies_fold (states : list EnemyState) :
  ∀ (j : nat) (done rest : list Enemy.t),
  length done = j →
  fold_left
    (λ npcs entry,
       if bool_decide (fst entry < length npcs)%nat
       then <[fst entry := Game.syncEnemy (snd entry)]> npcs
       else npcs ++ [Game.syncEnemy (snd entry)])
    (imap (λ i s, ((j + i)%nat, s)) states)
    (done ++ rest)
  = done ++ (Game.syncEnemy <$> states) ++ drop (length states) rest.
Proof.
  induction states as [|s states IH]; intros j done rest Hlen.
  - simpl. by rewrite drop_0.
  - rewrite imap_cons. cbn [fold_left fst snd].
    rewrite Nat.add_0_r.
    rewrite (imap_ext _ (λ i s, ((S j + i)%nat, s)))
      by (intros i a _; simpl; f_equal; lia).
    destruct rest as [|e rest].
    + rewrite app_nil_r.
      rewrite bool_decide_eq_false_2 by lia.
      rewrite <- (app_nil_r (done ++ [Game.syncEnemy s])).
      rewrite IH by (rewrite length_app; simpl; lia).
      assert (Hnil : ∀ n, drop n (@nil Enemy.t) = []) by (by intros []).
      rewrite !Hnil, <- app_assoc. done.
    + rewrite bool_decide_eq_true_2 by (rewrite length_app; simpl; lia).
      rewrite <- Hlen, insert_app_r_alt, Nat.sub_diag by lia. simpl.
      rewrite (cons_middle (Game.syncEnemy s) done rest), app_assoc.
      change (λ (i : nat) (s0 : EnemyState), (S (length done + i), s0))
        with (λ (i : nat) (s0 : EnemyState), ((S (length done) + i)%nat, s0)).
      rewrite IH by (rewrite length_app; simpl; lia).
      by rewrite <- app_assoc.
Qed.

Lemma syncEnemies_map (states : list EnemyState) (npcs : list Enemy.t) :
  Game.syncEnemiesFromNetwork states npcs = Game.syncEnemy <$> states.
Proof.
  unfold Game.syncEnemiesFromNetwork.
  pose proof (syncEnemies_fold states 0 [] (take (length states) npcs) eq_refl)
    as H.
  rewrite drop_ge, app_nil_r in H by (rewrite length_take; lia).
  exact H.
Qed.

(** X24.  What the host publishes is what an observer ends up with: when
    the host's [updateEnemies] passes the throttle, it writes one state per
    enemy that is alive or dying, in order; handed to an observer's
    [syncEnemiesFromNetwork], these states leave the observer's list with
    exactly one enemy per such enemy of the host, in the same order -
    whatever the list held before - each with the host's health and dying
    flag and with the host's position as [quantizePosition] sends it, which
    for a finite coordinate [x] of magnitude at most 2^1000 lies within
    1/20 + |x|/2^51 of [x]. *)
Theorem enemies_reach_observer (now : Z) (enemies npcs : list Enemy.t)
    (host : NetworkManager.t) :
  NetworkManager.isHost host = true →
  NetworkManager.ENEMY_UPDATE_INTERVAL
  <= now - NetworkManager.lastEnemyUpdate host →
  ∃ host' states,
    NetworkManager.updateEnemies now enemies host = (host', [SetEnemies states])
    ∧ Forall2
        (λ e o,
           Enemy.x o = quantizePosition (Enemy.x e)
           ∧ Enemy.y o = quantizePosition (Enemy.y e)
           ∧ keptWithin (1 # 20)%Q (Enemy.x e) (Enemy.x o)
           ∧ keptWithin (1 # 20)%Q (Enemy.y e) (Enemy.y o)
           ∧ Enemy.health o = Enemy.health e
           ∧ Enemy.isDying o = Enemy.isDying e)
        (filter (λ e, PrimFloat.ltb 0 (Enemy.health e)
                      || Enemy.isDying e = true) enemies)
        (Game.syncEnemiesFromNetwork states npcs).
Proof.
  intros Hhost Hdue. unfold NetworkManager.updateEnemies.
  rewrite Hhost. cbn [negb].
  destruct (Z.ltb_spec (now - NetworkManager.lastEnemyUpdate host)
              NetworkManager.ENEMY_UPDATE_INTERVAL); [lia|].
  eexists _, _. split; [reflexivity|].
  rewrite syncEnemies_map, <- list_fmap_compose.
  apply Forall2_fmap_r, Forall_Forall2_diag, Forall_forall.
  intros e _. cbn.
  repeat split; apply quantizePosition_kept.
Qed.

(** Instance: a host with one living and one dead enemy, and an observer
    that held three enemies. *)
Lemma enemies_reach_observer_witness :
  ∃ host' states,
    NetworkManager.updateEnemies 1000
      [Enemy.mk 1 2 100 false; Enemy.mk 3 4 0 false]
      (NetworkManager.joinRoom None (NetworkManager.new "room" "a")).1
    = (host', [SetEnemies states])
    ∧ length (Game.syncEnemiesFromNetwork states
                [Enemy.mk 0 0 1 false; Enemy.mk 0 0 1 false;
                 Enemy.mk 0 0 1 false]) = 1%nat.
Proof.
  destruct (enemies_reach_observer 1000
              [Enemy.mk 1 2 100 false; Enemy.mk 3 4 0 false]
              [Enemy.mk 0 0 1 false; Enemy.mk 0 0 1 false; Enemy.mk 0 0 1 false]
              (NetworkManager.joinRoom None (NetworkManager.new "room" "a")).1)
    as (host' & states & E & Hsync).
  - reflexivity.
  - vm_compute. intros [=].
  - exists host', states. split; [exact E|].
    rewrite <- (Forall2_length _ _ _ Hsync). vm_compute. reflexivity.
Defined.
